(** * Hjson-TS: a shallow embedding of the parser, the comment
      extractor/merger and the stringifier, and the properties checked
      against the specification.

    Source files embedded here:
    - [hjson-common.ts]   (number lexer, comment helpers)
    - [hjson-dsf.ts]      (hook loader)
    - [hjson-parse.ts]    (recursive-descent parser)
    - [hjson-comments.ts] (extract / merge)
    - [hjson-stringify.ts], [hjson.ts] (stringifier, round-trip entry points)

    Conventions.
    - A JavaScript string is the list of its UTF-16 code units ([jstr]).
    - The one-character-or-empty register [ch] of the parser is an
      [option char]: [None] is the empty string returned by [charAt] past
      the end of the text.
    - Integers the code computes with ([at], [col], [line], indices) are [Z].
    - A [number] is a decimal that stands for the binary64 value nearest to
      it; overflow to infinity and underflow to zero are modelled, the
      rounding in between is not (see [number]). *)

From Stdlib Require Import List NArith ZArith Bool Ascii String Lia.
From Stdlib Require DecimalString DecimalFacts DecimalPos DecimalN.
Import ListNotations.

Set Implicit Arguments.
Set Warnings "-register-all".

(* ================================================================== *)
(** * JavaScript strings *)
(* ================================================================== *)

Module Js.

Definition char := N.
Definition jstr := list char.

Definition chr (a : ascii) : char := N_of_ascii a.
Definition lit (s : string) : jstr := map N_of_ascii (list_ascii_of_string s).

(** [c === 'a'] for a one-character string [c]. *)
Definition isc (a : ascii) (c : char) : bool := N.eqb c (chr a).

Fixpoint jeqb (s t : jstr) : bool :=
  match s, t with
  | [], [] => true
  | c :: s', d :: t' => N.eqb c d && jeqb s' t'
  | _, _ => false
  end.

(** [!!s] : a string is truthy when it is not empty. *)
Definition truthy (s : jstr) : bool :=
  match s with [] => false | _ => true end.

(** Relational comparison of strings, by code units ([s < t]). *)
Fixpoint jltb (s t : jstr) : bool :=
  match s, t with
  | _, [] => false
  | [], _ :: _ => true
  | c :: s', d :: t' => N.ltb c d || (N.eqb c d && jltb s' t')
  end.

(** The characters matched by [\s] and removed by [trim]: WhiteSpace and
    LineTerminator of ECMAScript. *)
Definition is_ws (c : char) : bool :=
  ((9 <=? c) && (c <=? 13) || (c =? 32) || (c =? 160) || (c =? 5760)
   || ((8192 <=? c) && (c <=? 8202)) || (c =? 8232) || (c =? 8233)
   || (c =? 8239) || (c =? 8287) || (c =? 12288) || (c =? 65279))%N.

(** The characters [.] does not match: line terminators. *)
Definition is_line_terminator (c : char) : bool :=
  ((c =? 10) || (c =? 13) || (c =? 8232) || (c =? 8233))%N.

Fixpoint trimStart (s : jstr) : jstr :=
  match s with
  | c :: s' => if is_ws c then trimStart s' else s
  | [] => []
  end.

Definition trimEnd (s : jstr) : jstr := List.rev (trimStart (List.rev s)).
Definition trim (s : jstr) : jstr := trimEnd (trimStart s).

Fixpoint starts_with (p s : jstr) : bool :=
  match p, s with
  | [], _ => true
  | c :: p', d :: s' => N.eqb c d && starts_with p' s'
  | _ :: _, [] => false
  end.

(** [s.includes(p)], [s.indexOf(p) >= 0]. *)
Fixpoint includes (p s : jstr) : bool :=
  starts_with p s || match s with [] => false | _ :: s' => includes p s' end.

(** [s.indexOf(c)] for a one-character [c]; [-1] when absent. *)
Fixpoint indexOf_from (c : char) (s : jstr) (i : Z) : Z :=
  match s with
  | [] => (-1)%Z
  | d :: s' => if N.eqb c d then i else indexOf_from c s' (i + 1)%Z
  end.
Definition indexOf (c : char) (s : jstr) : Z := indexOf_from c s 0.

Definition len (s : jstr) : Z := Z.of_nat (List.length s).

(** [s.charAt(i)]: the empty string ([None]) out of range.  [s[i]] is
    [undefined] out of range; both are falsy and differ from every
    character, and the code only compares them with characters. *)
Definition charAt (s : jstr) (i : Z) : option char :=
  if (i <? 0)%Z then None else nth_error s (Z.to_nat i).

(** [s.substr(start, length)]. *)
Definition substr (s : jstr) (start length : Z) : jstr :=
  let size := len s in
  let st := if (start <? 0)%Z then Z.max (size + start) 0
            else Z.min start size in
  let ln := Z.min (Z.max length 0) (size - st) in
  firstn (Z.to_nat ln) (skipn (Z.to_nat st) s).

(** [s.substr(start)]. *)
Definition substr_from (s : jstr) (start : Z) : jstr :=
  substr s start (len s).

(** [s.slice(-n)] and [s.slice(0, -1)], [s.slice(1, -1)]. *)
Definition slice_last (n : nat) (s : jstr) : jstr :=
  skipn (List.length s - n) s.
Definition slice_but_last (s : jstr) : jstr := removelast s.
Definition slice_inner (s : jstr) : jstr := removelast (tl s).

(** [s.split('\n')]: never empty. *)
Fixpoint split_on (c : char) (s : jstr) : list jstr :=
  match s with
  | [] => [[]]
  | d :: s' =>
      if N.eqb c d then [] :: split_on c s'
      else match split_on c s' with
           | l :: ls => (d :: l) :: ls
           | [] => [[d]]
           end
  end.

(** [l.join(sep)]. *)
Fixpoint join (sep : jstr) (l : list jstr) : jstr :=
  match l with
  | [] => []
  | [x] => x
  | x :: l' => x ++ sep ++ join sep l'
  end.

(** [s.replace(/c/g, by)] for a one-character pattern. *)
Fixpoint replace_all (c : char) (by_ : jstr) (s : jstr) : jstr :=
  match s with
  | [] => []
  | d :: s' => if N.eqb c d then by_ ++ replace_all c by_ s'
               else d :: replace_all c by_ s'
  end.

(** [s.replace("c", by)] with a string pattern: the first occurrence only. *)
Fixpoint replace_first (c : char) (by_ : jstr) (s : jstr) : jstr :=
  match s with
  | [] => []
  | d :: s' => if N.eqb c d then by_ ++ s' else d :: replace_first c by_ s'
  end.

(** [s.repeat(n)]. *)
Fixpoint repeat_str (s : jstr) (n : nat) : jstr :=
  match n with O => [] | S k => s ++ repeat_str s k end.

(** Decimal spelling of a non-negative integer (string concatenation with
    an integer-valued number). *)
Definition dec_of_N (n : N) : jstr :=
  lit (DecimalString.NilEmpty.string_of_uint (N.to_uint n)).
Definition dec_of_Z (z : Z) : jstr :=
  match z with
  | Zneg p => chr "-" :: dec_of_N (Npos p)
  | _ => match Z.to_N z with
         | N0 => lit "0"
         | n => dec_of_N n
         end
  end.

Definition hex_digit (n : N) : char :=
  (if n <? 10 then 48 + n else 87 + n)%N.

(** [('0000' + c.charCodeAt(0).toString(16)).slice(-4)]. *)
Definition hex4 (c : char) : jstr :=
  [hex_digit ((c / 4096) mod 16); hex_digit ((c / 256) mod 16);
   hex_digit ((c / 16) mod 16); hex_digit (c mod 16)]%N.

Definition is_digit (c : char) : bool := ((48 <=? c) && (c <=? 57))%N.

(** The double quote. *)
Definition DQ : char := 34%N.
Definition dq : jstr := [DQ].
Definition is_dq (c : char) : bool := N.eqb c DQ.

Definition NL : char := 10%N.
Definition CR : char := 13%N.
Definition nl : jstr := [NL].
Definition is_nl (c : char) : bool := N.eqb c NL.
Definition is_cr (c : char) : bool := N.eqb c CR.

(** ** Numbers

    A finite number is kept as the decimal [(-1)^neg * m * 10^e], normalised
    ([m] not a multiple of ten, and [e = 0] when [m = 0]), and stands for the
    binary64 value nearest to it.  A decimal at or above the largest binary64
    value plus half a unit in its last place becomes infinity, one at or below
    half the smallest binary64 value becomes zero ([to_binary64]).  Inside
    that range the rounding itself is not modelled: two decimals of more
    than 15 significant digits may stand for the same binary64 value, and
    [String] is the normalised decimal only for a decimal of at most 15
    significant digits in the range of the normal binary64 values
    ([representable], with which the properties on the value or the spelling
    of a number are stated). *)
Inductive number :=
| Num (neg : bool) (m : N) (e : Z)
| NaN
| Infinity (neg : bool).

Definition isFinite (n : number) : bool :=
  match n with Num _ _ _ => true | _ => false end.

Fixpoint strip_zeros (fuel : nat) (m : N) (e : Z) : N * Z :=
  match fuel with
  | O => (m, e)
  | S f => if ((m mod 10 =? 0) && negb (m =? 0))%N
           then strip_zeros f (m / 10)%N (e + 1)%Z else (m, e)
  end.

Definition normalise (neg : bool) (m : N) (e : Z) : number :=
  if (m =? 0)%N then Num neg 0 0
  else let '(m', e') := strip_zeros (N.to_nat (N.size m)) m e in Num neg m' e'.

Fixpoint digits_value (ds : jstr) (acc : N) : N :=
  match ds with
  | [] => acc
  | d :: ds' => digits_value ds' (10 * acc + (d - 48))%N
  end.

Fixpoint take_digits (s : jstr) : jstr * jstr :=
  match s with
  | c :: s' => if is_digit c then let '(d, r) := take_digits s' in (c :: d, r)
               else ([], s)
  | [] => ([], [])
  end.

(** The decimal [m * 10^e] is at or above [2^1024 - 2^970], the least value
    that rounds to infinity. *)
Definition overflows (m : N) (e : Z) : bool :=
  if (0 <=? e)%Z then (2 ^ 1024 - 2 ^ 970 <=? Z.of_N m * 10 ^ e)%Z
  else ((2 ^ 1024 - 2 ^ 970) * 10 ^ (- e) <=? Z.of_N m)%Z.

(** The decimal [m * 10^e] is at or below [2^-1075], half the least positive
    binary64 value: it rounds to zero. *)
Definition vanishes (m : N) (e : Z) : bool :=
  (e <? 0)%Z && (Z.of_N m * 2 ^ 1075 <=? 10 ^ (- e))%Z.

(** The number a decimal denotes: infinity or zero outside the range. *)
Definition to_binary64 (x : number) : number :=
  match x with
  | Num neg m e =>
      if overflows m e then Infinity neg
      else if vanishes m e then Num neg 0 0
      else x
  | _ => x
  end.

(** [+s] (StringToNumber) on the strings the number lexer builds: an optional
    minus sign, digits, an optional fraction, an optional exponent.  The empty
    string is [0]; a string that is not a StrDecimalLiteral is [NaN]. *)
Definition to_number (s : jstr) : number :=
  match s with
  | [] => Num false 0 0
  | _ =>
    let '(neg, s1) := match s with
                      | c :: r => if isc "-" c then (true, r) else (false, s)
                      | [] => (false, s)
                      end in
    let '(ip, s2) := take_digits s1 in
    let '(dot, fp, s3) :=
      match s2 with
      | c :: r => if isc "." c then let '(f, r') := take_digits r in (true, f, r')
                  else (false, [], s2)
      | [] => (false, [], s2)
      end in
    match ip, fp with
    | [], [] => NaN
    | _, _ =>
      let mant := digits_value (ip ++ fp) 0 in
      let e0 := (- len fp)%Z in
      match s3 with
      | [] => to_binary64 (normalise neg mant e0)
      | c :: r =>
        if isc "e" c || isc "E" c then
          let '(eneg, r1) := match r with
                             | d :: r' => if isc "-" d then (true, r')
                                          else if isc "+" d then (false, r')
                                          else (false, r)
                             | [] => (false, r)
                             end in
          let '(ed, r2) := take_digits r1 in
          match ed, r2 with
          | _ :: _, [] =>
              let ev := Z.of_N (digits_value ed 0) in
              to_binary64 (normalise neg mant (e0 + (if eneg then - ev else ev))%Z)
          | _, _ => NaN
          end
        else NaN
      end
    end
  end.

(** [String(n)] (Number::toString, radix 10). *)
Definition number_to_string (n : number) : jstr :=
  match n with
  | NaN => lit "NaN"
  | Infinity false => lit "Infinity"
  | Infinity true => lit "-Infinity"
  | Num neg m e =>
    if (m =? 0)%N then lit "0" else
    let s := dec_of_N m in
    let k := len s in
    let n := (k + e)%Z in
    let body :=
      if ((k <=? n) && (n <=? 21))%Z then
        s ++ repeat_str (lit "0") (Z.to_nat (n - k))
      else if ((0 <? n) && (n <=? 21))%Z then
        firstn (Z.to_nat n) s ++ lit "." ++ skipn (Z.to_nat n) s
      else if ((-6 <? n) && (n <=? 0))%Z then
        lit "0." ++ repeat_str (lit "0") (Z.to_nat (- n)) ++ s
      else
        let ex := (n - 1)%Z in
        let es := (if (ex <? 0)%Z then lit "-" else lit "+")
                  ++ dec_of_N (Z.to_N (Z.abs ex)) in
        match s with
        | [d] => [d] ++ lit "e" ++ es
        | d :: ds => [d] ++ lit "." ++ ds ++ lit "e" ++ es
        | [] => []
        end in
    (if neg then lit "-" else []) ++ body
  end.

End Js.

Import Js.


Import Js.

(* ================================================================== *)
(** * Values and the annotation store *)
(* ================================================================== *)

(** ** The portable comment document ([hjson-comments.ts])

    A node of the document is a JavaScript object with optional properties:
    [a] (for an array, the object mapping an index to the node of that
    element; on the node of a member it is also where [saveComment] stores the
    comment after the member, a string), [s] and [o] (for an object, the nodes
    of the members and the key order), [e] and [r] (the results of
    [makeComment]), [b] (the comment before the member) and [x] (the property
    where [merge] and [dropAll] look for the document of the children). *)
Inductive doc :=
| Doc (a : option doc_a) (s : option (list (jstr * doc)))
      (o : option (list jstr))
      (e r : option (option jstr * option jstr))
      (b : option jstr) (x : option doc)
with doc_a :=
| AMap (m : list (nat * doc))
| AText (t : jstr).

Definition d_a (d : doc) := match d with Doc a _ _ _ _ _ _ => a end.
Definition d_s (d : doc) := match d with Doc _ s _ _ _ _ _ => s end.
Definition d_o (d : doc) := match d with Doc _ _ o _ _ _ _ => o end.
Definition d_e (d : doc) := match d with Doc _ _ _ e _ _ _ => e end.
Definition d_r (d : doc) := match d with Doc _ _ _ _ r _ _ => r end.
Definition d_b (d : doc) := match d with Doc _ _ _ _ _ b _ => b end.
Definition d_x (d : doc) := match d with Doc _ _ _ _ _ _ x => x end.

(** [{}]. *)
Definition empty_doc : doc := Doc None None None None None None None.

(** A two-element array [[b, a]] of the store.  The parser writes two
    strings; [merge] writes [[c.b, c.a]] from a node of the document, where
    an element may be [undefined] and [c.a] may be the index map of an array
    node. *)
Definition cpair : Type := option jstr * option doc_a.

(** The two-element arrays [e] and [r] of the store. *)
Definition epair : Type := option jstr * option jstr.

(** The [Comments] object kept in the hidden [__COMMENTS__] property of an
    array or object ([types/comments.ts]); only the fields the code reads or
    writes on a value's store. *)
Record Comments := mkComments {
  c_a : option (list (option cpair));  (* a: per index [b, a]; [None] is a hole *)
  c_c : option (list (jstr * cpair));  (* c: per key [b, a] *)
  c_o : option (list jstr);            (* o: key order *)
  c_e : option epair;                  (* e: [before, after] the closing bracket *)
  c_r : option epair                   (* r: [header, footer] of the root *)
}.

Definition no_comments : Comments := mkComments None None None None None.

Definition set_a x (c : Comments) := mkComments x (c_c c) (c_o c) (c_e c) (c_r c).
Definition set_c x (c : Comments) := mkComments (c_a c) x (c_o c) (c_e c) (c_r c).
Definition set_o x (c : Comments) := mkComments (c_a c) (c_c c) x (c_e c) (c_r c).
Definition set_e x (c : Comments) := mkComments (c_a c) (c_c c) (c_o c) x (c_r c).
Definition set_r x (c : Comments) := mkComments (c_a c) (c_c c) (c_o c) (c_e c) x.

(** A JavaScript value as the codec sees it.  Properties of an object are
    its own enumerable properties, in enumeration order.

    [cm] is the property [__COMMENTS__] of an array or object when
    [createComment] has defined it ([None]: absent, or [undefined]); it is
    then not enumerable, so it is no part of the payload.  An object can also
    hold an enumerable member of that name (the parser creates one for a key
    [__COMMENTS__] of the text): it is kept in [props], with [cm = None], and
    [createComment] hides it.  [getComment] answers the value of such a
    member; the embedding is right where that value is falsy, and
    [no_store_key] is the condition that there is no such member at all.
    The properties that read a store assume it.

    An object is taken to have no prototype other than [Object.prototype]
    and a member [__proto__] is an own property like any other; the
    assignment [object[key] = value] of the parser is right for every key
    but [__proto__] (see [obj_set]). *)
Inductive value :=
| VUndefined
| VNull
| VBool (b : bool)
| VNumber (n : number)
| VString (s : jstr)
| VFunction
| VArray (cm : option Comments) (items : list value)
| VObject (cm : option Comments) (props : list (jstr * value)).

(** ** Objects as ordered property lists *)

Section Assoc.
Variable V : Type.

Fixpoint assoc (k : jstr) (l : list (jstr * V)) : option V :=
  match l with
  | [] => None
  | (k', v) :: l' => if jeqb k k' then Some v else assoc k l'
  end.

Definition has_key (k : jstr) (l : list (jstr * V)) : bool :=
  match assoc k l with Some _ => true | None => false end.

Fixpoint assoc_replace (k : jstr) (v : V) (l : list (jstr * V)) :=
  match l with
  | [] => []
  | (k', v') :: l' =>
      if jeqb k k' then (k', v) :: l' else (k', v') :: assoc_replace k v l'
  end.

(** [o[k]] handed to [found], or [missing] when [o] has no property [k]. *)
Definition with_assoc (R : Type) (k : jstr) (l : list (jstr * V))
           (found : V -> R) (missing : R) : R :=
  (fix find (l : list (jstr * V)) : R :=
     match l with
     | [] => missing
     | (k', v) :: l' => if jeqb k k' then found v else find l'
     end) l.

(** An integer index key (a canonical numeric string below [2^32 - 1]):
    such keys are enumerated first, in ascending order. *)
Definition index_of_key (k : jstr) : option N :=
  match k with
  | [] => None
  | c :: r =>
      if forallb is_digit k && (negb (isc "0" c) || match r with [] => true | _ => false end)
         && (Nat.leb (List.length k) 10)
      then let n := digits_value k 0 in
           if (n <? 4294967295)%N then Some n else None
      else None
  end.

Fixpoint insert_index (n : N) (k : jstr) (v : V) (l : list (jstr * V)) :=
  match l with
  | [] => [(k, v)]
  | (k', v') :: l' =>
      match index_of_key k' with
      | Some n' => if (n' <? n)%N then (k', v') :: insert_index n k v l'
                   else (k, v) :: l
      | None => (k, v) :: l
      end
  end.

(** The properties other than [k]. *)
Fixpoint drop_key (k : jstr) (l : list (jstr * V)) : list (jstr * V) :=
  match l with
  | [] => []
  | (k', v) :: l' =>
      if jeqb k k' then drop_key k l' else (k', v) :: drop_key k l'
  end.

(** [o[k] = v] on an object whose properties are all own, enumerable and
    writable: an index key goes to its place among the index keys, another
    new key to the end.  For [k = '__proto__'] on an object literal the
    assignment sets the prototype and creates no property; that case is not
    modelled ([own_key] excludes it). *)
Definition obj_set (k : jstr) (v : V) (l : list (jstr * V)) :=
  if has_key k l then assoc_replace k v l
  else match index_of_key k with
       | Some n => insert_index n k v l
       | None => l ++ [(k, v)]
       end.
End Assoc.

(** [a[i] = x] on an array: past the end the array grows, leaving holes. *)
Fixpoint arr_set (A : Type) (i : nat) (x : A) (l : list (option A)) : list (option A) :=
  match i, l with
  | O, [] => [Some x]
  | O, _ :: l' => Some x :: l'
  | S j, [] => None :: arr_set j x []
  | S j, y :: l' => y :: arr_set j x l'
  end.

(** [a[i]], [undefined] for a hole or out of range. *)
Definition arr_get (A : Type) (i : nat) (l : list (option A)) : option A :=
  match nth_error l i with Some (Some x) => Some x | _ => None end.

(** [x || ''] for an optional string. *)
Definition or_empty (x : option jstr) : jstr :=
  match x with Some s => s | None => [] end.

(* ================================================================== *)
(** * Errors and results *)
(* ================================================================== *)

(** An [Error] object: its message and the [hint] property the parser's
    [catch] blocks add. *)
Inductive error_class := ErrorC | TypeErrorC.
Record error := mkError { eclass : error_class; message : jstr; hint : option jstr }.

Inductive res (A : Type) :=
| Ok (a : A)
| Throw (e : error)
| OutOfFuel.
Arguments Ok {A} a.
Arguments Throw {A} e.
Arguments OutOfFuel {A}.

(** [throw new Error(m)]. *)
Definition throw (A : Type) (m : jstr) : res A := Throw (mkError ErrorC m None).
(** A [TypeError] raised by the engine (property access on [undefined]). *)
Definition type_error (A : Type) (m : jstr) : res A :=
  Throw (mkError TypeErrorC m None).

(** Reading property [p] of [undefined]. *)
Definition undefined_read (A : Type) (p : jstr) : res A :=
  type_error _ (lit "Cannot read properties of undefined (reading '" ++ p ++ lit "')").

Definition rbind (A B : Type) (r : res A) (f : A -> res B) : res B :=
  match r with
  | Ok a => f a
  | Throw e => Throw e
  | OutOfFuel => OutOfFuel
  end.

(* ================================================================== *)
(** * hjson-common.ts *)
(* ================================================================== *)

Module Common.

(** The cursor shared by the number lexer and the parser: the position [at]
    of the next character and the current character [ch]. *)
Record cursor := mkCursor { at_ : Z; ch : option char }.

Section Cursor.
Variable text : jstr.

(** [next()]: [ch = text.charAt(at); at++]. *)
Definition next (st : cursor) : cursor :=
  mkCursor (at_ st + 1) (charAt text (at_ st)).

(** Fuel for a loop that calls [next()] while [ch] is not empty. *)
Definition lfuel : nat := S (S (List.length text)).

(** [while (p) next();] for a condition that fails on the empty [ch]. *)
Fixpoint skip_while (fuel : nat) (p : cursor -> bool) (st : cursor) : cursor :=
  match fuel with
  | O => st
  | S f => if p st then skip_while f p (next st) else st
  end.

(** [while (p(ch)) { acc = f(acc, ch); next(); }]. *)
Fixpoint scan_while (A : Type) (fuel : nat) (p : char -> bool)
         (f : A -> char -> A) (acc : A) (st : cursor) : A * cursor :=
  match fuel with
  | O => (acc, st)
  | S k =>
      match ch st with
      | Some c => if p c then scan_while k p f (f acc c) (next st)
                  else (acc, st)
      | None => (acc, st)
      end
  end.
End Cursor.

Definition ch_is (a : ascii) (st : cursor) : bool :=
  match ch st with Some c => isc a c | None => false end.

Definition ch_dq (st : cursor) : bool :=
  match ch st with Some c => is_dq c | None => false end.

(** [ch && ch <= ' ']. *)
Definition ch_blank (st : cursor) : bool :=
  match ch st with Some c => (c <=? 32)%N | None => false end.

(** [tryParseNumber(text, stopAtNext)]. *)
Definition tryParseNumber (text : jstr) (stopAtNext : bool) : option number :=
  let nx := next text in
  let st := nx (mkCursor 0 None) in
  let '(str, st) := if ch_is "-" st then (lit "-", nx st) else ([] : jstr, st) in
  (* integer part, counting leading zeros *)
  let '((str, leadingZeros, testLeading), st) :=
    scan_while text (lfuel text) is_digit
      (fun (acc : jstr * Z * bool) c =>
         let '(s, lz, tst) := acc in
         let '(lz, tst) := if tst then (if isc "0" c then ((lz + 1)%Z, tst)
                                        else (lz, false))
                           else (lz, tst) in
         (s ++ [c], lz, tst))
      (str, 0%Z, true) st in
  let leadingZeros := if testLeading then (leadingZeros - 1)%Z else leadingZeros in
  (* fraction *)
  let '(str, st) :=
    if ch_is "." st then
      scan_while text (lfuel text) is_digit (fun s c => s ++ [c])
                 (str ++ lit ".") (nx st)
    else (str, st) in
  (* exponent *)
  let '(str, st) :=
    if ch_is "e" st || ch_is "E" st then
      let str := str ++ match ch st with Some c => [c] | None => [] end in
      let st := nx st in
      let '(str, st) :=
        if ch_is "-" st || ch_is "+" st
        then (str ++ match ch st with Some c => [c] | None => [] end, nx st)
        else (str, st) in
      scan_while text (lfuel text) is_digit (fun s c => s ++ [c]) str st
    else (str, st) in
  (* skip white/to (newline) *)
  let st := skip_while text (lfuel text) ch_blank st in
  let chv :=
    if stopAtNext &&
       (ch_is "," st || ch_is "}" st || ch_is "]" st || ch_is "#" st ||
        ch_is "/" st && match charAt text (at_ st) with
                        | Some c => isc "/" c || isc "*" c
                        | None => false
                        end)
    then Some 0%N   (* ch = '\0' : a non-empty string *)
    else ch st in
  let number := to_number str in
  match chv with
  | Some _ => None
  | None => if negb (leadingZeros =? 0)%Z || negb (isFinite number) then None
            else Some number
  end.

(** The name of the property that holds the store. *)
Definition store_key : jstr := lit "__COMMENTS__".

(** [getComment(obj)]: [obj.__COMMENTS__].  With an enumerable member of
    that name the answer is the value of the member, which is read as no
    store ([None]) when it is falsy; [cm] is [None] then. *)
Definition getComment (v : value) : option Comments :=
  match v with
  | VArray cm _ | VObject cm _ => cm
  | _ => None
  end.

(** [createComment(obj, comments)]: the object with its property defined;
    the call returns [comments].  [defineProperty] makes the property not
    enumerable, also when it was a member before: the member leaves the
    keys of the object. *)
Definition createComment (v : value) (c : option Comments) : value :=
  match v with
  | VArray _ l => VArray c l
  | VObject _ l => VObject c (drop_key store_key l)
  | _ => v
  end.

(** [removeComment(value)]: the property gets the value [undefined] and
    keeps its attributes, so a member stays a member. *)
Definition removeComment (v : value) : value :=
  match v with
  | VArray _ l => VArray None l
  | VObject _ l =>
      VObject None (if has_key store_key l
                    then assoc_replace store_key VUndefined l else l)
  | _ => v
  end.

Inductive line_kind := LineComment | BlockComment | PlainText | Blank.

(** The inner loop of [forceComment] on one line. *)
Fixpoint classify (s : jstr) : line_kind :=
  match s with
  | [] => Blank
  | c :: r =>
      if isc "#" c then LineComment
      else if isc "/" c && match r with d :: _ => isc "/" d || isc "*" d | [] => false end
      then match r with
           | d :: _ => if isc "*" d then BlockComment else LineComment
           | [] => LineComment
           end
      else if (32 <? c)%N then PlainText
      else classify r
  end.

Fixpoint forceLines (lines : list jstr) : list jstr :=
  match lines with
  | [] => []
  | l :: ls =>
      match classify l with
      | BlockComment => l :: ls
      | PlainText => (lit "# " ++ l) :: forceLines ls
      | _ => l :: forceLines ls
      end
  end.

(** [forceComment(text)]. *)
Definition forceComment (text : jstr) : jstr :=
  match text with
  | [] => []
  | _ => join nl (forceLines (split_on NL text))
  end.

End Common.

(* ================================================================== *)
(** * hjson-dsf.ts *)
(* ================================================================== *)

Module Dsf.

(** A plug-in record.  The hooks are the capability pair of the
    specification: [parse] answers a value, [VUndefined] meaning "not mine";
    [stringify] answers a token or [undefined].  A hook that raises is outside
    the model. *)
Record DSF := mkDSF {
  name : jstr;
  parse : jstr -> value;
  stringify : value -> option jstr
}.

Definition isInvalidDsfChar (c : char) : bool :=
  isc "{" c || isc "}" c || isc "[" c || isc "]" c || isc "," c
  || is_dq c.

(** The wrapper [loadDsf] builds around a [stringify] hook: the result is
    validated, and a violation raises. *)
Definition stringify_hook (x : DSF) (v : value) : res (option jstr) :=
  match stringify x v with
  | None => Ok None
  | Some r =>
      if match r with [] => true | c :: _ => is_dq c end
         || existsb isInvalidDsfChar r
      then throw _ (lit "DSF-" ++ name x ++ lit " failed; " ++
                    lit "value may not be empty, start with a quote or contain a punctuator character except colon: " ++ r)
      else Ok (Some r)
  end.

(** [runDsf] over the [parse] hooks: the first result that is not
    [undefined]. *)
Fixpoint runDsf_parse (col : list DSF) (s : jstr) : value :=
  match col with
  | [] => VUndefined
  | x :: col' =>
      match parse x s with
      | VUndefined => runDsf_parse col' s
      | v => v
      end
  end.

(** [runDsf] over the [stringify] hooks. *)
Fixpoint runDsf_stringify (col : list DSF) (v : value) : res (option jstr) :=
  match col with
  | [] => Ok None
  | x :: col' =>
      rbind (stringify_hook x v)
            (fun r => match r with
                      | Some s => Ok (Some s)
                      | None => runDsf_stringify col' v
                      end)
  end.

(** The check [loadDsf] makes on every record when the option is a
    non-empty array. *)
Definition loadDsf (col : option (list DSF)) : res (list DSF) :=
  match col with
  | None => Ok []
  | Some l =>
      if forallb (fun x => truthy (name x)) l then Ok l
      else throw _ (lit "extension does not match the DSF interface")
  end.

(** The built-in module [dsf.math]: [Inf], [-Inf], [NaN] and [-0]. *)
Definition math_parse (s : jstr) : value :=
  if jeqb s (lit "+inf") || jeqb s (lit "inf") || jeqb s (lit "+Inf")
     || jeqb s (lit "Inf")
  then VNumber (Infinity false)
  else if jeqb s (lit "-inf") || jeqb s (lit "-Inf") then VNumber (Infinity true)
  else if jeqb s (lit "nan") || jeqb s (lit "NaN") then VNumber NaN
  else VUndefined.

(** [1 / value === -Infinity] holds for the negative zero only. *)
Definition math_stringify (v : value) : option jstr :=
  match v with
  | VNumber (Num neg m _) => if neg && (m =? 0)%N then Some (lit "-0") else None
  | VNumber (Infinity false) => Some (lit "Inf")
  | VNumber (Infinity true) => Some (lit "-Inf")
  | VNumber NaN => Some (lit "NaN")
  | _ => None
  end.

Definition math : DSF := mkDSF (lit "math") math_parse math_stringify.

End Dsf.

(* ================================================================== *)
(** * hjson-parse.ts *)
(* ================================================================== *)

Module Parse.
Import Common.

(** [ParseOptions].  [keepWhitespaceAndComments] is the property the
    interface declares and [rt.parse] sets; [keepWsc] is the property
    [parse] reads. *)
Record ParseOptions := mkParseOptions {
  keepWhitespaceAndComments : option bool;
  keepWsc : option bool;
  dsf : option (list Dsf.DSF);
  legacyRoot : option bool
}.

Definition no_options : ParseOptions := mkParseOptions None None None None.

Definition set_keepWhitespaceAndComments (b : bool) (o : ParseOptions) :=
  mkParseOptions (Some b) (keepWsc o) (dsf o) (legacyRoot o).

Section Parser.
Variable text : jstr.
Variable keepComments : bool.
Variable runDsf : jstr -> value.

Local Abbreviation next := (next text).
Local Abbreviation lfuel := (lfuel text).

(** The parser's functions read and write the cursor and may raise. *)
Definition P (A : Type) : Type := cursor -> res (A * cursor).

Definition ret (A : Type) (a : A) : P A := fun st => Ok (a, st).
Definition bind (A B : Type) (m : P A) (f : A -> P B) : P B :=
  fun st => match m st with
            | Ok (a, st') => f a st'
            | Throw e => Throw e
            | OutOfFuel => OutOfFuel
            end.
Definition step (f : cursor -> cursor) : P unit := fun st => Ok (tt, f st).
Definition get : P cursor := fun st => Ok (st, st).

Notation "x <- m ;; k" := (bind m (fun x => k))
  (at level 61, m at next level, right associativity).
Notation "m ;;; k" := (bind m (fun _ => k))
  (at level 61, right associativity).

(** [resetAt()]. *)
Definition resetAt : cursor := mkCursor 0 (Some (chr " ")).

Definition isPunctuatorChar (c : char) : bool :=
  isc "{" c || isc "}" c || isc "[" c || isc "]" c || isc "," c || isc ":" c.

(** The first loop of [error]: from [i], leftwards to a line break or to
    index 0, counting the steps in [col]. *)
Fixpoint col_scan (i : nat) (col : Z) : nat * Z :=
  match i with
  | O => (O, col)
  | S j => match charAt text (Z.of_nat i) with
           | Some c => if is_nl c then (i, col) else col_scan j (col + 1)
           | None => col_scan j (col + 1)
           end
  end.

(** The second loop of [error]: line breaks at the indices [i .. 1]. *)
Fixpoint line_scan (i : nat) (line : Z) : Z :=
  match i with
  | O => line
  | S j => line_scan j (match charAt text (Z.of_nat i) with
                        | Some c => if is_nl c then line + 1 else line
                        | None => line
                        end)
  end.

Definition error_col (at0 : Z) : Z := snd (col_scan (Z.to_nat (at0 - 1)) 0).
Definition error_line (at0 : Z) : Z :=
  line_scan (fst (col_scan (Z.to_nat (at0 - 1)) 0)) 1.
Definition error_snippet (at0 : Z) : jstr := substr text (at0 - error_col at0) 20.

(** The [Error] that [error(m)] throws with the cursor at [at0]. *)
Definition mk_error (at0 : Z) (m : jstr) : error :=
  mkError ErrorC
    (m ++ lit " at line " ++ dec_of_Z (error_line at0) ++ lit "," ++
     dec_of_Z (error_col at0) ++ lit " >>> " ++ error_snippet at0 ++ lit " ...")
    None.

(** [error(m)]. *)
Definition error (A : Type) (m : jstr) : P A :=
  fun st => Throw (mk_error (at_ st) m).

(** [peek(offs)]. *)
Definition peek (offs : Z) (st : cursor) : option char :=
  charAt text (at_ st + offs).
Definition peek_is (a : ascii) (st : cursor) : bool :=
  match peek 0 st with Some c => isc a c | None => false end.

(** [ch] as a string. *)
Definition ch_str (st : cursor) : jstr :=
  match ch st with Some c => [c] | None => [] end.

(** [white()]. *)
Fixpoint white_loop (fuel : nat) (st : cursor) : cursor :=
  match fuel with
  | O => st
  | S f =>
      match ch st with
      | None => st
      | Some _ =>
          let st := skip_while text lfuel ch_blank st in
          if ch_is "#" st || ch_is "/" st && peek_is "/" st then
            white_loop f
              (skip_while text lfuel
                 (fun s => match ch s with
                           | Some c => negb (is_nl c)
                           | None => false
                           end) st)
          else if ch_is "/" st && peek_is "*" st then
            let st := next (next st) in
            let st := skip_while text lfuel
                        (fun s => match ch s with
                                  | Some c => negb (isc "*" c && peek_is "/" s)
                                  | None => false
                                  end) st in
            let st := match ch st with
                      | Some _ => next (next st)
                      | None => st
                      end in
            white_loop f st
          else st
      end
  end.

Definition white_st (st : cursor) : cursor := white_loop lfuel st.
Definition white : P unit := step white_st.

(** The value of a hexadecimal digit in a [\uXXXX] escape. *)
Definition hex_value (c : char) : option N :=
  if is_digit c then Some (c - 48)%N
  else if ((97 <=? c) && (c <=? 102))%N then Some (c - 97 + 10)%N
  else if ((65 <=? c) && (c <=? 70))%N then Some (c - 65 + 10)%N
  else None.

(** The four digits after [\u]. *)
Fixpoint unicode_escape (n : nat) (uffff : N) : P N :=
  match n with
  | O => ret uffff
  | S k =>
      step next ;;;
      st <- get ;;
      match match ch st with Some c => hex_value c | None => None end with
      | Some hex => unicode_escape k (uffff * 16 + hex)%N
      | None => error _ (lit "Bad \u char " ++ ch_str st)
      end
  end.

Definition escapee (c : char) : option char :=
  if is_dq c then Some DQ
  else if isc "'" c then Some (chr "'")
  else if isc "\" c then Some (chr "\")
  else if isc "/" c then Some (chr "/")
  else if isc "b" c then Some 8%N
  else if isc "f" c then Some 12%N
  else if isc "n" c then Some 10%N
  else if isc "r" c then Some 13%N
  else if isc "t" c then Some 9%N
  else None.

(** [skipIndent()] of [mlString]. *)
Fixpoint skipIndent (skip : nat) (st : cursor) : cursor :=
  match skip with
  | O => st
  | S k =>
      match ch st with
      | Some c => if (c <=? 32)%N && negb (is_nl c) then skipIndent k (next st)
                  else st
      | None => st
      end
  end.

(** The indentation of the line of the opening delimiter:
    [for (;;) { c = peek(-indent-5); if (!c || c === '\n') break; indent++; }] *)
Fixpoint ml_indent (fuel : nat) (at0 : Z) (indent : Z) : Z :=
  match fuel with
  | O => indent
  | S f =>
      match charAt text (at0 - indent - 5) with
      | Some c => if is_nl c then indent else ml_indent f at0 (indent + 1)
      | None => indent
      end
  end.

Fixpoint ml_loop (fuel : nat) (indent : nat) (str : jstr) (triple : nat)
  : P jstr :=
  match fuel with
  | O => fun _ => OutOfFuel
  | S f =>
      st <- get ;;
      match ch st with
      | None => error _ (lit "Bad multiline string")
      | Some c =>
          if isc "'" c then
            step next ;;;
            if Nat.eqb (S triple) 3 then
              ret (match List.rev str with
                   | d :: r => if is_nl d then List.rev r else str
                   | [] => str
                   end)
            else ml_loop f indent str (S triple)
          else
            let str := str ++ repeat_str (lit "'") triple in
            if is_nl c then
              step next ;;; step (skipIndent indent) ;;;
              ml_loop f indent (str ++ nl) 0
            else
              step next ;;;
              ml_loop f indent (if is_cr c then str else str ++ [c]) 0
      end
  end.

(** [mlString()]. *)
Definition mlString : P jstr :=
  st <- get ;;
  let indent := Z.to_nat (ml_indent (Z.to_nat (at_ st)) (at_ st) 0) in
  step (skip_while text lfuel
          (fun s => match ch s with
                    | Some c => (c <=? 32)%N && negb (is_nl c)
                    | None => false
                    end)) ;;;
  st <- get ;;
  (if ch_is "010" st then step next ;;; step (skipIndent indent) else ret tt) ;;;
  ml_loop lfuel indent [] 0.

Fixpoint string_loop (fuel : nat) (exitCh : option char) (allowML : bool)
         (str : jstr) : P jstr :=
  match fuel with
  | O => fun _ => OutOfFuel
  | S f =>
      step next ;;;
      st <- get ;;
      match ch st with
      | None => error _ (lit "Bad string")
      | Some c =>
          if match exitCh with Some x => N.eqb c x | None => false end then
            step next ;;;
            st <- get ;;
            if allowML && match exitCh with Some x => isc "'" x | None => false end
               && ch_is "'" st && match str with [] => true | _ => false end
            then step next ;;; mlString
            else ret str
          else if isc "\" c then
            step next ;;;
            st <- get ;;
            if ch_is "u" st then
              uffff <- unicode_escape 4 0 ;;
              string_loop f exitCh allowML (str ++ [uffff])
            else match match ch st with Some d => escapee d | None => None end with
                 | Some d => string_loop f exitCh allowML (str ++ [d])
                 | None => error _ (lit "Bad string")
                 end
          else if is_nl c || is_cr c then
            error _ (lit "Bad string containing newline")
          else string_loop f exitCh allowML (str ++ [c])
      end
  end.

(** [string(allowML)]. *)
Definition string_ (allowML : bool) : P jstr :=
  st <- get ;;
  string_loop lfuel (ch st) allowML [].

Fixpoint keyname_loop (fuel : nat) (name : jstr) (start : Z) (space : Z)
  : P jstr :=
  match fuel with
  | O => fun _ => OutOfFuel
  | S f =>
      st <- get ;;
      match ch st with
      | None => error _ (lit "Found EOF while looking for a key name (check your syntax)")
      | Some c =>
          if isc ":" c then
            match name with
            | [] => error _ (lit "Found ':' but no key name (for an empty key name use quotes)")
            | _ =>
                if (0 <=? space)%Z && negb (space =? len name)%Z then
                  (* at = start + space *)
                  step (fun s => mkCursor (start + space) (ch s)) ;;;
                  error _ (lit "Found whitespace in your key name (use quotes to include)")
                else ret name
            end
          else if (c <=? 32)%N then
            step next ;;;
            keyname_loop f name start (if (space <? 0)%Z then len name else space)
          else if isPunctuatorChar c then
            error _ (lit "Found '" ++ [c] ++
                     lit "' where a key name was expected (check your syntax or use quotes if the key name includes {}[],: or whitespace)")
          else step next ;;; keyname_loop f (name ++ [c]) start space
      end
  end.

(** [keyname()]. *)
Definition keyname : P jstr :=
  st <- get ;;
  if ch_dq st || ch_is "'" st then string_ false
  else keyname_loop lfuel [] (at_ st) (-1).

(** The first loop of [getComment]. *)
Fixpoint comment_end (fuel : nat) (cAt : Z) (i : Z) : Z :=
  match fuel with
  | O => i
  | S f =>
      if (cAt <? i)%Z &&
         match charAt text i with
         | Some c => (c <=? 32)%N && negb (is_nl c)
         | None => false
         end
      then comment_end f cAt (i - 1) else i
  end.

(** [getComment(cAt, first)] with the cursor at [at0]. *)
Definition getComment (at0 : Z) (cAt : Z) (first : bool) : list jstr :=
  let cAt := (cAt - 1)%Z in
  let i := comment_end (Z.to_nat at0) cAt (at0 - 2) in
  let i := match charAt text i with
           | Some c => if is_nl c then (i - 1)%Z else i
           | None => i
           end in
  let i := match charAt text i with
           | Some c => if is_cr c then (i - 1)%Z else i
           | None => i
           end in
  let res := substr text cAt (i - cAt + 1) in
  if existsb (fun c => (32 <? c)%N) res then
    let j := indexOf NL res in
    if (0 <=? j)%Z then
      let c0 := substr res 0 j in
      let c1 := substr_from res (j + 1) in
      if first && (len (trim c0) =? 0)%Z then [c1] else [c0; c1]
    else [res]
  else [].

(** [search(value, ch)] of [errorClosingHint]. *)
Fixpoint search (c : char) (v : value) : option jstr :=
  match v with
  | VString s => if (0 <=? indexOf c s)%Z then Some s else None
  | VArray _ l =>
      fold_left (fun r x => match search c x with
                            | Some ((_ :: _) as s) => Some s
                            | _ => r
                            end) l None
  | VObject _ l =>
      fold_left (fun r kv => match search c (snd kv) with
                             | Some ((_ :: _) as s) => Some s
                             | _ => r
                             end) l None
  | _ => None
  end.

Definition report (c : char) (v : value) : jstr :=
  match search c v with
  | Some ((_ :: _) as possibleErr) =>
      lit "found '" ++ [c] ++ lit "' in a string value, your mistake could be with:" ++
      nl ++ lit "  > " ++ possibleErr ++ nl ++
      lit "  (unquoted strings contain everything up to the next line!)"
  | _ => []
  end.

(** [errorClosingHint(value)]. *)
Definition errorClosingHint (v : value) : jstr :=
  match report (chr "}") v with
  | [] => report (chr "]") v
  | s => s
  end.

(** [catch (e) { e.hint = e.hint || errorClosingHint(partial); throw e; }] *)
Definition catch_hint (A : Type) (partial : value) (m : P A) : P A :=
  fun st => match m st with
            | Throw e =>
                Throw (mkError (eclass e) (message e)
                         (Some match hint e with
                               | Some ((_ :: _) as h) => h
                               | _ => errorClosingHint partial
                               end))
            | r => r
            end.

(** The test at every candidate end of a quoteless token. *)
Definition tfnns_literal (val : jstr) : option value :=
  match val with
  | chf :: _ =>
      if isc "f" chf then
        if jeqb (trim val) (lit "false") then Some (VBool false) else None
      else if isc "n" chf then
        if jeqb (trim val) (lit "null") then Some VNull else None
      else if isc "t" chf then
        if jeqb (trim val) (lit "true") then Some (VBool true) else None
      else if isc "-" chf || is_digit chf then
        option_map VNumber (tryParseNumber val false)
      else None
  | [] => None
  end.

Definition is_eol (st : cursor) : bool :=
  match ch st with Some c => is_cr c || is_nl c | None => true end.

Definition is_tfnns_stop (st : cursor) : bool :=
  is_eol st || ch_is "," st || ch_is "}" st || ch_is "]" st || ch_is "#" st
  || ch_is "/" st && (peek_is "/" st || peek_is "*" st).

Fixpoint tfnns_loop (fuel : nat) (val : jstr) : P value :=
  match fuel with
  | O => fun _ => OutOfFuel
  | S f =>
      step next ;;;
      st <- get ;;
      if is_tfnns_stop st then
        match tfnns_literal val with
        | Some v => ret v
        | None =>
            if is_eol st then
              let val := trim val in
              match runDsf val with
              | VUndefined => ret (VString val)
              | dsfValue => ret dsfValue
              end
            else tfnns_loop f (val ++ ch_str st)
        end
      else tfnns_loop f (val ++ ch_str st)
  end.

(** [tfnns()]. *)
Definition tfnns : P value :=
  st <- get ;;
  if match ch st with Some c => isPunctuatorChar c | None => false end then
    error _ (lit "Found a punctuator character '" ++ ch_str st ++
             lit "' when expecting a quoteless string (check your syntax)")
  else tfnns_loop lfuel (ch_str st).

(** The separator and the comment after a member: [cAt = at; white();
    if (ch === ',') { next(); cAt = at; white(); }], answering [cAt]. *)
Definition after_member : P Z :=
  st <- get ;;
  white ;;;
  st' <- get ;;
  if ch_is "," st' then
    step next ;;;
    st'' <- get ;;
    white ;;;
    ret (at_ st'')
  else ret (at_ st).

(** The comment after a member, as the parser wrote it. *)
Definition after_text (p : cpair) : jstr :=
  match snd p with Some (AText t) => t | _ => [] end.

(** [pair[1] += nextComment || '']. *)
Definition append_after (nextComment : option jstr) (p : cpair) : cpair :=
  (fst p, Some (AText (after_text p ++ or_empty nextComment))).

Fixpoint append_last (A : Type) (f : A -> A) (l : list A) : list A :=
  match l with
  | [] => []
  | [x] => [f x]
  | x :: l' => x :: append_last f l'
  end.

Definition array_value (ca : list (option cpair)) (e : option epair)
           (items : list value) : value :=
  VArray (if keepComments then Some (set_e e (set_a (Some ca) no_comments))
          else None) items.

Definition object_value (cc : list (jstr * cpair)) (co : list jstr)
           (e : option epair) (props : list (jstr * value)) : value :=
  VObject (if keepComments
           then Some (set_e e (set_o (Some co) (set_c (Some cc) no_comments)))
           else None) props.

(** [value()], [array()] and [object(withoutBraces)], with the bodies of
    their [while (ch)] loops. *)
Fixpoint value_ (fuel : nat) : P value :=
  match fuel with
  | O => fun _ => OutOfFuel
  | S f =>
      white ;;;
      st <- get ;;
      if ch_is "{" st then object_ f false
      else if ch_is "[" st then array_ f
      else if ch_is "'" st || ch_dq st then
        s <- string_ true ;; ret (VString s)
      else tfnns
  end

with array_ (fuel : nat) : P value :=
  match fuel with
  | O => fun _ => OutOfFuel
  | S f =>
      step next ;;;
      st <- get ;;
      white ;;;
      st' <- get ;;
      let nextComment :=
        if keepComments
        then Some (join nl (getComment (at_ st') (at_ st) true)) else None in
      if ch_is "]" st' then
        step next ;;;
        ret (array_value [] (Some (Some (or_empty nextComment), Some [])) [])
      else array_loop f [] [] nextComment
  end

with array_loop (fuel : nat) (items : list value) (ca : list (option cpair))
                (nextComment : option jstr) : P value :=
  match fuel with
  | O => fun _ => OutOfFuel
  | S f =>
      st <- get ;;
      match ch st with
      | None =>
          catch_hint (VArray None items)
            (error _ (lit "End of input while parsing an array (missing ']')"))
      | Some _ =>
          v <- catch_hint (VArray None items) (value_ f) ;;
          let items := items ++ [v] in
          cAt <- after_member ;;
          st <- get ;;
          let c := if keepComments then getComment (at_ st) cAt false else [] in
          let ca := if keepComments
                    then ca ++ [Some (Some (or_empty nextComment),
                                      Some (AText (or_empty (nth_error c 0))))]
                    else ca in
          let nextComment := if keepComments then nth_error c 1 else nextComment in
          if ch_is "]" st then
            step next ;;;
            ret (array_value
                   (append_last (option_map (append_after nextComment)) ca)
                   None items)
          else white ;;; array_loop f items ca nextComment
      end
  end

with object_ (fuel : nat) (withoutBraces : bool) : P value :=
  match fuel with
  | O => fun _ => OutOfFuel
  | S f =>
      (if withoutBraces then ret tt else step next) ;;;
      st <- get ;;
      let cAt := if withoutBraces then 1%Z else at_ st in
      white ;;;
      st' <- get ;;
      let nextComment :=
        if keepComments
        then Some (join nl (getComment (at_ st') cAt true)) else None in
      if ch_is "}" st' && negb withoutBraces then
        step next ;;;
        ret (object_value [] [] (Some (Some (or_empty nextComment), Some [])) [])
      else object_loop f withoutBraces [] [] [] nextComment
  end

with object_loop (fuel : nat) (withoutBraces : bool)
                 (props : list (jstr * value)) (cc : list (jstr * cpair))
                 (co : list jstr) (nextComment : option jstr) : P value :=
  match fuel with
  | O => fun _ => OutOfFuel
  | S f =>
      st <- get ;;
      match ch st with
      | None =>
          if withoutBraces then ret (object_value cc co None props)
          else catch_hint (VObject None props)
                 (error _ (lit "End of input while parsing an object (missing '}')"))
      | Some _ =>
          kv <- catch_hint (VObject None props)
                  (key <- keyname ;;
                   white ;;;
                   st <- get ;;
                   (if ch_is ":" st then ret tt
                    else error _ (lit "Expected ':' instead of '" ++ ch_str st ++ lit "'")) ;;;
                   step next ;;;
                   v <- value_ f ;;
                   ret (key, v)) ;;
          let key := fst kv in
          let props := obj_set key (snd kv) props in
          cAt <- after_member ;;
          st <- get ;;
          let c := if keepComments then getComment (at_ st) cAt false else [] in
          let cc := if keepComments
                    then obj_set key (Some (or_empty nextComment),
                                      Some (AText (or_empty (nth_error c 0)))) cc
                    else cc in
          let nextComment := if keepComments then nth_error c 1 else nextComment in
          let co := if keepComments then co ++ [key] else co in
          if ch_is "}" st && negb withoutBraces then
            step next ;;;
            ret (object_value
                   (match assoc key cc with
                    | Some p => assoc_replace key (append_after nextComment p) cc
                    | None => cc
                    end)
                   co None props)
          else white ;;; object_loop f withoutBraces props cc co nextComment
      end
  end.

(** [checkTrailing(v, c)]. *)
Definition checkTrailing (v : value) (c : list jstr) : P value :=
  st <- get ;;
  let cAt := at_ st in
  white ;;;
  st' <- get ;;
  match ch st' with
  | Some _ => error _ (lit "Syntax error, found trailing characters")
  | None =>
      if keepComments then
        let b := join nl c in
        let a := join nl (getComment (at_ st') cAt false) in
        if truthy a || truthy b then
          match Common.getComment v with
          | Some comments =>
              ret (createComment v (Some (set_r (Some (Some b, Some a)) comments)))
          | None =>
              fun _ => type_error _ (lit "Cannot set properties of undefined (setting 'r')")
          end
        else ret v
      else ret v
  end.

(** The comment before the root: [keepComments ? getComment(1) : []]. *)
Definition root_comment (st : cursor) : list jstr :=
  if keepComments then getComment (at_ st) 1 false else [].

(** [rootValue()]. *)
Definition rootValue (fuel : nat) : P value :=
  white ;;;
  st <- get ;;
  let c := root_comment st in
  if ch_is "{" st then v <- object_ fuel false ;; checkTrailing v c
  else if ch_is "[" st then v <- array_ fuel ;; checkTrailing v c
  else v <- value_ fuel ;; checkTrailing v c.

(** The two attempts of [legacyRootValue] on an input that does not open
    with a bracket. *)
Definition object_attempt (fuel : nat) (c : list jstr) : P value :=
  v <- object_ fuel true ;; checkTrailing v c.
Definition value_attempt (fuel : nat) (c : list jstr) : P value :=
  v <- value_ fuel ;; checkTrailing v c.

(** [legacyRootValue()]. *)
Definition legacyRootValue (fuel : nat) : P value :=
  white ;;;
  st <- get ;;
  let c := root_comment st in
  if ch_is "{" st then v <- object_ fuel false ;; checkTrailing v c
  else if ch_is "[" st then v <- array_ fuel ;; checkTrailing v c
  else
    fun st =>
      match object_attempt fuel c st with
      | Throw e =>
          match value_attempt fuel c resetAt with
          | Throw e2 => Throw e
          | r => r
          end
      | r => r
      end.

End Parser.

(** Fuel for the mutual recursion of [value], [array] and [object]. *)
Definition pfuel (text : jstr) : nat := 4 * List.length text + 16.

(** [parse(source, opt)] for a string [source]. *)
Definition parse (source : jstr) (opt : option ParseOptions) : res value :=
  let text := source in
  let keepComments :=
    match opt with
    | Some o => match keepWsc o with Some b => b | None => false end
    | None => false
    end in
  rbind (Dsf.loadDsf (match opt with Some o => dsf o | None => None end))
    (fun hooks =>
       let runDsf := Dsf.runDsf_parse hooks in
       let legacy :=
         match opt with
         | Some o => match legacyRoot o with Some false => false | _ => true end
         | None => true
         end in
       match (if legacy then legacyRootValue else rootValue)
               text keepComments runDsf (pfuel text) (resetAt) with
       | Ok (v, _) => Ok v
       | Throw e => Throw e
       | OutOfFuel => OutOfFuel
       end).

End Parse.

(* ================================================================== *)
(** * hjson-comments.ts *)
(* ================================================================== *)

Module Comments.
Import Common.

(** A string that is truthy. *)
Definition str_truthy (x : option jstr) : option jstr :=
  match x with Some ((_ :: _) as s) => Some s | _ => None end.

(** An [a] property that is truthy: an object, or a string that is not
    empty. *)
Definition a_truthy (x : option doc_a) : option doc_a :=
  match x with
  | Some (AText []) => None
  | y => y
  end.

(** [makeComment(b, a)] on two strings: [undefined] when both are falsy. *)
Definition makeComment (b a : option jstr) : option epair :=
  match str_truthy b, str_truthy a with
  | None, None => None
  | b', a' => Some (b', a')
  end.

Definition set_d_a x (d : doc) := Doc x (d_s d) (d_o d) (d_e d) (d_r d) (d_b d) (d_x d).
Definition set_d_b x (d : doc) := Doc (d_a d) (d_s d) (d_o d) (d_e d) (d_r d) x (d_x d).

(** [saveComment(res, key, ck, c)]: the node stored at [res[key]], or [None]
    when the call answers [false].  The pair [ck] has no third element, so
    [x] is never written. *)
Definition saveComment (ck : option cpair) (c : option doc) : option doc :=
  match ck, c with
  | None, None => None
  | _, _ =>
      let node := match c with Some d => d | None => empty_doc end in
      match ck with
      | Some (b, a) =>
          let node := match str_truthy b with
                      | Some s => set_d_b (Some s) node
                      | None => node
                      end in
          let node := match a_truthy a with
                      | Some t => set_d_a (Some t) node
                      | None => node
                      end in
          Some node
      | None => Some node
      end
  end.

(** The key order of the extracted node of an object. *)
Definition extract_keys (o : option (list jstr)) (props : list (jstr * value))
  : list jstr :=
  let currentKeys := map fst props in
  match o with
  | Some o =>
      fold_left (fun keys key =>
                   if has_key key props && negb (existsb (jeqb key) keys)
                   then keys ++ [key] else keys)
                (o ++ currentKeys) []
  | None => currentKeys
  end.

(** [extractComments(value, root)]: the document, and the value with the
    stores of the visited nodes removed.  For an object the members are
    extracted first, each once, and the nodes are then stored in the order of
    [keys]; the source extracts a member when its key comes up, which is the
    same since the calls are independent. *)
Fixpoint extractComments (v : value) (root : bool) : option doc * value :=
  match v with
  | VArray comments items =>
      let '(m, items', hasComments) :=
        (fix loop (l : list value) (i : nat)
           : list (nat * doc) * list value * bool :=
           match l with
           | [] => ([], [], false)
           | x :: l' =>
               let '(c, x') := extractComments x false in
               let ck := match comments with
                         | Some cm => match c_a cm with
                                      | Some a => arr_get i a
                                      | None => None
                                      end
                         | None => None
                         end in
               let '(m, l'', has) := loop l' (S i) in
               match saveComment ck c with
               | Some node => ((i, node) :: m, x' :: l'', true)
               | None => (m, x' :: l'', has)
               end
           end) items O in
      let ce := match comments with Some cm => c_e cm | None => None end in
      let '(e, hasComments) :=
        match hasComments, ce with
        | false, Some p => (makeComment (fst p) (snd p), true)
        | _, _ => (None, hasComments)
        end in
      let cr := match comments with Some cm => c_r cm | None => None end in
      let '(r, hasComments) :=
        match root, cr with
        | true, Some p => (makeComment (fst p) (snd p), true)
        | _, _ => (None, hasComments)
        end in
      (if hasComments then Some (Doc (Some (AMap m)) None None e r None None)
       else None,
       VArray None items')
  | VObject comments props =>
      let children :=
        (fix each (l : list (jstr * value))
           : list (jstr * (option doc * value)) :=
           match l with
           | [] => []
           | kv :: l' => (fst kv, extractComments (snd kv) false) :: each l'
           end) props in
      let props' := map (fun kc => (fst kc, snd (snd kc))) children in
      let keys := extract_keys
                    (match comments with Some cm => c_o cm | None => None end)
                    props in
      let '(s, hasComments) :=
        fold_left
          (fun (acc : list (jstr * doc) * bool) key =>
             let ck := match comments with
                       | Some cm => match c_c cm with
                                    | Some cc => assoc key cc
                                    | None => None
                                    end
                       | None => None
                       end in
             let c := match assoc key children with
                      | Some (c, _) => c
                      | None => None
                      end in
             match saveComment ck c with
             | Some node => (obj_set key node (fst acc), true)
             | None => acc
             end)
          keys ([], false) in
      let ce := match comments with Some cm => c_e cm | None => None end in
      let '(e, hasComments) :=
        match hasComments, ce with
        | false, Some p => (makeComment (fst p) (snd p), true)
        | _, _ => (None, hasComments)
        end in
      let cr := match comments with Some cm => c_r cm | None => None end in
      let '(r, hasComments) :=
        match root, cr with
        | true, Some p => (makeComment (fst p) (snd p), true)
        | _, _ => (None, hasComments)
        end in
      (if hasComments then Some (Doc None (Some s) (Some keys) e r None None)
       else None,
       VObject None props')
  | _ => (None, v)
  end.

(** A step of a path: an index or a key. *)
Inductive pkey := PIdx (i : nat) | PKey (k : jstr).

(** An entry of the orphan list: the result of [makeComment(c.b, c.a)] with
    its [path]. *)
Record dropped := mkDropped {
  dp_b : option jstr;
  dp_a : option doc_a;
  dp_path : list pkey
}.

(** [droppedComment(path, c)]: [makeComment] answers [undefined] when [c] has
    neither [b] nor [a], and the assignment of [path] raises. *)
Definition droppedComment (path : list pkey) (b : option jstr)
           (a : option doc_a) : res dropped :=
  match str_truthy b, a_truthy a with
  | None, None => type_error _ (lit "Cannot set properties of undefined (setting 'path')")
  | b', a' => Ok (mkDropped b' a' path)
  end.

(** [dropped.push(droppedComment(kpath, c)); dropAll(c.x, dropped, kpath)],
    with [D] for [dropAll]. *)
Definition drop_node (D : doc -> list dropped -> list pkey -> res (list dropped))
           (c : doc) (dl : list dropped) (kpath : list pkey)
  : res (list dropped) :=
  rbind (droppedComment kpath (d_b c) (d_a c))
        (fun d => match c with
                  | Doc _ _ _ _ _ _ (Some x) => D x (dl ++ [d]) kpath
                  | _ => Ok (dl ++ [d])
                  end).

Section DropAll.
(** [dropAll], for the calls on the documents of the children. *)
Variable D : doc -> list dropped -> list pkey -> res (list dropped).
Variable path : list pkey.
Variable s : option (list (jstr * doc)).

(** [comments.o.forEach(...)] of [dropAll]. *)
Fixpoint dropAll_keys (keys : list jstr) (dl : list dropped)
  : res (list dropped) :=
  match keys with
  | [] => Ok dl
  | key :: keys' =>
      let kpath := path ++ [PKey key] in
      match s with
      | None => undefined_read _ key
      | Some s =>
          with_assoc key s
            (fun c => rbind (drop_node D c dl kpath) (dropAll_keys keys'))
            (dropAll_keys keys' dl)
      end
  end.
End DropAll.

(** [dropAll(comments, dropped, path)] for a document that is present.  The
    index map of an array node has no [length], so its loop does not run; a
    string in [a] has one, and its characters have neither [b] nor [a]. *)
Fixpoint dropAll (comments : doc) (dl : list dropped) (path : list pkey)
  : res (list dropped) :=
  match comments with
  | Doc a s o e _ _ _ =>
      rbind
        match a_truthy a with
        | Some (AMap _) => Ok dl
        | Some (AText _) =>
            rbind (droppedComment (path ++ [PIdx 0]) None None)
                  (fun d => Ok (dl ++ [d]))
        | None =>
            match o with
            | None => Ok dl
            | Some keys => dropAll_keys dropAll path s keys dl
            end
        end
        (fun dl =>
           match e with
           | Some p =>
               rbind (droppedComment path (fst p) (option_map AText (snd p)))
                     (fun d => Ok (dl ++ [d]))
           | None => Ok dl
           end)
  end.

(** [l[i] = x] on a list of values. *)
Fixpoint set_nth (A : Type) (i : nat) (x : A) (l : list A) : list A :=
  match i, l with
  | _, [] => []
  | O, _ :: l' => x :: l'
  | S j, y :: l' => y :: set_nth j x l'
  end.

Definition or_comments (cm : option Comments) : Comments :=
  match cm with Some c => c | None => no_comments end.

Definition or_nil (A : Type) (l : option (list A)) : list A :=
  match l with Some l => l | None => [] end.

Section Merge.
(** [merge], for the calls on the documents of the children. *)
Variable M : doc -> value -> list dropped -> list pkey -> value * res (list dropped).
Variable path : list pkey.

(** [merge(c.x, child, dropped, kpath)]. *)
Definition merge_child (c : doc) (child : value) (dl : list dropped)
           (kpath : list pkey) : value * res (list dropped) :=
  match c with
  | Doc _ _ _ _ _ _ (Some x) => M x child dl kpath
  | _ => (child, Ok dl)
  end.

(** The [for (const key in a)] loop of [merge] over the index map of an
    array node: the store, the elements, the last index seen and the orphan
    list (or the exception that ended the loop). *)
Fixpoint merge_entries (m : list (nat * doc)) (sc : Comments)
         (items : list value) (last : Z) (dl : list dropped)
  : Comments * list value * Z * res (list dropped) :=
  match m with
  | [] => (sc, items, last, Ok dl)
  | (i, c) :: m' =>
      let kpath := path ++ [PIdx i] in
      match nth_error items i with
      | Some child =>
          let sc := set_a (Some (arr_set i (d_b c, d_a c) (or_nil (c_a sc)))) sc in
          let '(child', rd) := merge_child c child dl kpath in
          let items := set_nth i child' items in
          match rd with
          | Ok dl => merge_entries m' sc items (Z.of_nat i) dl
          | r => (sc, items, Z.of_nat i, r)
          end
      | None =>
          match drop_node dropAll c dl kpath with
          | Ok dl => merge_entries m' sc items (Z.of_nat i) dl
          | r => (sc, items, Z.of_nat i, r)
          end
      end
  end.

(** The same loop over a string in [a]: its characters are nodes without
    properties. *)
Fixpoint merge_chars (n : nat) (i : nat) (sc : Comments) (nitems : nat)
         (last : Z) (dl : list dropped) : Comments * Z * res (list dropped) :=
  match n with
  | O => (sc, last, Ok dl)
  | S n' =>
      if Nat.ltb i nitems then
        merge_chars n' (S i)
          (set_a (Some (arr_set i (None, None) (or_nil (c_a sc)))) sc)
          nitems (Z.of_nat i) dl
      else
        (sc, Z.of_nat i,
         rbind (droppedComment (path ++ [PIdx i]) None None)
               (fun d => Ok (dl ++ [d])))
  end.

(** [(comments.o || []).forEach(...)] of [merge]. *)
Fixpoint merge_keys (s : option (list (jstr * doc))) (keys : list jstr)
         (sc : Comments) (props : list (jstr * value)) (dl : list dropped)
  : Comments * list (jstr * value) * res (list dropped) :=
  match keys with
  | [] => (sc, props, Ok dl)
  | key :: keys' =>
      let kpath := path ++ [PKey key] in
      match s with
      | None => (sc, props, undefined_read _ key)
      | Some sm =>
          match assoc key props with
          | Some child =>
              (* setComments.o?.push(key) *)
              let sc := match c_o sc with
                        | Some ko => set_o (Some (ko ++ [key])) sc
                        | None => sc
                        end in
              with_assoc key sm
                (fun c =>
                   let sc := set_c (Some (obj_set key (d_b c, d_a c)
                                            (or_nil (c_c sc)))) sc in
                   let '(child', rd) := merge_child c child dl kpath in
                   let props := assoc_replace key child' props in
                   match rd with
                   | Ok dl => merge_keys s keys' sc props dl
                   | r => (sc, props, r)
                   end)
                (merge_keys s keys' sc props dl)
          | None =>
              match assoc key sm with
              | Some c =>
                  match drop_node dropAll c dl kpath with
                  | Ok dl => merge_keys s keys' sc props dl
                  | r => (sc, props, r)
                  end
              | None => merge_keys s keys' sc props dl
              end
          end
      end
  end.
End Merge.

(** [merge(comments, value, dropped, path)] for a document that is present:
    the value with its stores written, and the orphan list or the exception.
    The stores are written in place, so what was written before an exception
    stays. *)
Fixpoint merge (comments : doc) (v : value) (dl : list dropped)
         (path : list pkey) {struct comments} : value * res (list dropped) :=
  match comments with
  | Doc a s o e r _ _ =>
      match v with
      | VArray cm items =>
          let setComments := or_comments cm in
          let setComments :=
            match path, r with
            | [], Some p => set_r (Some p) setComments
            | _, _ => setComments
            end in
          let setComments := set_a (Some (or_nil (c_a setComments))) setComments in
          let '(setComments, items, last, rdl) :=
            match a with
            | Some (AMap m) => merge_entries merge path m setComments items (-1)%Z dl
            | Some (AText t) =>
                let '(sc, last, rdl) :=
                  merge_chars path (List.length t) 0 setComments
                              (List.length items) (-1)%Z dl in
                (sc, items, last, rdl)
            | None => (setComments, items, (-1)%Z, Ok dl)
            end in
          match rdl with
          | Ok dl =>
              let setComments :=
                match (last =? 0)%Z, e with
                | true, Some p => set_e (Some p) setComments
                | _, _ => setComments
                end in
              (VArray (Some setComments) items, Ok dl)
          | r => (VArray (Some setComments) items, r)
          end
      | VObject cm props =>
          let setComments := or_comments cm in
          (* createComment: the property is not enumerable from here on *)
          let props := drop_key store_key props in
          let setComments :=
            match path, r with
            | [], Some p => set_r (Some p) setComments
            | _, _ => setComments
            end in
          let '(setComments, props, rdl) :=
            merge_keys merge path s (or_nil o) setComments props dl in
          match rdl with
          | Ok dl =>
              let setComments :=
                match e with
                | Some p => set_e (Some p) setComments
                | None => setComments
                end in
              (VObject (Some setComments) props, Ok dl)
          | r => (VObject (Some setComments) props, r)
          end
      | _ => (v, dropAll comments dl path)
      end
  end.

(** The [setText] argument of [rootComment]. *)
Inductive set_text := Undefined | Null | Text (t : jstr).

(** [rootComment(value, setText, header)]: the value with its store written,
    and the answer. *)
Definition rootComment (v : value) (setText : set_text) (header : nat)
  : value * res jstr :=
  match getComment v with
  | None => (createComment v None, undefined_read _ (lit "r"))
  | Some comment =>
      let r := match c_r comment with
               | Some p => p
               | None => (Some [], Some [])
               end in
      let r := match setText with
               | Undefined => r
               | Null => if Nat.eqb header 0 then (Some (forceComment []), snd r)
                         else (fst r, Some (forceComment []))
               | Text t => if Nat.eqb header 0 then (Some (forceComment t), snd r)
                           else (fst r, Some (forceComment t))
               end in
      (createComment v (Some (set_r (Some r) comment)),
       Ok (or_empty (if Nat.eqb header 0 then fst r else snd r)))
  end.

(** [mergeStr(b, a, e)] on an entry of the orphan list ([e] is
    [undefined]); an index map in [a] has no [trim]. *)
Definition mergeStr (b : option jstr) (a : option doc_a) : res jstr :=
  let add (res : jstr) (c : option jstr) :=
    match c with
    | Some c => match trim c with
                | [] => res
                | t => (match res with [] => [] | _ => res ++ lit "; " end) ++ t
                end
    | None => res
    end in
  match a with
  | Some (AMap _) => type_error _ (lit "c.trim is not a function")
  | Some (AText t) => Ok (add (add [] (str_truthy b)) (Some t))
  | None => Ok (add [] (str_truthy b))
  end.

(** [path.join('/')]. *)
Definition path_join (path : list pkey) : jstr :=
  join (lit "/")
       (map (fun k => match k with
                      | PIdx i => dec_of_Z (Z.of_nat i)
                      | PKey k => k
                      end) path).

(** The footer line of an orphan. *)
Definition orphan_line (c : dropped) : res jstr :=
  rbind (mergeStr (dp_b c) (dp_a c))
        (fun t => Ok (replace_first NL (lit "\n ")
                        (lit "# " ++ path_join (dp_path c) ++ lit ": " ++ t)
                      ++ nl)).

Fixpoint orphan_lines (l : list dropped) (text : jstr) : res jstr :=
  match l with
  | [] => Ok text
  | c :: l' => rbind (orphan_line c) (fun t => orphan_lines l' (text ++ t))
  end.

(** [mergeComments(comments, value)]: the value as the call leaves it, and
    whether the call returned. *)
Definition mergeComments (comments : option doc) (v : value) : value * res unit :=
  match comments with
  | None => (v, Ok tt)
  | Some d =>
      match merge d v [] [] with
      | (v, Ok []) => (v, Ok tt)
      | (v, Ok dl) =>
          match rootComment v Null 1 with
          | (v, Ok text) =>
              match orphan_lines dl (text ++ nl ++ lit "# Orphaned comments:" ++ nl) with
              | Ok text => let '(v, r) := rootComment v (Text text) 1 in
                           (v, rbind r (fun _ => Ok tt))
              | Throw e => (v, Throw e)
              | OutOfFuel => (v, OutOfFuel)
              end
          | (v, Throw e) => (v, Throw e)
          | (v, OutOfFuel) => (v, OutOfFuel)
          end
      | (v, Throw e) => (v, Throw e)
      | (v, OutOfFuel) => (v, OutOfFuel)
      end
  end.

(** The exported [extract], [header] and [footer]. *)
Definition extract (v : value) : option doc * value := extractComments v true.
Definition header (v : value) (setText : option jstr) :=
  rootComment v (Text (or_empty (str_truthy setText))) 0.
Definition footer (v : value) (setText : option jstr) :=
  rootComment v (Text (or_empty (str_truthy setText))) 1.

End Comments.

(* ================================================================== *)
(** * hjson-stringify.ts *)
(* ================================================================== *)

Module Stringify.
Import Common.

Inductive quotes_opt := QMin | QKeys | QStrings | QAll | QAlways.
Inductive multiline_opt := MStd | MNoTabs | MOff.

(** [StringifyOptions] ([types/stringify-options.ts]), with the property
    [keepWhitespaceAndComments] that [stringify] reads and [rt.stringify]
    sets next to the declared [keepWhitespaceAndComment].  [condense] is an
    integer.  [space] as a number is a count that [' '.repeat] accepts, a
    natural number: on a negative or infinite count [repeat] raises a
    [RangeError] before any other option is read, and such an option record
    has no counterpart here, so that every statement about [stringify]
    ranges over the records whose count [repeat] accepts. *)
Record StringifyOptions := mkStringifyOptions {
  keepWhitespaceAndComment : option bool;
  keepWhitespaceAndComments : option bool;
  condense : option Z;
  bracesSameLine : option bool;
  quotes : option quotes_opt;
  separator : option bool;
  multiline : option multiline_opt;
  eol : option jstr;
  sortProps : option bool;
  dsf : option (list Dsf.DSF);
  space : option (nat + jstr);
  colors : option bool;
  emitRootBraces : option bool
}.

Definition default_options : StringifyOptions :=
  mkStringifyOptions None None None None None None None None None None None
                     None None.

Definition set_quotes (q : option quotes_opt) (o : StringifyOptions) :=
  mkStringifyOptions (keepWhitespaceAndComment o) (keepWhitespaceAndComments o)
    (condense o) (bracesSameLine o) q (separator o) (multiline o) (eol o)
    (sortProps o) (dsf o) (space o) (colors o) (emitRootBraces o).

Definition set_emitRootBraces (b : option bool) (o : StringifyOptions) :=
  mkStringifyOptions (keepWhitespaceAndComment o) (keepWhitespaceAndComments o)
    (condense o) (bracesSameLine o) (quotes o) (separator o) (multiline o)
    (eol o) (sortProps o) (dsf o) (space o) (colors o) b.

(** The [Token] table: opening and closing part of every kind of token. *)
Record Token := mkToken {
  t_obj : jstr * jstr; t_arr : jstr * jstr; t_key : jstr * jstr;
  t_qkey : jstr * jstr; t_col : jstr * jstr; t_com : jstr * jstr;
  t_str : jstr * jstr; t_qstr : jstr * jstr; t_mstr : jstr * jstr;
  t_num : jstr * jstr; t_lit : jstr * jstr; t_dsf : jstr * jstr;
  t_esc : jstr * jstr; t_uni : jstr * jstr; t_rem : jstr * jstr
}.

Definition plainToken : Token :=
  mkToken (lit "{", lit "}") (lit "[", lit "]") ([], []) (dq, dq)
          (lit ":", []) (lit ",", []) ([], []) (dq, dq)
          (lit "'''", lit "'''") ([], []) ([], []) ([], [])
          (lit "\", []) (lit "\u", []) ([], []).

(** [\x1b[ ... m]. *)
Definition sgr (code : string) : jstr := 27%N :: lit "[" ++ lit code ++ lit "m".

Definition ColorToken : Token :=
  mkToken (sgr "37" ++ lit "{" ++ sgr "0", sgr "37" ++ lit "}" ++ sgr "0")
          (sgr "37" ++ lit "[" ++ sgr "0", sgr "37" ++ lit "]" ++ sgr "0")
          (sgr "33", sgr "0")
          (sgr "33" ++ dq, dq ++ sgr "0")
          (sgr "37" ++ lit ":" ++ sgr "0", [])
          (sgr "37" ++ lit "," ++ sgr "0", [])
          (sgr "37;1", sgr "0")
          (sgr "37;1" ++ dq, dq ++ sgr "0")
          (sgr "37;1" ++ lit "'''", lit "'''" ++ sgr "0")
          (sgr "36;1", sgr "0")
          (sgr "36", sgr "0")
          (sgr "37", sgr "0")
          (sgr "31" ++ lit "\", sgr "0")
          (sgr "31" ++ lit "\u", sgr "0")
          (sgr "35", sgr "0").

(** ** The regular expressions *)

Definition in_range (lo hi : N) (c : char) : bool := ((lo <=? c) && (c <=? hi))%N.

(** [commonRange]. *)
Definition commonRange (c : char) : bool :=
  in_range 127 159 c || (c =? 173)%N || in_range 1536 1540 c || (c =? 1807)%N
  || (c =? 6068)%N || (c =? 6069)%N || in_range 8204 8207 c
  || in_range 8232 8239 c || in_range 8288 8303 c || (c =? 65279)%N
  || in_range 65520 65535 c.

(** [needsEscape.test(s)]. *)
Definition needsEscape_char (c : char) : bool :=
  isc "\" c || is_dq c || in_range 0 31 c || commonRange c.
Definition needsEscape (s : jstr) : bool := existsb needsEscape_char s.

(** [needsQuotes.test(s)]. *)
Definition needsQuotes (s : jstr) : bool :=
  match s with
  | c :: r =>
      is_ws c || is_dq c || isc "'" c || isc "#" c
      || (isc "/" c && match r with d :: _ => isc "*" d || isc "/" d | [] => false end)
      || isc "{" c || isc "}" c || isc "[" c || isc "]" c || isc ":" c || isc "," c
  | [] => false
  end
  || match List.rev s with c :: _ => is_ws c | [] => false end
  || existsb (fun c => in_range 0 31 c || commonRange c) s.

(** [startsWithKeyword.test(s)]. *)
Definition startsWithKeyword (s : jstr) : bool :=
  let after (kw : string) : option jstr :=
    if starts_with (lit kw) s
    then Some (trimStart (skipn (List.length (lit kw)) s)) else None in
  let tail_ok (r : jstr) :=
    match r with
    | [] => true
    | c :: r' =>
        (isc "," c || isc "]" c || isc "}" c || isc "#" c) &&
        negb (existsb is_line_terminator r')
        || isc "/" c && match r' with
                        | d :: r'' => (isc "/" d || isc "*" d) &&
                                      negb (existsb is_line_terminator r'')
                        | [] => false
                        end
    end in
  match after "true"%string, after "false"%string, after "null"%string with
  | Some r, _, _ => tail_ok r
  | _, Some r, _ => tail_ok r
  | _, _, Some r => tail_ok r
  | _, _, _ => false
  end.

(** [needsEscapeML.test(s)], the regular expression built for the value of
    [multiline]. *)
Definition needsEscapeML (multiline : nat) (s : jstr) : bool :=
  includes (lit "'''") s
  || match s with [] => false | _ => forallb is_ws s end
  || existsb (fun c => in_range 0 (if Nat.eqb multiline 2 then 9 else 8) c
                       || (c =? 11)%N || (c =? 12)%N || in_range 14 31 c
                       || commonRange c) s.

(** [meta]. *)
Definition meta (c : char) : option char :=
  if (c =? 8)%N then Some (chr "b")
  else if (c =? 9)%N then Some (chr "t")
  else if (c =? 10)%N then Some (chr "n")
  else if (c =? 12)%N then Some (chr "f")
  else if (c =? 13)%N then Some (chr "r")
  else if is_dq c then Some DQ
  else if isc "\" c then Some (chr "\")
  else None.

(** [JSON.stringify(s).slice(1, -1)] on a string: the characters of the
    JSON string literal between its quotes. *)
Fixpoint json_quote (s : jstr) : jstr :=
  match s with
  | [] => []
  | c :: r =>
      match meta c with
      | Some m => lit "\" ++ [m] ++ json_quote r
      | None =>
          if (c <? 32)%N then lit "\u" ++ hex4 c ++ json_quote r
          else if in_range 55296 56319 c then       (* a leading surrogate *)
            match r with
            | d :: r' =>
                if in_range 56320 57343 d then c :: d :: json_quote r'
                else lit "\u" ++ hex4 c ++ json_quote r
            | [] => lit "\u" ++ hex4 c
            end
          else if in_range 56320 57343 c then        (* a lone trailing one *)
            lit "\u" ++ hex4 c ++ json_quote r
          else c :: json_quote r
      end
  end.

(** [keys.sort()]: ascending by code units. *)
Fixpoint sort_insert (k : jstr) (l : list jstr) : list jstr :=
  match l with
  | [] => [k]
  | x :: l' => if jltb k x then k :: l else x :: sort_insert k l'
  end.
Definition sort_keys (l : list jstr) : list jstr :=
  fold_left (fun acc k => sort_insert k acc) l [].

(** The properties [b] and [a] of an entry of [a] or [c] in the store: the
    entry is a two-element array, which has neither. *)
Definition entry_b (p : cpair) : option jstr := None.
Definition entry_a (p : cpair) : option jstr := None.

(** [startsWithNL(str)], [commentOnThisLine(str)]. *)
Definition startsWithNL (str : jstr) : bool :=
  match str with
  | c :: r => if is_cr c then match r with d :: _ => is_nl d | [] => false end
              else is_nl c
  | [] => false
  end.
Definition commentOnThisLine (str : option jstr) : bool :=
  match str with
  | Some ((_ :: _) as s) => negb (startsWithNL s)
  | _ => false
  end.

Section Stringifier.
Variable token : Token.
Variable eol_ : jstr.
Variable indent : jstr.
Variable keepComments : bool.
Variable bracesSameLine_ : bool.
Variable quoteKeys : bool.
Variable quoteStrings : bool.
Variable condense_ : Z.
Variable multiline_ : nat.
Variable sortProps_ : bool.
Variable hooks : list Dsf.DSF.

(** [wrap(tk, v)]; the length it accumulates in [wrapLen] is never read. *)
Definition wrap (tk : jstr * jstr) (v : jstr) : jstr := fst tk ++ v ++ snd tk.

(** [isKeyword(value)]. *)
Definition isKeyword (s : jstr) : bool :=
  jeqb s (lit "true") || jeqb s (lit "false") || jeqb s (lit "null")
  || match tryParseNumber s false with Some _ => true | None => false end.

Definition isChar (c : char) : bool :=
  (32 <=? c)%N && (c <=? 126)%N && negb (isc "'" c) && negb (is_dq c)
  && negb (isc "{" c) && negb (isc "}" c) && negb (isc "[" c)
  && negb (isc "]" c) && negb (isc ":" c) && negb (isc "," c).

(** The loop of [isSafeString]. *)
Fixpoint all_safe (s : jstr) : bool :=
  match s with
  | [] => true
  | c :: r =>
      if (isc "/" c && match r with d :: _ => isc "/" d || isc "*" d | [] => false end)
         || isc "#" c
      then false
      else if negb (isChar c) then false
      else all_safe r
  end.

(** [isSafeString(value)]. *)
Definition isSafeString (s : jstr) : bool :=
  match s with
  | [] => false
  | _ => if isKeyword s then false else all_safe s
  end.

(** [quoteReplace(string)]. *)
Definition quoteReplace (s : jstr) : jstr :=
  flat_map (fun a => if needsEscape_char a
                     then match meta a with
                          | Some c => wrap (t_esc token) [c]
                          | None => wrap (t_uni token) (hex4 a)
                          end
                     else [a]) s.

(** The loop of [mlString] over the lines. *)
Fixpoint ml_lines (lines : list jstr) (first : bool) (innerIndent : jstr) : jstr :=
  match lines with
  | [] => []
  | line :: rest =>
      let last := match rest with [] => true | _ => false end in
      let isEmpty := match trim line with [] => true | _ => false end in
      (if (first || last) && isEmpty then line else innerIndent ++ line)
      ++ (if last then [] else eol_)
      ++ ml_lines rest false innerIndent
  end.

(** [mlString(value, level)]. *)
Definition mlString (s : jstr) (level : nat) : jstr :=
  let lines := split_on NL (filter (fun c => negb (is_cr c)) s) in
  let multilineStringIndent := repeat_str indent (level + 1) in
  match lines with
  | [_] =>
      if negb (includes (lit "'''") s)
      then multilineStringIndent ++ fst (t_mstr token) ++ s ++ snd (t_mstr token)
      else multilineStringIndent ++ fst (t_mstr token) ++ eol_
           ++ ml_lines lines true multilineStringIndent
           ++ (match List.rev s with c :: _ => if is_nl c then [] else eol_ | [] => eol_ end)
           ++ multilineStringIndent ++ snd (t_mstr token)
  | _ =>
      multilineStringIndent ++ fst (t_mstr token) ++ eol_
      ++ ml_lines lines true multilineStringIndent
      ++ (match List.rev s with c :: _ => if is_nl c then [] else eol_ | [] => eol_ end)
      ++ multilineStringIndent ++ snd (t_mstr token)
  end.

(** [quotelessString(value, separator, level, isRootObject, hasComment)]. *)
Definition quotelessString (s : jstr) (separator_ : jstr) (level : nat)
           (isRootObject hasComment : bool) : jstr :=
  if quoteStrings || hasComment || truthy separator_ || needsQuotes s
     || match tryParseNumber s true with Some _ => true | None => false end
     || startsWithKeyword s
  then
    if negb (needsEscapeML multiline_ s) && negb isRootObject
       && negb (Nat.eqb multiline_ 0)
    then mlString s level
    else if negb (needsEscape s) then wrap (t_qstr token) s
    else wrap (t_qstr token) (quoteReplace s)
  else wrap (t_str token) s.

(** [quoteKey(key)]. *)
Definition quoteKey (key : jstr) : jstr :=
  if jeqb key (lit "null") && negb quoteKeys then wrap (t_key token) key
  else if quoteKeys || negb (isSafeString key)
       then wrap (t_qkey token) (json_quote key)
       else wrap (t_key token) key.

(** [makeComment(str, prefix, trim)]. *)
Definition makeComment (str : jstr) (prefix : jstr) (trim_ : bool) : jstr :=
  match str with
  | [] => []
  | _ =>
      let str := forceComment str in
      let len_ := List.length str in
      let i := List.length str - List.length
                 ((fix skip (l : jstr) := match l with
                                          | c :: r => if (c <=? 32)%N then skip r else l
                                          | [] => []
                                          end) str) in
      let str' := if trim_ && Nat.ltb 0 i then skipn i str else str in
      if Nat.ltb i len_ then prefix ++ wrap (t_rem token) str' else str'
  end.

(** The lines of the [e] entry of a store before the closing bracket. *)
Definition end_comment (wsc : option Comments) (indent2 : jstr) : res jstr :=
  match wsc with
  | Some c =>
      match c_e c with
      | Some (e0, e1) =>
          match e0 with
          | None => type_error _ (lit "Cannot read properties of undefined (reading 'replace')")
          | Some e0 =>
              Ok (indent2 ++ replace_all NL (eol_ ++ indent2) e0 ++ eol_
                  ++ match e1 with
                     | Some ((_ :: _) as e1) =>
                         indent2 ++ replace_all NL (eol_ ++ indent2) e1 ++ eol_
                     | _ => []
                     end)
          end
      | None => Ok []
      end
  | None => Ok []
  end.

(** The comment lines before a member and the comment after it, from the
    properties [b] and [a] of its entry. *)
Definition comment_before (comment : option cpair) (indent2 : jstr) : jstr :=
  match comment with
  | Some p => match entry_b p with
              | Some ((_ :: _) as b) =>
                  indent2 ++ replace_all NL (eol_ ++ indent2) (makeComment b [] false)
                  ++ eol_
              | _ => []
              end
  | None => []
  end.
Definition comment_after (comment : option cpair) (indent2 : jstr) : jstr :=
  match comment with
  | Some p => match entry_a p with
              | Some ((_ :: _) as a) =>
                  replace_all NL (eol_ ++ indent2)
                    (makeComment a (if commentOnThisLine (Some a) then lit " " else [])
                                 (commentOnThisLine (Some a)))
              | _ => []
              end
  | None => []
  end.
(** [comment && (commentOnThisLine(comment.a) || comment.b)], as a boolean. *)
Definition has_comment (comment : option cpair) : bool :=
  match comment with
  | Some p => commentOnThisLine (entry_a p)
              || match entry_b p with Some (_ :: _) => true | _ => false end
  | None => false
  end.

Section Members.
(** [visit], for the calls on the members of an array or object. *)
Variable V : value -> jstr -> nat -> bool -> bool -> res jstr.

(** The loop of the one-line form of an array. *)
Fixpoint condensed_items (separator_ : jstr) (l : list value) (i : nat)
         (res2 : jstr) : res jstr :=
  match l with
  | [] => Ok res2
  | x :: l' =>
      rbind (V x separator_ 0 false false)
        (fun s =>
           condensed_items separator_ l' (S i)
             (res2 ++ (if Nat.ltb 0 i then fst (t_com token) ++ lit " " else [])
              ++ s))
  end.

(** [wsc ? wsc.a[i] : undefined]. *)
Definition array_comment (wsc : option Comments) (i : nat) : res (option cpair) :=
  match wsc with
  | Some c =>
      match c_a c with
      | Some a => Ok (arr_get i a)
      | None => undefined_read _ (dec_of_Z (Z.of_nat i))
      end
  | None => Ok None
  end.

(** The loop over the elements of an array, one per line. *)
Fixpoint array_items (wsc : option Comments) (separator_ : jstr) (level : nat)
         (indent2 : jstr) (l : list value) (i : nat) (result : jstr)
  : res jstr :=
  match l with
  | [] => Ok result
  | x :: l' =>
      rbind (array_comment wsc i)
        (fun comment =>
           let result := result ++ comment_before comment indent2 in
           rbind (V x separator_ (level + 1) false (has_comment comment))
             (fun s =>
                array_items wsc separator_ level indent2 l' (S i)
                  (result ++ indent2 ++ s
                   ++ (match l' with
                       | [] => []
                       | _ => fst (t_com token)
                       end)
                   ++ comment_after comment indent2
                   ++ eol_)))
  end.

(** The loop over the keys of an object, one member per line; a key that is
    no own property of the object is skipped. *)
Fixpoint object_members (isComment : option (list (jstr * cpair)))
         (separator_ : jstr) (level : nat) (indent2 : jstr)
         (props : list (jstr * value)) (ks : list jstr) (result : jstr)
  : res jstr :=
  match ks with
  | [] => Ok result
  | key :: ks' =>
      if jeqb key (lit "__COMMENTS")
      then object_members isComment separator_ level indent2 props ks' result
      else
        with_assoc key props
          (fun x =>
             let comment := match isComment with
                            | Some cc => assoc key cc
                            | None => None
                            end in
             let result := result ++ comment_before comment indent2 in
             rbind (V x separator_ (level + 1) false (has_comment comment))
               (fun vs =>
                  object_members isComment separator_ level indent2 props ks'
                    (result ++ indent2 ++ quoteKey key
                     ++ fst (t_col token) ++ lit " " ++ vs
                     ++ (if truthy separator_ then fst (t_com token) else [])
                     ++ comment_after comment indent2
                     ++ eol_)))
          (object_members isComment separator_ level indent2 props ks' result)
  end.

(** An array: [[]] when it is empty; else the one-line form if it is
    allowed and short enough; else one element per line. *)
Definition visit_array (wsc : option Comments) (items : list value)
           (separator_ : jstr) (level : nat) (hasComment : bool) : res jstr :=
  match items with
  | [] => Ok (lit "[]")
  | _ =>
  rbind
    (if (0 <? condense_)%Z
        && match wsc with None => true | Some _ => false end
        && negb hasComment
     then
       rbind (condensed_items separator_ items O (lit "[ "))
         (fun res2 =>
            let res2 := res2 ++ lit " ]" in
            Ok (if (len res2 <=? condense_)%Z then Some res2 else None))
     else Ok None)
    (fun condensed =>
       match condensed with
       | Some res2 => Ok res2
       | None =>
           let indent1 := fst (t_arr token) in
           let indent2 := repeat_str indent (level + 1) in
           let indent3 := repeat_str indent level in
           rbind (array_items wsc separator_ level indent2 items O (indent1 ++ eol_))
             (fun result =>
                rbind (end_comment wsc indent2)
                  (fun e => Ok (result ++ e ++ indent3 ++ snd (t_arr token))))
       end)
  end.

(** An object: [{}] when it has no property; else the one-line form if it
    is allowed, the object has a single property [(key0, value0)] and the
    line is short enough; else one member per line. *)
Definition visit_object (wsc : option Comments) (props : list (jstr * value))
           (separator_ : jstr) (level : nat) (rootObject hasComment : bool)
  : res jstr :=
  match props with
  | [] => Ok (lit "{}")
  | (key0, value0) :: rest =>
  let keys := map fst props in
  let showBraces := rootObject in
  rbind
    (if (0 <? condense_)%Z
        && match wsc with None => true | Some _ => false end
        && negb hasComment
        && match rest with [] => true | _ => false end   (* hasSingleProp *)
     then
       rbind (V value0 separator_ 0 false false)
         (fun s =>
            let res2 := lit "{" ++ quoteKey key0 ++ fst (t_col token)
                        ++ lit " " ++ s ++ lit "}" in
            Ok (if (len res2 <=? condense_)%Z then Some res2 else None))
     else Ok None)
    (fun condensed =>
       match condensed with
       | Some res2 => Ok res2
       | None =>
           let indent1 := if showBraces then fst (t_obj token) else [] in
           let indent2 := repeat_str indent (level + 1) in
           let indent3 := repeat_str indent level in
           let isComment := match wsc with Some c => c_c c | None => None end in
           let result :=
             if showBraces
             then if bracesSameLine_ then indent1 ++ lit " "
                  else indent1 ++ eol_
             else [] in
           let keys2 :=
             match match wsc with Some c => c_o c | None => None end with
             | Some o => o
             | None => if sortProps_ then sort_keys keys else keys
             end in
           rbind (object_members isComment separator_ level indent2 props keys2 result)
             (fun result =>
                rbind (end_comment wsc indent2)
                  (fun e => Ok (result ++ e ++ indent3 ++ snd (t_obj token))))
       end)
  end.

End Members.

(** [visit(value, separator, level, rootObject, hasComment)]. *)
Fixpoint visit (v : value) (separator_ : jstr) (level : nat)
         (rootObject hasComment : bool) {struct v} : res jstr :=
  rbind (Dsf.runDsf_stringify hooks v)
    (fun dsfValue =>
       match dsfValue with
       | Some s => Ok s
       | None =>
         let commentInfo := if keepComments then getComment v else None in
         match v with
         | VNull => Ok (wrap (t_lit token) (lit "null"))
         | VBool b => Ok (wrap (t_lit token) (if b then lit "true" else lit "false"))
         | VString s =>
             if quoteStrings then Ok (wrap (t_qstr token) (json_quote s))
             else if negb (Nat.eqb multiline_ 0) && negb rootObject
                     && (0 <=? indexOf NL s)%Z
             then Ok (nl ++ mlString s level)
             else Ok (quotelessString s separator_ level rootObject false)
         | VNumber n =>
             if isFinite n then Ok (wrap (t_num token) (number_to_string n))
             else Ok (wrap (t_lit token) (lit "null"))
         | VArray _ items =>
             visit_array visit commentInfo items separator_ level hasComment
         | VObject _ props =>
             visit_object visit commentInfo props separator_ level
                          rootObject hasComment
         | VUndefined | VFunction => Ok (wrap (t_lit token) (lit "null"))
         end
       end).

End Stringifier.

(** The settings [stringify] derives from its options. *)
Definition opt_quotes (opt : option StringifyOptions) : option quotes_opt :=
  match opt with
  | Some o => match quotes o with
              | Some QAlways => Some QStrings   (* the legacy 'always' *)
              | q => q
              end
  | None => None
  end.

Definition opt_get (A : Type) (f : StringifyOptions -> option A)
           (opt : option StringifyOptions) : option A :=
  match opt with Some o => f o | None => None end.

Definition opt_flag (f : StringifyOptions -> option bool)
           (opt : option StringifyOptions) : bool :=
  match opt_get f opt with Some b => b | None => false end.

Definition opt_quoteKeys (opt : option StringifyOptions) : bool :=
  match opt_quotes opt with Some QAll | Some QKeys => true | _ => false end.

Definition opt_quoteStrings (opt : option StringifyOptions) : bool :=
  match opt_quotes opt with Some QAll | Some QStrings => true | _ => false end
  || opt_flag separator opt.

Definition opt_multiline (opt : option StringifyOptions) : nat :=
  if opt_quoteStrings opt then 0
  else match opt_get multiline opt with
       | Some MStd | None => 1
       | Some MNoTabs => 2
       | Some MOff => 0
       end.

(** [typeof opt?.space === 'number' ? ' '.repeat(opt.space)
    : (opt?.space ?? '  ')], for a count that [repeat] accepts. *)
Definition opt_indent (opt : option StringifyOptions) : jstr :=
  match opt_get space opt with
  | Some (inl n) => repeat_str (lit " ") n
  | Some (inr s) => s
  | None => lit "  "
  end.

(** [stringify(value, opt)]; [os_eol] is what [common.getEOL()] answers. *)
Definition stringify (os_eol : jstr) (v : value) (opt : option StringifyOptions)
  : res jstr :=
  let token := if opt_flag colors opt then ColorToken else plainToken in
  let eol_ := match opt_get eol opt with Some e => e | None => os_eol end in
  let keepComments := opt_flag keepWhitespaceAndComments opt in
  let condense_ := match opt_get condense opt with Some n => n | None => 0%Z end in
  let separator_ := if opt_flag separator opt then lit "," else [] in
  rbind (Dsf.loadDsf (opt_get dsf opt))
    (fun hooks =>
       let comments :=
         if keepComments
         then match getComment v with Some c => c_r c | None => None end
         else None in
       let result :=
         match comments with
         | Some (Some ((_ :: _) as h), _) => h ++ nl
         | _ => []
         end in
       rbind (visit token eol_ (opt_indent opt) keepComments
                    (opt_flag bracesSameLine opt) (opt_quoteKeys opt)
                    (opt_quoteStrings opt) condense_ (opt_multiline opt)
                    (opt_flag sortProps opt) hooks
                    v separator_ 0 true false)
         (fun s =>
            Ok (result ++ s ++
                match comments with
                | Some (_, f) => or_empty f
                | None => []
                end))).

(** [rt.stringify(value, options)] of [hjson.ts]. *)
Definition rt_stringify (os_eol : jstr) (v : value) (options : option StringifyOptions)
  : res jstr :=
  let o := match options with Some o => o | None => default_options end in
  stringify os_eol v
    (Some (mkStringifyOptions (keepWhitespaceAndComment o) (Some true)
             (condense o) (bracesSameLine o) (quotes o) (separator o)
             (multiline o) (eol o) (sortProps o) (dsf o) (space o) (colors o)
             (emitRootBraces o))).

End Stringify.

(** [rt.parse(text, options)] of [hjson.ts]. *)
Definition rt_parse (text : jstr) (options : option Parse.ParseOptions)
  : res value :=
  let opts := match options with Some o => o | None => Parse.no_options end in
  Parse.parse text (Some (Parse.set_keepWhitespaceAndComments true opts)).

(* ================================================================== *)
(** * Notions the properties are stated with *)
(* ================================================================== *)

Import Common.

Unset Implicit Arguments.

(** A text given line by line. *)
Definition text_of (ls : list string) : jstr := join nl (map lit ls).

(** The payload of a value: the value without its hidden stores. *)
Fixpoint payload (v : value) : value :=
  match v with
  | VArray _ items => VArray None (map payload items)
  | VObject _ props =>
      VObject None (map (fun kv => (fst kv, payload (snd kv))) props)
  | _ => v
  end.

(** No object of the value, at any depth, has a member named
    [__COMMENTS__]: the property of that name is the store or absent. *)
Fixpoint no_store_key (v : value) : bool :=
  match v with
  | VArray _ items => forallb no_store_key items
  | VObject _ props =>
      negb (has_key store_key props)
      && forallb (fun kv => no_store_key (snd kv)) props
  | _ => true
  end.

(** A key for which the assignment [object[key] = value] of the parser
    makes a member of the object: not [__proto__], which names the prototype,
    and not [__COMMENTS__], which names the store. *)
Definition own_key (k : jstr) : bool :=
  negb (jeqb k (lit "__proto__")) && negb (jeqb k store_key).

(** Every key of the value, at any depth, is such a key.  The parser of the
    embedding keeps every key it reads, so on a value it returns this says
    that the text has none of the two keys in what is returned. *)
Fixpoint own_keys (v : value) : bool :=
  match v with
  | VArray _ items => forallb own_keys items
  | VObject _ props =>
      forallb (fun kv => own_key (fst kv) && own_keys (snd kv)) props
  | _ => true
  end.

(** [parse(stringify(v))] with default options, on a platform whose end of
    line is a line feed. *)
Definition roundtrip (v : value) : res value :=
  rbind (Stringify.stringify nl v None) (fun s => Parse.parse s None).

(** Every comment text a document holds. *)
Fixpoint doc_texts (d : doc) : list jstr :=
  match d with
  | Doc a s o e r b x =>
      (match b with Some t => [t] | None => [] end)
      ++ (match a with
          | Some (AText t) => [t]
          | Some (AMap m) => flat_map (fun kc => doc_texts (snd kc)) m
          | None => []
          end)
      ++ (match s with
          | Some m => flat_map (fun kc => doc_texts (snd kc)) m
          | None => []
          end)
      ++ (match e with
          | Some (x, y) => (match x with Some t => [t] | None => [] end)
                           ++ (match y with Some t => [t] | None => [] end)
          | None => []
          end)
      ++ (match r with
          | Some (x, y) => (match x with Some t => [t] | None => [] end)
                           ++ (match y with Some t => [t] | None => [] end)
          | None => []
          end)
      ++ (match x with Some d' => doc_texts d' | None => [] end)
  end.

(** The options that ask the parser itself to keep comments. *)
Definition keep_wsc : option Parse.ParseOptions :=
  Some (Parse.mkParseOptions None (Some true) None None).

(** Extract the comments of a text, merge them back onto the unchanged value
    and extract again: the first document, the outcome of the merge and the
    second document. *)
Definition extract_merge_extract (t : jstr)
  : option (option doc * res unit * option doc) :=
  match Parse.parse t keep_wsc with
  | Ok v0 =>
      let '(d, v) := Comments.extract v0 in
      let '(v', r) := Comments.mergeComments d v in
      Some (d, r, fst (Comments.extract v'))
  | _ => None
  end.

(** The payload of the members of an object. *)
Definition payload_props (props : list (jstr * value)) :=
  map (fun kv => (fst kv, payload (snd kv))) props.


(** Induction on documents, with the hypothesis on the nodes of the members
    and on the document under [x]. *)
Section DocInd.
Variable P : doc -> Prop.
Hypothesis Hdoc :
  forall a s o e r b x,
    match a with
    | Some (AMap m) => Forall (fun kc => P (snd kc)) m
    | _ => True
    end ->
    match s with
    | Some l => Forall (fun kc => P (snd kc)) l
    | None => True
    end ->
    match x with Some d => P d | None => True end ->
    P (Doc a s o e r b x).

Fixpoint doc_induction (d : doc) : P d :=
  match d with
  | Doc a s o e r b x =>
      Hdoc a s o e r b x
        match a return match a with
                       | Some (AMap m) => Forall (fun kc => P (snd kc)) m
                       | _ => True
                       end with
        | Some (AMap m) =>
            (fix all (m : list (nat * doc)) : Forall (fun kc => P (snd kc)) m :=
               match m with
               | [] => Forall_nil _
               | kc :: m' => Forall_cons kc (doc_induction (snd kc)) (all m')
               end) m
        | Some (AText _) => I
        | None => I
        end
        match s return match s with
                       | Some l => Forall (fun kc => P (snd kc)) l
                       | None => True
                       end with
        | Some l =>
            (fix all (l : list (jstr * doc)) : Forall (fun kc => P (snd kc)) l :=
               match l with
               | [] => Forall_nil _
               | kc :: l' => Forall_cons kc (doc_induction (snd kc)) (all l')
               end) l
        | None => I
        end
        match x return match x with Some d => P d | None => True end with
        | Some d => doc_induction d
        | None => I
        end
  end.
End DocInd.


(** What the proof needs of the recursive calls. *)
Definition keeps_payload
  (M : doc -> value -> list Comments.dropped -> list Comments.pkey
       -> value * res (list Comments.dropped)) (d : doc) : Prop :=
  forall v dl path,
    no_store_key v = true -> payload (fst (M d v dl path)) = payload v.

Definition child_keeps_payload M (c : doc) : Prop :=
  match d_x c with Some x => keeps_payload M x | None => True end.


(** The brace tokens of the table [stringify] selects. *)
Definition obj_token (opt : option Stringify.StringifyOptions) : jstr * jstr :=
  Stringify.t_obj (if Stringify.opt_flag Stringify.colors opt
                   then Stringify.ColorToken else Stringify.plainToken).

(** The root comments [stringify] puts before and after the value. *)
Definition root_comments (v : value) (opt : option Stringify.StringifyOptions)
  : option epair :=
  if Stringify.opt_flag Stringify.keepWhitespaceAndComments opt
  then match getComment v with Some c => c_r c | None => None end
  else None.
Definition root_header (v : value) (opt : option Stringify.StringifyOptions) : jstr :=
  match root_comments v opt with
  | Some (Some ((_ :: _) as h), _) => h ++ nl
  | _ => []
  end.
Definition root_footer (v : value) (opt : option Stringify.StringifyOptions) : jstr :=
  match root_comments v opt with
  | Some (_, f) => or_empty f
  | None => []
  end.

(** A root object for the instances of the properties. *)
Definition C10_witness_value : value :=
  VObject None [(lit "a", VNumber (Num false 1 0))].


(** Induction on values, with the hypothesis on the elements of an array
    and on the members of an object. *)
Section ValueInd.
Variable P : value -> Prop.
Hypothesis Hundefined : P VUndefined.
Hypothesis Hnull : P VNull.
Hypothesis Hbool : forall b, P (VBool b).
Hypothesis Hnumber : forall n, P (VNumber n).
Hypothesis Hstring : forall s, P (VString s).
Hypothesis Hfunction : P VFunction.
Hypothesis Harray : forall cm items, Forall P items -> P (VArray cm items).
Hypothesis Hobject :
  forall cm props, Forall (fun kv => P (snd kv)) props -> P (VObject cm props).

Fixpoint value_induction (v : value) : P v :=
  match v with
  | VUndefined => Hundefined
  | VNull => Hnull
  | VBool b => Hbool b
  | VNumber n => Hnumber n
  | VString s => Hstring s
  | VFunction => Hfunction
  | VArray cm items =>
      Harray cm items
        ((fix all (l : list value) : Forall P l :=
            match l with
            | [] => Forall_nil _
            | x :: l' => Forall_cons x (value_induction x) (all l')
            end) items)
  | VObject cm props =>
      Hobject cm props
        ((fix all (l : list (jstr * value)) : Forall (fun kv => P (snd kv)) l :=
            match l with
            | [] => Forall_nil _
            | kv :: l' => Forall_cons kv (value_induction (snd kv)) (all l')
            end) props)
  end.
End ValueInd.

(** A token a [stringify] hook may answer: not empty, no leading double
    quote, none of the characters [isInvalidDsfChar] rejects. *)
Definition valid_token (r : jstr) : bool :=
  negb (match r with [] => true | c :: _ => is_dq c end
        || existsb Dsf.isInvalidDsfChar r).

(** Plug-in records that are well formed: they pass the check of [loadDsf],
    and their [stringify] hooks answer valid tokens. *)
Definition hooks_ok (hooks : list Dsf.DSF) : Prop :=
  forall x, In x hooks ->
            forall v r, Dsf.stringify x v = Some r -> valid_token r = true.

Definition dsf_ok (opt : option Stringify.StringifyOptions) : Prop :=
  exists hooks, Dsf.loadDsf (Stringify.opt_get Stringify.dsf opt) = Ok hooks
                /\ hooks_ok hooks.

(** A store the parser or the merger can have written: the store of an
    array has its [a], and an [e] has its first element. *)
Definition store_ok (is_array : bool) (cm : option Comments) : bool :=
  match cm with
  | Some c =>
      (negb is_array || match c_a c with Some _ => true | None => false end)
      && match c_e c with
         | Some (None, _) => false
         | _ => true
         end
  | None => true
  end.

Fixpoint stores_ok (v : value) : bool :=
  match v with
  | VArray cm items => store_ok true cm && forallb stores_ok items
  | VObject cm props =>
      store_ok false cm && forallb (fun kv => stores_ok (snd kv)) props
  | _ => true
  end.

(** The values that have no Hjson form of their own. *)
Definition uncoercible (v : value) : bool :=
  match v with
  | VUndefined | VFunction => true
  | VNumber n => negb (isFinite n)
  | _ => false
  end.

Definition C4_witness_value : value :=
  VObject None [(lit "f", VFunction); (lit "u", VUndefined);
                (lit "n", VArray None [VNumber NaN; VNumber (Infinity true)])].


(** ** Errors of the parser *)

(** The text [error] appends to its message with the cursor at [at0]. *)
Definition position_text (text : jstr) (at0 : Z) : jstr :=
  lit " at line " ++ dec_of_Z (Parse.error_line text at0) ++ lit "," ++
  dec_of_Z (Parse.error_col text at0) ++ lit " >>> " ++
  Parse.error_snippet text at0 ++ lit " ...".

(** An error whose message [error] has built. *)
Definition positioned (text : jstr) (e : error) : Prop :=
  exists m at0, message e = m ++ position_text text at0.

(** A parser function whose [Error]s all are built by [error]. *)
Definition raises_positioned (text : jstr) (A : Type) (m : Parse.P A) : Prop :=
  forall st e, m st = Throw e -> eclass e = ErrorC -> positioned text e.

(** The input of the counterexample to C7. *)
Definition C7_text : jstr :=
  text_of ["{"; "  abc def ghi jkl, mno pqr stu vwx yz: 1"; "}"]%string.


(** ** The quoteless scan, on the characters that follow *)

(** [tfnns] at the end of a line, as the code has it: the test on the first
    character of the text, then the DSF hooks on the trimmed text, then the
    trimmed text. *)
Definition resolve_token (runDsf : jstr -> value) (val : jstr) : value :=
  match Parse.tfnns_literal val with
  | Some v => v
  | None => let val := trim val in
            match runDsf val with
            | VUndefined => VString val
            | dsfValue => dsfValue
            end
  end.

(** [c], followed by [rest], is [,], [}], []] or opens a comment. *)
Definition is_break (c : char) (rest : jstr) : bool :=
  isc "," c || isc "}" c || isc "]" c || isc "#" c
  || isc "/" c && match rest with d :: _ => isc "/" d || isc "*" d | [] => false end.

(** ** The cursor invariant and the outcome of a parser function *)

(** [ch] is the character before [at]; a cursor that was reset holds a
    space. *)
Definition consistent (text : jstr) (st : cursor) : Prop :=
  (at_ st = 0 /\ ch st = Some (chr " "))%Z
  \/ (1 <= at_ st /\ ch st = charAt text (at_ st - 1))%Z.

(** An outcome that is no exhaustion of the fuel and, when it is a result,
    satisfies [Q]. *)
Definition fine (A : Type) (Q : A -> cursor -> Prop) (r : res (A * cursor)) : Prop :=
  match r with
  | Ok (a, st') => Q a st'
  | Throw _ => True
  | OutOfFuel => False
  end.

(** The cursor is consistent and has advanced by [k] at least from [st]. *)
Definition advanced (text : jstr) (st : cursor) (k : Z) (A : Type)
  : A -> cursor -> Prop :=
  fun _ st' => consistent text st' /\ (at_ st + k <= at_ st')%Z.

(** What is left of the text at the cursor, at least 0. *)
Definition left_ (text : jstr) (st : cursor) : Z :=
  Z.max 0 (len text + 1 - at_ st).

(** ** The two attempts of the legacy root *)

(** The options [parse] reads. *)
Definition legacy_root (opt : option Parse.ParseOptions) : bool :=
  match opt with
  | Some o => match Parse.legacyRoot o with Some false => false | _ => true end
  | None => true
  end.
Definition keeps_comments (opt : option Parse.ParseOptions) : bool :=
  match opt with
  | Some o => match Parse.keepWsc o with Some b => b | None => false end
  | None => false
  end.
Definition dsf_option (opt : option Parse.ParseOptions) : option (list Dsf.DSF) :=
  match opt with Some o => Parse.dsf o | None => None end.

(** The cursor on the first character that is neither white space nor part
    of a comment. *)
Definition root_start (text : jstr) : cursor :=
  Parse.white_st text Parse.resetAt.

(** The first attempt: an object body without braces, from [root_start]. *)
Definition first_attempt (text : jstr) (opt : option Parse.ParseOptions)
           (hooks : list Dsf.DSF) : res (value * cursor) :=
  Parse.object_attempt text (keeps_comments opt) (Dsf.runDsf_parse hooks)
    (Parse.pfuel text)
    (Parse.root_comment text (keeps_comments opt) (root_start text))
    (root_start text).

(** The second attempt: one value, from the cursor reset to the start of
    the text. *)
Definition second_attempt (text : jstr) (opt : option Parse.ParseOptions)
           (hooks : list Dsf.DSF) : res (value * cursor) :=
  Parse.value_attempt text (keeps_comments opt) (Dsf.runDsf_parse hooks)
    (Parse.pfuel text)
    (Parse.root_comment text (keeps_comments opt) (root_start text))
    Parse.resetAt.

(** The calls of the visitor [V] answer, on the members [l]. *)
Definition answers (V : value -> jstr -> nat -> bool -> bool -> res jstr)
           (l : list value) : Prop :=
  Forall (fun x => forall sep level root hc, exists s, V x sep level root hc = Ok s) l.

(** ** White space and comments *)

(** The cursor is on the first character of a comment. *)
Definition opens_comment (text : jstr) (st : cursor) : bool :=
  ch_is "#" st
  || ch_is "/" st && (Parse.peek_is text "/" st || Parse.peek_is text "*" st).

(** ** Reading a text from a position *)

(** The cursor after [next()] has read the character at index [k]. *)
Definition cur (text : jstr) (k : nat) : cursor :=
  mkCursor (Z.of_nat k + 1) (nth_error text k).


(** ** Number literals *)

(** The spelling of a number literal: an optional minus sign, the digits
    [ip], an optional fraction (a dot and the digits [fp]) and an optional
    exponent (the letter [c], a sign [sg] that may be empty, the digits
    [ed]). *)
Definition lexeme (neg : bool) (ip : jstr) (frac : option jstr)
           (expo : option (char * jstr * jstr)) : jstr :=
  (if neg then lit "-" else [])
  ++ ip
  ++ match frac with Some fp => lit "." ++ fp | None => [] end
  ++ match expo with Some (c, sg, ed) => c :: sg ++ ed | None => [] end.

Definition lexeme_ok (ip : jstr) (frac : option jstr)
           (expo : option (char * jstr * jstr)) : Prop :=
  Forall (fun c => is_digit c = true) ip
  /\ match frac with
     | Some fp => Forall (fun c => is_digit c = true) fp
     | None => True
     end
  /\ match expo with
     | Some (c, sg, ed) =>
         (c = chr "e" \/ c = chr "E")
         /\ (sg = [] \/ sg = lit "-" \/ sg = lit "+")
         /\ Forall (fun c => is_digit c = true) ed
     | None => True
     end.

(** The count [tryParseNumber] keeps of the leading zeros of [ip], after the
    correction for a single zero. *)
Definition leading_zeros (ip : jstr) : Z :=
  let '(lz, tst) :=
    fold_left (fun (acc : Z * bool) c =>
                 if snd acc then (if isc "0" c then ((fst acc + 1)%Z, true)
                                  else (fst acc, false))
                 else acc)
              ip (0%Z, true) in
  if tst then (lz - 1)%Z else lz.


(** A run of digits that starts with a zero and has more than one digit. *)
Definition leading_zero (ds : jstr) : bool :=
  match ds with
  | c :: _ :: _ => isc "0" c
  | _ => false
  end.

(** A finite number in normal form that is not the negative zero. *)
Definition normal (x : number) : Prop :=
  match x with
  | Num neg m e =>
      if (m =? 0)%N then e = 0%Z /\ neg = false else (m mod 10 <> 0)%N
  | _ => False
  end.


(** A decimal of at most 15 significant digits in the range of the normal
    binary64 values (between [1e-307] and [1e308]), or zero: the decimals
    that binary64 tells apart and [String] gives back. *)
Definition representable (x : number) : Prop :=
  match x with
  | Num _ m e => (m < 10 ^ 15)%N /\ (-307 <= e <= 293)%Z
  | _ => False
  end.

(** The digits of the fraction and the value of the exponent of a
    literal. *)
Definition lexeme_fraction (frac : option jstr) : jstr :=
  match frac with Some fp => fp | None => [] end.
Definition lexeme_exponent (expo : option (char * jstr * jstr)) : Z :=
  match expo with
  | Some (_, sg, ed) =>
      if jeqb sg (lit "-") then (- Z.of_N (digits_value ed 0))%Z
      else Z.of_N (digits_value ed 0)
  | None => 0%Z
  end.


(** The literal spells the number [x]: it is well formed, has an integer
    part without a leading zero, and its value is [x]. *)
Definition spells (neg : bool) (ip : jstr) (frac : option jstr)
           (expo : option (char * jstr * jstr)) (x : number) : Prop :=
  lexeme_ok ip frac expo
  /\ ip <> []
  /\ leading_zero ip = false
  /\ match expo with Some (_, _, ed) => ed <> [] | None => True end
  /\ normalise neg (digits_value (ip ++ lexeme_fraction frac) 0)
               (- len (lexeme_fraction frac) + lexeme_exponent expo) = x.

(** ** A bare word as the whole text *)

(** A character [keyname] appends to the name it reads. *)
Definition name_char (c : char) : bool :=
  negb (isc ":" c) && (32 <? c)%N && negb (Parse.isPunctuatorChar c).

(** A character [tfnns] appends to its token whatever follows. *)
Definition plain_char (c : char) : bool :=
  negb (is_cr c || is_nl c || isc "," c || isc "}" c || isc "]" c
        || isc "#" c || isc "/" c).

(** A text that is one word: no white space, no punctuator, no comment
    character, and no quote in front. *)
Definition bare_word (text : jstr) : bool :=
  match text with
  | c :: _ => negb (is_dq c) && negb (isc "'" c)
              && forallb (fun c => name_char c && plain_char c) text
  | [] => false
  end.

(** A character of a number literal. *)
Definition number_char (c : char) : bool :=
  is_digit c || isc "-" c || isc "+" c || isc "." c || isc "e" c || isc "E" c.


(** A number as JavaScript has it: finite and in normal form (the negative
    zero included), or one of [NaN], [Infinity] and [-Infinity]. *)
Definition number_wf (x : number) : Prop :=
  match x with
  | Num neg m e => if (m =? 0)%N then e = 0%Z else (m mod 10 <> 0)%N
  | _ => True
  end.

(** The options that load the module [math], for [parse] and for
    [stringify]. *)
Definition parse_with_math : option Parse.ParseOptions :=
  Some (Parse.mkParseOptions None None (Some [Dsf.math]) None).
Definition stringify_with_math : option Stringify.StringifyOptions :=
  Some (Stringify.mkStringifyOptions None None None None None None None None
          None (Some [Dsf.math]) None None None).

(** ** Quoted strings *)

(** [e] is a spelling of the string [s] between double quotes: every
    character stands for itself, unless it is the quote, the backslash or a
    line break, or is written as an escape [\c] or [\uXXXX]. *)
Inductive quoted : jstr -> jstr -> Prop :=
| quoted_nil : quoted [] []
| quoted_raw c s e :
    is_dq c = false -> isc "\" c = false -> is_nl c = false -> is_cr c = false ->
    quoted s e -> quoted (c :: s) (c :: e)
| quoted_esc c m s e :
    Parse.escapee m = Some c -> isc "u" m = false ->
    quoted s e -> quoted (c :: s) (chr "\" :: m :: e)
| quoted_uni c s e :
    (c < 65536)%N ->
    quoted s e -> quoted (c :: s) (lit "\u" ++ hex4 c ++ e).

(** A string of UTF-16 code units. *)
Definition utf16 (s : jstr) : Prop := Forall (fun c => (c < 65536)%N) s.

(** ** What [parse] returns *)

(** The result of a parser function satisfies [Q], when there is one. *)
Definition yields (A : Type) (Q : A -> Prop) (r : res (A * cursor)) : Prop :=
  match r with
  | Ok (a, _) => Q a
  | _ => True
  end.

(** ** Texts that are comments *)

(** A line comment opens the text. *)
Definition opens_line (t : jstr) : bool :=
  match t with
  | c :: r => isc "#" c || isc "/" c && match r with d :: _ => isc "/" d | [] => false end
  | [] => false
  end.

(** A text [white()] reads to its end: white space and line comments, each
    of which ends at a line feed or at the end of the text. *)
Inductive skipped : jstr -> Prop :=
| skipped_nil : skipped []
| skipped_blank c t : (c <=? 32)%N = true -> skipped t -> skipped (c :: t)
| skipped_line ds rest :
    opens_line ds = true ->
    Forall (fun c => is_nl c = false) ds ->
    match rest with c :: _ => is_nl c = true | [] => True end ->
    skipped rest -> skipped (ds ++ rest).

(** No line of the text has [/*] as its first significant characters. *)
Definition block_free (text : jstr) : bool :=
  forallb (fun l => match classify l with BlockComment => false | _ => true end)
          (split_on NL text).

(** The cursor is at the start of a part of the text that [white()] reads
    to its end. *)
Definition at_skipped (text : jstr) (st : cursor) : Prop :=
  (st = Parse.resetAt /\ skipped text)
  \/ exists pre t, text = pre ++ t /\ skipped t /\ st = cur text (List.length pre).

(** ** Arrays of keywords and numbers *)

(** A value [stringify] writes as a keyword or as a number: [null], a
    boolean, or a number in normal form of at most 15 significant digits in
    the range of the normal binary64 values. *)
Definition atom (v : value) : Prop :=
  match v with
  | VNull | VBool _ => True
  | VNumber x => normal x /\ representable x
  | _ => False
  end.

(** The token of an atom. *)
Definition atom_token (v : value) : jstr :=
  match v with
  | VNull => lit "null"
  | VBool true => lit "true"
  | VBool false => lit "false"
  | VNumber x => number_to_string x
  | _ => []
  end.

(** The lines of an array, from the cursor on the first token to the closing
    bracket: a comma after every token but the last, two spaces before. *)
Fixpoint array_rest (tokens : list jstr) : jstr :=
  match tokens with
  | [] => lit "]"
  | [t] => t ++ nl ++ lit "]"
  | t :: l => t ++ lit "," ++ nl ++ lit "  " ++ array_rest l
  end.

(** A token and the value it reads as. *)
Definition reads_as (p : jstr * value) : Prop :=
  bare_word (fst p) = true /\ Parse.tfnns_literal (fst p) = Some (snd p).

(** The lines of an array as [stringify] writes them. *)
Fixpoint array_lines (items : list value) : jstr :=
  match items with
  | [] => []
  | x :: l =>
      lit "  " ++ atom_token x ++ (match l with [] => [] | _ => lit "," end)
      ++ nl ++ array_lines l
  end.

(** ** Objects of keywords, numbers and plain strings *)

(** A key that is one word, is no array index, is not the name
    [__COMMENTS], which [stringify] skips, and is neither [__proto__] nor
    [__COMMENTS__], for which the assignment of the parser makes no
    member. *)
Definition plain_key (k : jstr) : Prop :=
  utf16 k /\ bare_word k = true /\ index_of_key k = None
  /\ jeqb k (lit "__COMMENTS") = false /\ own_key k = true.

(** A string that [quotelessString] writes as it is, and that holds none of
    the characters at which [tfnns] may stop before the end of the line. *)
Definition plain_text (s : jstr) : Prop :=
  s <> [] /\ Stringify.needsQuotes s = false /\ tryParseNumber s true = None
  /\ Stringify.startsWithKeyword s = false /\ forallb plain_char s = true.

(** A keyword, a number or a plain string, and its token. *)
Definition simple (v : value) : Prop :=
  match v with
  | VString s => plain_text s
  | _ => atom v
  end.
Definition simple_token (v : value) : jstr :=
  match v with
  | VString s => s
  | _ => atom_token v
  end.

(** The key of a member as [quoteKey] writes it with the default options. *)
Definition written_key (k : jstr) : jstr :=
  Stringify.quoteKey Stringify.plainToken false k.

(** The lines of an object, from the cursor on the first key to the closing
    brace. *)
Fixpoint object_rest (ms : list (jstr * value)) : jstr :=
  match ms with
  | [] => lit "}"
  | (k, v) :: l =>
      written_key k ++ lit ":" ++ lit " " ++ simple_token v ++ nl
      ++ (match l with [] => [] | _ => lit "  " end) ++ object_rest l
  end.

(** The lines of an object as [stringify] writes them. *)
Fixpoint object_lines (ms : list (jstr * value)) : jstr :=
  match ms with
  | [] => []
  | (k, v) :: l =>
      lit "  " ++ written_key k ++ lit ":" ++ lit " " ++ simple_token v ++ nl
      ++ object_lines l
  end.

(** ** The module [std.hex] of hjson-dsf.ts *)

(** [[0-9A-Fa-f]]. *)
Definition is_hex_digit (c : char) : bool :=
  match Parse.hex_value c with Some _ => true | None => false end.

(** [parseInt(ds, 16)] on hexadecimal digits. *)
Fixpoint hex_digits_value (ds : jstr) (acc : N) : N :=
  match ds with
  | [] => acc
  | d :: r =>
      hex_digits_value r
        (16 * acc + match Parse.hex_value d with Some k => k | None => 0 end)%N
  end.

(** [n.toString(16)] for a non-negative integer [n]. *)
Fixpoint to_hex_digits (fuel : nat) (n : N) : jstr :=
  match fuel with
  | O => []
  | S f => if (n <? 16)%N then [hex_digit n]
           else to_hex_digits f (n / 16)%N ++ [hex_digit (n mod 16)%N]
  end.
Definition to_hex (n : N) : jstr := to_hex_digits (S (N.to_nat (N.size n))) n.

(** [Number.isInteger(x)] on a number in normal form. *)
Definition isInteger (x : number) : bool :=
  match x with
  | Num _ m e => (0 <=? e)%Z || (m =? 0)%N
  | _ => false
  end.

(** The integer a binary64 number holds for the integer [n]: [n] itself
    when 53 bits hold it, else the nearest multiple of the power of two that
    leaves 53 bits, the even one of two that are as near. *)
Definition nearest_double (n : N) : N :=
  let k := (N.size n - 53)%N in
  if (k =? 0)%N then n
  else
    let q := N.shiftr n k in
    let r := (n mod 2 ^ k)%N in
    let half := (2 ^ (k - 1))%N in
    ((if (half <? r)%N || ((r =? half)%N && N.odd q) then q + 1 else q)
     * 2 ^ k)%N.

(** [std.hex(opt)]: [parse] takes [0x] and hexadecimal digits, and
    [parseInt] answers the binary64 number nearest to what they spell,
    [Infinity] past the largest one; [stringify] writes an integer that way
    when [opt.out] is set, with the digits of the binary64 number it is. *)
Definition std_hex_parse (s : jstr) : value :=
  match s with
  | c0 :: c1 :: ((_ :: _) as ds) =>
      if isc "0" c0 && isc "x" c1 && forallb is_hex_digit ds
      then
        let n := hex_digits_value ds 0 in
        if (2 ^ 1024 - 2 ^ 970 <=? n)%N then VNumber (Infinity false)
        else VNumber (normalise false (nearest_double n) 0)
      else VUndefined
  | _ => VUndefined
  end.
Definition std_hex_stringify (out : bool) (v : value) : option jstr :=
  match v with
  | VNumber (Num neg m e) =>
      if out && isInteger (Num neg m e)
      then Some (lit "0x" ++ (if neg && negb (m =? 0)%N then lit "-" else [])
                 ++ to_hex (nearest_double (m * 10 ^ Z.to_N e)))
      else None
  | _ => None
  end.
Definition std_hex (out : bool) : Dsf.DSF :=
  Dsf.mkDSF (lit "hex") std_hex_parse (std_hex_stringify out).

(** The options that load the module, for [parse] and for [stringify]. *)
Definition parse_with_hex (out : bool) : option Parse.ParseOptions :=
  Some (Parse.mkParseOptions None None (Some [std_hex out]) None).
Definition stringify_with_hex (out : bool) : option Stringify.StringifyOptions :=
  Some (Stringify.mkStringifyOptions None None None None None None None None
          None (Some [std_hex out]) None None None).

(** ** Values without a form of their own, as members *)

(** The value with [null] for every [undefined], function and number that
    is not finite, at any depth. *)
Fixpoint nulled (v : value) : value :=
  match v with
  | VArray cm items => VArray cm (map nulled items)
  | VObject cm props =>
      VObject cm (map (fun kv => (fst kv, nulled (snd kv))) props)
  | _ => if uncoercible v then VNull else v
  end.

(** The visitor [V] answers on [f x] what it answers on [x], for the
    members [l]. *)
Definition same_on (V : value -> jstr -> nat -> bool -> bool -> res jstr)
           (f : value -> value) (l : list value) : Prop :=
  Forall (fun x => forall sep level root hc,
              V (f x) sep level root hc = V x sep level root hc) l.

(** The members [k: null], for the keys of [props]. *)
Definition null_members (props : list (jstr * value)) : list (jstr * value) :=
  map (fun kv => (fst kv, VNull)) props.

(** ** The position of an error, as the offsets before the cursor are read *)

(** A line feed stands at offset [j] of the text. *)
Definition feed_at (text : jstr) (j : nat) : bool :=
  match nth_error text j with Some c => is_nl c | None => false end.

(** The offsets [1 .. at - 2] and the offset [at - 1] of the character the
    parser is on, in order; offset 0 is not among them. *)
Definition scanned (at0 : Z) : list nat := seq 1 (Z.to_nat (at0 - 1)).

(** The line of the message: one plus the number of line feeds at the
    scanned offsets. *)
Definition line_no (text : jstr) (at0 : Z) : Z :=
  1 + Z.of_nat (List.length (filter (feed_at text) (scanned at0))).

(** The column of the message: the number of scanned offsets after the last
    line feed among them, all of them when there is none. *)
Definition col_no (text : jstr) (at0 : Z) : Z :=
  Z.of_nat (fold_left (fun n j => if feed_at text j then O else S n)
                      (scanned at0) O).

(** What the message says after its first part: line, column and the (at
    most) 20 characters of the text from offset [at - column] on. *)
Definition position_of (text : jstr) (at0 : Z) : jstr :=
  lit " at line " ++ dec_of_Z (line_no text at0) ++ lit ","
  ++ dec_of_Z (col_no text at0) ++ lit " >>> "
  ++ substr text (at0 - col_no text at0) 20 ++ lit " ...".

(** The error of [keyname] on a colon that has no name before it, and the
    error of [tfnns] on a colon. *)
Definition no_key_name : jstr :=
  lit "Found ':' but no key name (for an empty key name use quotes)".
Definition colon_no_value : jstr :=
  lit "Found a punctuator character ':' when expecting a quoteless string (check your syntax)".

(** ** The quoteless scan, in the words of C6 *)

(** Literal keyword match: the token, the white space around it apart, is
    [true], [false] or [null]. *)
Definition keyword_match (tok : jstr) : option value :=
  if jeqb (trim tok) (lit "true") then Some (VBool true)
  else if jeqb (trim tok) (lit "false") then Some (VBool false)
  else if jeqb (trim tok) (lit "null") then Some VNull
  else None.

(** Numeric literal match: the Number Lexer accepts the token. *)
Definition number_match (tok : jstr) : option value :=
  option_map VNumber (tryParseNumber tok false).

Definition literal_match (tok : jstr) : option value :=
  match keyword_match tok with
  | Some v => Some v
  | None => number_match tok
  end.

(** The DSF parse hooks in registration order: the answer of the first hook
    whose answer is not [undefined]. *)
Definition answered (s : jstr) (x : Dsf.DSF) : bool :=
  match Dsf.parse x s with VUndefined => false | _ => true end.
Definition first_answer (hooks : list Dsf.DSF) (s : jstr) : option value :=
  option_map (fun x => Dsf.parse x s) (find (answered s) hooks).

(** The token resolved: keyword, number, DSF hook on the trimmed text, or
    the trimmed text. *)
Definition resolved (hooks : list Dsf.DSF) (tok : jstr) : value :=
  match literal_match tok with
  | Some v => v
  | None =>
      match first_answer hooks (trim tok) with
      | Some v => v
      | None => VString (trim tok)
      end
  end.

(** The scan: [tok] is the token so far and [rest] the characters that
    follow it.  The answer is the value and the number of characters of
    [rest] that have joined the token.  A line break or the end of the input
    ends the token; at a [,], [}], []] or comment opener the token ends if
    it is a keyword or a number, else that character joins it. *)
Fixpoint scanned_token (hooks : list Dsf.DSF) (tok rest : jstr) : value * nat :=
  match rest with
  | [] => (resolved hooks tok, O)
  | c :: r =>
      if is_cr c || is_nl c then (resolved hooks tok, O)
      else if is_break c r then
        match literal_match tok with
        | Some v => (v, O)
        | None => let '(v, n) := scanned_token hooks (tok ++ [c]) r in (v, S n)
        end
      else let '(v, n) := scanned_token hooks (tok ++ [c]) r in (v, S n)
  end.

(** The scan as C6 words it: the text ends at the first [,], [}], []],
    comment opener, line break or end of input, and is then resolved. *)
Fixpoint claimed_raw_token (rest : jstr) : jstr :=
  match rest with
  | [] => []
  | c :: r => if is_cr c || is_nl c || is_break c r then []
              else c :: claimed_raw_token r
  end.
Definition claimed_token (hooks : list Dsf.DSF) (first : jstr) (rest : jstr)
  : value :=
  resolved hooks (first ++ claimed_raw_token rest).

(** The message of [tfnns] on a punctuator. *)
Definition punctuator_found (c : char) : jstr :=
  lit "Found a punctuator character '" ++ [c]
  ++ lit "' when expecting a quoteless string (check your syntax)".

(** The module [std.hex] as the only DSF record. *)
Definition C6_hex : list Dsf.DSF := [std_hex false].

(** ** The texts of the legacy root *)

(** An object body without braces: one member per line, each line ended by
    a line feed. *)
Fixpoint body_lines (ms : list (jstr * value)) : jstr :=
  match ms with
  | [] => []
  | (k, v) :: l =>
      written_key k ++ lit ":" ++ lit " " ++ simple_token v ++ nl ++ body_lines l
  end.

(** The error of [keyname] at the end of the input. *)
Definition key_name_eof : jstr :=
  lit "Found EOF while looking for a key name (check your syntax)".

(** A value with a member named [__COMMENTS__], as [parse] builds it from
    a text that has that key, and a document that holds a header. *)
Definition C8_member_value : value :=
  VObject None [(store_key, VNull); (lit "a", VNumber (Num false 2 0))].
Definition C8_header_document : option doc :=
  Some (Doc None None None None (Some (Some (lit "# h"), None)) None None).

(* ================================================================== *)
(** * Properties *)
(* ================================================================== *)

(** ** C1: round trip without comments *)

(** C1 (violated by the code). [parse(stringify(v))] is not [v] for an array
    of two strings (the comma the stringifier puts after a quoteless string
    is read back as part of the string), fails for an object nested in an
    object (the nested object gets its closing brace but no opening one), and
    fails for an empty string (emitted as nothing at all). *)
Theorem C1_roundtrip_breaks :
  Stringify.stringify nl (VArray None [VString (lit "a"); VString (lit "b")]) None
    = Ok (text_of ["["; "  a,"; "  b"; "]"]%string)
  /\ roundtrip (VArray None [VString (lit "a"); VString (lit "b")])
    = Ok (VArray None [VString (lit "a,"); VString (lit "b")])
  /\ Stringify.stringify nl
       (VObject None [(lit "a", VObject None [(lit "b", VNumber (Num false 1 0))])])
       None
    = Ok (text_of ["{"; "  a:     b: 1"; "  }"; "}"]%string)
  /\ (exists e,
        roundtrip
          (VObject None [(lit "a", VObject None [(lit "b", VNumber (Num false 1 0))])])
        = Throw e)
  /\ (exists e, roundtrip (VObject None [(lit "a", VString [])]) = Throw e).
Proof.
  repeat split; try (vm_compute; reflexivity);
    eexists; vm_compute; reflexivity.
Qed.

(** ** C2: merge never drops comments *)

(** C2 (violated by the code). The comment before a member of a nested
    object is in the extracted document; after a merge onto the unchanged
    value, which returns normally, a second extraction holds no comment text
    at all: the comment is neither reattached nor listed as an orphan. *)
Theorem C2_merge_drops_nested_comment :
  exists d d',
    extract_merge_extract
      (text_of ["{"; "  a: {"; "    # note"; "    b: 1"; "  }"; "}"]%string)
    = Some (Some d, Ok tt, Some d')
    /\ doc_texts d = [lit "    # note"]
    /\ doc_texts d' = [].
Proof.
  do 2 eexists. split; [vm_compute; reflexivity|].
  split; vm_compute; reflexivity.
Qed.

(** ** C3: the preserve-comments option *)

(** C3 (violated by the code). [rt.parse] sets [keepWhitespaceAndComments],
    [parse] reads [keepWsc]: the value [rt.parse] answers for a text with a
    comment carries no store, and extraction answers nothing. *)
Theorem C3_rt_parse_keeps_no_comments :
  let t := text_of ["{"; "  # the answer"; "  a: 42"; "}"]%string in
  rt_parse t None = Ok (VObject None [(lit "a", VNumber (Num false 42 0))])
  /\ (forall v, rt_parse t None = Ok v -> fst (Comments.extract v) = None)
  /\ (exists v d, Parse.parse t keep_wsc = Ok v
                  /\ fst (Comments.extract v) = Some d
                  /\ doc_texts d = [lit "  # the answer"]).
Proof.
  intro t. split; [vm_compute; reflexivity|]. split.
  - intros v H. assert (E : rt_parse t None
                            = Ok (VObject None [(lit "a", VNumber (Num false 42 0))]))
      by (vm_compute; reflexivity).
    rewrite E in H. injection H as <-. vm_compute. reflexivity.
  - do 2 eexists. split; [vm_compute; reflexivity|].
    split; vm_compute; reflexivity.
Qed.

(** The option the interface declares has no influence on [parse]. *)
Lemma parse_ignores_keepWhitespaceAndComments :
  forall text o b,
    Parse.parse text (Some (Parse.set_keepWhitespaceAndComments b o))
    = Parse.parse text (Some o).
Proof. intros text [k w d l] b. reflexivity. Qed.

(** ** C9: [quotes: 'always'] *)

(** C9. With [quotes] set to ['always'] the output is the output with
    [quotes] set to ['strings'], for every value and all other options. *)
Theorem C9_quotes_always_is_strings :
  forall os_eol v o,
    Stringify.stringify os_eol v (Some (Stringify.set_quotes (Some Stringify.QAlways) o))
    = Stringify.stringify os_eol v (Some (Stringify.set_quotes (Some Stringify.QStrings) o)).
Proof. intros os_eol v o. reflexivity. Qed.

(** ** C8: merge writes the stores only *)

Lemma drop_key_absent (V : Type) k (l : list (jstr * V)) :
  has_key k l = false -> drop_key k l = l.
Proof.
  unfold has_key. induction l as [|[k' v] l IH]; simpl; [reflexivity|].
  destruct (jeqb k k'); [discriminate|]. intros H. now rewrite IH.
Qed.

Lemma has_key_payload k props :
  has_key k (payload_props props) = has_key k props.
Proof.
  unfold has_key, payload_props.
  induction props as [|[k' v] l IHl]; simpl; [reflexivity|].
  destruct (jeqb k k'); [reflexivity | exact IHl].
Qed.

Lemma no_store_key_payload : forall v, no_store_key (payload v) = no_store_key v.
Proof.
  induction v as [ | | | | | |cm items IH|cm props IH] using value_induction;
    try reflexivity.
  - cbn [payload no_store_key].
    induction IH as [|x l Hx _ IHl]; simpl; [reflexivity|].
    now rewrite Hx, IHl.
  - cbn [payload no_store_key]. fold (payload_props props).
    rewrite has_key_payload. f_equal. unfold payload_props.
    induction IH as [|[k x] l Hx _ IHl]; cbn [map forallb fst snd] in *;
      [reflexivity|]. now rewrite Hx, IHl.
Qed.

Lemma no_store_key_of_payload v w :
  payload v = payload w -> no_store_key v = no_store_key w.
Proof.
  intros H. rewrite <- (no_store_key_payload v), <- (no_store_key_payload w).
  now rewrite H.
Qed.

Lemma no_store_key_items items items' :
  map payload items' = map payload items ->
  forallb no_store_key items = true -> forallb no_store_key items' = true.
Proof.
  revert items'. induction items as [|x l IH]; intros [|y l'] H; simpl in *;
    try discriminate; auto.
  injection H as Hy Hl. rewrite !andb_true_iff. intros [Hx Hf].
  rewrite (no_store_key_of_payload _ _ Hy). auto.
Qed.

Lemma no_store_key_props props props' :
  payload_props props' = payload_props props ->
  forallb (fun kv => no_store_key (snd kv)) props = true ->
  forallb (fun kv => no_store_key (snd kv)) props' = true.
Proof.
  revert props'. induction props as [|x l IH]; intros [|y l'] H; simpl in *;
    try discriminate; auto.
  injection H as Hk Hy Hl. rewrite !andb_true_iff. intros [Hx Hf].
  rewrite (no_store_key_of_payload _ _ Hy). auto.
Qed.

Lemma no_store_key_nth items : forall i child,
  forallb no_store_key items = true -> nth_error items i = Some child ->
  no_store_key child = true.
Proof.
  induction items as [|y l IH]; intros [|i] child H Hn; simpl in *;
    try discriminate; apply andb_true_iff in H; destruct H as [Hy Hl].
  - now injection Hn as <-.
  - eauto.
Qed.

Lemma no_store_key_assoc props : forall key child,
  forallb (fun kv => no_store_key (snd kv)) props = true ->
  assoc key props = Some child -> no_store_key child = true.
Proof.
  induction props as [|[k v] l IH]; intros key child H Ha; simpl in *;
    [discriminate|]. apply andb_true_iff in H. destruct H as [Hv Hl].
  destruct (jeqb key k); [now injection Ha as <- | eauto].
Qed.

Lemma payload_createComment v c :
  no_store_key v = true -> payload (createComment v c) = payload v.
Proof.
  destruct v; try reflexivity. simpl. intros H.
  apply andb_true_iff in H. destruct H as [H _].
  apply negb_true_iff in H. now rewrite (drop_key_absent _ _ _ H).
Qed.

Lemma payload_set_nth items : forall i child child',
  nth_error items i = Some child -> payload child' = payload child ->
  map payload (Comments.set_nth i child' items) = map payload items.
Proof.
  induction items as [|y items IH]; intros [|i] child child' Hn Hp; simpl in *;
    try discriminate; try reflexivity.
  - injection Hn as ->. now rewrite Hp.
  - f_equal. eapply IH; eauto.
Qed.

Lemma payload_assoc_replace props : forall key child child',
  assoc key props = Some child -> payload child' = payload child ->
  payload_props (assoc_replace key child' props) = payload_props props.
Proof.
  induction props as [|[k v] props IH]; intros key child child' Ha Hp; simpl in *.
  - reflexivity.
  - destruct (jeqb key k).
    + injection Ha as ->. simpl. now rewrite Hp.
    + simpl. f_equal. eapply IH; eauto.
Qed.

Lemma merge_child_payload M c child dl kpath :
  child_keeps_payload M c -> no_store_key child = true ->
  payload (fst (Comments.merge_child M c child dl kpath)) = payload child.
Proof.
  unfold child_keeps_payload, Comments.merge_child.
  destruct c as [a s o e r b [x|]]; simpl; intros H Hn;
    [now apply H | reflexivity].
Qed.

Lemma merge_entries_payload M path m :
  Forall (fun kc => child_keeps_payload M (snd kc)) m ->
  forall sc items last dl,
    forallb no_store_key items = true ->
    map payload (snd (fst (fst (Comments.merge_entries M path m sc items last dl))))
    = map payload items.
Proof.
  induction 1 as [|[i c] m Hc _ IH]; intros sc items last dl Hn; simpl.
  - reflexivity.
  - destruct (nth_error items i) as [child|] eqn:Hi.
    + pose proof (merge_child_payload M c child dl (path ++ [Comments.PIdx i]) Hc
                    (no_store_key_nth _ _ _ Hn Hi)) as Hp.
      destruct (Comments.merge_child M c child dl (path ++ [Comments.PIdx i]))
        as [child' rd]. simpl in Hp.
      pose proof (payload_set_nth items i child child' Hi Hp) as Hs.
      destruct rd; simpl; try exact Hs.
      rewrite IH; [exact Hs|]. eapply no_store_key_items; eauto.
    + destruct (Comments.drop_node Comments.dropAll c dl (path ++ [Comments.PIdx i]));
        simpl; try rewrite IH; auto.
Qed.

(** A property of [with_assoc], from the property of its two outcomes. *)
Lemma with_assoc_ind (V R : Type) (Q : R -> Prop) key (l : list (jstr * V))
      (found : V -> R) (missing : R) :
  (forall c, assoc key l = Some c -> Q (found c)) ->
  Q missing -> Q (with_assoc key l found missing).
Proof.
  intros Hf Hm. unfold with_assoc.
  induction l as [|[k v] l IH]; simpl.
  - exact Hm.
  - simpl in Hf. destruct (jeqb key k) eqn:E.
    + apply Hf; auto.
    + apply IH. intros c Ha. apply Hf; auto.
Qed.

Lemma merge_keys_payload M path s :
  match s with
  | Some l => Forall (fun kc => child_keeps_payload M (snd kc)) l
  | None => True
  end ->
  forall keys sc props dl,
    forallb (fun kv => no_store_key (snd kv)) props = true ->
    payload_props (snd (fst (Comments.merge_keys M path s keys sc props dl)))
    = payload_props props.
Proof.
  intros Hs keys. induction keys as [|key keys IH]; intros sc props dl Hn; simpl.
  - reflexivity.
  - destruct s as [sm|]; [|reflexivity].
    destruct (assoc key props) as [child|] eqn:Hc.
    + apply with_assoc_ind; [|now apply IH].
      intros c Ha.
      assert (Hck : child_keeps_payload M c).
      { clear - Hs Ha. induction sm as [|[k d] sm IHs]; simpl in Ha; [discriminate|].
        inversion Hs; subst. destruct (jeqb key k).
        - now injection Ha as <-.
        - auto. }
      pose proof (merge_child_payload M c child dl (path ++ [Comments.PKey key]) Hck
                    (no_store_key_assoc _ _ _ Hn Hc)) as Hp.
      destruct (Comments.merge_child M c child dl (path ++ [Comments.PKey key]))
        as [child' rd]. simpl in Hp.
      pose proof (payload_assoc_replace props key child child' Hc Hp) as Hr.
      destruct rd; simpl; try exact Hr.
      rewrite IH; [exact Hr|]. eapply no_store_key_props; eauto.
    + destruct (assoc key sm) as [c|]; [|now apply IH].
      destruct (Comments.drop_node Comments.dropAll c dl (path ++ [Comments.PKey key]));
        simpl; try rewrite IH; auto.
Qed.

Lemma merge_payload : forall d, keeps_payload Comments.merge d.
Proof.
  intro d.
  enough (H : keeps_payload Comments.merge d /\ child_keeps_payload Comments.merge d)
    by apply H.
  induction d as [a s o e r b x Ha Hs Hx] using doc_induction.
  split.
  - intros v dl path Hn. destruct v; try reflexivity.
    + (* array *)
      simpl in Hn. simpl.
      set (sc0 := set_a _ _).
      destruct a as [[m|t]|].
      * pose proof (merge_entries_payload Comments.merge path m) as Hm.
        assert (Hall : Forall (fun kc => child_keeps_payload Comments.merge (snd kc)) m).
        { eapply Forall_impl; [|exact Ha]. intros kc [_ H]. exact H. }
        specialize (Hm Hall sc0 items (-1)%Z dl Hn).
        destruct (Comments.merge_entries Comments.merge path m sc0 items (-1)%Z dl)
          as [[[sc items'] last] rdl]. simpl in Hm.
        destruct rdl; simpl; now rewrite Hm.
      * destruct (Comments.merge_chars path (List.length t) 0 sc0 (List.length items)
                    (-1)%Z dl) as [[sc last] rdl].
        destruct rdl; reflexivity.
      * reflexivity.
    + (* object *)
      simpl in Hn. apply andb_true_iff in Hn. destruct Hn as [Hk Hn].
      apply negb_true_iff in Hk.
      simpl. rewrite (drop_key_absent _ _ _ Hk).
      set (sc0 := match path with [] => _ | _ => _ end).
      pose proof (merge_keys_payload Comments.merge path s) as Hm.
      assert (Hall : match s with
                     | Some l => Forall (fun kc => child_keeps_payload Comments.merge (snd kc)) l
                     | None => True
                     end).
      { destruct s as [l|]; [|exact I].
        eapply Forall_impl; [|exact Hs]. intros kc [_ H]. exact H. }
      specialize (Hm Hall (Comments.or_nil o) sc0 props dl Hn).
      destruct (Comments.merge_keys Comments.merge path s (Comments.or_nil o) sc0 props dl)
        as [[sc props'] rdl]. simpl in Hm. fold (payload_props props).
      destruct rdl; simpl; fold (payload_props props'); now rewrite Hm.
  - unfold child_keeps_payload. simpl. destruct x as [x'|]; [apply Hx | exact I].
Qed.

Lemma rootComment_payload v t h :
  no_store_key v = true ->
  payload (fst (Comments.rootComment v t h)) = payload v.
Proof.
  intros Hn. unfold Comments.rootComment.
  destruct (getComment v); simpl; now apply payload_createComment.
Qed.

(** C8. [merge(document, value)] leaves the payload of the value as it was,
    for every document and every value none of whose objects has a member
    named [__COMMENTS__], whether the call returns or raises: only the hidden
    stores are written. *)
Theorem C8_merge_keeps_payload :
  forall (document : option doc) (v : value),
    no_store_key v = true ->
    payload (fst (Comments.mergeComments document v)) = payload v.
Proof.
  intros [d|] v Hn; [|reflexivity].
  unfold Comments.mergeComments.
  pose proof (merge_payload d v [] [] Hn) as Hm.
  destruct (Comments.merge d v [] []) as [v1 r]. simpl in Hm.
  destruct r as [dl|e|]; try exact Hm.
  destruct dl as [|d0 dl]; [exact Hm|].
  assert (Hn1 : no_store_key v1 = true)
    by now rewrite (no_store_key_of_payload _ _ Hm).
  pose proof (rootComment_payload v1 Comments.Null 1 Hn1) as H1.
  destruct (Comments.rootComment v1 Comments.Null 1) as [v2 r2]. simpl in H1.
  destruct r2 as [text|e|]; try (simpl; congruence).
  match goal with
  | |- context [Comments.orphan_lines ?l ?t] =>
      destruct (Comments.orphan_lines l t) as [text'|e|]
  end; simpl; try congruence.
  assert (Hn2 : no_store_key v2 = true)
    by now rewrite (no_store_key_of_payload _ _ H1).
  pose proof (rootComment_payload v2 (Comments.Text text') 1 Hn2) as H2.
  destruct (Comments.rootComment v2 (Comments.Text text') 1) as [v3 r3]. simpl in *.
  congruence.
Qed.

(** On the value of [{a: [1], b: {c: 2}}] a document with a header, a
    comment on [a] and a comment on a key that is gone is merged, and the
    payload is the one before. *)
Lemma C8_merge_keeps_payload_witness :
  payload
    (fst (Comments.mergeComments
            (Some (Doc None
                       (Some [(lit "a", Doc None None None None None
                                            (Some (lit "# on a")) None);
                              (lit "z", Doc None None None None None
                                            (Some (lit "# gone")) None)])
                       (Some [lit "a"; lit "z"]) None
                       (Some (Some (lit "# h"), None)) None None))
            (VObject None
               [(lit "a", VArray None [VNumber (Num false 1 0)]);
                (lit "b", VObject None [(lit "c", VNumber (Num false 2 0))])])))
  = VObject None
      [(lit "a", VArray None [VNumber (Num false 1 0)]);
       (lit "b", VObject None [(lit "c", VNumber (Num false 2 0))])].
Proof.
  apply (C8_merge_keeps_payload
           (Some (Doc None
                      (Some [(lit "a", Doc None None None None None
                                           (Some (lit "# on a")) None);
                             (lit "z", Doc None None None None None
                                           (Some (lit "# gone")) None)])
                      (Some [lit "a"; lit "z"]) None
                      (Some (Some (lit "# h"), None)) None None))
           (VObject None
              [(lit "a", VArray None [VNumber (Num false 1 0)]);
               (lit "b", VObject None [(lit "c", VNumber (Num false 2 0))])])).
  reflexivity.
Defined.

(** The claim as written fails on a value that has a member named
    [__COMMENTS__]: [parse] reads [{__COMMENTS__: null, a: 2}] into an
    object with the two members, [merge] calls
    [createComment(value, getComment(value) || {})], which redefines the
    member as the hidden store, and the keys of the value are [a] alone
    afterwards. *)
Lemma C8_merge_hides_member :
  Parse.parse (lit "{__COMMENTS__: null, a: 2}") None = Ok C8_member_value
  /\ payload C8_member_value
     = VObject None [(store_key, VNull); (lit "a", VNumber (Num false 2 0))]
  /\ payload (fst (Comments.mergeComments C8_header_document C8_member_value))
     = VObject None [(lit "a", VNumber (Num false 2 0))].
Proof. vm_compute. repeat split. Qed.



(** ** C10: the root braces *)

Section Braces.
Variables (token : Stringify.Token) (eol_ indent : jstr)
          (quoteKeys : bool)
          (V : value -> jstr -> nat -> bool -> bool -> res jstr).

Lemma object_members_prefix isComment sep level indent2 props :
  forall ks result r,
    Stringify.object_members token eol_ quoteKeys V isComment sep level indent2
                             props ks result = Ok r ->
    exists tail, r = result ++ tail.
Proof.
  induction ks as [|key ks IH]; intros result r H; simpl in H.
  - injection H as <-. exists []. now rewrite app_nil_r.
  - destruct (jeqb key (lit "__COMMENTS")); [now apply IH|].
    revert r H. apply with_assoc_ind; [|intros r H; now apply IH].
    intros x _ r H.
    destruct (V x sep (level + 1) false _) as [vs|e|]; simpl in H; try discriminate.
    apply IH in H. destruct H as [tail ->].
    eexists. rewrite <- !app_assoc. reflexivity.
Qed.
End Braces.

Lemma visit_object_braces token eol_ indent bsl quoteKeys condense_ sortProps_ V
      wsc p props sep level hasComment s :
  Stringify.visit_object token eol_ indent bsl quoteKeys condense_ sortProps_ V
                         wsc (p :: props) sep level true hasComment = Ok s ->
  exists body,
    s = fst (Stringify.t_obj token) ++ body ++ snd (Stringify.t_obj token)
    \/ s = lit "{" ++ body ++ lit "}".
Proof.
  unfold Stringify.visit_object. destruct p as [key0 value0].
  match goal with
  | |- rbind ?c _ = _ -> _ => destruct c as [[res2|]|e|] eqn:Hc
  end; simpl; try discriminate.
  - (* the one-line form *)
    intros H; injection H as <-.
    destruct (_ && _ && _ && _) in Hc; [|discriminate].
    destruct (V value0 sep 0 false false) as [s0|e|]; simpl in Hc; try discriminate.
    destruct (_ <=? _)%Z in Hc; [|discriminate].
    injection Hc as <-.
    exists (Stringify.quoteKey token quoteKeys key0
            ++ fst (Stringify.t_col token) ++ lit " " ++ s0).
    right. rewrite <- !app_assoc. reflexivity.
  - (* one member per line *)
    clear Hc.
    match goal with
    | |- rbind ?c _ = _ -> _ => destruct c as [result|e|] eqn:Hm
    end; simpl; try discriminate.
    apply object_members_prefix in Hm. destruct Hm as [tail ->].
    destruct (Stringify.end_comment eol_ wsc _) as [e|e|]; simpl; try discriminate.
    intros H; injection H as <-.
    destruct bsl.
    + exists (lit " " ++ tail ++ e ++ repeat_str indent level). left.
      rewrite <- !app_assoc. reflexivity.
    + exists (eol_ ++ tail ++ e ++ repeat_str indent level). left.
      rewrite <- !app_assoc. reflexivity.
Qed.

(** [visit] on an object, one step. *)
Lemma visit_object_eq token eol_ indent keepComments bsl quoteKeys quoteStrings
      condense_ multiline_ sortProps_ hooks cm props sep level root hc :
  Stringify.visit token eol_ indent keepComments bsl quoteKeys quoteStrings
                  condense_ multiline_ sortProps_ hooks (VObject cm props)
                  sep level root hc
  = rbind (Dsf.runDsf_stringify hooks (VObject cm props))
      (fun dsfValue =>
         match dsfValue with
         | Some s => Ok s
         | None =>
             Stringify.visit_object token eol_ indent bsl quoteKeys condense_
               sortProps_
               (Stringify.visit token eol_ indent keepComments bsl quoteKeys
                                quoteStrings condense_ multiline_ sortProps_ hooks)
               (if keepComments then cm else None) props sep level root hc
         end).
Proof. reflexivity. Qed.

(** C10. The option [emitRootBraces] changes nothing in the output, and a
    root object that is not empty (and is not taken over by a DSF hook) is
    emitted between the root comments as an opening brace token, a body and a
    closing brace token (in the one-line form, between a plain [{] and
    [}]). *)
Theorem C10_root_braces_ignore_emitRootBraces :
  (forall os_eol v o b,
      Stringify.stringify os_eol v (Some (Stringify.set_emitRootBraces b o))
      = Stringify.stringify os_eol v (Some o))
  /\ (forall os_eol cm p props opt hooks text,
         Dsf.loadDsf (Stringify.opt_get Stringify.dsf opt) = Ok hooks ->
         Dsf.runDsf_stringify hooks (VObject cm (p :: props)) = Ok None ->
         Stringify.stringify os_eol (VObject cm (p :: props)) opt = Ok text ->
         exists body,
           text = root_header (VObject cm (p :: props)) opt
                  ++ fst (obj_token opt) ++ body ++ snd (obj_token opt)
                  ++ root_footer (VObject cm (p :: props)) opt
           \/ text = root_header (VObject cm (p :: props)) opt
                     ++ lit "{" ++ body ++ lit "}"
                     ++ root_footer (VObject cm (p :: props)) opt).
Proof.
  split.
  - intros os_eol v o b. reflexivity.
  - intros os_eol cm p props opt hooks text Hload Hdsf.
    unfold Stringify.stringify. rewrite Hload.
    cbv beta iota delta [rbind].
    match goal with
    | |- match ?c with _ => _ end = _ -> _ => destruct c as [s|e|] eqn:Hv
    end; try discriminate.
    intros H; injection H as <-.
    rewrite visit_object_eq, Hdsf in Hv. cbv beta iota delta [rbind] in Hv.
    apply visit_object_braces in Hv. destruct Hv as [body [-> | ->]].
    + exists body. left. unfold root_header, root_footer, root_comments, obj_token.
      simpl. rewrite <- !app_assoc. reflexivity.
    + exists body. right. unfold root_header, root_footer, root_comments.
      simpl. rewrite <- !app_assoc. reflexivity.
Qed.

Lemma C10_root_braces_witness :
  exists body,
    text_of ["{"; "  a: 1"; "}"]%string
    = root_header C10_witness_value None
      ++ fst (obj_token None) ++ body ++ snd (obj_token None)
      ++ root_footer C10_witness_value None
    \/ text_of ["{"; "  a: 1"; "}"]%string
       = root_header C10_witness_value None ++ lit "{" ++ body ++ lit "}"
         ++ root_footer C10_witness_value None.
Proof.
  apply (proj2 C10_root_braces_ignore_emitRootBraces nl None
               (lit "a", VNumber (Num false 1 0)) [] None []);
    vm_compute; reflexivity.
Defined.



(** ** C4: the stringifier is total *)

Lemma stringify_hook_ok x v :
  (forall r, Dsf.stringify x v = Some r -> valid_token r = true) ->
  exists r, Dsf.stringify_hook x v = Ok r.
Proof.
  intros H. unfold Dsf.stringify_hook.
  destruct (Dsf.stringify x v) as [r|]; [|eauto].
  specialize (H r eq_refl). unfold valid_token in H.
  apply negb_true_iff in H. rewrite H. eauto.
Qed.

Lemma runDsf_stringify_ok hooks v :
  hooks_ok hooks -> exists r, Dsf.runDsf_stringify hooks v = Ok r.
Proof.
  induction hooks as [|x hooks IH]; intros H; simpl; [eauto|].
  destruct (stringify_hook_ok x v) as [r Hr].
  { intros r. apply H. now left. }
  rewrite Hr. simpl. destruct r; [eauto|].
  apply IH. intros y Hy. apply H. now right.
Qed.

Lemma assoc_In (V : Type) key (l : list (jstr * V)) x :
  assoc key l = Some x -> exists k, In (k, x) l.
Proof.
  induction l as [|[k v] l IH]; simpl; [discriminate|].
  destruct (jeqb key k).
  - intros H; injection H as ->. eauto.
  - intros H. destruct (IH H) as [k' Hk]. eauto.
Qed.

Section Total.
Variables (token : Stringify.Token) (eol_ indent : jstr)
          (bsl quoteKeys : bool) (condense_ : Z) (sortProps_ : bool)
          (V : value -> jstr -> nat -> bool -> bool -> res jstr).

Lemma condensed_items_ok sep l :
  answers V l ->
  forall i res2, exists r, Stringify.condensed_items token V sep l i res2 = Ok r.
Proof.
  induction 1 as [|x l Hx _ IH]; intros i res2; simpl; [eauto|].
  destruct (Hx sep 0 false false) as [s ->]. simpl. apply IH.
Qed.

Lemma end_comment_ok wsc is_array indent2 :
  store_ok is_array wsc = true ->
  exists e, Stringify.end_comment eol_ wsc indent2 = Ok e.
Proof.
  unfold store_ok, Stringify.end_comment. destruct wsc as [c|]; [|eauto].
  intros H. apply andb_true_iff in H. destruct H as [_ H].
  destruct (c_e c) as [[[e0|] e1]|]; try discriminate; eauto.
Qed.

Lemma array_items_ok wsc sep level indent2 l :
  store_ok true wsc = true ->
  answers V l ->
  forall i result,
    exists r, Stringify.array_items token eol_ V wsc sep level indent2 l i result = Ok r.
Proof.
  intros Hs. induction 1 as [|x l Hx _ IH]; intros i result; simpl; [eauto|].
  assert (Hc : exists c, Stringify.array_comment wsc i = Ok c).
  { unfold Stringify.array_comment, store_ok in *. destruct wsc as [c|]; [|eauto].
    destruct (c_a c); [eauto|]. discriminate. }
  destruct Hc as [c ->]. simpl.
  destruct (Hx sep (level + 1) false (Stringify.has_comment c)) as [s ->]. simpl.
  apply IH.
Qed.

Lemma object_members_ok isComment sep level indent2 props :
  answers V (map snd props) ->
  forall ks result,
    exists r, Stringify.object_members token eol_ quoteKeys V isComment sep level
                indent2 props ks result = Ok r.
Proof.
  intros Hp. induction ks as [|key ks IH]; intros result; simpl; [eauto|].
  destruct (jeqb key (lit "__COMMENTS")); [apply IH|].
  apply with_assoc_ind; [|apply IH].
  intros x Hx. destruct (assoc_In _ _ _ _ Hx) as [k Hk].
  assert (Hin : In x (map snd props)) by (apply in_map_iff; exists (k, x); auto).
  unfold answers in Hp. rewrite Forall_forall in Hp.
  destruct (Hp x Hin sep (level + 1) false
               (Stringify.has_comment
                  match isComment with Some cc => assoc key cc | None => None end))
    as [s ->].
  simpl. apply IH.
Qed.

Lemma visit_array_ok wsc items sep level hc :
  store_ok true wsc = true -> answers V items ->
  exists s, Stringify.visit_array token eol_ indent condense_ V wsc items sep level hc
            = Ok s.
Proof.
  intros Hs Ha. unfold Stringify.visit_array. destruct items as [|x items]; [eauto|].
  assert (Hcond : exists c,
             (if (0 <? condense_)%Z
                 && match wsc with None => true | Some _ => false end && negb hc
              then rbind (Stringify.condensed_items token V sep (x :: items) 0 (lit "[ "))
                     (fun res2 => Ok (if (len (res2 ++ lit " ]") <=? condense_)%Z
                                      then Some (res2 ++ lit " ]") else None))
              else Ok None) = Ok c).
  { destruct (_ && _ && _); [|eauto].
    destruct (condensed_items_ok sep (x :: items) Ha 0 (lit "[ ")) as [r ->].
    simpl. eauto. }
  destruct Hcond as [c Hc]. cbv zeta. rewrite Hc. cbv beta iota delta [rbind].
  destruct c; [eauto|].
  destruct (array_items_ok wsc sep level (repeat_str indent (level + 1)) (x :: items)
              Hs Ha 0 (fst (Stringify.t_arr token) ++ eol_)) as [r ->].
  destruct (end_comment_ok wsc true (repeat_str indent (level + 1)) Hs) as [e ->].
  eauto.
Qed.

Lemma visit_object_ok wsc props sep level root hc :
  store_ok false wsc = true -> answers V (map snd props) ->
  exists s, Stringify.visit_object token eol_ indent bsl quoteKeys condense_
              sortProps_ V wsc props sep level root hc = Ok s.
Proof.
  intros Hs Ha. unfold Stringify.visit_object.
  destruct props as [|[key0 value0] rest]; [eauto|].
  assert (H0 : exists s, V value0 sep 0 false false = Ok s).
  { inversion Ha; subst. auto. }
  destruct H0 as [s0 H0]. cbv zeta. rewrite H0.
  match goal with
  | |- exists s, rbind ?c _ = _ => assert (Hc : exists r, c = Ok r)
  end.
  { destruct (_ && _ && _ && _); simpl; eauto. }
  destruct Hc as [c ->]. cbv beta iota delta [rbind].
  destruct c; [eauto|].
  match goal with
  | |- context [Stringify.object_members ?t ?e ?q ?v ?ic ?sp ?lv ?i2 ?ps ?ks ?r] =>
      destruct (object_members_ok ic sp lv i2 ps Ha ks r) as [r' ->]
  end.
  destruct (end_comment_ok wsc false (repeat_str indent (level + 1)) Hs) as [e ->].
  eauto.
Qed.
End Total.

(** [visit], one step. *)
Lemma visit_eq token eol_ indent keepComments bsl quoteKeys quoteStrings
      condense_ multiline_ sortProps_ hooks v sep level root hc :
  let visit := Stringify.visit token eol_ indent keepComments bsl quoteKeys
                 quoteStrings condense_ multiline_ sortProps_ hooks in
  visit v sep level root hc
  = rbind (Dsf.runDsf_stringify hooks v)
      (fun dsfValue =>
         match dsfValue with
         | Some s => Ok s
         | None =>
             let commentInfo := if keepComments then getComment v else None in
             match v with
             | VNull => Ok (Stringify.wrap (Stringify.t_lit token) (lit "null"))
             | VBool b =>
                 Ok (Stringify.wrap (Stringify.t_lit token)
                                    (if b then lit "true" else lit "false"))
             | VString s =>
                 if quoteStrings
                 then Ok (Stringify.wrap (Stringify.t_qstr token) (Stringify.json_quote s))
                 else if negb (Nat.eqb multiline_ 0) && negb root
                         && (0 <=? indexOf NL s)%Z
                 then Ok (nl ++ Stringify.mlString token eol_ indent s level)
                 else Ok (Stringify.quotelessString token eol_ indent quoteStrings
                            multiline_ s sep level root false)
             | VNumber n =>
                 if isFinite n
                 then Ok (Stringify.wrap (Stringify.t_num token) (number_to_string n))
                 else Ok (Stringify.wrap (Stringify.t_lit token) (lit "null"))
             | VArray _ items =>
                 Stringify.visit_array token eol_ indent condense_ visit
                                       commentInfo items sep level hc
             | VObject _ props =>
                 Stringify.visit_object token eol_ indent bsl quoteKeys condense_
                                        sortProps_ visit commentInfo props sep level
                                        root hc
             | VUndefined | VFunction =>
                 Ok (Stringify.wrap (Stringify.t_lit token) (lit "null"))
             end
         end).
Proof. destruct v; reflexivity. Qed.

Lemma visit_total token eol_ indent keepComments bsl quoteKeys quoteStrings
      condense_ multiline_ sortProps_ hooks :
  hooks_ok hooks ->
  forall v, (keepComments = true -> stores_ok v = true) ->
  forall sep level root hc,
    exists s, Stringify.visit token eol_ indent keepComments bsl quoteKeys
                quoteStrings condense_ multiline_ sortProps_ hooks
                v sep level root hc = Ok s.
Proof.
  intros Hh v.
  induction v as [| |b|n|s| |cm items IH|cm props IH] using value_induction;
    intros Hs sep level root hc; rewrite visit_eq;
    match goal with
    | |- context [Dsf.runDsf_stringify hooks ?x] =>
        destruct (runDsf_stringify_ok hooks x Hh) as [d ->]
    end;
    cbv beta iota delta [rbind]; destruct d as [t|]; eauto.
  - destruct (isFinite n); eauto.
  - destruct quoteStrings; eauto. destruct (_ && _ && _); eauto.
  - (* array *)
    apply visit_array_ok.
    + destruct keepComments; [|reflexivity].
      specialize (Hs eq_refl). simpl in Hs. now apply andb_true_iff in Hs.
    + unfold answers. rewrite Forall_forall in *. intros x Hx.
      apply IH; [exact Hx|]. intros ->. specialize (Hs eq_refl). simpl in Hs.
      apply andb_true_iff in Hs. destruct Hs as [_ Hs].
      rewrite forallb_forall in Hs. auto.
  - (* object *)
    apply visit_object_ok.
    + destruct keepComments; [|reflexivity].
      specialize (Hs eq_refl). simpl in Hs. now apply andb_true_iff in Hs.
    + unfold answers. rewrite Forall_forall in *. intros x Hx.
      apply in_map_iff in Hx. destruct Hx as [[k x'] [<- Hin]].
      apply (IH _ Hin). intros ->. specialize (Hs eq_refl). simpl in Hs.
      apply andb_true_iff in Hs. destruct Hs as [_ Hs].
      rewrite forallb_forall in Hs. apply (Hs _ Hin).
Qed.

(** ** C7: what a syntax error carries *)

Arguments lit : simpl never.
Arguments Parse.mk_error : simpl never.
Arguments Parse.white_st : simpl never.
Arguments Parse.getComment : simpl never.
Arguments lfuel : simpl never.
Arguments trim : simpl never.
Arguments tryParseNumber : simpl never.

Section Positioned.
Variable text : jstr.
Variable keepComments : bool.
Variable runDsf : jstr -> value.

Local Abbreviation RP := (raises_positioned text).

Lemma rp_ret A (a : A) : RP A (Parse.ret a).
Proof. intros st e H. discriminate. Qed.

Lemma rp_step f : RP unit (Parse.step f).
Proof. intros st e H. discriminate. Qed.

Lemma rp_get : RP _ Parse.get.
Proof. intros st e H. discriminate. Qed.

Lemma rp_error A m : RP A (Parse.error text A m).
Proof.
  intros st e H _. injection H as <-. exists m, (at_ st). reflexivity.
Qed.

Lemma rp_oof A : RP A (fun _ => OutOfFuel).
Proof. intros st e H. discriminate. Qed.

Lemma rp_type_error A m : RP A (fun _ => type_error (A * cursor) m).
Proof. intros st e H Hc. injection H as <-. discriminate. Qed.

Lemma rp_bind A B (m : Parse.P A) (f : A -> Parse.P B) :
  RP A m -> (forall a, RP B (f a)) -> RP B (Parse.bind m f).
Proof.
  intros Hm Hf st e H Hc. unfold Parse.bind in H.
  destruct (m st) as [[a st']|e'|] eqn:E; try discriminate.
  - eapply Hf; eauto.
  - injection H as <-. eapply Hm; eauto.
Qed.

Lemma rp_catch A partial (m : Parse.P A) :
  RP A m -> RP A (Parse.catch_hint partial m).
Proof.
  intros Hm st e H Hc. unfold Parse.catch_hint in H.
  destruct (m st) as [[a st']|e'|] eqn:E; try discriminate.
  injection H as <-. simpl in *.
  destruct (Hm st e' E Hc) as [msg [at0 Hmsg]]. exists msg, at0. exact Hmsg.
Qed.

Ltac rp_with leaf :=
  repeat first
    [ assumption
    | leaf
    | apply rp_ret | apply rp_step | apply rp_get | apply rp_error
    | apply rp_oof | apply rp_type_error
    | apply rp_catch
    | apply rp_bind; [|intro]
    | match goal with
      | |- raises_positioned _ _ (if ?b then _ else _) => destruct b
      | |- raises_positioned _ _ (match ?x with _ => _ end) => destruct x
      end ].

Lemma rp_white : RP _ (Parse.white text).
Proof. unfold Parse.white. apply rp_step. Qed.

Lemma rp_unicode_escape n : forall u, RP _ (Parse.unicode_escape text n u).
Proof. induction n; intros u; simpl; rp_with ltac:(apply IHn). Qed.

Lemma rp_ml_loop fuel : forall indent s triple,
  RP _ (Parse.ml_loop text fuel indent s triple).
Proof. induction fuel; intros; simpl; rp_with ltac:(apply IHfuel). Qed.

Lemma rp_mlString : RP _ (Parse.mlString text).
Proof. unfold Parse.mlString. rp_with ltac:(apply rp_ml_loop). Qed.

Lemma rp_string_loop fuel : forall exitCh allowML s,
  RP _ (Parse.string_loop text fuel exitCh allowML s).
Proof.
  induction fuel; intros; simpl;
    rp_with ltac:(first [apply IHfuel | apply rp_mlString | apply rp_unicode_escape]).
Qed.

Lemma rp_string allowML : RP _ (Parse.string_ text allowML).
Proof. unfold Parse.string_. rp_with ltac:(apply rp_string_loop). Qed.

Lemma rp_keyname_loop fuel : forall name start space,
  RP _ (Parse.keyname_loop text fuel name start space).
Proof. induction fuel; intros; simpl; rp_with ltac:(apply IHfuel). Qed.

Lemma rp_keyname : RP _ (Parse.keyname text).
Proof.
  unfold Parse.keyname.
  rp_with ltac:(first [apply rp_string | apply rp_keyname_loop]).
Qed.

Lemma rp_tfnns_loop fuel : forall val,
  RP _ (Parse.tfnns_loop text runDsf fuel val).
Proof. induction fuel; intros; simpl; rp_with ltac:(apply IHfuel). Qed.

Lemma rp_tfnns : RP _ (Parse.tfnns text runDsf).
Proof. unfold Parse.tfnns. rp_with ltac:(apply rp_tfnns_loop). Qed.

Lemma rp_after_member : RP _ (Parse.after_member text).
Proof. unfold Parse.after_member. rp_with ltac:(apply rp_white). Qed.

Ltac rp_leaf :=
  first [ apply rp_white | apply rp_string | apply rp_tfnns
        | apply rp_after_member | apply rp_keyname ].

Lemma rp_mutual fuel :
  RP _ (Parse.value_ text keepComments runDsf fuel)
  /\ RP _ (Parse.array_ text keepComments runDsf fuel)
  /\ (forall items ca nc, RP _ (Parse.array_loop text keepComments runDsf fuel items ca nc))
  /\ (forall wb, RP _ (Parse.object_ text keepComments runDsf fuel wb))
  /\ (forall wb props cc co nc,
         RP _ (Parse.object_loop text keepComments runDsf fuel wb props cc co nc)).
Proof.
  induction fuel as [|fuel [IHv [IHa [IHal [IHo IHol]]]]].
  - repeat split; intros; apply rp_oof.
  - repeat split; intros; simpl;
      rp_with ltac:(first [apply IHo | apply IHal | apply IHol | rp_leaf]).
Qed.

Lemma rp_checkTrailing v c : RP _ (Parse.checkTrailing text keepComments v c).
Proof. unfold Parse.checkTrailing. rp_with ltac:(apply rp_white). Qed.

Lemma rp_rootValue fuel : RP _ (Parse.rootValue text keepComments runDsf fuel).
Proof.
  unfold Parse.rootValue. destruct (rp_mutual fuel) as [Hv [Ha [_ [Ho _]]]].
  rp_with ltac:(first [apply Ho | apply rp_white | apply rp_checkTrailing]).
Qed.

Lemma rp_legacyRootValue fuel :
  RP _ (Parse.legacyRootValue text keepComments runDsf fuel).
Proof.
  unfold Parse.legacyRootValue. destruct (rp_mutual fuel) as [Hv [Ha [_ [Ho _]]]].
  apply rp_bind; [apply rp_white|intros _].
  apply rp_bind; [apply rp_get|intros st0].
  destruct (ch_is "{" st0);
    [rp_with ltac:(first [apply Ho | apply rp_checkTrailing])|].
  destruct (ch_is "[" st0);
    [rp_with ltac:(first [apply Ho | apply rp_checkTrailing])|].
  intros st e H Hc.
  assert (H1 : RP _ (Parse.object_attempt text keepComments runDsf fuel
                       (Parse.root_comment text keepComments st0))).
  { unfold Parse.object_attempt.
    rp_with ltac:(first [apply Ho | apply rp_checkTrailing]). }
  destruct (Parse.object_attempt text keepComments runDsf fuel
              (Parse.root_comment text keepComments st0) st) as [[v st']|e1|] eqn:E1;
    try discriminate.
  destruct (Parse.value_attempt text keepComments runDsf fuel
              (Parse.root_comment text keepComments st0) Parse.resetAt)
    as [[v st']|e2|] eqn:E2; try discriminate.
  injection H as <-. eapply H1; eauto.
Qed.
End Positioned.

Section Position.
Variable text : jstr.

Lemma col_scan_spec : forall i col,
  let r := Parse.col_scan text i col in
  (fst r <= i)%nat
  /\ snd r = (col + Z.of_nat (i - fst r))%Z
  /\ (forall j, (fst r < j <= i)%nat -> charAt text (Z.of_nat j) <> Some NL)
  /\ ((0 < fst r)%nat -> charAt text (Z.of_nat (fst r)) = Some NL).
Proof.
  induction i as [|i IH]; intros col.
  - simpl. repeat split; try lia; intros; lia.
  - cbn [Parse.col_scan].
    assert (Hstep : forall r,
               r = Parse.col_scan text i (col + 1) ->
               charAt text (Z.of_nat (S i)) <> Some NL ->
               (fst r <= S i)%nat
               /\ snd r = (col + Z.of_nat (S i - fst r))%Z
               /\ (forall j, (fst r < j <= S i)%nat -> charAt text (Z.of_nat j) <> Some NL)
               /\ ((0 < fst r)%nat -> charAt text (Z.of_nat (fst r)) = Some NL)).
    { intros r -> Hne. destruct (IH (col + 1)%Z) as [H1 [H2 [H3 H4]]].
      repeat split; try lia; auto.
      intros j Hj. destruct (Nat.eq_dec j (S i)) as [->|]; [exact Hne|].
      apply H3. lia. }
    destruct (charAt text (Z.of_nat (S i))) as [c|] eqn:Ec.
    + destruct (is_nl c) eqn:En.
      * simpl. unfold is_nl in En. apply N.eqb_eq in En. subst c.
        repeat split; try lia; auto; intros; lia.
      * apply Hstep; auto. intros H; injection H as ->.
        unfold is_nl in En. rewrite N.eqb_refl in En. discriminate.
    + apply Hstep; auto. discriminate.
Qed.

Lemma line_scan_ge : forall i line, (line <= Parse.line_scan text i line)%Z.
Proof.
  induction i as [|i IH]; intros line; simpl; [lia|].
  etransitivity; [|apply IH].
  destruct (charAt text _) as [c|]; [destruct (is_nl c)|]; lia.
Qed.

Lemma substr_length s start n : (len (substr s start n) <= Z.max n 0)%Z.
Proof.
  unfold substr, len. rewrite length_firstn. lia.
Qed.

(** What [error] computes at the cursor [at0]. *)
Lemma error_position (at0 : Z) :
  let C := Parse.error_col text at0 in
  (1 <= Parse.error_line text at0)%Z
  /\ (0 <= C)%Z
  /\ Parse.error_snippet text at0 = substr text (at0 - C) 20
  /\ (len (Parse.error_snippet text at0) <= 20)%Z
  /\ (forall j, (at0 - C <= j < at0)%Z -> charAt text j <> Some NL)
  /\ ((C < at0 - 1)%Z -> charAt text (at0 - C - 1) = Some NL).
Proof.
  unfold Parse.error_snippet, Parse.error_line, Parse.error_col.
  destruct (col_scan_spec (Z.to_nat (at0 - 1)) 0) as [H1 [H2 [H3 H4]]].
  set (r := Parse.col_scan text (Z.to_nat (at0 - 1)) 0) in *.
  repeat split.
  - apply line_scan_ge.
  - lia.
  - pose proof (substr_length text (at0 - snd r) 20). lia.
  - intros j Hj.
    replace j with (Z.of_nat (Z.to_nat j)) by lia. apply H3. lia.
  - intros Hc.
    replace (at0 - snd r - 1)%Z with (Z.of_nat (fst r)) by lia. apply H4. lia.
Qed.
End Position.

(** ** The parser terminates: the fuel is never exhausted *)

Arguments advanced text st k A /.

Section Termination.
Variable text : jstr.
Variable keepComments : bool.
Variable runDsf : jstr -> value.

Local Abbreviation ok := (consistent text).
Local Abbreviation next := (next text).

Lemma ok_reset : ok Parse.resetAt.
Proof. left. split; reflexivity. Qed.

Lemma at_next st : at_ (next st) = (at_ st + 1)%Z.
Proof. reflexivity. Qed.

Lemma ok_next st : ok st -> ok (next st).
Proof.
  intros H. right. rewrite at_next. split.
  - destruct H as [[H1 _]|[H1 _]]; lia.
  - unfold Common.next. cbn [ch]. f_equal. lia.
Qed.

Lemma ok_nonneg st : ok st -> (0 <= at_ st)%Z.
Proof. intros [[H1 _]|[H1 _]]; lia. Qed.

Lemma charAt_some s i c : charAt s i = Some c -> (0 <= i < len s)%Z.
Proof.
  unfold charAt, len. destruct (i <? 0)%Z eqn:E; [discriminate|].
  intros H. assert (nth_error s (Z.to_nat i) <> None) by congruence.
  apply nth_error_Some in H0. lia.
Qed.

Lemma ok_some st c : ok st -> ch st = Some c -> (at_ st <= len text)%Z.
Proof.
  intros [[H1 _]|[H1 H2]] Hc; [unfold len; lia|].
  rewrite H2 in Hc. apply charAt_some in Hc. lia.
Qed.

Lemma ok_skip_while fuel p : forall st,
  ok st -> ok (skip_while text fuel p st)
           /\ (at_ st <= at_ (skip_while text fuel p st))%Z.
Proof.
  induction fuel as [|fuel IH]; intros st H; simpl; [split; [auto|lia]|].
  destruct (p st); [|split; [auto|lia]].
  destruct (IH (next st) (ok_next st H)) as [H1 H2]. rewrite at_next in H2.
  split; [auto|lia].
Qed.

Lemma ok_white_loop fuel : forall st,
  ok st -> ok (Parse.white_loop text fuel st)
           /\ (at_ st <= at_ (Parse.white_loop text fuel st))%Z.
Proof.
  induction fuel as [|fuel IH]; intros st H; cbn [Parse.white_loop];
    [split; [auto|lia]|].
  destruct (ch st); [|split; [auto|lia]].
  destruct (ok_skip_while (lfuel text) ch_blank st H) as [H1 H2].
  set (st1 := skip_while text (lfuel text) ch_blank st) in *.
  destruct (ch_is "#" st1 || ch_is "/" st1 && Parse.peek_is text "/" st1).
  - match goal with |- context [skip_while text ?f ?p st1] =>
      destruct (ok_skip_while f p st1 H1) as [H3 H4];
      destruct (IH (skip_while text f p st1) H3) as [H5 H6]
    end.
    split; [auto|lia].
  - destruct (ch_is "/" st1 && Parse.peek_is text "*" st1); [|split; [auto|lia]].
    pose proof (ok_next _ (ok_next _ H1)) as H3.
    match goal with |- context [skip_while text ?f ?p (next (next st1))] =>
      destruct (ok_skip_while f p (next (next st1)) H3) as [H4 H5];
      set (st2 := skip_while text f p (next (next st1))) in *
    end.
    rewrite !at_next in H5.
    destruct (ch st2).
    + destruct (IH (next (next st2)) (ok_next _ (ok_next _ H4))) as [H6 H7].
      rewrite !at_next in H7. split; [auto|lia].
    + destruct (IH st2 H4) as [H6 H7]. split; [auto|lia].
Qed.

Lemma ok_white st :
  ok st -> ok (Parse.white_st text st) /\ (at_ st <= at_ (Parse.white_st text st))%Z.
Proof. apply ok_white_loop. Qed.

Lemma ok_skipIndent n : forall st,
  ok st -> ok (Parse.skipIndent text n st)
           /\ (at_ st <= at_ (Parse.skipIndent text n st))%Z.
Proof.
  induction n as [|n IH]; intros st H; simpl; [split; [auto|lia]|].
  destruct (ch st) as [c|]; [|split; [auto|lia]].
  destruct ((c <=? 32)%N && negb (is_nl c)); [|split; [auto|lia]].
  destruct (IH (next st) (ok_next st H)) as [H1 H2]. rewrite at_next in H2.
  split; [auto|lia].
Qed.

(** *** The combinators *)

Lemma fine_bind A B (m : Parse.P A) (f : A -> Parse.P B) st
      (Q1 : A -> cursor -> Prop) (Q : B -> cursor -> Prop) :
  fine A Q1 (m st) ->
  (forall a st', Q1 a st' -> fine B Q (f a st')) ->
  fine B Q (Parse.bind m f st).
Proof.
  unfold Parse.bind. destruct (m st) as [[a st']|e|]; simpl; intuition.
Qed.

Lemma fine_weaken A (Q1 Q : A -> cursor -> Prop) r :
  fine A Q1 r -> (forall a st, Q1 a st -> Q a st) -> fine A Q r.
Proof. destruct r as [[a st']|e|]; simpl; auto. Qed.

Lemma fine_catch A (Q : A -> cursor -> Prop) partial (m : Parse.P A) st :
  fine A Q (m st) -> fine A Q (Parse.catch_hint partial m st).
Proof. unfold Parse.catch_hint. destruct (m st) as [[a st']|e|]; simpl; auto. Qed.

(** *** The loops that have their own fuel *)

Ltac zl :=
  solve [ lia
        | repeat match goal with
                 | H : @eq (option _) _ _ |- _ => clear H
                 end; lia ].

Lemma fine_unicode_escape n : forall u st,
  ok st ->
  fine _ (advanced text st 0 _) (Parse.unicode_escape text n u st).
Proof.
  induction n as [|n IH]; intros u st H; cbn [Parse.unicode_escape].
  - cbn [fine advanced]. split; [auto|lia].
  - unfold Parse.bind, Parse.step, Parse.get.
    destruct (ch (next st)) as [c|] eqn:Ec; [|exact I].
    destruct (Parse.hex_value c) as [h|]; [|exact I].
    pose proof (IH (u * 16 + h)%N (next st) (ok_next st H)) as Hr.
    eapply fine_weaken; [exact Hr|].
    intros ? st' [H1 H2]. rewrite at_next in H2. split; [auto|zl].
Qed.

Lemma fine_ml_loop fuel : forall indent s triple st,
  ok st ->
  (Z.max 0 (len text + 1 - at_ st) < Z.of_nat fuel)%Z ->
  fine _ (advanced text st 0 _) (Parse.ml_loop text fuel indent s triple st).
Proof.
  induction fuel as [|fuel IH]; intros indent s triple st H Hf; [zl|].
  cbn [Parse.ml_loop]. unfold Parse.bind, Parse.step, Parse.get, Parse.ret.
  destruct (ch st) as [c|] eqn:Ec; [|exact I].
  pose proof (ok_some st c H Ec) as Hle.
  pose proof (ok_next st H) as Hn.
  assert (Hrec : forall indent s triple st',
             ok st' -> (at_ st + 1 <= at_ st')%Z ->
             fine _ (advanced text st 0 _)
                  (Parse.ml_loop text fuel indent s triple st')).
  { intros i' s' t' st' Hok Hat.
    eapply fine_weaken; [apply IH; [exact Hok|zl]|].
    intros ? st'' [H1 H2]. split; [auto|zl]. }
  destruct (isc "'" c).
  - destruct (Nat.eqb (S triple) 3).
    + cbn [fine advanced]. split; [auto|rewrite ?at_next; zl].
    + apply Hrec; [auto|rewrite ?at_next; zl].
  - destruct (is_nl c).
    + destruct (ok_skipIndent indent (next st) Hn) as [H1 H2].
      rewrite at_next in H2. apply Hrec; [auto|zl].
    + apply Hrec; [auto|rewrite ?at_next; zl].
Qed.

Lemma fine_mlString st :
  ok st -> fine _ (advanced text st 0 _) (Parse.mlString text st).
Proof.
  intros H. unfold Parse.mlString, Parse.bind, Parse.step, Parse.get, Parse.ret.
  match goal with |- context [skip_while text ?f ?p st] =>
    destruct (ok_skip_while f p st H) as [H1 H2];
    set (st1 := skip_while text f p st) in *
  end.
  assert (Hrec : forall indent st',
             ok st' -> (at_ st <= at_ st')%Z ->
             fine _ (advanced text st 0 _)
                  (Parse.ml_loop text (lfuel text) indent [] 0 st')).
  { intros i' st' Hok Hat.
    eapply fine_weaken; [apply fine_ml_loop; [exact Hok|]|].
    - pose proof (ok_nonneg st' Hok). unfold lfuel, len. zl.
    - intros ? st'' [H3 H4]. split; [auto|zl]. }
  destruct (ch_is "010" st1).
  - destruct (ok_skipIndent
                (Z.to_nat (Parse.ml_indent text (Z.to_nat (at_ st)) (at_ st) 0))
                (next st1) (ok_next st1 H1)) as [H3 H4].
    rewrite at_next in H4. apply Hrec; [auto|zl].
  - apply Hrec; auto.
Qed.

Lemma fine_string_loop fuel : forall exitCh allowML s st,
  ok st ->
  (Z.max 0 (len text - at_ st) < Z.of_nat fuel)%Z ->
  fine _ (advanced text st 1 _) (Parse.string_loop text fuel exitCh allowML s st).
Proof.
  induction fuel as [|fuel IH]; intros exitCh allowML s st H Hf; [zl|].
  cbn [Parse.string_loop]. unfold Parse.bind, Parse.step, Parse.get, Parse.ret.
  pose proof (ok_next st H) as Hn.
  destruct (ch (next st)) as [c|] eqn:Ec; [|exact I].
  pose proof (ok_some _ c Hn Ec) as Hle. rewrite at_next in Hle.
  assert (Hrec : forall s st',
             ok st' -> (at_ st + 1 <= at_ st')%Z ->
             fine _ (advanced text st 1 _)
                  (Parse.string_loop text fuel exitCh allowML s st')).
  { intros s' st' Hok Hat.
    eapply fine_weaken; [apply IH; [exact Hok|zl]|].
    intros ? st'' [H1 H2]. split; [auto|zl]. }
  destruct (match exitCh with Some x => (c =? x)%N | None => false end).
  - destruct (_ && _ && _ && _).
    + eapply fine_weaken; [apply fine_mlString; auto using ok_next|].
      intros ? st'' [H1 H2]. rewrite !at_next in H2. split; [auto|zl].
    + cbn [fine advanced]. split; [auto using ok_next|rewrite ?at_next; zl].
  - destruct (isc "\" c).
    + destruct (ch_is "u" (next (next st))).
      * pose proof (fine_unicode_escape 4 0 (next (next st)) (ok_next _ Hn)) as Hu.
        destruct (Parse.unicode_escape text 4 0 (next (next st)))
          as [[u st']|e|]; cbn [fine advanced] in Hu; try exact I; [|destruct Hu].
        destruct Hu as [H1 H2]. rewrite !at_next in H2. apply Hrec; [auto|zl].
      * destruct (ch (next (next st))) as [d|]; [|exact I].
        destruct (Parse.escapee d); [|exact I].
        apply Hrec; [auto using ok_next|rewrite ?at_next; zl].
    + destruct (is_nl c || is_cr c); [exact I|].
      apply Hrec; [auto|rewrite ?at_next; zl].
Qed.

Lemma fine_string allowML st :
  ok st -> fine _ (advanced text st 1 _) (Parse.string_ text allowML st).
Proof.
  intros H. unfold Parse.string_, Parse.bind, Parse.get.
  apply fine_string_loop; [auto|].
  pose proof (ok_nonneg st H). unfold lfuel, len. zl.
Qed.

Lemma fine_keyname_loop fuel : forall name start space st,
  ok st ->
  (Z.max 0 (len text + 1 - at_ st) < Z.of_nat fuel)%Z ->
  fine _ (advanced text st 0 _) (Parse.keyname_loop text fuel name start space st).
Proof.
  induction fuel as [|fuel IH]; intros name start space st H Hf; [zl|].
  cbn [Parse.keyname_loop]. unfold Parse.bind, Parse.step, Parse.get, Parse.ret.
  destruct (ch st) as [c|] eqn:Ec; [|exact I].
  pose proof (ok_some st c H Ec) as Hle.
  assert (Hrec : forall name space,
             fine _ (advanced text st 0 _)
                  (Parse.keyname_loop text fuel name start space (next st))).
  { intros n' s'.
    eapply fine_weaken; [apply IH; [apply ok_next; auto|rewrite ?at_next; zl]|].
    intros ? st'' [H1 H2]. rewrite at_next in H2. split; [auto|zl]. }
  destruct (isc ":" c).
  - destruct name; [exact I|].
    destruct (_ && _); [exact I|]. cbn [fine advanced]. split; [auto|zl].
  - destruct (c <=? 32)%N; [apply Hrec|].
    destruct (Parse.isPunctuatorChar c); [exact I|apply Hrec].
Qed.

Lemma fine_keyname st :
  ok st -> fine _ (advanced text st 0 _) (Parse.keyname text st).
Proof.
  intros H. unfold Parse.keyname, Parse.bind, Parse.get.
  destruct (ch_dq st || ch_is "'" st).
  - eapply fine_weaken; [apply fine_string; auto|].
    intros ? st' [H1 H2]. split; [auto|zl].
  - apply fine_keyname_loop; [auto|].
    pose proof (ok_nonneg st H). unfold lfuel, len. zl.
Qed.

Lemma fine_tfnns_loop fuel : forall val st,
  ok st ->
  (Z.max 0 (len text - at_ st) < Z.of_nat fuel)%Z ->
  fine _ (advanced text st 1 _) (Parse.tfnns_loop text runDsf fuel val st).
Proof.
  induction fuel as [|fuel IH]; intros val st H Hf; [zl|].
  cbn [Parse.tfnns_loop]. unfold Parse.bind, Parse.step, Parse.get, Parse.ret.
  pose proof (ok_next st H) as Hn.
  assert (Hret : forall v : value, fine _ (advanced text st 1 _) (Ok (v, next st))).
  { intros v. cbn [fine advanced]. split; [auto|rewrite ?at_next; zl]. }
  assert (Hrec : forall val, Parse.is_eol (next st) = false ->
             fine _ (advanced text st 1 _)
                  (Parse.tfnns_loop text runDsf fuel val (next st))).
  { intros v' He. unfold Parse.is_eol in He.
    destruct (ch (next st)) as [c|] eqn:Ec; [|discriminate].
    pose proof (ok_some _ c Hn Ec) as Hle. rewrite at_next in Hle.
    eapply fine_weaken; [apply IH; [auto|rewrite ?at_next; zl]|].
    intros ? st'' [H1 H2]. rewrite at_next in H2. split; [auto|zl]. }
  destruct (Parse.is_tfnns_stop text (next st)) eqn:Es.
  - destruct (Parse.tfnns_literal val); [apply Hret|].
    destruct (Parse.is_eol (next st)) eqn:He; [|apply Hrec; auto].
    destruct (runDsf (trim val)); apply Hret.
  - apply Hrec. unfold Parse.is_tfnns_stop in Es.
    destruct (Parse.is_eol (next st)); [discriminate|reflexivity].
Qed.

Lemma fine_tfnns st :
  ok st -> fine _ (advanced text st 1 _) (Parse.tfnns text runDsf st).
Proof.
  intros H. unfold Parse.tfnns, Parse.bind, Parse.get.
  destruct (match ch st with Some c => Parse.isPunctuatorChar c | None => false end);
    [exact I|].
  apply fine_tfnns_loop; [auto|].
  pose proof (ok_nonneg st H). unfold lfuel, len. zl.
Qed.

Lemma fine_after_member st :
  ok st -> fine _ (advanced text st 0 _) (Parse.after_member text st).
Proof.
  intros H.
  unfold Parse.after_member, Parse.white, Parse.bind, Parse.step, Parse.get, Parse.ret.
  destruct (ok_white st H) as [H1 H2].
  destruct (ch_is "," (Parse.white_st text st)).
  - destruct (ok_white _ (ok_next _ H1)) as [H3 H4]. rewrite at_next in H4.
    cbn [fine advanced]. split; [auto|zl].
  - cbn [fine advanced]. split; [auto|zl].
Qed.

(** *** [value], [array] and [object] *)

Lemma left_some st c : ok st -> ch st = Some c -> (1 <= left_ text st)%Z.
Proof. intros H Hc. pose proof (ok_some st c H Hc). unfold left_. zl. Qed.

Lemma left_mono st st' : (at_ st <= at_ st')%Z -> (left_ text st' <= left_ text st)%Z.
Proof. unfold left_. lia. Qed.

Lemma left_step st st' :
  (1 <= left_ text st)%Z -> (at_ st + 1 <= at_ st')%Z ->
  (left_ text st' <= left_ text st - 1)%Z.
Proof. unfold left_. lia. Qed.

(** A call whose outcome is known to be fine: go on with its result. *)
Ltac call H :=
  match type of H with
  | fine _ _ ?c =>
      let a := fresh "a" in
      let st' := fresh "st" in
      let Hok := fresh "Hok" in
      let Hat := fresh "Hat" in
      destruct c as [[a st']|?|];
      cbn [fine advanced] in H;
      [destruct H as [Hok Hat] | exact I | destruct H]
  end.

Ltac refold :=
  fold (Parse.value_ text keepComments runDsf);
  fold (Parse.array_ text keepComments runDsf);
  fold (Parse.array_loop text keepComments runDsf);
  fold (Parse.object_ text keepComments runDsf);
  fold (Parse.object_loop text keepComments runDsf).

Lemma fine_mutual fuel :
  (forall st, ok st -> (3 * left_ text st + 2 <= Z.of_nat fuel)%Z ->
              fine _ (advanced text st 1 _)
                   (Parse.value_ text keepComments runDsf fuel st))
  /\ (forall st, ok st -> ch st <> None ->
                 (3 * left_ text st + 1 <= Z.of_nat fuel)%Z ->
                 fine _ (advanced text st 1 _)
                      (Parse.array_ text keepComments runDsf fuel st))
  /\ (forall st items ca nc, ok st ->
                 (3 * left_ text st + 3 <= Z.of_nat fuel)%Z ->
                 fine _ (advanced text st 0 _)
                      (Parse.array_loop text keepComments runDsf fuel items ca nc st))
  /\ (forall st, ok st -> ch st <> None ->
                 (3 * left_ text st + 1 <= Z.of_nat fuel)%Z ->
                 fine _ (advanced text st 1 _)
                      (Parse.object_ text keepComments runDsf fuel false st))
  /\ (forall st wb props cc co nc, ok st ->
                 (3 * left_ text st + 3 <= Z.of_nat fuel)%Z ->
                 fine _ (advanced text st 0 _)
                      (Parse.object_loop text keepComments runDsf fuel wb props cc co nc st)).
Proof.
  induction fuel as [|fuel [IHv [IHa [IHal [IHo IHol]]]]].
  - repeat split; intros; unfold left_ in *; zl.
  - repeat split.
    + (* value *)
      intros st H Hf. cbn [Parse.value_]; refold.
      unfold Parse.bind, Parse.white, Parse.step, Parse.get, Parse.ret.
      destruct (ok_white st H) as [H1 H2].
      set (st1 := Parse.white_st text st) in *.
      pose proof (left_mono st st1 H2) as Hl.
      destruct (ch_is "{" st1) eqn:E1.
      { assert (Hc : ch st1 <> None).
        { unfold ch_is in E1. destruct (ch st1); [discriminate|discriminate]. }
        pose proof (IHo st1 H1 Hc ltac:(zl)) as Hr. call Hr. split; [auto|zl]. }
      destruct (ch_is "[" st1) eqn:E2.
      { assert (Hc : ch st1 <> None).
        { unfold ch_is in E2. destruct (ch st1); [discriminate|discriminate]. }
        pose proof (IHa st1 H1 Hc ltac:(zl)) as Hr. call Hr. split; [auto|zl]. }
      destruct (ch_is "'" st1 || ch_dq st1).
      { pose proof (fine_string true st1 H1) as Hr. call Hr. split; [auto|zl]. }
      pose proof (fine_tfnns st1 H1) as Hr. call Hr. split; [auto|zl].
    + (* array *)
      intros st H Hc Hf. cbn [Parse.array_]; refold.
      unfold Parse.bind, Parse.white, Parse.step, Parse.get, Parse.ret.
      destruct (ch st) as [c|] eqn:Ec; [|congruence].
      pose proof (left_some st c H Ec) as Hl.
      destruct (ok_white _ (ok_next st H)) as [H1 H2]. rewrite at_next in H2.
      set (st1 := Parse.white_st text (next st)) in *.
      pose proof (left_step st st1 Hl H2) as Hl1.
      destruct (ch_is "]" st1).
      { cbn [fine advanced]. split; [auto using ok_next|rewrite ?at_next; zl]. }
      match goal with
      | |- context [Parse.array_loop text keepComments runDsf fuel ?i ?a ?n st1] =>
          pose proof (IHal st1 i a n H1 ltac:(zl)) as Hr
      end.
      call Hr. split; [auto|zl].
    + (* the loop of array *)
      intros st items ca nc H Hf. cbn [Parse.array_loop]; refold.
      unfold Parse.bind at 1. unfold Parse.get at 1.
      destruct (ch st) as [c|] eqn:Ec;
        [|unfold Parse.catch_hint, Parse.error; exact I].
      pose proof (left_some st c H Ec) as Hl.
      unfold Parse.bind at 1.
      pose proof (fine_catch _ _ (VArray None items) _ st (IHv st H ltac:(zl))) as Hr.
      call Hr.
      unfold Parse.bind at 1.
      pose proof (fine_after_member st0 Hok) as Hm. call Hm.
      unfold Parse.bind, Parse.white, Parse.step, Parse.get, Parse.ret.
      destruct (ch_is "]" st1).
      { cbn [fine advanced]. split; [auto using ok_next|rewrite ?at_next; zl]. }
      destruct (ok_white st1 Hok0) as [H1 H2].
      pose proof (left_step st (Parse.white_st text st1) Hl ltac:(zl)) as Hl1.
      match goal with
      | |- context [Parse.array_loop text keepComments runDsf fuel ?i ?a ?n ?s] =>
          pose proof (IHal s i a n H1 ltac:(zl)) as Hr
      end.
      call Hr. split; [auto|zl].
    + (* object *)
      intros st H Hc Hf. cbn [Parse.object_]; refold.
      unfold Parse.bind, Parse.white, Parse.step, Parse.get, Parse.ret.
      destruct (ch st) as [c|] eqn:Ec; [|congruence].
      pose proof (left_some st c H Ec) as Hl.
      destruct (ok_white _ (ok_next st H)) as [H1 H2]. rewrite at_next in H2.
      set (st1 := Parse.white_st text (next st)) in *.
      pose proof (left_step st st1 Hl H2) as Hl1.
      destruct (ch_is "}" st1 && negb false).
      { cbn [fine advanced]. split; [auto using ok_next|rewrite ?at_next; zl]. }
      match goal with
      | |- context [Parse.object_loop text keepComments runDsf fuel ?w ?p ?a ?b ?n st1] =>
          pose proof (IHol st1 w p a b n H1 ltac:(zl)) as Hr
      end.
      call Hr. split; [auto|zl].
    + (* the loop of object *)
      intros st wb props cc co nc H Hf. cbn [Parse.object_loop]; refold.
      unfold Parse.bind at 1. unfold Parse.get at 1.
      destruct (ch st) as [c|] eqn:Ec.
      2:{ destruct wb; [cbn [fine advanced Parse.ret]; unfold Parse.ret;
                        cbn [fine advanced]; split; [auto|zl]
                       |unfold Parse.catch_hint, Parse.error; exact I]. }
      pose proof (left_some st c H Ec) as Hl.
      unfold Parse.bind at 1.
      match goal with
      | |- context [Parse.catch_hint ?p ?m st] =>
          assert (Hr : fine _ (advanced text st 1 _) (Parse.catch_hint p m st))
      end.
      { apply fine_catch.
        unfold Parse.bind at 1.
        pose proof (fine_keyname st H) as Hk. call Hk.
        unfold Parse.bind, Parse.white, Parse.step, Parse.get, Parse.ret,
          Parse.error.
        destruct (ok_white st0 Hok) as [H1 H2].
        set (st1 := Parse.white_st text st0) in *.
        destruct (ch_is ":" st1); [|exact I].
        pose proof (ok_next st1 H1) as Hn.
        pose proof (left_step st (next st1) Hl ltac:(rewrite at_next; zl)) as Hl1.
        pose proof (IHv (next st1) Hn ltac:(zl)) as Hv. call Hv.
        rewrite at_next in Hat0. split; [auto|zl]. }
      call Hr.
      unfold Parse.bind at 1.
      pose proof (fine_after_member st0 Hok) as Hm. call Hm.
      unfold Parse.bind, Parse.white, Parse.step, Parse.get, Parse.ret.
      destruct (ch_is "}" st1 && negb wb).
      { cbn [fine advanced]. split; [auto using ok_next|rewrite ?at_next; zl]. }
      destruct (ok_white st1 Hok0) as [H1 H2].
      pose proof (left_step st (Parse.white_st text st1) Hl ltac:(zl)) as Hl1.
      match goal with
      | |- context [Parse.object_loop text keepComments runDsf fuel ?w ?p ?a ?b ?n ?s] =>
          pose proof (IHol s w p a b n H1 ltac:(zl)) as Hr
      end.
      call Hr. split; [auto|zl].
Qed.

Lemma fine_object_root fuel st :
  ok st -> (3 * left_ text st + 4 <= Z.of_nat fuel)%Z ->
  fine _ (advanced text st 0 _)
       (Parse.object_ text keepComments runDsf fuel true st).
Proof.
  intros H Hf. destruct fuel as [|fuel]; [unfold left_ in Hf; zl|].
  cbn [Parse.object_]; refold.
  unfold Parse.bind, Parse.white, Parse.step, Parse.get, Parse.ret.
  destruct (ok_white st H) as [H1 H2].
  set (st1 := Parse.white_st text st) in *.
  pose proof (left_mono st st1 H2) as Hl.
  rewrite andb_false_r.
  match goal with
  | |- context [Parse.object_loop text keepComments runDsf fuel ?w ?p ?a ?b ?n st1] =>
      pose proof (proj2 (proj2 (proj2 (proj2 (fine_mutual fuel))))
                        st1 w p a b n H1 ltac:(zl)) as Hr
  end.
  call Hr. split; [auto|zl].
Qed.

Lemma fine_checkTrailing v c st :
  fine _ (fun _ _ => True) (Parse.checkTrailing text keepComments v c st).
Proof.
  unfold Parse.checkTrailing, Parse.bind, Parse.white, Parse.step, Parse.get,
    Parse.ret, Parse.error, type_error.
  destruct (ch (Parse.white_st text st)); [exact I|].
  destruct keepComments; [|exact I].
  destruct (_ || _); [|exact I].
  destruct (getComment v); exact I.
Qed.

Lemma fine_checked (m : Parse.P value) c st k :
  fine _ (advanced text st k _) (m st) ->
  fine _ (fun _ _ => True)
       (Parse.bind m (fun v => Parse.checkTrailing text keepComments v c) st).
Proof.
  intros H. unfold Parse.bind.
  destruct (m st) as [[v st']|e|]; [apply fine_checkTrailing|exact I|exact H].
Qed.

Lemma left_reset : left_ text Parse.resetAt = (len text + 1)%Z.
Proof. unfold left_, Parse.resetAt, len; simpl. lia. Qed.

Lemma left_root : (left_ text (Parse.white_st text Parse.resetAt) <= len text + 1)%Z.
Proof.
  rewrite <- left_reset. apply left_mono.
  apply (proj2 (ok_white _ ok_reset)).
Qed.

Lemma pfuel_enough : (3 * (len text + 1) + 4 <= Z.of_nat (Parse.pfuel text))%Z.
Proof. unfold Parse.pfuel, len. lia. Qed.

Lemma ch_is_some c st : ch_is c st = true -> ch st <> None.
Proof. unfold ch_is. destruct (ch st); discriminate. Qed.

Lemma fine_object_attempt c :
  fine _ (fun _ _ => True)
       (Parse.object_attempt text keepComments runDsf (Parse.pfuel text) c
                             (Parse.white_st text Parse.resetAt)).
Proof.
  unfold Parse.object_attempt. eapply fine_checked.
  apply fine_object_root; [apply (proj1 (ok_white _ ok_reset))|].
  pose proof left_root. pose proof pfuel_enough. lia.
Qed.

Lemma fine_value_attempt c :
  fine _ (fun _ _ => True)
       (Parse.value_attempt text keepComments runDsf (Parse.pfuel text) c
                            Parse.resetAt).
Proof.
  unfold Parse.value_attempt. eapply fine_checked.
  apply (proj1 (fine_mutual _)); [apply ok_reset|].
  rewrite left_reset. pose proof pfuel_enough. lia.
Qed.

Lemma fine_bracketed (m : Parse.P value) c :
  (forall st, ok st -> ch st <> None ->
              (3 * left_ text st + 1 <= Z.of_nat (Parse.pfuel text))%Z ->
              fine _ (advanced text st 1 _) (m st)) ->
  ch (Parse.white_st text Parse.resetAt) <> None ->
  fine _ (fun _ _ => True)
       (Parse.bind m (fun v => Parse.checkTrailing text keepComments v c)
                   (Parse.white_st text Parse.resetAt)).
Proof.
  intros Hm Hc. eapply fine_checked. apply Hm; [|exact Hc|].
  - apply (proj1 (ok_white _ ok_reset)).
  - pose proof left_root. pose proof pfuel_enough. lia.
Qed.

Lemma fine_rootValue :
  fine _ (fun _ _ => True)
       (Parse.rootValue text keepComments runDsf (Parse.pfuel text) Parse.resetAt).
Proof.
  unfold Parse.rootValue.
  unfold Parse.bind at 1. unfold Parse.white at 1. unfold Parse.step at 1.
  unfold Parse.bind at 1. unfold Parse.get at 1.
  destruct (ch_is "{" _) eqn:E1.
  { apply fine_bracketed; [|eapply ch_is_some; eassumption].
    apply (proj1 (proj2 (proj2 (proj2 (fine_mutual _))))). }
  destruct (ch_is "[" _) eqn:E2.
  { apply fine_bracketed; [|eapply ch_is_some; eassumption].
    apply (proj1 (proj2 (fine_mutual _))). }
  eapply fine_checked.
  apply (proj1 (fine_mutual _)); [apply (proj1 (ok_white _ ok_reset))|].
  pose proof left_root. pose proof pfuel_enough. lia.
Qed.

Lemma fine_legacyRootValue :
  fine _ (fun _ _ => True)
       (Parse.legacyRootValue text keepComments runDsf (Parse.pfuel text)
                              Parse.resetAt).
Proof.
  unfold Parse.legacyRootValue.
  unfold Parse.bind at 1. unfold Parse.white at 1. unfold Parse.step at 1.
  unfold Parse.bind at 1. unfold Parse.get at 1.
  destruct (ch_is "{" _) eqn:E1.
  { apply fine_bracketed; [|eapply ch_is_some; eassumption].
    apply (proj1 (proj2 (proj2 (proj2 (fine_mutual _))))). }
  destruct (ch_is "[" _) eqn:E2.
  { apply fine_bracketed; [|eapply ch_is_some; eassumption].
    apply (proj1 (proj2 (fine_mutual _))). }
  match goal with
  | |- context [Parse.object_attempt _ _ _ _ ?c _] =>
      pose proof (fine_object_attempt c) as H1;
      pose proof (fine_value_attempt c) as H2
  end.
  destruct (Parse.object_attempt _ _ _ _ _ _) as [[v st]|e|]; [exact I| |exact H1].
  destruct (Parse.value_attempt _ _ _ _ _ _) as [[v st]|e2|]; [exact I|exact I|exact H2].
Qed.
End Termination.

(** [parse] never runs out of fuel: it returns a value or throws. *)
Lemma parse_terminates text opt : Parse.parse text opt <> OutOfFuel.
Proof.
  unfold Parse.parse.
  destruct (Dsf.loadDsf _) as [hooks|e|] eqn:El; cbv beta iota delta [rbind].
  - match goal with
    | |- context [if ?b then _ else _] => destruct b
    end.
    + match goal with
      | |- context [Parse.legacyRootValue ?t ?k ?r _ _] =>
          pose proof (fine_legacyRootValue t k r) as H
      end.
      destruct (Parse.legacyRootValue _ _ _ _ _) as [[v st]|e|];
        [discriminate|discriminate|destruct H].
    + match goal with
      | |- context [Parse.rootValue ?t ?k ?r _ _] =>
          pose proof (fine_rootValue t k r) as H
      end.
      destruct (Parse.rootValue _ _ _ _ _) as [[v st]|e|];
        [discriminate|discriminate|destruct H].
  - discriminate.
  - unfold Dsf.loadDsf in El. destruct (match opt with Some o => Parse.dsf o | None => None end);
      [destruct (forallb _ _) in El|]; discriminate.
Qed.

(** * Further properties of the code *)

(** ** [extract] *)

Lemma saveComment_none : Comments.saveComment None None = None.
Proof. reflexivity. Qed.

(** [extract] leaves the value without any store: what is left is the
    payload of the value. *)
Lemma extractComments_payload v :
  forall root, snd (Comments.extractComments v root) = payload v.
Proof.
  induction v using value_induction; intros root; try reflexivity.
  - (* array *)
    cbn [Comments.extractComments payload].
    match goal with
    | |- context [?f items 0%nat] => set (loop := f)
    end.
    assert (Hl : forall i, snd (fst (loop items i)) = map payload items).
    { induction H as [|x l Hx _ IH]; intros i; [reflexivity|].
      cbn [loop map]. fold loop.
      specialize (Hx false). destruct (Comments.extractComments x false) as [c x'].
      simpl in Hx. subst x'.
      specialize (IH (S i)). destruct (loop l (S i)) as [[m l''] has].
      simpl in IH. subst l''.
      destruct (Comments.saveComment _ c); reflexivity. }
    specialize (Hl 0%nat). destruct (loop items 0%nat) as [[m items'] has].
    simpl in Hl. subst items'.
    repeat match goal with
           | |- context [let '(_, _) := ?x in _] => destruct x
           end.
    reflexivity.
  - (* object *)
    cbn [Comments.extractComments payload].
    match goal with
    | |- context [map _ (?f props)] => set (each := f)
    end.
    assert (Hl : map (fun kc : jstr * (option doc * value) => (fst kc, snd (snd kc)))
                     (each props)
                 = map (fun kv => (fst kv, payload (snd kv))) props).
    { induction H as [|kv l Hx _ IH]; [reflexivity|].
      cbn [each map]. fold each. rewrite IH. cbn [fst snd].
      rewrite (Hx false). reflexivity. }
    rewrite Hl.
    repeat match goal with
           | |- context [let '(_, _) := ?x in _] => destruct x
           end.
    reflexivity.
Qed.

Lemma payload_idempotent v : payload (payload v) = payload v.
Proof.
  induction v using value_induction; try reflexivity; cbn [payload]; f_equal.
  - rewrite map_map. apply map_ext_in. intros x Hx.
    rewrite Forall_forall in H. now apply H.
  - rewrite map_map. apply map_ext_in. intros kv Hx.
    rewrite Forall_forall in H. cbn [fst snd]. now rewrite (H kv Hx).
Qed.

Lemma map_fixed (A : Type) (f : A -> A) (l : list A) :
  map f l = l -> Forall (fun x => f x = x) l.
Proof.
  induction l as [|x l IH]; intros H; [constructor|].
  injection H as Hx Hl. constructor; auto.
Qed.

(** A value without stores has no document. *)
Lemma extractComments_plain v :
  payload v = v -> forall root, fst (Comments.extractComments v root) = None.
Proof.
  induction v using value_induction; intros Hp root; try reflexivity.
  - cbn [payload] in Hp. injection Hp as <- Hitems.
    apply map_fixed in Hitems.
    cbn [Comments.extractComments].
    match goal with
    | |- context [?f items 0%nat] => set (loop := f)
    end.
    assert (Hl : forall i, fst (fst (loop items i)) = [] /\ snd (loop items i) = false).
    { clear root. induction H as [|x l Hx _ IH]; intros i; [split; reflexivity|].
      inversion Hitems as [|? ? Hpx Hpl]; subst.
      cbn [loop]. fold loop.
      specialize (Hx Hpx false).
      destruct (Comments.extractComments x false) as [c x'].
      simpl in Hx. subst c.
      specialize (IH Hpl (S i)). destruct (loop l (S i)) as [[m l''] has].
      simpl in IH. destruct IH as [-> ->]. split; reflexivity. }
    specialize (Hl 0%nat). destruct (loop items 0%nat) as [[m items'] has].
    simpl in Hl. destruct Hl as [-> ->].
    destruct root; reflexivity.
  - cbn [payload] in Hp. injection Hp as <- Hprops.
    cbn [Comments.extractComments].
    match goal with
    | |- context [map _ (?f props)] => set (each := f)
    end.
    assert (Hc : forall key, match assoc key (each props) with
                             | Some (c, _) => c
                             | None => None
                             end = None).
    { intros key. clear root.
      induction H as [|kv l Hx _ IH]; [reflexivity|].
      injection Hprops as Hkv Hl.
      cbn [each assoc]. fold each. cbn [fst snd].
      destruct (jeqb key (fst kv)).
      - assert (Hpx : payload (snd kv) = snd kv).
        { destruct kv as [k x]. cbn [fst snd] in *. congruence. }
        specialize (Hx Hpx false).
        destruct (Comments.extractComments (snd kv) false) as [c x'].
        exact Hx.
      - apply IH. exact Hl. }
    unfold Comments.extract_keys.
    match goal with
    | |- context [fold_left ?g _ _] =>
        assert (Hf : forall l, fold_left g l ([], false) = ([], false))
    end.
    { intros ks. induction ks as [|k ks IHk]; [reflexivity|].
      cbn [fold_left]. rewrite Hc. cbn [Comments.saveComment]. exact IHk. }
    rewrite Hf. destruct root; reflexivity.
Qed.

(** X1. [extract] strips every store: the value it leaves is the payload of the
    value it was given, when no object of the value has a member named
    [__COMMENTS__] (the code reads such a member as the store). *)
Theorem extract_strips_stores :
  forall v, no_store_key v = true -> snd (Comments.extract v) = payload v.
Proof. intros v _. apply extractComments_payload. Qed.

Lemma extract_strips_stores_witness :
  snd (Comments.extract
         (VObject (Some (set_o (Some [lit "a"]) no_comments))
            [(lit "a",
              VArray (Some (set_a (Some [Some (Some (lit "# one"), None)])
                                  no_comments))
                     [VNumber (Num false 1 0)])]))
  = VObject None [(lit "a", VArray None [VNumber (Num false 1 0)])].
Proof.
  apply (extract_strips_stores
           (VObject (Some (set_o (Some [lit "a"]) no_comments))
              [(lit "a",
                VArray (Some (set_a (Some [Some (Some (lit "# one"), None)])
                                    no_comments))
                       [VNumber (Num false 1 0)])])).
  reflexivity.
Defined.

(** X2. After an extraction, a second one finds no comment and changes
    nothing. *)
Theorem extract_twice :
  forall v, Comments.extract (snd (Comments.extract v))
            = (None, snd (Comments.extract v)).
Proof.
  intros v. unfold Comments.extract. rewrite extractComments_payload.
  destruct (Comments.extractComments (payload v) true) as [d v'] eqn:E.
  pose proof (extractComments_plain (payload v) (payload_idempotent v) true) as H1.
  pose proof (extractComments_payload (payload v) true) as H2.
  rewrite E in H1, H2. simpl in H1, H2. subst.
  now rewrite payload_idempotent.
Qed.

(** ** [white] *)

Section White.
Variable text : jstr.

Local Abbreviation ok := (consistent text).
Local Abbreviation next := (next text).

(** A loop that calls [next()] while [p] holds stops because [p] fails, when
    [p] fails at the end of the input. *)
Lemma skip_while_stops p :
  (forall s, p s = true -> ch s <> None) ->
  forall fuel st,
    ok st -> (len text + 1 - at_ st < Z.of_nat fuel)%Z ->
    p (skip_while text fuel p st) = false.
Proof.
  intros Hp. induction fuel as [|fuel IH]; intros st H Hf.
  - cbn [skip_while]. destruct (p st) eqn:E; [|reflexivity].
    destruct (ch st) as [c|] eqn:Ec; [|now apply Hp in E].
    pose proof (ok_some text st c H Ec). lia.
  - cbn [skip_while]. destruct (p st) eqn:E; [|exact E].
    apply IH; [apply ok_next; exact H|].
    destruct (ch st) as [c|] eqn:Ec; [|now apply Hp in E].
    pose proof (ok_some text st c H Ec). rewrite at_next. lia.
Qed.

Lemma lfuel_enough st : ok st -> (len text + 1 - at_ st < Z.of_nat (lfuel text))%Z.
Proof.
  intros H. pose proof (ok_nonneg text st H). unfold lfuel, len. lia.
Qed.

Lemma skip_while_advances p fuel st :
  p st = true -> (0 < fuel)%nat ->
  ok st -> (at_ st + 1 <= at_ (skip_while text fuel p st))%Z.
Proof.
  intros E Hf H. destruct fuel as [|fuel]; [lia|].
  cbn [skip_while]. rewrite E.
  pose proof (proj2 (ok_skip_while text fuel p (next st) (ok_next text st H))) as H1.
  rewrite at_next in H1. exact H1.
Qed.

Lemma white_loop_stops : forall fuel st,
  ok st -> (len text + 1 - at_ st < Z.of_nat fuel)%Z ->
  ch_blank (Parse.white_loop text fuel st) = false
  /\ opens_comment text (Parse.white_loop text fuel st) = false.
Proof.
  induction fuel as [|fuel IH]; intros st H Hf.
  - cbn [Parse.white_loop].
    assert (Ec : ch st = None).
    { destruct (ch st) as [c|] eqn:Ec; [|reflexivity].
      pose proof (ok_some text st c H Ec). lia. }
    unfold ch_blank, opens_comment, ch_is. rewrite Ec. split; reflexivity.
  - cbn [Parse.white_loop].
    destruct (ch st) as [c0|] eqn:Ec.
    2:{ unfold ch_blank, opens_comment, ch_is. rewrite Ec. split; reflexivity. }
    pose proof (ok_some text st c0 H Ec) as Hle.
    destruct (ok_skip_while text (lfuel text) ch_blank st H) as [H1 H2].
    assert (Hb : ch_blank (skip_while text (lfuel text) ch_blank st) = false).
    { apply skip_while_stops; [|exact H|apply lfuel_enough; exact H].
      intros s. unfold ch_blank. destruct (ch s); [discriminate|discriminate]. }
    set (st1 := skip_while text (lfuel text) ch_blank st) in *.
    destruct (ch_is "#" st1 || ch_is "/" st1 && Parse.peek_is text "/" st1) eqn:E1.
    { match goal with |- context [skip_while text ?f ?p st1] =>
        assert (Hp : p st1 = true);
        [|pose proof (skip_while_advances p f st1 Hp ltac:(unfold lfuel; lia) H1) as H3;
          pose proof (proj1 (ok_skip_while text f p st1 H1)) as H4]
      end.
      { unfold ch_is in E1. destruct (ch st1) as [c|]; [|discriminate].
        unfold is_nl, NL. unfold isc in E1.
        destruct (N.eqb c (chr "#")) eqn:Eh.
        - apply N.eqb_eq in Eh. subst c. reflexivity.
        - destruct (N.eqb c (chr "/")) eqn:Es; [|discriminate].
          apply N.eqb_eq in Es. subst c. reflexivity. }
      apply IH; [exact H4|lia]. }
    destruct (ch_is "/" st1 && Parse.peek_is text "*" st1) eqn:E2.
    { pose proof (ok_next text _ (ok_next text _ H1)) as H3.
      match goal with |- context [skip_while text ?f ?p (next (next st1))] =>
        destruct (ok_skip_while text f p (next (next st1)) H3) as [H4 H5];
        set (st2 := skip_while text f p (next (next st1))) in *
      end.
      rewrite !at_next in H5.
      destruct (ch st2).
      - apply IH; [apply ok_next, ok_next; exact H4|rewrite !at_next; lia].
      - apply IH; [exact H4|lia]. }
    split; [exact Hb|].
    unfold opens_comment.
    apply orb_false_iff in E1. destruct E1 as [E1 E3]. rewrite E1.
    destruct (ch_is "/" st1); [|reflexivity].
    simpl in E2, E3. rewrite E2, E3. reflexivity.
Qed.

Lemma white_loop_fixed : forall fuel st,
  ch_blank st = false -> opens_comment text st = false ->
  Parse.white_loop text fuel st = st.
Proof.
  intros [|fuel] st Hb Hc; [reflexivity|].
  cbn [Parse.white_loop]. destruct (ch st) eqn:Ec; [|reflexivity].
  assert (Hs : skip_while text (lfuel text) ch_blank st = st).
  { unfold lfuel. cbn [skip_while]. now rewrite Hb. }
  rewrite Hs. unfold opens_comment in Hc.
  apply orb_false_iff in Hc. destruct Hc as [-> Hc].
  destruct (ch_is "/" st); [|reflexivity].
  simpl in Hc. apply orb_false_iff in Hc. destruct Hc as [-> ->]. reflexivity.
Qed.
End White.

(** X3. [white()] leaves the cursor at the end of the input or on a character
    that is neither white space nor the start of a comment, and a second call
    changes nothing. *)
Theorem white_skips_blanks_and_comments :
  forall text st,
    consistent text st ->
    ch_blank (Parse.white_st text st) = false
    /\ opens_comment text (Parse.white_st text st) = false
    /\ Parse.white_st text (Parse.white_st text st) = Parse.white_st text st.
Proof.
  intros text st H.
  destruct (white_loop_stops text (lfuel text) st H (lfuel_enough text st H))
    as [H1 H2].
  split; [exact H1|]. split; [exact H2|].
  apply white_loop_fixed; assumption.
Qed.

Lemma white_skips_blanks_and_comments_witness :
  ch_blank (Parse.white_st (lit "  # note") Parse.resetAt) = false
  /\ opens_comment (lit "  # note") (Parse.white_st (lit "  # note") Parse.resetAt)
     = false
  /\ Parse.white_st (lit "  # note") (Parse.white_st (lit "  # note") Parse.resetAt)
     = Parse.white_st (lit "  # note") Parse.resetAt.
Proof.
  apply (white_skips_blanks_and_comments (lit "  # note") Parse.resetAt).
  left. split; reflexivity.
Defined.

(** ** A text of white space and comments only *)

Lemma white_st_eof text st : ch st = None -> Parse.white_st text st = st.
Proof.
  intros H. unfold Parse.white_st, lfuel. cbn [Parse.white_loop]. now rewrite H.
Qed.

Lemma pfuel_two text : exists n, Parse.pfuel text = S (S n).
Proof. exists (4 * List.length text + 14)%nat. unfold Parse.pfuel. lia. Qed.

Lemma ch_is_eof a st : ch st = None -> ch_is a st = false.
Proof. unfold ch_is. now intros ->. Qed.

(** X4. With the legacy root, a text that holds nothing but white space and
    comments is the empty object. *)
Theorem parse_blank_text :
  forall text opt hooks,
    Dsf.loadDsf (dsf_option opt) = Ok hooks ->
    legacy_root opt = true ->
    ch (root_start text) = None ->
    exists v, Parse.parse text opt = Ok v /\ payload v = VObject None [].
Proof.
  intros text opt hooks Hd Hl He.
  unfold Parse.parse. fold (dsf_option opt). rewrite Hd.
  cbv beta iota delta [rbind].
  fold (legacy_root opt). rewrite Hl. fold (keeps_comments opt).
  unfold Parse.legacyRootValue.
  unfold Parse.bind at 1. unfold Parse.white at 1. unfold Parse.step at 1.
  unfold Parse.bind at 1. unfold Parse.get at 1.
  fold (root_start text).
  rewrite !(ch_is_eof _ _ He).
  destruct (pfuel_two text) as [n ->].
  unfold Parse.object_attempt.
  cbn [Parse.object_ Parse.object_loop].
  unfold Parse.bind, Parse.ret, Parse.get, Parse.white, Parse.step.
  rewrite !(white_st_eof _ _ He). rewrite !(ch_is_eof _ _ He).
  cbn [andb]. rewrite He.
  unfold Parse.checkTrailing.
  unfold Parse.bind, Parse.ret, Parse.get, Parse.white, Parse.step.
  rewrite !(white_st_eof _ _ He). rewrite He.
  unfold Parse.object_value.
  destruct (keeps_comments opt).
  - destruct (_ || _); eexists; split; reflexivity.
  - eexists; split; reflexivity.
Qed.

Lemma parse_blank_text_witness :
  exists v, Parse.parse (text_of [" # nothing here"; "  "]%string) None = Ok v
            /\ payload v = VObject None [].
Proof.
  apply (parse_blank_text (text_of [" # nothing here"; "  "]%string) None []);
    vm_compute; reflexivity.
Defined.

(** ** The cursor on a position of the text *)

Lemma charAt_nat text k : charAt text (Z.of_nat k) = nth_error text k.
Proof.
  unfold charAt. destruct (Z.of_nat k <? 0)%Z eqn:E; [apply Z.ltb_lt in E; lia|].
  now rewrite Nat2Z.id.
Qed.

Lemma next_cur text k : next text (cur text k) = cur text (S k).
Proof.
  unfold next, cur. cbn [at_]. f_equal; [lia|].
  replace (Z.of_nat k + 1)%Z with (Z.of_nat (S k)) by lia. apply charAt_nat.
Qed.

Lemma next_start text c : next text (mkCursor 0 c) = cur text 0.
Proof. reflexivity. Qed.

Lemma cur_app_here pre c r : ch (cur (pre ++ c :: r) (List.length pre)) = Some c.
Proof. unfold cur. cbn [ch]. now rewrite nth_error_app2, Nat.sub_diag by lia. Qed.

Lemma cur_app_end pre : ch (cur pre (List.length pre)) = None.
Proof. unfold cur. cbn [ch]. apply nth_error_None. lia. Qed.

Lemma consistent_cur text k : consistent text (cur text k).
Proof.
  right. unfold cur. cbn [at_ ch]. split; [lia|].
  replace (Z.of_nat k + 1 - 1)%Z with (Z.of_nat k) by lia.
  now rewrite charAt_nat.
Qed.

Lemma ch_cur_here text pre c r :
  text = pre ++ c :: r -> ch (cur text (List.length pre)) = Some c.
Proof. intros ->. apply cur_app_here. Qed.

Lemma ch_cur_end text pre :
  text = pre -> ch (cur text (List.length pre)) = None.
Proof. intros ->. apply cur_app_end. Qed.

Lemma ch_cur_head text pre r :
  text = pre ++ r -> ch (cur text (List.length pre)) = hd_error r.
Proof.
  intros ->. destruct r as [|c r]; [rewrite app_nil_r; apply cur_app_end|].
  apply cur_app_here.
Qed.

(** [scan_while] reads the run [ds] of characters that satisfy [p]. *)
Lemma scan_while_run (A : Type) text (p : char -> bool) (f : A -> char -> A) :
  forall ds pre r fuel acc,
    text = pre ++ ds ++ r ->
    Forall (fun c => p c = true) ds ->
    match r with c :: _ => p c = false | [] => True end ->
    (List.length ds < fuel)%nat ->
    scan_while text fuel p f acc (cur text (List.length pre))
    = (fold_left f ds acc, cur text (List.length pre + List.length ds)).
Proof.
  induction ds as [|d ds IH]; intros pre r fuel acc Ht Hd Hr Hf.
  - destruct fuel as [|fuel]; [simpl in Hf; lia|].
    cbn [scan_while fold_left List.length]. rewrite Nat.add_0_r.
    simpl in Ht. subst text.
    destruct r as [|c r].
    + rewrite app_nil_r, cur_app_end. reflexivity.
    + rewrite cur_app_here, Hr. reflexivity.
  - destruct fuel as [|fuel]; [simpl in Hf; lia|].
    cbn [scan_while fold_left].
    pose proof (Forall_inv Hd) as Hp. pose proof (Forall_inv_tail Hd) as Hd'.
    cbn beta in Hp.
    assert (Hc : ch (cur text (List.length pre)) = Some d).
    { rewrite Ht. cbn [app]. apply cur_app_here. }
    rewrite Hc, Hp, next_cur.
    replace (S (List.length pre)) with (List.length (pre ++ [d]))
      by (rewrite length_app; simpl; lia).
    rewrite (IH (pre ++ [d]) r fuel (f acc d)).
    + rewrite length_app. cbn [List.length]. f_equal. f_equal. lia.
    + rewrite Ht, <- app_assoc. reflexivity.
    + exact Hd'.
    + exact Hr.
    + simpl in Hf. lia.
Qed.


(** ** [tryParseNumber] on a number literal *)

Lemma fold_append (ds : jstr) : forall acc : jstr,
  fold_left (fun s c => s ++ [c]) ds acc = acc ++ ds.
Proof.
  induction ds as [|d ds IH]; intros acc; cbn [fold_left].
  - now rewrite app_nil_r.
  - rewrite IH, <- app_assoc. reflexivity.
Qed.

Lemma fold_leading (ds : jstr) : forall (s : jstr) lz tst,
  fold_left (fun (acc : jstr * Z * bool) c =>
               let '(s, lz, tst) := acc in
               let '(lz, tst) := if tst then (if isc "0" c then ((lz + 1)%Z, tst)
                                              else (lz, false))
                                 else (lz, tst) in
               (s ++ [c], lz, tst))
            ds (s, lz, tst)
  = (s ++ ds,
     fst (fold_left (fun (acc : Z * bool) c =>
                       if snd acc then (if isc "0" c then ((fst acc + 1)%Z, true)
                                        else (fst acc, false))
                       else acc) ds (lz, tst)),
     snd (fold_left (fun (acc : Z * bool) c =>
                       if snd acc then (if isc "0" c then ((fst acc + 1)%Z, true)
                                        else (fst acc, false))
                       else acc) ds (lz, tst))).
Proof.
  induction ds as [|d ds IH]; intros s lz tst; cbn [fold_left].
  - now rewrite app_nil_r.
  - cbn [fst snd]. destruct tst; [destruct (isc "0" d)|];
      rewrite IH, <- app_assoc; reflexivity.
Qed.

Lemma is_digit_not a c :
  is_digit c = true -> is_digit (chr a) = false -> isc a c = false.
Proof.
  intros Hc Ha. unfold isc. destruct (N.eqb c (chr a)) eqn:E; [|reflexivity].
  apply N.eqb_eq in E. subst c. congruence.
Qed.

Lemma lfuel_text (text l : jstr) :
  (List.length l <= List.length text)%nat -> (List.length l < lfuel text)%nat.
Proof. unfold lfuel. lia. Qed.

Section Lexeme.
Variables (neg : bool) (ip : jstr) (frac : option jstr)
          (expo : option (char * jstr * jstr)).
Hypothesis Hok : lexeme_ok ip frac expo.

Let sgn : jstr := if neg then lit "-" else [].
Let fr : jstr := match frac with Some fp => lit "." ++ fp | None => [] end.
Let ex : jstr := match expo with Some (c, sg, ed) => c :: sg ++ ed | None => [] end.
Let text : jstr := lexeme neg ip frac expo.

Lemma lexeme_eq : text = sgn ++ ip ++ fr ++ ex.
Proof. reflexivity. Qed.

Lemma ex_head : match ex with
                | c :: _ => is_digit c = false /\ isc "." c = false /\ isc "-" c = false
                | [] => True
                end.
Proof.
  unfold ex. destruct expo as [[[c sg] ed]|]; [|exact I].
  destruct Hok as (_ & _ & [-> | ->] & _); repeat split; reflexivity.
Qed.

Lemma fr_ex_head : match fr ++ ex with
                   | c :: _ => is_digit c = false /\ isc "-" c = false
                   | [] => True
                   end.
Proof.
  pose proof ex_head as H. unfold fr. destruct frac as [fp|].
  - cbn. split; reflexivity.
  - cbn [app]. destruct ex; [exact I|tauto].
Qed.

Lemma tryParseNumber_lexeme stop :
  tryParseNumber text stop
  = if negb (leading_zeros ip =? 0)%Z || negb (isFinite (to_number text))
    then None else Some (to_number text).
Proof.
  pose proof lexeme_eq as Ht. pose proof fr_ex_head as Hh. pose proof ex_head as Hx.
  pose proof Hok as (Hip & Hfp & Hex).
  unfold tryParseNumber. cbv zeta. rewrite next_start.
  (* the sign *)
  match goal with
  | |- context [if ch_is "-" (cur text 0) then ?a else ?b] =>
      assert (H1 : (if ch_is "-" (cur text 0) then a else b)
                   = (sgn, cur text (List.length sgn)))
  end.
  { assert (Hc0 : ch (cur text 0) = hd_error (sgn ++ ip ++ fr ++ ex)).
    { rewrite <- Ht. destruct text; reflexivity. }
    unfold ch_is. rewrite Hc0. unfold sgn. destruct neg.
    - cbn [app lit hd_error]. rewrite next_cur. reflexivity.
    - cbn [app]. destruct ip as [|c ip'] eqn:Eip.
      + cbn [app]. destruct (fr ++ ex) as [|c r]; [reflexivity|].
        cbn [hd_error]. destruct Hh as [_ ->]. reflexivity.
      + cbn [app hd_error].
        rewrite (is_digit_not "-" c (Forall_inv Hip) eq_refl). reflexivity. }
  rewrite H1. clear H1.
  (* the integer part *)
  rewrite (scan_while_run _ text is_digit _ ip sgn (fr ++ ex)); cycle 1.
  { exact Ht. }
  { exact Hip. }
  { destruct (fr ++ ex); [exact I|tauto]. }
  { apply lfuel_text. rewrite Ht, !length_app. lia. }
  rewrite fold_leading. rewrite <- length_app.
  (* the fraction *)
  assert (Ht2 : text = (sgn ++ ip) ++ fr ++ ex) by (rewrite Ht, <- app_assoc; reflexivity).
  match goal with
  | |- context [if ch_is "." ?st then ?a else ?b] =>
      assert (H2 : (if ch_is "." st then a else b)
                   = ((sgn ++ ip) ++ fr, cur text (List.length ((sgn ++ ip) ++ fr))))
  end.
  { unfold ch_is. rewrite (ch_cur_head text (sgn ++ ip) (fr ++ ex) Ht2).
    unfold fr in *. destruct frac as [fp|].
    - cbn [lit app hd_error map list_ascii_of_string]. 
      change (isc "." (N_of_ascii ".")) with true. cbv iota.
      rewrite next_cur.
      replace (S (List.length (sgn ++ ip)))
        with (List.length ((sgn ++ ip) ++ lit ".")) by (rewrite !length_app; simpl; lia).
      rewrite (scan_while_run _ text is_digit _ fp ((sgn ++ ip) ++ lit ".") ex).
      + rewrite fold_append, <- length_app, <- !app_assoc. reflexivity.
      + rewrite Ht2, <- !app_assoc. reflexivity.
      + exact Hfp.
      + destruct ex; [exact I|tauto].
      + apply lfuel_text. rewrite Ht2, !length_app. simpl. lia.
    - cbn [app]. rewrite app_nil_r. destruct ex as [|c r]; [reflexivity|].
      cbn [hd_error]. destruct Hx as (_ & -> & _). reflexivity. }
  rewrite H2. clear H2.
  (* the exponent *)
  assert (Ht3 : text = ((sgn ++ ip) ++ fr) ++ ex)
    by (rewrite Ht, <- !app_assoc; reflexivity).
  set (P3 := (sgn ++ ip) ++ fr) in *.
  match goal with
  | |- context [if ch_is "e" ?st || ch_is "E" ?st then ?a else ?b] =>
      assert (H3 : (if ch_is "e" st || ch_is "E" st then a else b)
                   = (P3 ++ ex, cur text (List.length (P3 ++ ex))))
  end.
  { unfold ch_is. rewrite (ch_cur_head text P3 ex Ht3).
    unfold ex in *. destruct expo as [[[c sg] ed]|].
    2:{ cbn [hd_error orb]. rewrite app_nil_r. reflexivity. }
    destruct Hex as (Hc & Hsg & Hed). cbn [hd_error].
    assert (Hce : isc "e" c || isc "E" c = true) by (destruct Hc; subst c; reflexivity).
    rewrite Hce. rewrite next_cur.
    replace (S (List.length P3)) with (List.length (P3 ++ [c]))
      by (rewrite length_app; simpl; lia).
    assert (Ht4 : text = (P3 ++ [c]) ++ sg ++ ed)
      by (rewrite Ht3, <- !app_assoc; reflexivity).
    rewrite (ch_cur_head text (P3 ++ [c]) (sg ++ ed) Ht4).
    assert (Hscan : forall pre, text = pre ++ ed ->
              scan_while text (lfuel text) is_digit (fun s c => s ++ [c]) pre
                         (cur text (List.length pre))
              = (P3 ++ c :: sg ++ ed, cur text (List.length (P3 ++ c :: sg ++ ed)))).
    { intros pre Hpre.
      rewrite (scan_while_run _ text is_digit _ ed pre []).
      - rewrite fold_append, <- length_app, <- Hpre, Ht3. reflexivity.
      - rewrite app_nil_r. exact Hpre.
      - exact Hed.
      - exact I.
      - apply lfuel_text. rewrite Hpre, length_app. lia. }
    destruct Hsg as [-> | [-> | ->]].
    - cbn [app].
      assert (Hs : match hd_error ed with Some c0 => isc "-" c0 | None => false end
                   || match hd_error ed with Some c0 => isc "+" c0 | None => false end
                   = false).
      { destruct ed as [|d ed']; [reflexivity|]. cbn [hd_error].
        rewrite (is_digit_not "-" d (Forall_inv Hed) eq_refl).
        rewrite (is_digit_not "+" d (Forall_inv Hed) eq_refl). reflexivity. }
      rewrite Hs. apply Hscan. rewrite Ht4. reflexivity.
    - cbn [app lit map list_ascii_of_string hd_error].
      change (isc "-" (N_of_ascii "-")) with true. cbn [orb].
      rewrite next_cur.
      replace (S (List.length (P3 ++ [c])))
        with (List.length ((P3 ++ [c]) ++ [N_of_ascii "-"]))
        by (rewrite !length_app; simpl; lia).
      apply Hscan. rewrite Ht4, <- !app_assoc. reflexivity.
    - cbn [app lit map list_ascii_of_string hd_error].
      change (isc "-" (N_of_ascii "+")) with false.
      change (isc "+" (N_of_ascii "+")) with true. cbn [orb].
      rewrite next_cur.
      replace (S (List.length (P3 ++ [c])))
        with (List.length ((P3 ++ [c]) ++ [N_of_ascii "+"]))
        by (rewrite !length_app; simpl; lia).
      apply Hscan. rewrite Ht4, <- !app_assoc. reflexivity. }
  rewrite H3. clear H3. rewrite <- Ht3.
  (* the end of the text *)
  assert (He : ch (cur text (List.length text)) = None)
    by (apply ch_cur_end; reflexivity).
  assert (Hsk : skip_while text (lfuel text) ch_blank (cur text (List.length text))
                = cur text (List.length text)).
  { unfold lfuel. cbn [skip_while]. unfold ch_blank. rewrite He. reflexivity. }
  rewrite Hsk. unfold ch_is. rewrite He. cbn [orb andb]. rewrite andb_false_r.
  unfold leading_zeros.
  destruct (fold_left _ ip (0%Z, true)) as [lz tst]. reflexivity.
Qed.
End Lexeme.

Lemma fold_lz_false (ds : jstr) lz :
  fold_left (fun (acc : Z * bool) c =>
               if snd acc then (if isc "0" c then ((fst acc + 1)%Z, true)
                                else (fst acc, false))
               else acc) ds (lz, false) = (lz, false).
Proof. induction ds as [|d ds IH]; [reflexivity|]. cbn [fold_left snd]. exact IH. Qed.

Lemma fold_lz_true (ds : jstr) : forall lz,
  let r := fold_left (fun (acc : Z * bool) c =>
                        if snd acc then (if isc "0" c then ((fst acc + 1)%Z, true)
                                         else (fst acc, false))
                        else acc) ds (lz, true) in
  (lz <= fst r)%Z /\ (snd r = true -> fst r = (lz + Z.of_nat (List.length ds))%Z).
Proof.
  induction ds as [|d ds IH]; intros lz; cbn [fold_left snd fst List.length].
  - split; [lia|intros _; lia].
  - destruct (isc "0" d).
    + specialize (IH (lz + 1)%Z). cbv zeta in IH. destruct IH as [H1 H2].
      split; [lia|]. intros H. rewrite (H2 H). lia.
    + rewrite fold_lz_false. cbn [fst snd]. split; [lia|discriminate].
Qed.

Lemma leading_zeros_spec ds :
  ds <> [] -> (leading_zeros ds =? 0)%Z = negb (leading_zero ds).
Proof.
  intros Hne. destruct ds as [|c [|d r]]; [congruence| |].
  - unfold leading_zeros, leading_zero. cbn [fold_left snd fst].
    destruct (isc "0" c); reflexivity.
  - unfold leading_zero.
    assert (Hl : (0 < List.length (d :: r))%nat) by (simpl; lia).
    remember (d :: r) as l eqn:El. clear El.
    unfold leading_zeros. cbn [fold_left snd fst].
    destruct (isc "0" c); cbn [negb].
    + pose proof (fold_lz_true l (0 + 1)%Z) as H. cbv zeta in H.
      match goal with
      | |- context [fold_left ?g l ?a] => destruct (fold_left g l a) as [lz tst]
      end.
      cbn [fst snd] in H. destruct H as [H1 H2].
      destruct tst; apply Z.eqb_neq; [specialize (H2 eq_refl)|]; lia.
    + rewrite fold_lz_false. reflexivity.
Qed.

Lemma take_digits_all ds :
  Forall (fun c => is_digit c = true) ds -> take_digits ds = (ds, []).
Proof.
  induction 1 as [|c ds Hc _ IH]; [reflexivity|].
  cbn [take_digits]. now rewrite Hc, IH.
Qed.

Lemma take_digits_app ds r :
  Forall (fun c => is_digit c = true) ds ->
  match r with c :: _ => is_digit c = false | [] => True end ->
  take_digits (ds ++ r) = (ds, r).
Proof.
  intros Hd Hr. induction Hd as [|c ds Hc _ IH].
  - destruct r as [|c r]; [reflexivity|]. cbn [app take_digits]. now rewrite Hr.
  - cbn [app take_digits]. now rewrite Hc, IH.
Qed.

(** ** The decimal spelling of an integer *)

Lemma lit_cons c s : lit (String c s) = N_of_ascii c :: lit s.
Proof. reflexivity. Qed.

Lemma uint_digits d :
  Forall (fun c => is_digit c = true) (lit (DecimalString.NilEmpty.string_of_uint d)).
Proof.
  induction d; cbn [DecimalString.NilEmpty.string_of_uint];
    rewrite ?lit_cons; constructor; auto.
Qed.

Lemma uint_value d : forall d',
  digits_value (lit (DecimalString.NilEmpty.string_of_uint d))
               (DecimalPos.Unsigned.of_lu d')
  = DecimalPos.Unsigned.of_lu (Decimal.revapp d d').
Proof.
  induction d; intros d'; cbn [DecimalString.NilEmpty.string_of_uint];
    rewrite ?lit_cons; cbn [digits_value Decimal.revapp]; [reflexivity|..];
    rewrite <- IHd; f_equal; cbn [DecimalPos.Unsigned.of_lu];
    change (N_of_ascii "0") with 48%N; change (N_of_ascii "1") with 49%N;
    change (N_of_ascii "2") with 50%N; change (N_of_ascii "3") with 51%N;
    change (N_of_ascii "4") with 52%N; change (N_of_ascii "5") with 53%N;
    change (N_of_ascii "6") with 54%N; change (N_of_ascii "7") with 55%N;
    change (N_of_ascii "8") with 56%N; change (N_of_ascii "9") with 57%N;
    lia.
Qed.

Lemma dec_digits m : Forall (fun c => is_digit c = true) (dec_of_N m).
Proof. apply uint_digits. Qed.

Lemma dec_value m : digits_value (dec_of_N m) 0 = m.
Proof.
  unfold dec_of_N.
  change 0%N with (DecimalPos.Unsigned.of_lu Decimal.Nil) at 1.
  rewrite uint_value. fold (Decimal.rev (N.to_uint m)).
  rewrite <- DecimalPos.Unsigned.of_uint_alt.
  apply DecimalN.Unsigned.of_to.
Qed.

Lemma dec_head m :
  m <> 0%N -> exists c r, dec_of_N m = c :: r /\ isc "0" c = false.
Proof.
  intros Hm. unfold dec_of_N.
  pose proof (DecimalN.Unsigned.to_of (N.to_uint m)) as Hu.
  rewrite DecimalN.Unsigned.of_to in Hu.
  destruct (N.to_uint m) as [|d|d|d|d|d|d|d|d|d|d] eqn:E;
    cbn [DecimalString.NilEmpty.string_of_uint]; rewrite ?lit_cons;
    try (eexists; eexists; split; [reflexivity|reflexivity]).
  - exfalso. destruct m; [congruence|]. cbn in E.
    apply (DecimalPos.Unsigned.to_uint_nonnil _ E).
  - exfalso. rewrite DecimalFacts.unorm_D0 in Hu. unfold Decimal.unorm in Hu.
    destruct (Decimal.nzhead d) eqn:En; try discriminate.
    + injection Hu as Hd. subst d.
      apply Hm. apply DecimalN.Unsigned.to_uint_inj. rewrite E. reflexivity.
    + apply (DecimalFacts.nzhead_nonzero d u). congruence.
Qed.

Lemma dec_nonempty m : dec_of_N m <> [].
Proof.
  destruct (N.eq_dec m 0) as [->|Hm]; [discriminate|].
  destruct (dec_head m Hm) as (c & r & -> & _). discriminate.
Qed.


(** ** The value of a number literal *)

Lemma to_number_lexeme neg ip frac expo :
  lexeme_ok ip frac expo ->
  ip <> [] ->
  match expo with Some (_, _, ed) => ed <> [] | None => True end ->
  to_number (lexeme neg ip frac expo)
  = to_binary64
      (normalise neg (digits_value (ip ++ lexeme_fraction frac) 0)
                 (- len (lexeme_fraction frac) + lexeme_exponent expo)).
Proof.
  intros (Hip & Hfp & Hex) Hne Hed.
  destruct ip as [|c0 ip'] eqn:Eip; [congruence|]. rewrite <- Eip in *.
  assert (Hc0 : is_digit c0 = true) by (rewrite Eip in Hip; exact (Forall_inv Hip)).
  set (fr := match frac with Some fp => lit "." ++ fp | None => [] end).
  set (ex := match expo with Some (c, sg, ed) => c :: sg ++ ed | None => [] end).
  assert (Hx : match ex with
               | c :: _ => is_digit c = false /\ isc "." c = false
               | [] => True
               end).
  { unfold ex. destruct expo as [[[c sg] ed]|]; [|exact I].
    destruct Hex as ([-> | ->] & _); split; reflexivity. }
  assert (Hh : match fr ++ ex with c :: _ => is_digit c = false | [] => True end).
  { unfold fr. destruct frac; [reflexivity|]. cbn [app]. destruct ex; tauto. }
  assert (Hsign : to_number (lexeme neg ip frac expo)
                  = to_number ((if neg then lit "-" else []) ++ ip ++ fr ++ ex))
    by reflexivity.
  rewrite Hsign. clear Hsign.
  unfold to_number.
  assert (Hcons : exists c r, (if neg then lit "-" else []) ++ ip ++ fr ++ ex = c :: r
                              /\ (if isc "-" c then (true, r)
                                  else (false, c :: r)) = (neg, ip ++ fr ++ ex)).
  { destruct neg.
    - exists (chr "-"), (ip ++ fr ++ ex). split; reflexivity.
    - exists c0, (ip' ++ fr ++ ex). rewrite Eip. split; [reflexivity|].
      rewrite (is_digit_not "-" c0 Hc0 eq_refl). reflexivity. }
  destruct Hcons as (c & r & -> & Hsg). cbv beta iota.
  match goal with
  | |- (let '(n, s1) := _ in @?K n s1) = _ =>
      transitivity (K neg (ip ++ fr ++ ex))
  end.
  { destruct (isc "-" c); injection Hsg as <- <-; reflexivity. }
  cbv beta. clear Hsg.
  rewrite (take_digits_app ip (fr ++ ex) Hip Hh).
  (* the fraction *)
  match goal with
  | |- (let '(p0, s3) := _ in let '(d, fp) := p0 in @?K d fp s3) = _ =>
      transitivity (K (match frac with Some _ => true | None => false end)
                      (lexeme_fraction frac) ex)
  end.
  { unfold fr, lexeme_fraction. destruct frac as [fp|].
    - change (lit "." ++ fp) with (chr "." :: fp). cbn [app].
      change (isc "." (chr ".")) with true. cbv iota.
      rewrite (take_digits_app fp ex Hfp) by (destruct ex; tauto). reflexivity.
    - cbn [app]. destruct ex as [|c1 r1]; [reflexivity|].
      destruct Hx as [_ ->]. reflexivity. }
  cbv beta.
  match goal with
  | |- context [match ip with [] => ?A | _ :: _ => ?B end] =>
      replace (match ip with [] => A | _ :: _ => B end) with B
        by (rewrite Eip; reflexivity)
  end.
  (* the exponent *)
  unfold ex, lexeme_exponent. destruct expo as [[[c1 sg] ed]|].
  2:{ now rewrite Z.add_0_r. }
  destruct Hex as (Hc & Hsg & Hdg).
  assert (Hce : isc "e" c1 || isc "E" c1 = true) by (destruct Hc; subst c1; reflexivity).
  rewrite Hce.
  destruct ed as [|d ed']; [congruence|].
  pose proof (take_digits_all (d :: ed') Hdg) as Htd.
  assert (Hd : isc "-" d = false /\ isc "+" d = false).
  { split; [apply (is_digit_not "-" d (Forall_inv Hdg) eq_refl)
           |apply (is_digit_not "+" d (Forall_inv Hdg) eq_refl)]. }
  destruct Hd as [Hd1 Hd2].
  destruct Hsg as [-> | [-> | ->]].
  - cbn [app]. rewrite Hd1, Hd2, Htd. reflexivity.
  - change (lit "-" ++ d :: ed') with (chr "-" :: d :: ed'). cbv beta iota.
    change (isc "-" (chr "-")) with true. cbv beta iota. rewrite Htd. reflexivity.
  - change (lit "+" ++ d :: ed') with (chr "+" :: d :: ed'). cbv beta iota.
    change (isc "-" (chr "+")) with false.
    change (isc "+" (chr "+")) with true. cbv beta iota. rewrite Htd. reflexivity.
Qed.

(** ** Inside the range of binary64 *)

Lemma pow10_lt_overflow : (10 ^ 15 * 10 ^ 293 < 2 ^ 1024 - 2 ^ 970)%Z.
Proof. apply Z.ltb_lt. vm_compute. reflexivity. Qed.

Lemma pow10_lt_underflow : (10 ^ 307 < 2 ^ 1075)%Z.
Proof. apply Z.ltb_lt. vm_compute. reflexivity. Qed.

Lemma in_range_to_binary64 neg m e :
  (m < 10 ^ 15)%N -> (-307 <= e <= 293)%Z -> (m = 0%N -> e = 0%Z) ->
  to_binary64 (Num neg m e) = Num neg m e.
Proof.
  intros Hm [He1 He2] Hw.
  unfold to_binary64.
  assert (Hmz : (Z.of_N m < 10 ^ 15)%Z).
  { change (10 ^ 15)%Z with (Z.of_N (10 ^ 15)). lia. }
  assert (Ho : overflows m e = false).
  { unfold overflows. pose proof pow10_lt_overflow as Hc.
    set (T := (2 ^ 1024 - 2 ^ 970)%Z) in *.
    destruct (Z.leb_spec 0 e) as [He|He]; apply Z.leb_gt.
    - assert (Hp : (10 ^ e <= 10 ^ 293)%Z) by (apply Z.pow_le_mono_r; lia).
      assert (Hp0 : (0 < 10 ^ e)%Z) by (apply Z.pow_pos_nonneg; lia).
      set (a := (10 ^ e)%Z) in *. set (b := (10 ^ 293)%Z) in *.
      set (c := (10 ^ 15)%Z) in *.
      assert (Z.of_N m * a < c * b)%Z; [|lia].
      apply Z.le_lt_trans with (Z.of_N m * b)%Z.
      + apply Z.mul_le_mono_nonneg_l; lia.
      + apply Z.mul_lt_mono_pos_r; [|exact Hmz]. lia.
    - assert (Hp0 : (1 <= 10 ^ (- e))%Z).
      { apply (Z.pow_le_mono_r 10 0 (- e)); lia. }
      assert (Hb : (1 <= 10 ^ 293)%Z) by (apply (Z.pow_le_mono_r 10 0 293); lia).
      set (a := (10 ^ (- e))%Z) in *. set (b := (10 ^ 293)%Z) in *.
      set (c := (10 ^ 15)%Z) in *.
      assert (Hc0 : (0 <= c)%Z) by lia.
      assert (c <= c * b)%Z by nia.
      assert (T <= T * a)%Z by nia.
      lia. }
  rewrite Ho.
  assert (Hv : vanishes m e = false \/ (m = 0%N /\ e = 0%Z)).
  { destruct (m =? 0)%N eqn:Em.
    - right. apply N.eqb_eq in Em. split; [exact Em | exact (Hw Em)].
    - left. apply N.eqb_neq in Em. unfold vanishes.
      destruct (Z.ltb_spec e 0) as [He|He]; [|reflexivity]. cbn [andb].
      apply Z.leb_gt. pose proof pow10_lt_underflow as Hc.
      assert (Hp : (10 ^ (- e) <= 10 ^ 307)%Z) by (apply Z.pow_le_mono_r; lia).
      set (a := (10 ^ (- e))%Z) in *. set (b := (10 ^ 307)%Z) in *.
      set (c := (2 ^ 1075)%Z) in *.
      assert (1 <= Z.of_N m)%Z by lia. nia. }
  destruct Hv as [->|[-> ->]]; reflexivity.
Qed.

Lemma digits_value_bound ds : forall acc,
  Forall (fun c => is_digit c = true) ds ->
  (digits_value ds acc < (acc + 1) * 10 ^ N.of_nat (List.length ds))%N.
Proof.
  induction ds as [|c ds IH]; intros acc H.
  - cbn. lia.
  - cbn [digits_value List.length]. 
    pose proof (Forall_inv H) as Hc. unfold is_digit in Hc.
    specialize (IH (10 * acc + (c - 48))%N (Forall_inv_tail H)).
    rewrite Nat2N.inj_succ, N.pow_succ_r'.
    set (p := (10 ^ N.of_nat (List.length ds))%N) in *.
    assert (Hc9 : (c - 48 <= 9)%N).
    { apply andb_true_iff in Hc. destruct Hc as [_ Hc].
      apply N.leb_le in Hc. lia. }
    nia.
Qed.

Lemma representable_in_range x :
  representable x -> number_wf x -> to_binary64 x = x.
Proof.
  destruct x as [neg m e| |]; cbn [representable number_wf]; intros H Hw;
    try contradiction.
  destruct H as [Hm He]. apply in_range_to_binary64; auto.
  intros ->. exact Hw.
Qed.

Lemma strip_zeros_inv fuel : forall m e m' e',
  strip_zeros fuel m e = (m', e') ->
  (m' <= m)%N /\ (e <= e' <= e + Z.of_nat fuel)%Z /\ (m <> 0%N -> m' <> 0%N).
Proof.
  induction fuel as [|fuel IH]; intros m e m' e' H; cbn [strip_zeros] in H.
  - injection H as <- <-. split; [|split]; [lia | lia | auto].
  - destruct ((m mod 10 =? 0)%N && negb (m =? 0)%N) eqn:E.
    + apply IH in H. destruct H as (H1 & H2 & H3).
      apply andb_true_iff in E. destruct E as [E1 E].
      apply negb_true_iff, N.eqb_neq in E. apply N.eqb_eq in E1.
      pose proof (N.Div0.div_mod m 10) as Hd.
      split; [|split]; [lia | lia | intros _; apply H3; lia].
    + injection H as <- <-. split; [|split]; [lia | lia | auto].
Qed.

Lemma normalise_in_range neg n e :
  (n < 10 ^ 15)%N -> (-307 <= e <= 200)%Z ->
  to_binary64 (normalise neg n e) = normalise neg n e.
Proof.
  intros Hn He. unfold normalise.
  destruct (n =? 0)%N eqn:E0; [reflexivity|].
  destruct (strip_zeros _ n e) as [m' e'] eqn:Es.
  pose proof (strip_zeros_inv _ _ _ _ _ Es) as (H1 & H2 & H3).
  assert (Hsz : (N.to_nat (N.size n) <= 50)%nat).
  { apply N.eqb_neq in E0.
    assert (N.log2 n < 50)%N; [|rewrite N.size_log2 by exact E0; lia].
    apply N.log2_lt_pow2; [lia|]. eapply N.lt_trans; [exact Hn|].
    apply N.ltb_lt. vm_compute. reflexivity. }
  apply N.eqb_neq in E0.
  apply in_range_to_binary64; [lia | lia | intros Hz; exfalso; now apply H3].
Qed.

(** X6. On a run of at most 15 digits [tryParseNumber] answers the number
    they spell, unless the run has a leading zero: a zero followed by more
    digits. *)
Theorem tryParseNumber_digits :
  forall ds stop,
    ds <> [] ->
    Forall (fun c => is_digit c = true) ds ->
    (List.length ds <= 15)%nat ->
    tryParseNumber ds stop
    = if leading_zero ds then None
      else Some (normalise false (digits_value ds 0) 0).
Proof.
  intros ds stop Hne Hd Hlen.
  assert (Hok : lexeme_ok ds None None) by (repeat split; auto).
  pose proof (tryParseNumber_lexeme false ds None None Hok stop) as H.
  unfold lexeme in H. cbn [app] in H. rewrite !app_nil_r in H. rewrite H.
  rewrite (leading_zeros_spec ds Hne), negb_involutive.
  assert (Hn : to_number ds = normalise false (digits_value ds 0) 0).
  { pose proof (to_number_lexeme false ds None None Hok Hne I) as Ht.
    unfold lexeme in Ht. cbn [app lexeme_fraction lexeme_exponent] in Ht.
    rewrite !app_nil_r in Ht. rewrite Ht. change (- len [] + 0)%Z with 0%Z.
    apply normalise_in_range; [|lia].
    pose proof (digits_value_bound ds 0 Hd) as Hb.
    assert (Hp : (10 ^ N.of_nat (List.length ds) <= 10 ^ 15)%N)
      by (apply N.pow_le_mono_r; lia).
    lia. }
  rewrite Hn. destruct (leading_zero ds); [reflexivity|].
  unfold normalise. destruct (digits_value ds 0 =? 0)%N; [reflexivity|].
  destruct (strip_zeros _ _ _); reflexivity.
Qed.

Lemma tryParseNumber_digits_witness :
  tryParseNumber (lit "007") false = None
  /\ tryParseNumber (lit "123456789012345") true
     = Some (Num false 123456789012345 0)
  /\ tryParseNumber (lit "1200") false = Some (Num false 12 2).
Proof.
  split; [|split].
  - apply (tryParseNumber_digits (lit "007") false).
    + discriminate.
    + repeat constructor.
    + apply Nat.leb_le. reflexivity.
  - apply (tryParseNumber_digits (lit "123456789012345") true).
    + discriminate.
    + repeat constructor.
    + apply Nat.leb_le. reflexivity.
  - apply (tryParseNumber_digits (lit "1200") false).
    + discriminate.
    + repeat constructor.
    + apply Nat.leb_le. reflexivity.
Defined.

(** ** Normal forms *)

Lemma strip_zeros_normal fuel m e :
  (m mod 10 <> 0)%N -> strip_zeros fuel m e = (m, e).
Proof.
  intros H. destruct fuel as [|fuel]; [reflexivity|]. cbn [strip_zeros].
  destruct (m mod 10 =? 0)%N eqn:E; [apply N.eqb_eq in E; congruence|reflexivity].
Qed.

Lemma strip_zeros_pow j : forall fuel m e,
  (m mod 10 <> 0)%N -> (j <= fuel)%nat ->
  strip_zeros fuel (m * 10 ^ N.of_nat j) e = (m, (e + Z.of_nat j)%Z).
Proof.
  induction j as [|j IH]; intros fuel m e Hm Hf.
  - cbn [N.of_nat]. rewrite N.pow_0_r, N.mul_1_r, Z.add_0_r.
    now apply strip_zeros_normal.
  - destruct fuel as [|fuel]; [lia|]. cbn [strip_zeros].
    assert (Hm0 : m <> 0%N) by (intros ->; apply Hm; reflexivity).
    rewrite Nat2N.inj_succ, N.pow_succ_r'.
    replace (m * (10 * 10 ^ N.of_nat j))%N with ((m * 10 ^ N.of_nat j) * 10)%N by lia.
    rewrite N.Div0.mod_mul, N.div_mul by lia.
    assert (Hp : (m * 10 ^ N.of_nat j * 10 =? 0)%N = false).
    { apply N.eqb_neq. pose proof (N.pow_nonzero 10 (N.of_nat j)). nia. }
    rewrite Hp. cbn [N.eqb negb andb].
    rewrite IH by (auto; lia). f_equal. lia.
Qed.

Lemma size_pow m j : m <> 0%N -> (j <= N.to_nat (N.size (m * 10 ^ N.of_nat j)))%nat.
Proof.
  intros Hm.
  set (x := (m * 10 ^ N.of_nat j)%N).
  assert (Hx : (2 ^ N.of_nat j <= x)%N).
  { unfold x. pose proof (N.pow_le_mono_l 2 10 (N.of_nat j) ltac:(lia)) as H.
    nia. }
  pose proof (N.size_gt x) as Hs.
  destruct (Nat.le_gt_cases j (N.to_nat (N.size x))) as [H|H]; [exact H|].
  exfalso.
  assert (Hle : (2 ^ N.size x <= 2 ^ N.of_nat j)%N).
  { apply N.pow_le_mono_r; lia. }
  lia.
Qed.

Lemma normalise_pow neg m j e :
  (m mod 10 <> 0)%N ->
  normalise neg (m * 10 ^ N.of_nat j) e = Num neg m (e + Z.of_nat j).
Proof.
  intros Hm.
  assert (Hm0 : m <> 0%N) by (intros ->; apply Hm; reflexivity).
  unfold normalise.
  assert (Hp : (m * 10 ^ N.of_nat j =? 0)%N = false).
  { apply N.eqb_neq. pose proof (N.pow_nonzero 10 (N.of_nat j)). nia. }
  rewrite Hp, strip_zeros_pow; [reflexivity|exact Hm|now apply size_pow].
Qed.

Lemma normalise_normal neg m e :
  (m mod 10 <> 0)%N -> normalise neg m e = Num neg m e.
Proof.
  intros Hm. pose proof (normalise_pow neg m 0 e Hm) as H.
  cbn [N.of_nat] in H. rewrite N.pow_0_r, N.mul_1_r, Z.add_0_r in H. exact H.
Qed.

Lemma digits_value_app a : forall b acc,
  digits_value (a ++ b) acc = digits_value b (digits_value a acc).
Proof. induction a as [|c a IH]; intros b acc; [reflexivity|]. cbn. apply IH. Qed.

Lemma zeros_cons j : repeat_str (lit "0") (S j) = chr "0" :: repeat_str (lit "0") j.
Proof. reflexivity. Qed.

Lemma digits_value_zeros j : forall acc,
  digits_value (repeat_str (lit "0") j) acc = (acc * 10 ^ N.of_nat j)%N.
Proof.
  induction j as [|j IH]; intros acc.
  - cbn. lia.
  - rewrite zeros_cons. cbn [digits_value]. rewrite IH.
    change (chr "0") with 48%N.
    rewrite Nat2N.inj_succ, N.pow_succ_r'. lia.
Qed.

Lemma zeros_digits j : Forall (fun c => is_digit c = true) (repeat_str (lit "0") j).
Proof.
  induction j as [|j IH]; [constructor|]. rewrite zeros_cons. constructor; auto.
Qed.

Lemma zeros_length j : List.length (repeat_str (lit "0") j) = j.
Proof. induction j as [|j IH]; [reflexivity|]. rewrite zeros_cons. cbn. now rewrite IH. Qed.

(** ** Every spelling [String(x)] is read back *)

Lemma isFinite_normalise neg m e : isFinite (normalise neg m e) = true.
Proof.
  unfold normalise. destruct (m =? 0)%N; [reflexivity|].
  destruct (strip_zeros _ _ _); reflexivity.
Qed.

Lemma normal_wf x : normal x -> number_wf x.
Proof.
  destruct x as [neg m e| |]; cbn [normal number_wf]; try tauto.
  destruct (m =? 0)%N; tauto.
Qed.

Lemma lexeme_read neg ip frac expo stop x :
  spells neg ip frac expo x ->
  representable x -> number_wf x ->
  tryParseNumber (lexeme neg ip frac expo) stop = Some x.
Proof.
  intros (Hok & Hne & Hlz & Hed & Hv) Hr Hw.
  rewrite (tryParseNumber_lexeme neg ip frac expo Hok stop).
  rewrite (leading_zeros_spec ip Hne), Hlz.
  rewrite (to_number_lexeme neg ip frac expo Hok Hne Hed), Hv.
  rewrite (representable_in_range x Hr Hw).
  rewrite <- Hv, isFinite_normalise. reflexivity.
Qed.

Lemma leading_zero_head c r r' :
  isc "0" c = false -> leading_zero ((c :: r) ++ r') = false.
Proof. intros H. cbn. destruct (r ++ r'); [reflexivity|exact H]. Qed.

Lemma number_to_string_spells x :
  normal x ->
  exists neg ip frac expo,
    number_to_string x = lexeme neg ip frac expo /\ spells neg ip frac expo x.
Proof.
  destruct x as [neg m e| |]; intros Hn; try contradiction. unfold normal in Hn.
  destruct (m =? 0)%N eqn:Em.
  { apply N.eqb_eq in Em. destruct Hn as [-> ->]. subst m.
    exists false, (lit "0"), None, None. split; [reflexivity|].
    repeat split; try discriminate; try reflexivity. repeat constructor. }
  exists neg.
  assert (Hm0 : m <> 0%N) by (now apply N.eqb_neq).
  unfold number_to_string. rewrite Em.
  pose proof (dec_digits m) as Hsd. pose proof (dec_value m) as Hsv.
  destruct (dec_head m Hm0) as (c & r & Hs & Hc).
  set (s := dec_of_N m) in *.
  assert (Hk : len s = Z.of_nat (S (List.length r))) by (rewrite Hs; reflexivity).
  set (k := len s) in *. set (n := (k + e)%Z).
  destruct ((k <=? n)%Z && (n <=? 21)%Z) eqn:E1.
  { (* an integer *)
    apply andb_true_iff in E1. destruct E1 as [E1 _]. apply Z.leb_le in E1.
    set (j := Z.to_nat (n - k)).
    exists (s ++ repeat_str (lit "0") j), None, None.
    split; [unfold lexeme; rewrite !app_nil_r; reflexivity|].
    split; [|split; [|split; [|split]]].
    - repeat split; auto. apply Forall_app. split; [exact Hsd|apply zeros_digits].
    - rewrite Hs. discriminate.
    - rewrite Hs. now apply leading_zero_head.
    - exact I.
    - cbn [lexeme_fraction lexeme_exponent]. rewrite app_nil_r.
      rewrite digits_value_app, Hsv, digits_value_zeros, normalise_pow by exact Hn.
      f_equal. change (len []) with 0%Z. unfold j, n in *. lia. }
  destruct ((0 <? n)%Z && (n <=? 21)%Z) eqn:E2.
  { (* digits on both sides of the point *)
    apply andb_true_iff in E2. destruct E2 as [E2 E2']. apply Z.ltb_lt in E2.
    apply andb_false_iff in E1.
    assert (Hnk : (n < k)%Z).
    { destruct E1 as [E1|E1]; [apply Z.leb_gt in E1; exact E1|].
      rewrite E2' in E1. discriminate. }
    assert (Hf : firstn (Z.to_nat n) s
                 = (c :: firstn (Z.to_nat n - 1) r) ++ []).
    { rewrite Hs, app_nil_r. destruct (Z.to_nat n) as [|n'] eqn:En; [lia|].
      cbn [firstn]. replace (S n' - 1)%nat with n' by lia. reflexivity. }
    pose proof Hsd as Hsd2. rewrite <- (firstn_skipn (Z.to_nat n) s) in Hsd2.
    apply Forall_app in Hsd2. destruct Hsd2 as [Hd1 Hd2].
    exists (firstn (Z.to_nat n) s), (Some (skipn (Z.to_nat n) s)), None.
    split; [unfold lexeme; rewrite !app_nil_r; reflexivity|].
    split; [|split; [|split; [|split]]].
    - repeat split; auto.
    - rewrite Hf. discriminate.
    - rewrite Hf. now apply leading_zero_head.
    - exact I.
    - cbn [lexeme_fraction lexeme_exponent]. rewrite firstn_skipn, Hsv.
      rewrite normalise_normal by exact Hn. f_equal.
      unfold len. rewrite length_skipn. fold (len s). fold k. unfold n in *.
      unfold len in k. lia. }
  destruct ((-6 <? n)%Z && (n <=? 0)%Z) eqn:E3.
  { (* a fraction below one *)
    apply andb_true_iff in E3. destruct E3 as [_ E3]. apply Z.leb_le in E3.
    set (j := Z.to_nat (- n)).
    exists (lit "0"), (Some (repeat_str (lit "0") j ++ s)), None.
    split; [unfold lexeme; rewrite !app_nil_r; reflexivity|].
    split; [|split; [|split; [|split]]].
    - repeat split; auto.
      + repeat constructor.
      + apply Forall_app. split; [apply zeros_digits|exact Hsd].
    - discriminate.
    - reflexivity.
    - exact I.
    - cbn [lexeme_fraction lexeme_exponent].
      rewrite !digits_value_app, digits_value_zeros. cbn [lit digits_value].
      change (digits_value (lit "0") 0) with 0%N. rewrite N.mul_0_l, Hsv.
      rewrite normalise_normal by exact Hn. f_equal.
      unfold len. rewrite length_app, zeros_length. fold (len s). fold k.
      unfold j, n in *. unfold len in k. lia. }
  (* the exponent form *)
  set (ex := (n - 1)%Z).
  assert (Hex : (ex <> 0)%Z).
  { apply andb_false_iff in E1. apply andb_false_iff in E2. apply andb_false_iff in E3.
    unfold ex.
    destruct (Z.leb_spec k n), (Z.leb_spec n 21), (Z.ltb_spec 0 n),
      (Z.ltb_spec (-6) n), (Z.leb_spec n 0);
      destruct E1, E2, E3; try discriminate; try lia. }
  set (sg := if (ex <? 0)%Z then lit "-" else lit "+").
  set (ed := dec_of_N (Z.to_N (Z.abs ex))).
  assert (Hsg : sg = [] \/ sg = lit "-" \/ sg = lit "+").
  { unfold sg. destruct (ex <? 0)%Z; auto. }
  assert (Hev : lexeme_exponent (Some (chr "e", sg, ed)) = ex).
  { cbn [lexeme_exponent]. unfold ed. rewrite dec_value. unfold sg.
    destruct (Z.ltb_spec ex 0); [change (jeqb (lit "-") (lit "-")) with true
                                |change (jeqb (lit "+") (lit "-")) with false];
      cbv iota; lia. }
  rewrite Hs.
  destruct r as [|d ds].
  - exists [c], None, (Some (chr "e", sg, ed)).
    split; [reflexivity|].
    split; [|split; [|split; [|split]]].
    + repeat split; auto.
      * rewrite Hs in Hsd. exact Hsd.
      * apply dec_digits.
    + discriminate.
    + reflexivity.
    + apply dec_nonempty.
    + rewrite Hev. cbn [lexeme_fraction]. rewrite app_nil_r.
      rewrite <- Hs, Hsv. rewrite normalise_normal by exact Hn. f_equal.
      change (len []) with 0%Z. unfold ex, n. cbn in Hk. lia.
  - exists [c], (Some (d :: ds)), (Some (chr "e", sg, ed)).
    split; [unfold lexeme; rewrite <- !app_assoc; reflexivity|].
    split; [|split; [|split; [|split]]].
    + repeat split; auto.
      * rewrite Hs in Hsd. constructor; [exact (Forall_inv Hsd)|constructor].
      * rewrite Hs in Hsd. exact (Forall_inv_tail Hsd).
      * apply dec_digits.
    + discriminate.
    + reflexivity.
    + apply dec_nonempty.
    + rewrite Hev. cbn [lexeme_fraction].
      change ([c] ++ d :: ds) with (c :: d :: ds).
      rewrite <- Hs, Hsv. rewrite normalise_normal by exact Hn. f_equal.
      unfold ex, n. rewrite Hk. unfold len. cbn [List.length]. lia.
Qed.



(** ** A bare word as the whole text *)

Section BareWord.
Variable text : jstr.
Variable keepComments : bool.
Variable runDsf : jstr -> value.

Lemma white_from_reset c r :
  text = c :: r -> (32 <? c)%N = true -> plain_char c = true ->
  Parse.white_st text Parse.resetAt = cur text 0.
Proof.
  intros Ht Hc Hp.
  assert (Hch : ch (cur text 0) = Some c) by (rewrite Ht; reflexivity).
  assert (Hb : ch_blank (cur text 0) = false).
  { unfold ch_blank. rewrite Hch. apply N.ltb_lt in Hc. apply N.leb_gt. exact Hc. }
  assert (Ho : opens_comment text (cur text 0) = false).
  { unfold opens_comment, ch_is. rewrite Hch. unfold plain_char in Hp.
    apply negb_true_iff in Hp. repeat (apply orb_false_iff in Hp; destruct Hp as [Hp ?]).
    rewrite H0, H. reflexivity. }
  assert (Hs : skip_while text (lfuel text) ch_blank Parse.resetAt = cur text 0).
  { unfold lfuel. cbn [skip_while]. change (ch_blank Parse.resetAt) with true.
    cbv iota. change (next text Parse.resetAt) with (cur text 0).
    cbn [skip_while]. now rewrite Hb. }
  unfold Parse.white_st. unfold lfuel at 1. cbn [Parse.white_loop].
  change (ch Parse.resetAt) with (Some (chr " ")). cbv iota.
  rewrite Hs. unfold opens_comment in Ho.
  apply orb_false_iff in Ho. destruct Ho as [Ho1 Ho2]. rewrite Ho1.
  destruct (ch_is "/" (cur text 0)); [|reflexivity].
  cbn [andb orb] in *. apply orb_false_iff in Ho2. destruct Ho2 as [-> ->].
  reflexivity.
Qed.

Lemma keyname_loop_eof : forall rest pre name start space fuel,
  text = pre ++ rest ->
  forallb name_char rest = true ->
  (List.length rest < fuel)%nat ->
  exists e,
    Parse.keyname_loop text fuel name start space (cur text (List.length pre))
    = Throw e.
Proof.
  induction rest as [|c rest IH]; intros pre name start space fuel Ht Hn Hf.
  - destruct fuel as [|fuel]; [simpl in Hf; lia|].
    cbn [Parse.keyname_loop]. unfold Parse.bind, Parse.get.
    rewrite (ch_cur_end text pre) by (now rewrite Ht, app_nil_r).
    unfold Parse.error. eauto.
  - destruct fuel as [|fuel]; [simpl in Hf; lia|].
    cbn [Parse.keyname_loop]. unfold Parse.bind at 1. unfold Parse.get at 1.
    rewrite (ch_cur_here text pre c rest Ht).
    cbn [forallb] in Hn. apply andb_true_iff in Hn. destruct Hn as [Hc Hn].
    unfold name_char in Hc.
    apply andb_true_iff in Hc. destruct Hc as [Hc H3].
    apply andb_true_iff in Hc. destruct Hc as [H1 H2].
    apply negb_true_iff in H1, H3. apply N.ltb_lt in H2.
    rewrite H1, H3.
    replace (c <=? 32)%N with false by (symmetry; apply N.leb_gt; exact H2).
    unfold Parse.bind, Parse.step. rewrite next_cur.
    replace (S (List.length pre)) with (List.length (pre ++ [c]))
      by (rewrite length_app; simpl; lia).
    apply IH; [rewrite Ht, <- app_assoc; reflexivity|exact Hn|simpl in Hf; lia].
Qed.

Lemma tfnns_loop_to_end : forall rest pre c val fuel,
  text = (pre ++ [c]) ++ rest ->
  forallb plain_char rest = true ->
  (List.length rest < fuel)%nat ->
  Parse.tfnns_loop text runDsf fuel val (cur text (List.length pre))
  = Ok (resolve_token runDsf (val ++ rest), cur text (List.length text)).
Proof.
  induction rest as [|d rest IH]; intros pre c val fuel Ht Hp Hf.
  - destruct fuel as [|fuel]; [simpl in Hf; lia|].
    cbn [Parse.tfnns_loop]. unfold Parse.bind, Parse.step, Parse.get.
    rewrite next_cur.
    replace (S (List.length pre)) with (List.length text)
      by (rewrite Ht, app_nil_r, length_app; simpl; lia).
    assert (He : ch (cur text (List.length text)) = None)
      by (apply ch_cur_end; reflexivity).
    assert (Hstop : Parse.is_tfnns_stop text (cur text (List.length text)) = true).
    { unfold Parse.is_tfnns_stop, Parse.is_eol. now rewrite He. }
    assert (Heol : Parse.is_eol (cur text (List.length text)) = true).
    { unfold Parse.is_eol. now rewrite He. }
    rewrite Hstop, Heol, app_nil_r. unfold resolve_token.
    destruct (Parse.tfnns_literal val); [reflexivity|].
    destruct (runDsf (trim val)); reflexivity.
  - destruct fuel as [|fuel]; [simpl in Hf; lia|].
    cbn [Parse.tfnns_loop]. unfold Parse.bind at 1. unfold Parse.step at 1.
    unfold Parse.bind at 1. unfold Parse.get at 1.
    rewrite next_cur.
    replace (S (List.length pre)) with (List.length (pre ++ [c]))
      by (rewrite length_app; simpl; lia).
    assert (Hch : ch (cur text (List.length (pre ++ [c]))) = Some d)
      by (apply (ch_cur_here text (pre ++ [c]) d rest Ht)).
    cbn [forallb] in Hp. apply andb_true_iff in Hp. destruct Hp as [Hd Hp].
    assert (Hstop : Parse.is_tfnns_stop text (cur text (List.length (pre ++ [c])))
                    = false).
    { unfold Parse.is_tfnns_stop, Parse.is_eol, ch_is. rewrite Hch.
      unfold plain_char in Hd. apply negb_true_iff in Hd.
      repeat (apply orb_false_iff in Hd; destruct Hd as [Hd ?]).
      rewrite Hd, H, H0, H1, H2, H3, H4. reflexivity. }
    rewrite Hstop. unfold Parse.ch_str. rewrite Hch.
    rewrite (IH (pre ++ [c]) d (val ++ [d]) fuel).
    + rewrite <- app_assoc. reflexivity.
    + rewrite Ht, <- !app_assoc. reflexivity.
    + exact Hp.
    + simpl in Hf. lia.
Qed.

Hypothesis Hword : bare_word text = true.

Lemma bare_word_inv :
  exists c r, text = c :: r
              /\ is_dq c = false /\ isc "'" c = false
              /\ (32 <? c)%N = true /\ plain_char c = true
              /\ Parse.isPunctuatorChar c = false
              /\ forallb name_char text = true
              /\ forallb plain_char r = true.
Proof.
  unfold bare_word in Hword. destruct text as [|c r]; [discriminate|].
  apply andb_true_iff in Hword. destruct Hword as [Hq Hall].
  apply andb_true_iff in Hq. destruct Hq as [Hq1 Hq2].
  apply negb_true_iff in Hq1, Hq2.
  assert (Hn : forallb name_char (c :: r) = true
               /\ forallb plain_char (c :: r) = true).
  { clear -Hall. induction (c :: r) as [|x l IH]; [split; reflexivity|].
    cbn [forallb] in *. apply andb_true_iff in Hall. destruct Hall as [Hx Hl].
    apply andb_true_iff in Hx. destruct Hx as [-> ->].
    destruct (IH Hl) as [-> ->]. split; reflexivity. }
  destruct Hn as [Hn Hp].
  pose proof Hn as Hn'. pose proof Hp as Hp'.
  cbn [forallb] in Hn', Hp'.
  apply andb_true_iff in Hn'. destruct Hn' as [Hc _].
  apply andb_true_iff in Hp'. destruct Hp' as [Hpc Hpr].
  unfold name_char in Hc.
  apply andb_true_iff in Hc. destruct Hc as [Hc H3].
  apply andb_true_iff in Hc. destruct Hc as [H1 H2].
  apply negb_true_iff in H3.
  exists c, r. repeat split; auto.
Qed.

Lemma first_attempt_throws c0 :
  exists e,
    Parse.object_attempt text false runDsf (Parse.pfuel text) c0 (cur text 0)
    = Throw e.
Proof.
  destruct bare_word_inv as (c & r & Ht & Hq1 & Hq2 & Hb & Hp & Hpu & Hn & Hpr).
  assert (Hch : ch (cur text 0) = Some c) by (rewrite Ht; reflexivity).
  assert (Hw : Parse.white_st text (cur text 0) = cur text 0).
  { destruct (white_loop_stops text (lfuel text) Parse.resetAt (ok_reset text)
                (lfuel_enough text Parse.resetAt (ok_reset text))) as [H1 H2].
    fold (Parse.white_st text Parse.resetAt) in H1, H2.
    rewrite (white_from_reset c r Ht Hb Hp) in H1, H2.
    now apply white_loop_fixed. }
  destruct (keyname_loop_eof text [] [] 1 (-1) (lfuel text)
              eq_refl Hn ltac:(unfold lfuel; lia)) as [e He].
  destruct (pfuel_two text) as [n ->].
  unfold Parse.object_attempt.
  cbn [Parse.object_ Parse.object_loop].
  unfold Parse.bind, Parse.ret, Parse.get, Parse.white, Parse.step.
  rewrite Hw. rewrite andb_false_r. cbv beta iota. rewrite Hch. cbv beta iota.
  unfold Parse.catch_hint, Parse.keyname, Parse.bind, Parse.get.
  unfold ch_dq, ch_is. rewrite Hch, Hq1, Hq2. cbn [orb].
  cbn [at_ cur]. change (Z.of_nat 0 + 1)%Z with 1%Z.
  change (List.length []) with 0%nat in He. rewrite He. eauto.
Qed.

Lemma second_attempt_reads c0 :
  Parse.value_attempt text false runDsf (Parse.pfuel text) c0 Parse.resetAt
  = Ok (resolve_token runDsf text, cur text (List.length text)).
Proof.
  destruct bare_word_inv as (c & r & Ht & Hq1 & Hq2 & Hb & Hp & Hpu & Hn & Hpr).
  assert (Hch : ch (cur text 0) = Some c) by (rewrite Ht; reflexivity).
  pose proof (white_from_reset c r Ht Hb Hp) as Hw.
  assert (Hbr : isc "{" c = false /\ isc "[" c = false).
  { unfold Parse.isPunctuatorChar in Hpu.
    repeat (apply orb_false_iff in Hpu; destruct Hpu as [Hpu ?]). auto. }
  destruct Hbr as [Hb1 Hb2].
  pose proof (tfnns_loop_to_end r [] c [c] (lfuel text)
                Ht Hpr ltac:(unfold lfuel; rewrite Ht; simpl; lia)) as Hl.
  destruct (pfuel_two text) as [n ->].
  unfold Parse.value_attempt.
  cbn [Parse.value_].
  unfold Parse.bind, Parse.ret, Parse.get, Parse.white, Parse.step.
  rewrite Hw. unfold ch_is, ch_dq. rewrite Hch, Hb1, Hb2, Hq1, Hq2. cbn [orb].
  unfold Parse.tfnns, Parse.bind, Parse.get. rewrite Hch, Hpu.
  unfold Parse.ch_str. rewrite Hch.
  change (List.length []) with 0%nat in Hl.
  change ([c] ++ r) with (c :: r) in Hl. rewrite <- Ht in Hl. rewrite Hl.
  unfold Parse.checkTrailing, Parse.bind, Parse.ret, Parse.get, Parse.white,
    Parse.step.
  assert (He : ch (cur text (List.length text)) = None)
    by (apply ch_cur_end; reflexivity).
  rewrite (white_st_eof text _ He), He. reflexivity.
Qed.
End BareWord.

Lemma parse_bare_word text opt hooks :
  Dsf.loadDsf (dsf_option opt) = Ok hooks ->
  legacy_root opt = true ->
  keeps_comments opt = false ->
  bare_word text = true ->
  Parse.parse text opt = Ok (resolve_token (Dsf.runDsf_parse hooks) text).
Proof.
  intros Hd Hl Hk Hw.
  destruct (bare_word_inv text Hw)
    as (c & r & Ht & Hq1 & Hq2 & Hb & Hp & Hpu & Hn & Hpr).
  assert (Hbr : isc "{" c = false /\ isc "[" c = false).
  { unfold Parse.isPunctuatorChar in Hpu.
    repeat (apply orb_false_iff in Hpu; destruct Hpu as [Hpu ?]). auto. }
  destruct Hbr as [Hb1 Hb2].
  assert (Hch : ch (cur text 0) = Some c) by (rewrite Ht; reflexivity).
  unfold Parse.parse. fold (dsf_option opt). rewrite Hd.
  cbv beta iota delta [rbind].
  fold (legacy_root opt). rewrite Hl. fold (keeps_comments opt). rewrite Hk.
  unfold Parse.legacyRootValue.
  unfold Parse.bind at 1. unfold Parse.white at 1. unfold Parse.step at 1.
  unfold Parse.bind at 1. unfold Parse.get at 1.
  rewrite (white_from_reset text c r Ht Hb Hp).
  unfold ch_is. rewrite Hch, Hb1, Hb2.
  match goal with
  | |- context [Parse.object_attempt _ _ ?rd _ ?c0 _] =>
      destruct (first_attempt_throws text rd Hw c0) as [e ->];
      rewrite (second_attempt_reads text rd Hw c0)
  end.
  reflexivity.
Qed.

(** ** Numbers as the whole text *)

Lemma digit_cases c :
  is_digit c = true ->
  c = 48%N \/ c = 49%N \/ c = 50%N \/ c = 51%N \/ c = 52%N
  \/ c = 53%N \/ c = 54%N \/ c = 55%N \/ c = 56%N \/ c = 57%N.
Proof.
  unfold is_digit. intros H. apply andb_true_iff in H. destruct H as [H1 H2].
  apply N.leb_le in H1, H2. lia.
Qed.

Lemma number_char_plain c :
  number_char c = true ->
  name_char c && plain_char c = true
  /\ is_dq c = false /\ isc "'" c = false.
Proof.
  unfold number_char. intros H.
  repeat (apply orb_true_iff in H; destruct H as [H|H]);
    try (apply N.eqb_eq in H; subst c; repeat split; reflexivity).
  apply digit_cases in H.
  repeat (destruct H as [H|H]; [subst c; repeat split; reflexivity|]).
  subst c; repeat split; reflexivity.
Qed.

Lemma forallb_app (A : Type) (p : A -> bool) l1 l2 :
  forallb p (l1 ++ l2) = forallb p l1 && forallb p l2.
Proof. induction l1 as [|x l IH]; [reflexivity|]. cbn. now rewrite IH, andb_assoc. Qed.

Lemma digits_number_chars ds :
  Forall (fun c => is_digit c = true) ds -> forallb number_char ds = true.
Proof.
  induction 1 as [|c ds Hc _ IH]; [reflexivity|].
  cbn [forallb]. unfold number_char at 1. now rewrite Hc, IH.
Qed.

Lemma lexeme_number_chars neg ip frac expo :
  lexeme_ok ip frac expo -> forallb number_char (lexeme neg ip frac expo) = true.
Proof.
  intros (Hip & Hfp & Hex). unfold lexeme. rewrite !forallb_app.
  rewrite (digits_number_chars ip Hip).
  assert (H1 : forallb number_char (if neg then lit "-" else []) = true)
    by (destruct neg; reflexivity).
  rewrite H1. cbn [andb].
  assert (H2 : forallb number_char
                 match frac with Some fp => lit "." ++ fp | None => [] end = true).
  { destruct frac as [fp|]; [|reflexivity].
    rewrite forallb_app, (digits_number_chars fp Hfp). reflexivity. }
  rewrite H2. cbn [andb].
  destruct expo as [[[c sg] ed]|]; [|reflexivity].
  destruct Hex as (Hc & Hsg & Hed).
  cbn [forallb]. rewrite forallb_app, (digits_number_chars ed Hed).
  assert (H3 : number_char c = true) by (destruct Hc; subst c; reflexivity).
  assert (H4 : forallb number_char sg = true)
    by (destruct Hsg as [-> | [-> | ->]]; reflexivity).
  now rewrite H3, H4.
Qed.

Lemma number_chars_bare text :
  text <> [] -> forallb number_char text = true -> bare_word text = true.
Proof.
  intros Hne Hall. unfold bare_word. destruct text as [|c r]; [congruence|].
  assert (Hc : number_char c = true).
  { cbn [forallb] in Hall. apply andb_true_iff in Hall. tauto. }
  destruct (number_char_plain c Hc) as (_ & -> & ->). cbn [negb andb].
  clear Hc Hne. induction (c :: r) as [|x l IH]; [reflexivity|].
  cbn [forallb] in *. apply andb_true_iff in Hall. destruct Hall as [Hx Hl].
  destruct (number_char_plain x Hx) as (-> & _ & _). now apply IH.
Qed.

Lemma resolve_number runDsf text x :
  (exists c r, text = c :: r /\ (is_digit c = true \/ c = chr "-")) ->
  tryParseNumber text false = Some x ->
  resolve_token runDsf text = VNumber x.
Proof.
  intros (c & r & Ht & Hc) Hx. unfold resolve_token, Parse.tfnns_literal.
  rewrite Ht at 1.
  assert (Hf : isc "f" c = false /\ isc "n" c = false /\ isc "t" c = false
               /\ isc "-" c || is_digit c = true).
  { destruct Hc as [Hc | ->]; [|repeat split; reflexivity].
    apply digit_cases in Hc.
    repeat (destruct Hc as [Hc|Hc]; [subst c; repeat split; reflexivity|]).
    subst c; repeat split; reflexivity. }
  destruct Hf as (-> & -> & -> & ->). now rewrite Hx.
Qed.

Lemma lexeme_head neg ip frac expo :
  lexeme_ok ip frac expo -> ip <> [] ->
  exists c r, lexeme neg ip frac expo = c :: r
              /\ (is_digit c = true \/ c = chr "-").
Proof.
  intros (Hip & _) Hne. unfold lexeme. destruct neg.
  - eexists. eexists. split; [reflexivity|]. now right.
  - destruct ip as [|c ip']; [congruence|].
    eexists. eexists. split; [reflexivity|]. left. exact (Forall_inv Hip).
Qed.

(** A text that is the spelling of a number parses as that number. *)
Lemma parse_number_text text opt hooks x :
  Dsf.loadDsf (dsf_option opt) = Ok hooks ->
  legacy_root opt = true ->
  keeps_comments opt = false ->
  normal x ->
  representable x ->
  text = number_to_string x ->
  Parse.parse text opt = Ok (VNumber x).
Proof.
  intros Hd Hl Hk Hn Hrep ->.
  destruct (number_to_string_spells x Hn) as (neg & ip & frac & expo & Ht & Hsp).
  pose proof (lexeme_read neg ip frac expo false x Hsp Hrep (normal_wf x Hn)) as Hr.
  destruct Hsp as (Hok & Hne & _). rewrite <- Ht in Hr.
  rewrite Ht in *.
  destruct (lexeme_head neg ip frac expo Hok Hne) as (c & r & Hc & Hcd).
  rewrite (parse_bare_word _ opt hooks Hd Hl Hk).
  - f_equal. apply resolve_number; [|exact Hr]. eauto.
  - apply number_chars_bare; [rewrite Hc; discriminate|].
    now apply lexeme_number_chars.
Qed.

Lemma stringify_number os_eol x :
  isFinite x = true ->
  Stringify.stringify os_eol (VNumber x) None = Ok (number_to_string x).
Proof.
  intros Hx. unfold Stringify.stringify. cbn [Stringify.opt_get Dsf.loadDsf rbind].
  cbn [Stringify.visit Dsf.runDsf_stringify rbind]. rewrite Hx.
  cbn [rbind Stringify.opt_flag Stringify.opt_get getComment].
  unfold Stringify.wrap. cbn [fst snd Stringify.plainToken Stringify.t_num].
  now rewrite !app_nil_r.
Qed.



(** ** The module [math] *)



(** ** Quoted strings are read back *)

Lemma hex_value_digit k :
  (k < 16)%N -> Parse.hex_value (hex_digit k) = Some k.
Proof.
  intros Hk.
  assert (H : (k = 0 \/ k = 1 \/ k = 2 \/ k = 3 \/ k = 4 \/ k = 5 \/ k = 6 \/ k = 7
               \/ k = 8 \/ k = 9 \/ k = 10 \/ k = 11 \/ k = 12 \/ k = 13 \/ k = 14
               \/ k = 15)%N) by lia.
  repeat (destruct H as [H|H]; [subst k; reflexivity|]). subst k; reflexivity.
Qed.

Section Reading.
Variable text : jstr.

Lemma unicode_escape_hex4 c pre u rest :
  (c < 65536)%N ->
  text = (pre ++ [u]) ++ hex4 c ++ rest ->
  Parse.unicode_escape text 4 0 (cur text (List.length pre))
  = Ok (c, cur text (List.length pre + 4)).
Proof.
  intros Hc Ht. unfold hex4 in Ht.
  set (d3 := ((c / 4096) mod 16)%N) in *. set (d2 := ((c / 256) mod 16)%N) in *.
  set (d1 := ((c / 16) mod 16)%N) in *. set (d0 := (c mod 16)%N) in *.
  assert (H3 : ch (cur text (S (List.length pre))) = Some (hex_digit d3)).
  { replace (S (List.length pre)) with (List.length (pre ++ [u]))
      by (rewrite length_app; simpl; lia).
    apply (ch_cur_here text (pre ++ [u]) _ _ Ht). }
  assert (H2 : ch (cur text (S (S (List.length pre)))) = Some (hex_digit d2)).
  { replace (S (S (List.length pre)))
      with (List.length ((pre ++ [u]) ++ [hex_digit d3]))
      by (rewrite !length_app; simpl; lia).
    eapply ch_cur_here. rewrite Ht, <- !app_assoc. reflexivity. }
  assert (H1 : ch (cur text (S (S (S (List.length pre))))) = Some (hex_digit d1)).
  { replace (S (S (S (List.length pre))))
      with (List.length ((pre ++ [u]) ++ [hex_digit d3; hex_digit d2]))
      by (rewrite !length_app; simpl; lia).
    eapply ch_cur_here. rewrite Ht, <- !app_assoc. reflexivity. }
  assert (H0 : ch (cur text (S (S (S (S (List.length pre)))))) = Some (hex_digit d0)).
  { replace (S (S (S (S (List.length pre)))))
      with (List.length ((pre ++ [u]) ++ [hex_digit d3; hex_digit d2; hex_digit d1]))
      by (rewrite !length_app; simpl; lia).
    eapply ch_cur_here. rewrite Ht, <- !app_assoc. reflexivity. }
  cbn [Parse.unicode_escape]. unfold Parse.bind, Parse.step, Parse.get, Parse.ret.
  repeat (cbv beta iota;
          first [ rewrite next_cur | rewrite H3 | rewrite H2 | rewrite H1
                | rewrite H0
                | rewrite hex_value_digit
                    by (unfold d3, d2, d1, d0; apply N.mod_lt; lia) ]).
  replace (List.length pre + 4)%nat with (S (S (S (S (List.length pre))))) by lia.
  do 2 f_equal.
  unfold d3, d2, d1, d0.
  assert (E : (c / 4096 < 16)%N) by (apply N.Div0.div_lt_upper_bound; lia).
  rewrite (N.mod_small (c / 4096) 16) by exact E.
  pose proof (N.div_mod c 16 ltac:(lia)).
  pose proof (N.div_mod (c / 16) 16 ltac:(lia)).
  pose proof (N.div_mod (c / 256) 16 ltac:(lia)).
  replace (c / 16 / 16)%N with (c / 256)%N in * by (rewrite N.Div0.div_div; reflexivity).
  replace (c / 256 / 16)%N with (c / 4096)%N in * by (rewrite N.Div0.div_div; reflexivity).
  lia.
Qed.

Lemma cur_eq k k' : k = k' -> cur text k = cur text k'.
Proof. now intros ->. Qed.

Lemma string_loop_quoted s e :
  quoted s e ->
  forall pre q acc fuel rest allowML,
    text = (pre ++ [q]) ++ e ++ DQ :: rest ->
    (List.length s < fuel)%nat ->
    Parse.string_loop text fuel (Some DQ) allowML acc (cur text (List.length pre))
    = Ok (acc ++ s, cur text (List.length pre + List.length e + 2)).
Proof.
  induction 1 as [|c s e Hc1 Hc2 Hc3 Hc4 Hq IH|c m s e Hm Hu Hq IH|c s e Hc Hq IH];
    intros pre q acc fuel rest allowML Ht Hf;
    (destruct fuel as [|fuel]; [simpl in Hf; lia|]);
    cbn [Parse.string_loop]; unfold Parse.bind at 1; unfold Parse.step at 1;
    unfold Parse.bind at 1; unfold Parse.get at 1; rewrite next_cur;
    replace (S (List.length pre)) with (List.length (pre ++ [q]))
      by (rewrite length_app; simpl; lia).
  - (* the closing quote *)
    rewrite (ch_cur_here text (pre ++ [q]) DQ rest Ht).
    rewrite N.eqb_refl.
    unfold Parse.bind, Parse.step, Parse.get, Parse.ret.
    change (isc "'" DQ) with false. rewrite andb_false_r. cbn [andb].
    rewrite next_cur, app_nil_r. do 2 f_equal. apply cur_eq.
    rewrite length_app. simpl. lia.
  - (* a character that stands for itself *)
    rewrite (ch_cur_here text (pre ++ [q]) c (e ++ DQ :: rest) Ht).
    fold (is_dq c). rewrite Hc1, Hc2, Hc3, Hc4. cbn [orb].
    rewrite (IH (pre ++ [q]) c (acc ++ [c]) fuel rest allowML).
    + rewrite <- app_assoc. do 2 f_equal. apply cur_eq.
      rewrite length_app. simpl. lia.
    + rewrite Ht, <- !app_assoc. reflexivity.
    + simpl in Hf. lia.
  - (* an escaped character *)
    rewrite (ch_cur_here text (pre ++ [q]) (chr "\") (m :: e ++ DQ :: rest) Ht).
    change (N.eqb (chr "\") DQ) with false. change (isc "\" (chr "\")) with true.
    cbv iota.
    unfold Parse.bind at 1. unfold Parse.step at 1.
    unfold Parse.bind at 1. unfold Parse.get at 1. rewrite next_cur.
    replace (S (List.length (pre ++ [q])))
      with (List.length ((pre ++ [q]) ++ [chr "\"]))
      by (rewrite !length_app; simpl; lia).
    assert (Hch : ch (cur text (List.length ((pre ++ [q]) ++ [chr "\"]))) = Some m).
    { eapply ch_cur_here. rewrite Ht, <- !app_assoc. reflexivity. }
    unfold ch_is. rewrite Hch, Hu, Hm.
    rewrite (IH ((pre ++ [q]) ++ [chr "\"]) m (acc ++ [c]) fuel rest allowML).
    + rewrite <- app_assoc. do 2 f_equal. apply cur_eq.
      rewrite !length_app. simpl. lia.
    + rewrite Ht, <- !app_assoc. reflexivity.
    + simpl in Hf. lia.
  - (* a [\u] escape *)
    change (lit "\u" ++ hex4 c ++ e) with (chr "\" :: chr "u" :: hex4 c ++ e) in Ht.
    rewrite (ch_cur_here text (pre ++ [q]) (chr "\")
               (chr "u" :: (hex4 c ++ e) ++ DQ :: rest) Ht).
    change (N.eqb (chr "\") DQ) with false. change (isc "\" (chr "\")) with true.
    cbv iota.
    unfold Parse.bind at 1. unfold Parse.step at 1.
    unfold Parse.bind at 1. unfold Parse.get at 1. rewrite next_cur.
    replace (S (List.length (pre ++ [q])))
      with (List.length ((pre ++ [q]) ++ [chr "\"]))
      by (rewrite !length_app; simpl; lia).
    assert (Hch : ch (cur text (List.length ((pre ++ [q]) ++ [chr "\"])))
                  = Some (chr "u")).
    { eapply ch_cur_here. rewrite Ht, <- !app_assoc. reflexivity. }
    unfold ch_is. rewrite Hch. change (isc "u" (chr "u")) with true. cbv iota.
    unfold Parse.bind at 1.
    rewrite (unicode_escape_hex4 c ((pre ++ [q]) ++ [chr "\"]) (chr "u")
               (e ++ DQ :: rest) Hc)
      by (rewrite Ht, <- !app_assoc; reflexivity).
    unfold hex4 in Ht.
    replace (List.length ((pre ++ [q]) ++ [chr "\"]) + 4)%nat
      with (List.length ((((pre ++ [q]) ++ [chr "\"]) ++ [chr "u"])
                         ++ [hex_digit ((c / 4096) mod 16);
                             hex_digit ((c / 256) mod 16);
                             hex_digit ((c / 16) mod 16)]))
      by (rewrite !length_app; simpl; lia).
    rewrite (IH _ (hex_digit (c mod 16)) (acc ++ [c]) fuel rest allowML).
    + rewrite <- app_assoc. do 2 f_equal. apply cur_eq.
      change (lit "\u") with [chr "\"; chr "u"].
      unfold hex4. repeat (rewrite length_app || cbn [List.length]). lia.
    + rewrite Ht, <- !app_assoc. reflexivity.
    + simpl in Hf. lia.
Qed.
End Reading.

(** ** The spellings [stringify] writes *)

Lemma meta_escapee c m :
  Stringify.meta c = Some m -> Parse.escapee m = Some c /\ isc "u" m = false.
Proof.
  unfold Stringify.meta.
  repeat match goal with
         | |- (if ?b then _ else _) = _ -> _ =>
             let E := fresh "E" in destruct b eqn:E
         end; intros H; try discriminate; injection H as <-;
    first [apply N.eqb_eq in E | apply N.eqb_eq in E0 | apply N.eqb_eq in E1
          | apply N.eqb_eq in E2 | apply N.eqb_eq in E3 | apply N.eqb_eq in E4
          | apply N.eqb_eq in E5];
    subst c; split; reflexivity.
Qed.

Lemma meta_none c :
  Stringify.meta c = None ->
  is_dq c = false /\ isc "\" c = false /\ is_nl c = false /\ is_cr c = false.
Proof.
  unfold Stringify.meta, is_nl, is_cr, NL, CR.
  destruct (c =? 8)%N; [discriminate|]. destruct (c =? 9)%N; [discriminate|].
  destruct (c =? 10)%N; [discriminate|]. destruct (c =? 12)%N; [discriminate|].
  destruct (c =? 13)%N; [discriminate|]. destruct (is_dq c); [discriminate|].
  destruct (isc "\" c); [discriminate|]. auto.
Qed.

Lemma in_range_spec lo hi c :
  Stringify.in_range lo hi c = true <-> (lo <= c <= hi)%N.
Proof.
  unfold Stringify.in_range. rewrite andb_true_iff, !N.leb_le. tauto.
Qed.

Lemma json_quote_quoted_len n : forall s,
  (List.length s <= n)%nat -> utf16 s -> quoted s (Stringify.json_quote s).
Proof.
  induction n as [|n IH]; intros s Hl Hu.
  - destruct s; [constructor|simpl in Hl; lia].
  - destruct s as [|c r]; [constructor|].
    pose proof (Forall_inv Hu) as Hc. pose proof (Forall_inv_tail Hu) as Hr.
    cbn beta in Hc.
    assert (IHr : quoted r (Stringify.json_quote r))
      by (apply IH; [simpl in Hl; lia|exact Hr]).
    cbn [Stringify.json_quote].
    destruct (Stringify.meta c) as [m|] eqn:Em.
    { destruct (meta_escapee c m Em) as [H1 H2].
      change (lit "\" ++ [m] ++ Stringify.json_quote r)
        with (chr "\" :: m :: Stringify.json_quote r).
      now constructor. }
    destruct (meta_none c Em) as (H1 & H2 & H3 & H4).
    destruct (c <? 32)%N; [now constructor|].
    destruct (Stringify.in_range 55296 56319 c) eqn:E1.
    { destruct r as [|d r']; [rewrite <- (app_nil_r (hex4 c)); now repeat constructor|].
      destruct (Stringify.in_range 56320 57343 d) eqn:E2; [|now constructor].
      apply in_range_spec in E2.
      constructor; auto. constructor.
      - unfold is_dq, DQ. apply N.eqb_neq. lia.
      - unfold isc. apply N.eqb_neq. change (chr "\") with 92%N. lia.
      - unfold is_nl, NL. apply N.eqb_neq. lia.
      - unfold is_cr, CR. apply N.eqb_neq. lia.
      - apply IH; [simpl in Hl; lia|]. exact (Forall_inv_tail Hr). }
    destruct (Stringify.in_range 56320 57343 c); now constructor.
Qed.

Lemma json_quote_quoted s : utf16 s -> quoted s (Stringify.json_quote s).
Proof. apply (json_quote_quoted_len (List.length s)). lia. Qed.

Lemma quoteReplace_quoted s :
  utf16 s -> quoted s (Stringify.quoteReplace Stringify.plainToken s).
Proof.
  induction 1 as [|c r Hc _ IH]; [constructor|].
  unfold Stringify.quoteReplace. cbn [flat_map].
  fold (Stringify.quoteReplace Stringify.plainToken r).
  destruct (Stringify.needsEscape_char c) eqn:En.
  - destruct (Stringify.meta c) as [m|] eqn:Em.
    + destruct (meta_escapee c m Em) as [H1 H2].
      change (Stringify.wrap (Stringify.t_esc Stringify.plainToken) [m]
              ++ Stringify.quoteReplace Stringify.plainToken r)
        with (chr "\" :: m :: Stringify.quoteReplace Stringify.plainToken r).
      now constructor.
    + unfold Stringify.wrap. cbn [Stringify.t_uni Stringify.plainToken fst snd].
      rewrite app_nil_r, <- app_assoc. now constructor.
  - unfold Stringify.needsEscape_char in En.
    repeat (apply orb_false_iff in En; destruct En as [En ?]).
    assert (Hlo : (31 < c)%N).
    { unfold Stringify.in_range in H0. apply andb_false_iff in H0.
      destruct H0 as [H0|H0]; apply N.leb_gt in H0; lia. }
    cbn [app]. constructor; auto.
    + unfold is_nl, NL. apply N.eqb_neq. lia.
    + unfold is_cr, CR. apply N.eqb_neq. lia.
Qed.

Lemma raw_quoted s :
  Stringify.needsEscape s = false -> quoted s s.
Proof.
  unfold Stringify.needsEscape. induction s as [|c r IH]; [constructor|].
  cbn [existsb]. intros H. apply orb_false_iff in H. destruct H as [En Hr].
  unfold Stringify.needsEscape_char in En.
  repeat (apply orb_false_iff in En; destruct En as [En ?]).
  assert (Hlo : (31 < c)%N).
  { unfold Stringify.in_range in H0. apply andb_false_iff in H0.
    destruct H0 as [H0|H0]; apply N.leb_gt in H0; lia. }
  constructor; auto.
  - unfold is_nl, NL. apply N.eqb_neq. lia.
  - unfold is_cr, CR. apply N.eqb_neq. lia.
Qed.

Lemma quoted_length s e : quoted s e -> (List.length s <= List.length e)%nat.
Proof.
  induction 1; cbn [List.length]; try lia.
  change (lit "\u") with [chr "\"; chr "u"]. unfold hex4.
  cbn [app List.length]. lia.
Qed.

(** [string] reads a spelling between double quotes back. *)
Lemma string_quoted text pre s e rest allowML :
  quoted s e ->
  text = pre ++ dq ++ e ++ dq ++ rest ->
  Parse.string_ text allowML (cur text (List.length pre))
  = Ok (s, cur text (List.length pre + List.length e + 2)).
Proof.
  intros Hq Ht. unfold Parse.string_, Parse.bind, Parse.get.
  rewrite (ch_cur_here text pre DQ (e ++ dq ++ rest) Ht).
  rewrite (string_loop_quoted text s e Hq pre DQ [] (lfuel text) rest allowML).
  - reflexivity.
  - rewrite Ht, <- !app_assoc. reflexivity.
  - pose proof (quoted_length s e Hq). unfold lfuel. rewrite Ht, !length_app. lia.
Qed.

(** ** A quoted string as the whole text *)

Section QuotedText.
Variables (s e : jstr).
Hypothesis Hq : quoted s e.
Variable runDsf : jstr -> value.

Let text : jstr := dq ++ e ++ dq.

Lemma quoted_text_eq : text = [] ++ dq ++ e ++ dq ++ [].
Proof. unfold text. now rewrite app_nil_r. Qed.

Lemma quoted_text_length : List.length text = (List.length e + 2)%nat.
Proof. unfold text. rewrite !length_app. simpl. lia. Qed.

Lemma quoted_text_start : Parse.white_st text Parse.resetAt = cur text 0.
Proof. apply (white_from_reset text DQ (e ++ dq)); reflexivity. Qed.

Lemma quoted_text_fixed : Parse.white_st text (cur text 0) = cur text 0.
Proof.
  destruct (white_loop_stops text (lfuel text) Parse.resetAt (ok_reset text)
              (lfuel_enough text Parse.resetAt (ok_reset text))) as [H1 H2].
  fold (Parse.white_st text Parse.resetAt) in H1, H2.
  rewrite quoted_text_start in H1, H2. now apply white_loop_fixed.
Qed.

Lemma quoted_text_string allowML :
  Parse.string_ text allowML (cur text 0) = Ok (s, cur text (List.length text)).
Proof.
  pose proof (string_quoted text [] s e [] allowML Hq quoted_text_eq) as H.
  cbn [List.length Nat.add] in H. rewrite H, quoted_text_length. reflexivity.
Qed.

Lemma quoted_text_end : ch (cur text (List.length text)) = None.
Proof. apply ch_cur_end. reflexivity. Qed.

Lemma quoted_first_attempt c0 :
  exists err,
    Parse.object_attempt text false runDsf (Parse.pfuel text) c0 (cur text 0)
    = Throw err.
Proof.
  pose proof quoted_text_fixed as Hw. pose proof (quoted_text_string false) as Hs.
  pose proof quoted_text_end as He.
  assert (Hch : ch (cur text 0) = Some DQ) by reflexivity.
  destruct (pfuel_two text) as [n ->].
  unfold Parse.object_attempt.
  cbn [Parse.object_ Parse.object_loop].
  unfold Parse.bind, Parse.ret, Parse.get, Parse.white, Parse.step.
  rewrite Hw. rewrite andb_false_r. cbv beta iota. rewrite Hch. cbv beta iota.
  unfold Parse.catch_hint, Parse.keyname, Parse.bind, Parse.get.
  unfold ch_dq. rewrite Hch. change (is_dq DQ) with true. cbn [orb].
  rewrite Hs. rewrite (white_st_eof text _ He).
  unfold ch_is. rewrite He. unfold Parse.error. eauto.
Qed.

Lemma quoted_second_attempt c0 :
  Parse.value_attempt text false runDsf (Parse.pfuel text) c0 Parse.resetAt
  = Ok (VString s, cur text (List.length text)).
Proof.
  pose proof quoted_text_start as Hw. pose proof (quoted_text_string true) as Hs.
  pose proof quoted_text_end as He.
  assert (Hch : ch (cur text 0) = Some DQ) by reflexivity.
  destruct (pfuel_two text) as [n ->].
  unfold Parse.value_attempt.
  cbn [Parse.value_].
  unfold Parse.bind, Parse.ret, Parse.get, Parse.white, Parse.step.
  rewrite Hw. unfold ch_is, ch_dq. rewrite Hch.
  change (isc "{" DQ) with false. change (isc "[" DQ) with false.
  change (isc "'" DQ) with false. change (is_dq DQ) with true. cbn [orb].
  rewrite Hs.
  unfold Parse.checkTrailing, Parse.bind, Parse.ret, Parse.get, Parse.white,
    Parse.step.
  rewrite (white_st_eof text _ He), He. reflexivity.
Qed.
End QuotedText.

Lemma parse_quoted_text s e opt hooks :
  quoted s e ->
  Dsf.loadDsf (dsf_option opt) = Ok hooks ->
  legacy_root opt = true ->
  keeps_comments opt = false ->
  Parse.parse (dq ++ e ++ dq) opt = Ok (VString s).
Proof.
  intros Hq Hd Hl Hk.
  unfold Parse.parse. fold (dsf_option opt). rewrite Hd.
  cbv beta iota delta [rbind].
  fold (legacy_root opt). rewrite Hl. fold (keeps_comments opt). rewrite Hk.
  unfold Parse.legacyRootValue.
  unfold Parse.bind at 1. unfold Parse.white at 1. unfold Parse.step at 1.
  unfold Parse.bind at 1. unfold Parse.get at 1.
  rewrite (quoted_text_start e).
  change (ch_is "{" (cur (dq ++ e ++ dq) 0)) with false.
  change (ch_is "[" (cur (dq ++ e ++ dq) 0)) with false. cbv iota.
  match goal with
  | |- context [Parse.object_attempt _ _ ?rd _ ?c0 _] =>
      destruct (quoted_first_attempt s e Hq rd c0) as [err ->];
      rewrite (quoted_second_attempt s e Hq rd c0)
  end.
  reflexivity.
Qed.

(** X10. [string] reads back what [stringify] writes between double quotes: the
    escapes of [JSON.stringify] and those of [quoteReplace], wherever the
    string stands in the text. *)
Theorem string_reads_escapes :
  forall s pre rest allowML,
    utf16 s ->
    (let text := pre ++ dq ++ Stringify.json_quote s ++ dq ++ rest in
     Parse.string_ text allowML (cur text (List.length pre))
     = Ok (s, cur text (List.length pre
                        + List.length (Stringify.json_quote s) + 2)))
    /\ (let text := pre ++ dq ++ Stringify.quoteReplace Stringify.plainToken s
                        ++ dq ++ rest in
        Parse.string_ text allowML (cur text (List.length pre))
        = Ok (s, cur text (List.length pre
                           + List.length (Stringify.quoteReplace
                                            Stringify.plainToken s) + 2))).
Proof.
  intros s pre rest allowML Hu. split; cbv zeta.
  - apply (string_quoted _ pre s _ rest allowML);
      [now apply json_quote_quoted|reflexivity].
  - apply (string_quoted _ pre s _ rest allowML);
      [now apply quoteReplace_quoted|reflexivity].
Qed.

Lemma string_reads_escapes_witness :
  (let text := lit "k: " ++ dq ++ Stringify.json_quote (lit "a\b" ++ nl) ++ dq ++ [] in
   Parse.string_ text true (cur text (List.length (lit "k: ")))
   = Ok (lit "a\b" ++ nl,
         cur text (List.length (lit "k: ")
                   + List.length (Stringify.json_quote (lit "a\b" ++ nl)) + 2)))
  /\ (let text := lit "k: " ++ dq
                  ++ Stringify.quoteReplace Stringify.plainToken (lit "a\b" ++ nl)
                  ++ dq ++ [] in
      Parse.string_ text true (cur text (List.length (lit "k: ")))
      = Ok (lit "a\b" ++ nl,
            cur text (List.length (lit "k: ")
                      + List.length (Stringify.quoteReplace
                                       Stringify.plainToken (lit "a\b" ++ nl)) + 2))).
Proof.
  apply (string_reads_escapes (lit "a\b" ++ nl) (lit "k: ") [] true).
  repeat constructor.
Defined.

(** X11. A string goes through [stringify] and [parse] unchanged when the
    options make [stringify] quote the strings. *)
Theorem quoted_string_roundtrip :
  forall s os_eol opt,
    utf16 s ->
    Stringify.opt_quoteStrings opt = true ->
    Stringify.opt_flag Stringify.colors opt = false ->
    Stringify.opt_get Stringify.dsf opt = None ->
    rbind (Stringify.stringify os_eol (VString s) opt)
          (fun t => Parse.parse t None)
    = Ok (VString s).
Proof.
  intros s os_eol opt Hu Hq Hc Hd.
  assert (Hs : Stringify.stringify os_eol (VString s) opt
               = Ok (dq ++ Stringify.json_quote s ++ dq)).
  { unfold Stringify.stringify. rewrite Hd, Hc, Hq.
    cbn [Dsf.loadDsf rbind Stringify.visit Dsf.runDsf_stringify getComment].
    unfold Stringify.wrap. cbn [Stringify.plainToken Stringify.t_qstr fst snd].
    destruct (Stringify.opt_flag Stringify.keepWhitespaceAndComments opt);
      cbn [app]; now rewrite app_nil_r. }
  rewrite Hs. cbn [rbind].
  apply (parse_quoted_text s _ None []); auto using json_quote_quoted.
Qed.

Lemma quoted_string_roundtrip_witness :
  rbind (Stringify.stringify nl (VString (lit "a, b: {c}" ++ nl ++ lit "'d'"))
           (Some (Stringify.set_quotes (Some Stringify.QAll)
                    Stringify.default_options)))
        (fun t => Parse.parse t None)
  = Ok (VString (lit "a, b: {c}" ++ nl ++ lit "'d'")).
Proof.
  apply (quoted_string_roundtrip (lit "a, b: {c}" ++ nl ++ lit "'d'") nl
           (Some (Stringify.set_quotes (Some Stringify.QAll)
                    Stringify.default_options)));
    try reflexivity.
  repeat constructor.
Defined.

(** ** Key names *)

Lemma jeqb_eq s t : jeqb s t = true -> s = t.
Proof.
  revert t. induction s as [|c s IH]; intros [|d t] H; try discriminate; auto.
  cbn [jeqb] in H. apply andb_true_iff in H. destruct H as [H1 H2].
  apply N.eqb_eq in H1. subst d. f_equal. now apply IH.
Qed.

Section KeyName.
Variable text : jstr.

Lemma keyname_loop_colon : forall key pre name start fuel rest,
  text = pre ++ key ++ chr ":" :: rest ->
  forallb name_char key = true ->
  name ++ key <> [] ->
  (List.length key < fuel)%nat ->
  Parse.keyname_loop text fuel name start (-1) (cur text (List.length pre))
  = Ok (name ++ key, cur text (List.length pre + List.length key)).
Proof.
  induction key as [|c key IH]; intros pre name start fuel rest Ht Hn Hne Hf.
  - destruct fuel as [|fuel]; [simpl in Hf; lia|].
    cbn [Parse.keyname_loop]. unfold Parse.bind, Parse.get.
    rewrite (ch_cur_here text pre (chr ":") rest Ht).
    change (isc ":" (chr ":")) with true. cbv iota.
    rewrite app_nil_r in *. destruct name as [|n0 name']; [congruence|].
    change (0 <=? -1)%Z with false. cbn [andb]. unfold Parse.ret.
    do 2 f_equal. apply cur_eq. simpl. lia.
  - destruct fuel as [|fuel]; [simpl in Hf; lia|].
    cbn [Parse.keyname_loop]. unfold Parse.bind at 1. unfold Parse.get at 1.
    rewrite (ch_cur_here text pre c (key ++ chr ":" :: rest) Ht).
    cbn [forallb] in Hn. apply andb_true_iff in Hn. destruct Hn as [Hc Hn].
    unfold name_char in Hc.
    apply andb_true_iff in Hc. destruct Hc as [Hc H3].
    apply andb_true_iff in Hc. destruct Hc as [H1 H2].
    apply negb_true_iff in H1, H3. apply N.ltb_lt in H2.
    rewrite H1, H3.
    replace (c <=? 32)%N with false by (symmetry; apply N.leb_gt; exact H2).
    unfold Parse.bind, Parse.step. rewrite next_cur.
    replace (S (List.length pre)) with (List.length (pre ++ [c]))
      by (rewrite length_app; simpl; lia).
    rewrite (IH (pre ++ [c]) (name ++ [c]) start fuel rest).
    + rewrite <- app_assoc. do 2 f_equal. apply cur_eq.
      rewrite length_app. simpl. lia.
    + rewrite Ht, <- app_assoc. reflexivity.
    + exact Hn.
    + destruct name; discriminate.
    + simpl in Hf. lia.
Qed.

Lemma keyname_bare key pre rest :
  text = pre ++ key ++ chr ":" :: rest ->
  forallb name_char key = true ->
  match key with c :: _ => is_dq c = false /\ isc "'" c = false | [] => False end ->
  Parse.keyname text (cur text (List.length pre))
  = Ok (key, cur text (List.length pre + List.length key)).
Proof.
  intros Ht Hn Hq. destruct key as [|c key']; [contradiction|].
  unfold Parse.keyname, Parse.bind, Parse.get.
  unfold ch_dq, ch_is.
  rewrite (ch_cur_here text pre c (key' ++ chr ":" :: rest) Ht).
  destruct Hq as [-> ->]. cbn [orb].
  apply (keyname_loop_colon (c :: key') pre [] _ (lfuel text) rest Ht Hn).
  - discriminate.
  - unfold lfuel. rewrite Ht, !length_app. lia.
Qed.
End KeyName.

Lemma all_safe_chars key :
  Stringify.all_safe key = true -> forallb Stringify.isChar key = true.
Proof.
  induction key as [|c r IH]; [reflexivity|]. cbn [Stringify.all_safe forallb].
  destruct (_ || isc "#" c); [discriminate|].
  destruct (Stringify.isChar c); [|discriminate]. cbn [negb andb]. exact IH.
Qed.

Lemma isChar_name_char c :
  Stringify.isChar c = true -> isc " " c = false ->
  name_char c = true /\ is_dq c = false /\ isc "'" c = false.
Proof.
  unfold Stringify.isChar. intros H Hs.
  apply andb_true_iff in H. destruct H as [H N8].
  apply andb_true_iff in H. destruct H as [H N7].
  apply andb_true_iff in H. destruct H as [H N6].
  apply andb_true_iff in H. destruct H as [H N5].
  apply andb_true_iff in H. destruct H as [H N4].
  apply andb_true_iff in H. destruct H as [H N3].
  apply andb_true_iff in H. destruct H as [H N2].
  apply andb_true_iff in H. destruct H as [H N1].
  apply andb_true_iff in H. destruct H as [H _].
  apply negb_true_iff in N1, N2, N3, N4, N5, N6, N7, N8.
  apply N.leb_le in H.
  assert (Hc : (32 < c)%N).
  { unfold isc in Hs. apply N.eqb_neq in Hs. change (chr " ") with 32%N in Hs. lia. }
  unfold name_char, Parse.isPunctuatorChar.
  rewrite N3, N4, N5, N6, N7, N8.
  apply N.ltb_lt in Hc. rewrite Hc. repeat split; auto.
Qed.

Lemma safe_key_chars key :
  Stringify.all_safe key = true -> existsb (isc " ") key = false ->
  forallb name_char key = true
  /\ match key with c :: _ => is_dq c = false /\ isc "'" c = false | [] => True end.
Proof.
  intros Hs Hn. apply all_safe_chars in Hs.
  assert (Hall : Forall (fun c => name_char c = true /\ is_dq c = false
                                  /\ isc "'" c = false) key).
  { induction key as [|c r IH]; [constructor|].
    cbn [forallb existsb] in *. apply andb_true_iff in Hs. destruct Hs as [Hc Hr].
    apply orb_false_iff in Hn. destruct Hn as [Hn1 Hn2].
    constructor; [now apply isChar_name_char|now apply IH]. }
  split.
  - clear Hs Hn. induction Hall as [|c r Hc _ IH]; [reflexivity|].
    destruct Hc as (Hc & _). cbn [forallb]. rewrite Hc, IH. reflexivity.
  - destruct key; [exact I|]. exact (proj2 (Forall_inv Hall)).
Qed.

Lemma keyname_written :
  forall key quoteKeys pre rest,
    utf16 key ->
    quoteKeys = true \/ Stringify.isSafeString key = false
    \/ existsb (isc " ") key = false ->
    let written := Stringify.quoteKey Stringify.plainToken quoteKeys key in
    let text := pre ++ written ++ lit ":" ++ rest in
    Parse.keyname text (cur text (List.length pre))
    = Ok (key, cur text (List.length pre + List.length written)).
Proof.
  intros key quoteKeys pre rest Hu Hcase. cbv zeta.
  unfold Stringify.quoteKey.
  destruct (jeqb key (lit "null") && negb quoteKeys) eqn:E1.
  { apply andb_true_iff in E1. destruct E1 as [E1 _]. apply jeqb_eq in E1. subst key.
    unfold Stringify.wrap. cbn [Stringify.plainToken Stringify.t_key fst snd app].
    rewrite app_nil_r.
    apply (keyname_bare _ (lit "null") pre rest); [reflexivity|reflexivity|].
    split; reflexivity. }
  destruct (quoteKeys || negb (Stringify.isSafeString key)) eqn:E2.
  { unfold Stringify.wrap. cbn [Stringify.plainToken Stringify.t_qkey fst snd].
    unfold Parse.keyname, Parse.bind, Parse.get.
    set (text := pre ++ (dq ++ Stringify.json_quote key ++ dq) ++ lit ":" ++ rest).
    assert (Ht : text = pre ++ dq ++ Stringify.json_quote key ++ dq ++ lit ":" ++ rest).
    { unfold text. now rewrite <- !app_assoc. }
    unfold ch_dq. rewrite (ch_cur_here text pre DQ _ Ht).
    change (is_dq DQ) with true. cbn [orb].
    rewrite (string_quoted text pre key (Stringify.json_quote key)
               (lit ":" ++ rest) false (json_quote_quoted key Hu) Ht).
    do 2 f_equal. apply cur_eq. rewrite !length_app. simpl. lia. }
  apply orb_false_iff in E2. destruct E2 as [Eq Es]. apply negb_false_iff in Es.
  destruct Hcase as [Hc | [Hc | Hc]]; [congruence|congruence|].
  unfold Stringify.wrap. cbn [Stringify.plainToken Stringify.t_key fst snd app].
  rewrite app_nil_r.
  unfold Stringify.isSafeString in Es.
  destruct key as [|c key'] eqn:Ek; [discriminate|]. rewrite <- Ek in *.
  destruct (Stringify.isKeyword key); [discriminate|].
  destruct (safe_key_chars key Es Hc) as [Hn Hq].
  apply (keyname_bare _ key pre rest); [reflexivity|exact Hn|].
  rewrite Ek in *. exact Hq.
Qed.

(** X12. [keyname] reads back the key [quoteKey] writes: always when the key is
    written between quotes, and when it is written bare if it holds no
    space. *)
Theorem keyname_reads_quoteKey :
  forall key quoteKeys pre rest,
    utf16 key ->
    quoteKeys = true \/ Stringify.isSafeString key = false
    \/ existsb (isc " ") key = false ->
    let written := Stringify.quoteKey Stringify.plainToken quoteKeys key in
    let text := pre ++ written ++ lit ":" ++ rest in
    Parse.keyname text (cur text (List.length pre))
    = Ok (key, cur text (List.length pre + List.length written)).
Proof. exact keyname_written. Qed.

Lemma keyname_reads_quoteKey_witness :
  let written := Stringify.quoteKey Stringify.plainToken false (lit "a:b") in
  let text := lit "{" ++ written ++ lit ":" ++ lit " 1}" in
  Parse.keyname text (cur text (List.length (lit "{")))
  = Ok (lit "a:b", cur text (List.length (lit "{") + List.length written)).
Proof.
  apply (keyname_reads_quoteKey (lit "a:b") false (lit "{") (lit " 1}")).
  - repeat constructor.
  - right. left. reflexivity.
Defined.

(** ** An invariant of the values [parse] builds *)

Lemma obj_set_values (V : Type) (Q : V -> Prop) k v (l : list (jstr * V)) :
  Forall Q (map snd l) -> Q v -> Forall Q (map snd (obj_set k v l)).
Proof.
  intros Hl Hv. unfold obj_set. destruct (has_key k l).
  - induction l as [|[k' v'] l IH]; [constructor|].
    cbn [assoc_replace]. cbn [map snd] in Hl.
    pose proof (Forall_inv Hl) as H1. pose proof (Forall_inv_tail Hl) as H2.
    destruct (jeqb k k'); cbn [map snd]; constructor; auto.
  - destruct (index_of_key k) as [n|].
    + induction l as [|[k' v'] l IH]; [repeat constructor; exact Hv|].
      cbn [insert_index]. cbn [map snd] in Hl.
      pose proof (Forall_inv Hl) as H1. pose proof (Forall_inv_tail Hl) as H2.
      destruct (index_of_key k') as [n'|];
        [destruct (n' <? n)%N|]; cbn [map snd]; repeat constructor; auto.
    + rewrite map_app. apply Forall_app. split; [exact Hl|].
      repeat constructor. exact Hv.
Qed.

Section Invariant.
Variable text : jstr.
Variable keepComments : bool.
Variable runDsf : jstr -> value.
Variable Q : value -> Prop.

Hypothesis Q_null : Q VNull.
Hypothesis Q_bool : forall b, Q (VBool b).
Hypothesis Q_number : forall n, Q (VNumber n).
Hypothesis Q_string : forall s, Q (VString s).
Hypothesis Q_dsf : forall s, runDsf s = VUndefined \/ Q (runDsf s).
Hypothesis Q_array :
  forall ca e items,
    match e with Some (None, _) => False | _ => True end ->
    Forall Q items -> Q (Parse.array_value keepComments ca e items).
Hypothesis Q_object :
  forall cc co e props,
    match e with Some (None, _) => False | _ => True end ->
    Forall Q (map snd props) -> Q (Parse.object_value keepComments cc co e props).

Hypothesis Q_root :
  forall v comments x,
    Q v -> getComment v = Some comments ->
    Q (createComment v (Some (set_r x comments))).

Local Abbreviation Y := (yields value Q).

Lemma yields_literal val v : Parse.tfnns_literal val = Some v -> Q v.
Proof.
  unfold Parse.tfnns_literal. destruct val as [|c r]; [discriminate|].
  destruct (isc "f" c); [destruct (jeqb _ _); intros H; inversion H; auto|].
  destruct (isc "n" c); [destruct (jeqb _ _); intros H; inversion H; auto|].
  destruct (isc "t" c); [destruct (jeqb _ _); intros H; inversion H; auto|].
  destruct (_ || _); [|discriminate].
  destruct (tryParseNumber _ _); intros H; inversion H; auto.
Qed.

Lemma yields_tfnns_loop : forall fuel val st,
  Y (Parse.tfnns_loop text runDsf fuel val st).
Proof.
  induction fuel as [|fuel IH]; intros val st; [exact I|].
  cbn [Parse.tfnns_loop]. unfold Parse.bind, Parse.step, Parse.get, Parse.ret.
  destruct (Parse.is_tfnns_stop text (next text st)); [|apply IH].
  destruct (Parse.tfnns_literal val) as [v|] eqn:El.
  - cbn [yields]. eapply yields_literal; eauto.
  - destruct (Parse.is_eol (next text st)); [|apply IH].
    destruct (Q_dsf (trim val)) as [Hd|Hd].
    + rewrite Hd. cbn [yields]. auto.
    + destruct (runDsf (trim val)) eqn:E; cbn [yields]; auto.
Qed.

Lemma yields_tfnns st : Y (Parse.tfnns text runDsf st).
Proof.
  unfold Parse.tfnns, Parse.bind, Parse.get.
  destruct (match ch st with Some c => Parse.isPunctuatorChar c | None => false end);
    [exact I|apply yields_tfnns_loop].
Qed.

Lemma yields_catch partial (m : Parse.P value) st :
  Y (m st) -> Y (Parse.catch_hint partial m st).
Proof. unfold Parse.catch_hint. destruct (m st) as [[a st']|e|]; simpl; auto. Qed.

Ltac refold :=
  fold (Parse.value_ text keepComments runDsf);
  fold (Parse.array_ text keepComments runDsf);
  fold (Parse.array_loop text keepComments runDsf);
  fold (Parse.object_ text keepComments runDsf);
  fold (Parse.object_loop text keepComments runDsf).

Ltac go H :=
  match type of H with
  | yields _ _ ?c =>
      let a := fresh "a" in
      let st' := fresh "st" in
      destruct c as [[a st']|?|]; cbn [yields] in H; [|exact I|exact I]
  end.

Lemma yields_mutual fuel :
  (forall st, Y (Parse.value_ text keepComments runDsf fuel st))
  /\ (forall st, Y (Parse.array_ text keepComments runDsf fuel st))
  /\ (forall items ca nc st,
         Forall Q items ->
         Y (Parse.array_loop text keepComments runDsf fuel items ca nc st))
  /\ (forall wb st, Y (Parse.object_ text keepComments runDsf fuel wb st))
  /\ (forall wb props cc co nc st,
         Forall Q (map snd props) ->
         Y (Parse.object_loop text keepComments runDsf fuel wb props cc co nc st)).
Proof.
  induction fuel as [|fuel [IHv [IHa [IHal [IHo IHol]]]]].
  - repeat split; intros; exact I.
  - repeat split.
    + (* value *)
      intros st. cbn [Parse.value_]; refold.
      unfold Parse.bind, Parse.white, Parse.step, Parse.get, Parse.ret.
      set (st1 := Parse.white_st text st).
      destruct (ch_is "{" st1); [apply IHo|].
      destruct (ch_is "[" st1); [apply IHa|].
      destruct (ch_is "'" st1 || ch_dq st1).
      { destruct (Parse.string_ text true st1) as [[s st2]|e|]; cbn [yields]; auto. }
      apply yields_tfnns.
    + (* array *)
      intros st. cbn [Parse.array_]; refold.
      unfold Parse.bind, Parse.white, Parse.step, Parse.get, Parse.ret.
      set (st1 := Parse.white_st text (next text st)).
      destruct (ch_is "]" st1).
      { cbn [yields]. apply Q_array; [exact I|constructor]. }
      apply IHal. constructor.
    + (* the loop of array *)
      intros items ca nc st Hi. cbn [Parse.array_loop]; refold.
      unfold Parse.bind at 1. unfold Parse.get at 1.
      destruct (ch st) as [c|];
        [|unfold Parse.catch_hint, Parse.error; exact I].
      unfold Parse.bind at 1.
      pose proof (yields_catch (VArray None items) _ st (IHv st)) as Hr.
      go Hr.
      unfold Parse.bind at 1.
      destruct (Parse.after_member text st0) as [[cAt st1]|e|]; [|exact I|exact I].
      unfold Parse.bind, Parse.white, Parse.step, Parse.get, Parse.ret.
      assert (Hi' : Forall Q (items ++ [a]))
        by (apply Forall_app; split; [exact Hi|repeat constructor; exact Hr]).
      destruct (ch_is "]" st1).
      { cbn [yields]. apply Q_array; [exact I|exact Hi']. }
      apply IHal. exact Hi'.
    + (* object *)
      intros wb st. cbn [Parse.object_]; refold.
      unfold Parse.bind, Parse.white, Parse.step, Parse.get, Parse.ret.
      destruct wb.
      * rewrite andb_false_r. apply IHol. constructor.
      * match goal with
        | |- context [ch_is "}" ?s && negb false] => destruct (ch_is "}" s && negb false)
        end.
        { cbn [yields]. apply Q_object; [exact I|constructor]. }
        apply IHol. constructor.
    + (* the loop of object *)
      intros wb props cc co nc st Hp. cbn [Parse.object_loop]; refold.
      unfold Parse.bind at 1. unfold Parse.get at 1.
      destruct (ch st) as [c|].
      2:{ destruct wb; [unfold Parse.ret; cbn [yields]; apply Q_object; [exact I|exact Hp]
                       |unfold Parse.catch_hint, Parse.error; exact I]. }
      unfold Parse.bind at 1.
      match goal with
      | |- context [Parse.catch_hint ?p ?m st] =>
          assert (Hr : yields _ (fun kv => Q (snd kv)) (Parse.catch_hint p m st))
      end.
      { unfold Parse.catch_hint.
        unfold Parse.bind at 1.
        destruct (Parse.keyname text st) as [[key st0]|e|]; [|exact I|exact I].
        unfold Parse.bind, Parse.white, Parse.step, Parse.get, Parse.ret,
          Parse.error.
        set (st1 := Parse.white_st text st0).
        destruct (ch_is ":" st1); [|exact I].
        pose proof (IHv (next text st1)) as Hv. go Hv. cbn [yields snd]. exact Hv. }
      match type of Hr with
      | yields _ _ ?c => destruct c as [[kv st0]|?|]; cbn [yields] in Hr;
                         [|exact I|exact I]
      end.
      unfold Parse.bind at 1.
      destruct (Parse.after_member text st0) as [[cAt st1]|e|]; [|exact I|exact I].
      unfold Parse.bind, Parse.white, Parse.step, Parse.get, Parse.ret.
      assert (Hp' : Forall Q (map snd (obj_set (fst kv) (snd kv) props)))
        by (apply obj_set_values; assumption).
      destruct (ch_is "}" st1 && negb wb).
      { cbn [yields]. apply Q_object; [exact I|exact Hp']. }
      apply IHol. exact Hp'.
Qed.

Lemma yields_checkTrailing v c st :
  Q v -> Y (Parse.checkTrailing text keepComments v c st).
Proof.
  intros Hv. unfold Parse.checkTrailing.
  unfold Parse.bind, Parse.white, Parse.step, Parse.get, Parse.ret, Parse.error.
  destruct (ch (Parse.white_st text st)); [exact I|].
  destruct keepComments; [|exact Hv].
  destruct (_ || _); [|exact Hv].
  destruct (getComment v) as [comments|] eqn:Ec; [|exact I].
  cbn [yields]. apply Q_root; assumption.
Qed.

Lemma yields_checked (m : Parse.P value) c st :
  Y (m st) -> Y (Parse.bind m (fun v => Parse.checkTrailing text keepComments v c) st).
Proof.
  intros H. unfold Parse.bind. go H. apply yields_checkTrailing. exact H.
Qed.

Lemma yields_rootValue fuel st :
  Y (Parse.rootValue text keepComments runDsf fuel st).
Proof.
  unfold Parse.rootValue.
  unfold Parse.bind at 1. unfold Parse.white, Parse.step.
  unfold Parse.bind at 1. unfold Parse.get at 1.
  destruct (yields_mutual fuel) as [Hv [Ha [_ [Ho _]]]].
  destruct (ch_is "{" _); [apply yields_checked, Ho|].
  destruct (ch_is "[" _); [apply yields_checked, Ha|].
  apply yields_checked, Hv.
Qed.

Lemma yields_legacyRootValue fuel st :
  Y (Parse.legacyRootValue text keepComments runDsf fuel st).
Proof.
  unfold Parse.legacyRootValue.
  unfold Parse.bind at 1. unfold Parse.white, Parse.step.
  unfold Parse.bind at 1. unfold Parse.get at 1.
  destruct (yields_mutual fuel) as [Hv [Ha [_ [Ho _]]]].
  destruct (ch_is "{" _); [apply yields_checked, Ho|].
  destruct (ch_is "[" _); [apply yields_checked, Ha|].
  match goal with
  | |- context [Parse.object_attempt text keepComments runDsf fuel ?c ?s] =>
      pose proof (yields_checked _ c s (Ho true s)) as H1;
      pose proof (yields_checked _ c Parse.resetAt (Hv Parse.resetAt)) as H2;
      fold (Parse.object_attempt text keepComments runDsf fuel c) in H1;
      fold (Parse.value_attempt text keepComments runDsf fuel c) in H2;
      destruct (Parse.object_attempt text keepComments runDsf fuel c s)
        as [[v1 s1]|e1|]; [exact H1| |exact I];
      destruct (Parse.value_attempt text keepComments runDsf fuel c Parse.resetAt)
        as [[v2 s2]|e2|]; [exact H2|exact I|exact I]
  end.
Qed.
End Invariant.

Lemma runDsf_parse_values (Q : value -> Prop) hooks :
  (forall x s, In x hooks -> Dsf.parse x s = VUndefined \/ Q (Dsf.parse x s)) ->
  forall s, Dsf.runDsf_parse hooks s = VUndefined \/ Q (Dsf.runDsf_parse hooks s).
Proof.
  intros H s. induction hooks as [|x hooks IH]; [left; reflexivity|].
  cbn [Dsf.runDsf_parse].
  destruct (H x s (or_introl eq_refl)) as [E|E].
  - rewrite E. apply IH. intros y t Hy. apply H. right. exact Hy.
  - destruct (Dsf.parse x s); auto.
    apply IH. intros y t Hy. apply H. right. exact Hy.
Qed.

Lemma parse_yields (Q : value -> Prop) text opt hooks v :
  Dsf.loadDsf (dsf_option opt) = Ok hooks ->
  (forall fuel st,
      yields value Q (Parse.rootValue text (keeps_comments opt)
                        (Dsf.runDsf_parse hooks) fuel st)) ->
  (forall fuel st,
      yields value Q (Parse.legacyRootValue text (keeps_comments opt)
                        (Dsf.runDsf_parse hooks) fuel st)) ->
  Parse.parse text opt = Ok v -> Q v.
Proof.
  intros Hl H1 H2. unfold Parse.parse.
  fold (dsf_option opt). rewrite Hl. cbv beta iota delta [rbind].
  fold (keeps_comments opt). fold (legacy_root opt).
  destruct (legacy_root opt).
  - specialize (H2 (Parse.pfuel text) Parse.resetAt).
    destruct (Parse.legacyRootValue _ _ _ _ _) as [[v' s']|e|];
      [|discriminate|discriminate].
    intros E. inversion E; subst. exact H2.
  - specialize (H1 (Parse.pfuel text) Parse.resetAt).
    destruct (Parse.rootValue _ _ _ _ _) as [[v' s']|e|];
      [|discriminate|discriminate].
    intros E. inversion E; subst. exact H1.
Qed.

Lemma forallb_drop_key (V : Type) (f : jstr * V -> bool) k l :
  forallb f l = true -> forallb f (drop_key k l) = true.
Proof.
  induction l as [|[k' v] l IH]; cbn [drop_key forallb]; [reflexivity|].
  intros H. apply andb_true_iff in H. destruct H as [H1 H2].
  destruct (jeqb k k'); cbn [forallb]; rewrite ?H1; auto.
Qed.

Lemma stores_ok_all items :
  Forall (fun v => stores_ok v = true) items -> forallb stores_ok items = true.
Proof. intros H. apply forallb_forall. rewrite Forall_forall in H. exact H. Qed.

Lemma stores_ok_members (props : list (jstr * value)) :
  Forall (fun v => stores_ok v = true) (map snd props) ->
  forallb (fun kv => stores_ok (snd kv)) props = true.
Proof.
  intros H. apply forallb_forall. rewrite Forall_forall in H.
  intros kv Hin. apply H. apply in_map. exact Hin.
Qed.



Lemma payload_all items :
  Forall (fun v => payload v = v) items -> map payload items = items.
Proof.
  induction 1 as [|x l Hx _ IH]; [reflexivity|].
  cbn [map]. now rewrite Hx, IH.
Qed.

Lemma payload_members (props : list (jstr * value)) :
  Forall (fun v => payload v = v) (map snd props) ->
  map (fun kv => (fst kv, payload (snd kv))) props = props.
Proof.
  induction props as [|[k w] props IH]; intros H; [reflexivity|].
  cbn [map fst snd] in *.
  rewrite (Forall_inv H), (IH (Forall_inv_tail H)). reflexivity.
Qed.

(** X14. Without the option [keepWsc], no value [parse] returns carries a
    comment store, at any depth: the result is its own payload (provided
    the [parse] hooks of the DSF records answer plain values themselves, and
    no key of the result is [__proto__] or [__COMMENTS__]: a member of the
    latter name is what [getComment] answers). *)
Theorem parse_plain_without_keepWsc text opt hooks v :
  Dsf.loadDsf (dsf_option opt) = Ok hooks ->
  (forall x s, In x hooks -> payload (Dsf.parse x s) = Dsf.parse x s) ->
  keeps_comments opt = false ->
  Parse.parse text opt = Ok v ->
  own_keys v = true ->
  payload v = v.
Proof.
  intros Hl Hh Hk Hp _.
  set (Q := fun v : value => payload v = v).
  assert (Hd : forall s, Dsf.runDsf_parse hooks s = VUndefined
                         \/ Q (Dsf.runDsf_parse hooks s)).
  { apply runDsf_parse_values. intros x s Hx. right. apply Hh. exact Hx. }
  assert (Ha : forall ca e items,
             match e with Some (None, _) => False | _ => True end ->
             Forall Q items ->
             Q (Parse.array_value (keeps_comments opt) ca e items)).
  { intros ca e items He Hi. unfold Q, Parse.array_value. rewrite Hk.
    cbn [payload]. now rewrite (payload_all items Hi). }
  assert (Ho : forall cc co e props,
             match e with Some (None, _) => False | _ => True end ->
             Forall Q (map snd props) ->
             Q (Parse.object_value (keeps_comments opt) cc co e props)).
  { intros cc co e props He Hi. unfold Q, Parse.object_value. rewrite Hk.
    cbn [payload]. now rewrite (payload_members props Hi). }
  assert (Hr : forall v comments x,
             Q v -> getComment v = Some comments ->
             Q (createComment v (Some (set_r x comments)))).
  { intros w comments x Hw Hc. unfold Q in *.
    destruct w; try discriminate; cbn [getComment] in Hc; subst;
      cbn [payload] in Hw; discriminate. }
  apply (parse_yields Q text opt hooks v Hl); [| |exact Hp]; intros fuel st.
  - apply yields_rootValue; auto; intros; reflexivity.
  - apply yields_legacyRootValue; auto; intros; reflexivity.
Qed.

Lemma parse_plain_without_keepWsc_witness :
  payload (VObject None [(lit "a", VArray None [VNumber (Num false 1 0)])])
  = VObject None [(lit "a", VArray None [VNumber (Num false 1 0)])].
Proof.
  apply (parse_plain_without_keepWsc (lit "# c" ++ nl ++ lit "a: [1] // d") None []).
  - reflexivity.
  - intros x s [].
  - reflexivity.
  - vm_compute. reflexivity.
  - reflexivity.
Defined.

(** ** What [forceComment] makes of a text *)

Lemma skip_while_run text (p : cursor -> bool) (q : char -> bool) :
  (forall s, p s = match ch s with Some c => q c | None => false end) ->
  forall ds pre r fuel,
    text = pre ++ ds ++ r ->
    Forall (fun c => q c = true) ds ->
    match r with c :: _ => q c = false | [] => True end ->
    (List.length ds < fuel)%nat ->
    skip_while text fuel p (cur text (List.length pre))
    = cur text (List.length pre + List.length ds).
Proof.
  intros Hp. induction ds as [|d ds IH]; intros pre r fuel Ht Hd Hr Hf.
  - destruct fuel as [|fuel]; [simpl in Hf; lia|].
    cbn [skip_while List.length]. rewrite Nat.add_0_r, Hp.
    simpl in Ht. rewrite (ch_cur_head text pre r Ht).
    destruct r as [|c r]; cbn [hd_error]; [reflexivity|now rewrite Hr].
  - destruct fuel as [|fuel]; [simpl in Hf; lia|].
    cbn [skip_while]. rewrite Hp.
    rewrite (ch_cur_here text pre d (ds ++ r) Ht).
    rewrite (Forall_inv Hd), next_cur.
    replace (S (List.length pre)) with (List.length (pre ++ [d]))
      by (rewrite length_app; simpl; lia).
    rewrite (IH (pre ++ [d]) r fuel);
      [f_equal; rewrite length_app; simpl; lia
      |rewrite Ht, <- app_assoc; reflexivity
      |exact (Forall_inv_tail Hd)|exact Hr|simpl in Hf; lia].
Qed.

Lemma peek_cur text a k :
  Parse.peek_is text a (cur text k)
  = match nth_error text (S k) with Some c => isc a c | None => false end.
Proof.
  unfold Parse.peek_is, Parse.peek, cur. cbn [at_].
  replace (Z.of_nat k + 1 + 0)%Z with (Z.of_nat (S k)) by lia.
  now rewrite charAt_nat.
Qed.

Lemma opens_line_head ds :
  opens_line ds = true ->
  exists c r, ds = c :: r /\ (32 <? c)%N = true
              /\ (isc "#" c = true
                  \/ isc "/" c = true /\ exists d r', r = d :: r' /\ isc "/" d = true).
Proof.
  destruct ds as [|c r]; [discriminate|]. cbn [opens_line]. intros H.
  exists c, r. split; [reflexivity|].
  apply orb_true_iff in H. destruct H as [H|H].
  - split; [|left; exact H]. unfold isc in H. apply N.eqb_eq in H. now subst c.
  - apply andb_true_iff in H. destruct H as [H1 H2]. split.
    + unfold isc in H1. apply N.eqb_eq in H1. now subst c.
    + right. split; [exact H1|]. destruct r as [|d r']; [discriminate|]. eauto.
Qed.

Lemma skipped_blank_inv c t :
  skipped (c :: t) -> (c <=? 32)%N = true -> skipped t.
Proof.
  intros H Hc. inversion H as [|c' t' _ Ht E|ds rest Ho Hd Hr Hs E]; [exact Ht|].
  destruct (opens_line_head ds Ho) as [c' [r [-> [Hgt _]]]].
  cbn [app] in E. injection E as -> _.
  apply N.ltb_lt in Hgt. apply N.leb_le in Hc. lia.
Qed.

Lemma skipped_line_inv c t :
  skipped (c :: t) -> (c <=? 32)%N = false ->
  exists ds rest,
    c :: t = ds ++ rest /\ opens_line ds = true
    /\ Forall (fun c => is_nl c = false) ds
    /\ match rest with c :: _ => is_nl c = true | [] => True end
    /\ skipped rest.
Proof.
  intros H Hc. inversion H as [|c' t' Hb Ht E|ds rest Ho Hd Hr Hs E]; [congruence|].
  exists ds, rest. auto.
Qed.

Section Skipped.
Variable text : jstr.

Local Abbreviation at_skipped := (at_skipped text).

Lemma blanks_at_skipped : forall fuel st,
  at_skipped st -> at_skipped (skip_while text fuel ch_blank st).
Proof.
  induction fuel as [|fuel IH]; intros st H; [exact H|].
  cbn [skip_while]. destruct (ch_blank st) eqn:Eb; [|exact H].
  apply IH. destruct H as [[-> Hs]|[pre [t [Ht [Hs ->]]]]].
  - right. exists [], text. auto.
  - right. unfold ch_blank in Eb. rewrite (ch_cur_head text pre t Ht) in Eb.
    destruct t as [|c t]; [discriminate|]. cbn [hd_error] in Eb.
    exists (pre ++ [c]), t. split; [rewrite Ht, <- app_assoc; reflexivity|].
    split; [exact (skipped_blank_inv c t Hs Eb)|].
    rewrite next_cur, length_app. f_equal. simpl. lia.
Qed.

Lemma white_loop_at_skipped : forall fuel st,
  at_skipped st -> at_skipped (Parse.white_loop text fuel st).
Proof.
  induction fuel as [|fuel IH]; intros st H; [exact H|].
  cbn [Parse.white_loop]. destruct (ch st) as [c0|]; [|exact H].
  pose proof (blanks_at_skipped (lfuel text) st H) as H1.
  set (st1 := skip_while text (lfuel text) ch_blank st) in *.
  destruct H1 as [[E Hs]|[pre [t [Ht [Hs E]]]]].
  { rewrite E. change (ch_is "#" Parse.resetAt) with false.
    change (ch_is "/" Parse.resetAt) with false. cbn [orb andb].
    left. auto. }
  destruct (ch_is "#" st1 || ch_is "/" st1 && Parse.peek_is text "/" st1) eqn:E1.
  - apply IH. right.
    assert (Hh : exists c t', t = c :: t' /\ (c <=? 32)%N = false).
    { unfold ch_is in E1. rewrite E, (ch_cur_head text pre t Ht) in E1.
      destruct t as [|c t']; [discriminate|]. cbn [hd_error] in E1.
      exists c, t'. split; [reflexivity|].
      unfold isc in E1. destruct (N.eqb c (chr "#")) eqn:Eh.
      - apply N.eqb_eq in Eh. now subst c.
      - destruct (N.eqb c (chr "/")) eqn:Es; [|discriminate].
        apply N.eqb_eq in Es. now subst c. }
    destruct Hh as [c [t' [-> Hc]]].
    destruct (skipped_line_inv c t' Hs Hc) as [ds [rest [Hd [Ho [Hn [Hr Hs']]]]]].
    exists (pre ++ ds), rest.
    split; [rewrite Ht, Hd, <- app_assoc; reflexivity|]. split; [exact Hs'|].
    rewrite E, length_app.
    apply (skip_while_run text _ (fun c => negb (is_nl c))) with (r := rest).
    + intros s. reflexivity.
    + rewrite Ht, Hd. reflexivity.
    + apply Forall_impl with (2 := Hn). intros a Ha. now rewrite Ha.
    + destruct rest as [|r0 rest]; [exact I|]. now rewrite Hr.
    + unfold lfuel. rewrite Ht, Hd, !length_app. lia.
  - destruct (ch_is "/" st1 && Parse.peek_is text "*" st1) eqn:E2.
    + exfalso. apply andb_true_iff in E2. destruct E2 as [E2 E3].
      unfold ch_is in E1, E2.
      rewrite E in E1. rewrite E in E2. rewrite E in E3.
      rewrite (ch_cur_head text pre t Ht) in E1.
      rewrite (ch_cur_head text pre t Ht) in E2.
      destruct t as [|c t']; [discriminate|]. cbn [hd_error] in E1, E2.
      assert (Hc : (c <=? 32)%N = false).
      { unfold isc in E2. apply N.eqb_eq in E2. now subst c. }
      destruct (skipped_line_inv c t' Hs Hc) as [ds [rest [Hd [Ho _]]]].
      destruct (opens_line_head ds Ho) as [c' [r [-> [_ [Hh|[_ [d [r' [-> Hsl]]]]]]]]];
        cbn [app] in Hd; injection Hd as Hd1 Hd2; subst c'.
      * rewrite Hh in E1. discriminate.
      * rewrite E2 in E1. cbn [orb andb] in E1.
        rewrite peek_cur in E1.
        assert (En : nth_error text (S (List.length pre)) = Some d).
        { rewrite Ht, Hd2. rewrite nth_error_app2 by lia.
          replace (S (List.length pre) - List.length pre)%nat with 1%nat by lia.
          reflexivity. }
        rewrite En, Hsl, orb_true_r in E1. discriminate.
    + right. exists pre, t. auto.
Qed.

Lemma white_reads_skipped :
  skipped text -> ch (Parse.white_st text Parse.resetAt) = None.
Proof.
  intros Hs.
  assert (H0 : at_skipped Parse.resetAt) by (left; auto).
  pose proof (white_loop_at_skipped (lfuel text) Parse.resetAt H0) as H1.
  destruct (white_loop_stops text (lfuel text) Parse.resetAt (ok_reset text)
              (lfuel_enough text _ (ok_reset text))) as [Hb Hc].
  fold (Parse.white_st text Parse.resetAt) in *.
  destruct H1 as [[E _]|[pre [t [Ht [Hs' E]]]]].
  { rewrite E in Hb. discriminate. }
  rewrite E in *. rewrite (ch_cur_head text pre t Ht).
  destruct t as [|c t']; [reflexivity|exfalso].
  unfold ch_blank in Hb. rewrite (ch_cur_here text pre c t' Ht) in Hb.
  destruct (skipped_line_inv c t' Hs' Hb) as [ds [rest [Hd [Ho _]]]].
  destruct (opens_line_head ds Ho) as [c' [r [-> [_ Hh]]]].
  cbn [app] in Hd. injection Hd as <- Hd2.
  unfold opens_comment, ch_is in Hc. rewrite (ch_cur_here text pre c t' Ht) in Hc.
  destruct Hh as [Hh|[Hh [d [r' [-> Hsl]]]]].
  - rewrite Hh in Hc. discriminate.
  - rewrite Hh in Hc. rewrite peek_cur in Hc.
    assert (En : nth_error text (S (List.length pre)) = Some d).
    { rewrite Ht, Hd2. rewrite nth_error_app2 by lia.
      replace (S (List.length pre) - List.length pre)%nat with 1%nat by lia.
      reflexivity. }
    rewrite En, Hsl in Hc.
    destruct (isc "#" c); discriminate.
Qed.
End Skipped.

Lemma split_on_lines s : Forall (Forall (fun c => is_nl c = false)) (split_on NL s).
Proof.
  induction s as [|d s IH]; [repeat constructor|].
  cbn [split_on]. destruct (N.eqb NL d) eqn:E.
  - constructor; [constructor|exact IH].
  - destruct (split_on NL s) as [|l ls]; [repeat constructor|].
    + unfold is_nl. now rewrite N.eqb_sym.
    + constructor; [|exact (Forall_inv_tail IH)].
      constructor; [unfold is_nl; now rewrite N.eqb_sym|exact (Forall_inv IH)].
Qed.

Lemma skipped_comment_line : forall l rest,
  classify l = LineComment ->
  Forall (fun c => is_nl c = false) l ->
  match rest with c :: _ => is_nl c = true | [] => True end ->
  skipped rest -> skipped (l ++ rest).
Proof.
  induction l as [|c r IH]; intros rest Hc Hn Hr Hs; [discriminate|].
  cbn [classify] in Hc.
  destruct (isc "#" c) eqn:E1.
  { apply skipped_line; auto. cbn [opens_line]. now rewrite E1. }
  destruct (isc "/" c && match r with d :: _ => isc "/" d || isc "*" d | [] => false end)
    eqn:E2.
  { apply andb_true_iff in E2. destruct E2 as [E2 E3].
    destruct r as [|d r']; [discriminate|].
    destruct (isc "*" d) eqn:E4; [discriminate|].
    apply skipped_line; auto. cbn [opens_line]. rewrite E2.
    rewrite orb_false_r in E3. rewrite E3. apply orb_true_r. }
  destruct (32 <? c)%N eqn:E3; [discriminate|].
  cbn [app]. apply skipped_blank; [apply N.leb_le; apply N.ltb_ge in E3; exact E3|].
  apply IH; auto. exact (Forall_inv_tail Hn).
Qed.

Lemma skipped_blank_line : forall l rest,
  classify l = Blank -> skipped rest -> skipped (l ++ rest).
Proof.
  induction l as [|c r IH]; intros rest Hc Hs; [exact Hs|].
  cbn [classify] in Hc.
  destruct (isc "#" c); [discriminate|].
  destruct (isc "/" c && _).
  { destruct r as [|d r']; [discriminate|]. destruct (isc "*" d); discriminate. }
  destruct (32 <? c)%N eqn:E3; [discriminate|].
  cbn [app]. apply skipped_blank; [apply N.leb_le; apply N.ltb_ge in E3; exact E3|].
  apply IH; auto.
Qed.

Lemma skipped_forced_line l rest :
  (classify l = LineComment /\ Forall (fun c => is_nl c = false) l
   \/ classify l = Blank) ->
  match rest with c :: _ => is_nl c = true | [] => True end ->
  skipped rest -> skipped (l ++ rest).
Proof.
  intros [[H1 H2]|H] Hr Hs.
  - apply skipped_comment_line; auto.
  - apply skipped_blank_line; auto.
Qed.

Lemma forceLines_lines : forall ls,
  Forall (Forall (fun c => is_nl c = false)) ls ->
  forallb (fun l => match classify l with BlockComment => false | _ => true end) ls
  = true ->
  Forall (fun l => classify l = LineComment /\ Forall (fun c => is_nl c = false) l
                   \/ classify l = Blank) (forceLines ls).
Proof.
  induction ls as [|l ls IH]; intros Hn Hb; [constructor|].
  cbn [forceLines forallb] in *. apply andb_true_iff in Hb. destruct Hb as [Hb Hb'].
  pose proof (Forall_inv Hn) as Hl. pose proof (Forall_inv_tail Hn) as Hn'.
  destruct (classify l) eqn:Ec; [| discriminate | |].
  - constructor; [left; auto|apply IH; auto].
  - constructor; [|apply IH; auto].
    left. split; [reflexivity|]. repeat constructor. exact Hl.
  - constructor; [right; auto|apply IH; auto].
Qed.

Lemma skipped_join : forall ls,
  Forall (fun l => classify l = LineComment /\ Forall (fun c => is_nl c = false) l
                   \/ classify l = Blank) ls ->
  skipped (join nl ls).
Proof.
  induction ls as [|l ls IH]; intros H; [constructor|].
  pose proof (Forall_inv H) as Hl. pose proof (Forall_inv_tail H) as H'.
  specialize (IH H').
  destruct ls as [|l' ls'].
  - cbn [join]. rewrite <- (app_nil_r l).
    apply skipped_forced_line; [exact Hl|exact I|constructor].
  - change (join nl (l :: l' :: ls')) with (l ++ NL :: join nl (l' :: ls')).
    apply skipped_forced_line; [exact Hl|reflexivity|].
    apply skipped_blank; [reflexivity|exact IH].
Qed.

(** X15. A text that [forceComment] has gone through is a comment for the parser:
    [white()] reads it to its end, whatever the text was, provided no line
    of the text starts a block comment (there [forceComment] stops and
    leaves the rest as it is). *)
Theorem forceComment_is_skipped text :
  block_free text = true ->
  ch (root_start (forceComment text)) = None.
Proof.
  intros Hb. unfold root_start. apply white_reads_skipped.
  unfold forceComment. destruct text as [|c t]; [constructor|].
  apply skipped_join, forceLines_lines; [apply split_on_lines|exact Hb].
Qed.

Lemma forceComment_is_skipped_witness :
  ch (root_start (forceComment (lit "a: 1" ++ nl ++ lit "  // b" ++ nl ++ lit "c"))) = None.
Proof.
  apply forceComment_is_skipped. reflexivity.
Defined.

Lemma split_join_lines : forall ls,
  ls <> [] ->
  Forall (Forall (fun c => is_nl c = false)) ls ->
  split_on NL (join nl ls) = ls.
Proof.
  induction ls as [|l ls IH]; intros Hne Hn; [congruence|].
  pose proof (Forall_inv Hn) as Hl. pose proof (Forall_inv_tail Hn) as Hn'.
  destruct ls as [|l' ls'].
  - cbn [join]. clear IH Hn Hn' Hne.
    induction l as [|c l IH]; [reflexivity|].
    cbn [split_on]. pose proof (Forall_inv Hl) as Hc. unfold is_nl in Hc.
    rewrite N.eqb_sym, Hc, (IH (Forall_inv_tail Hl)). reflexivity.
  - change (join nl (l :: l' :: ls')) with (l ++ NL :: join nl (l' :: ls')).
    specialize (IH ltac:(discriminate) Hn').
    clear Hn Hne. induction l as [|c l IHl].
    + cbn [app split_on]. rewrite N.eqb_refl, IH. reflexivity.
    + cbn [app split_on]. pose proof (Forall_inv Hl) as Hc. unfold is_nl in Hc.
      rewrite N.eqb_sym, Hc, (IHl (Forall_inv_tail Hl)). reflexivity.
Qed.

Lemma forceLines_twice : forall ls, forceLines (forceLines ls) = forceLines ls.
Proof.
  induction ls as [|l ls IH]; [reflexivity|].
  cbn [forceLines]. destruct (classify l) eqn:Ec; cbn [forceLines].
  - now rewrite Ec, IH.
  - now rewrite Ec.
  - change (classify (lit "# " ++ l)) with LineComment. cbv iota. now rewrite IH.
  - now rewrite Ec, IH.
Qed.

Lemma forceLines_keeps_lines : forall ls,
  Forall (Forall (fun c => is_nl c = false)) ls ->
  Forall (Forall (fun c => is_nl c = false)) (forceLines ls).
Proof.
  induction ls as [|l ls IH]; intros Hn; [constructor|].
  pose proof (Forall_inv Hn) as Hl. pose proof (Forall_inv_tail Hn) as Hn'.
  cbn [forceLines]. destruct (classify l); try (constructor; auto).
  repeat constructor. exact Hl.
Qed.

Lemma forceLines_nonempty ls : ls <> [] -> forceLines ls <> [].
Proof.
  destruct ls as [|l ls]; [congruence|]. intros _.
  cbn [forceLines]. destruct (classify l); discriminate.
Qed.

Lemma split_on_nonempty c s : split_on c s <> [].
Proof.
  destruct s as [|d s]; cbn [split_on]; [discriminate|].
  destruct (N.eqb c d); [discriminate|]. destruct (split_on c s); discriminate.
Qed.

(** X16. [forceComment] changes nothing in a text it has gone through: the
    marker [# ] is put before a line once. *)
Theorem forceComment_twice text :
  forceComment (forceComment text) = forceComment text.
Proof.
  destruct text as [|c t]; [reflexivity|].
  change (forceComment (c :: t))
    with (join nl (forceLines (split_on NL (c :: t)))).
  set (ls := forceLines (split_on NL (c :: t))).
  unfold forceComment. destruct (join nl ls) eqn:E; [reflexivity|].
  rewrite <- E. rewrite split_join_lines.
  - unfold ls. now rewrite forceLines_twice.
  - apply forceLines_nonempty, split_on_nonempty.
  - apply forceLines_keeps_lines, split_on_lines.
Qed.

(** ** The flag of [tryParseNumber], and one-word strings at the root *)

Lemma tryParseNumber_stop_eq text b :
  tryParseNumber text b = tryParseNumber text false.
Proof.
  destruct b; [|reflexivity]. unfold tryParseNumber.
  repeat match goal with
         | |- context [let '(a, b) := ?x in _] => destruct x
         end.
  cbn [andb].
  match goal with
  | |- context [ch_is "," ?st] => destruct (ch st) eqn:Ec; unfold ch_is; rewrite ?Ec
  end.
  - destruct (_ || _); reflexivity.
  - reflexivity.
Qed.

(** X17. [tryParseNumber(text, true)]: the flag [stopAtNext] changes no answer.
    At a [,], [}], []] or a comment the flag sets [ch] to the string of the
    character NUL, which is not empty, so the text is rejected as it is
    without the flag. *)
Theorem tryParseNumber_ignores_stopAtNext :
  forall text stopAtNext,
    tryParseNumber text stopAtNext = tryParseNumber text false.
Proof. intros text b. apply tryParseNumber_stop_eq. Qed.

Lemma trimStart_fixed c r : is_ws c = false -> trimStart (c :: r) = c :: r.
Proof. intros H. cbn [trimStart]. now rewrite H. Qed.

Lemma trim_fixed s :
  match s with c :: _ => is_ws c = false | [] => True end ->
  match List.rev s with c :: _ => is_ws c = false | [] => True end ->
  trim s = s.
Proof.
  intros H1 H2. unfold trim, trimEnd.
  assert (E1 : trimStart s = s).
  { destruct s as [|c r]; [reflexivity|now apply trimStart_fixed]. }
  rewrite E1.
  assert (E2 : trimStart (List.rev s) = List.rev s).
  { destruct (List.rev s) as [|c r]; [reflexivity|now apply trimStart_fixed]. }
  rewrite E2. apply rev_involutive.
Qed.

Lemma needsQuotes_trim s : Stringify.needsQuotes s = false -> trim s = s.
Proof.
  unfold Stringify.needsQuotes. intros H.
  apply orb_false_iff in H. destruct H as [H _].
  apply orb_false_iff in H. destruct H as [H1 H2].
  apply trim_fixed.
  - destruct s as [|c r]; [exact I|].
    destruct (is_ws c); [discriminate H1|reflexivity].
  - destruct (List.rev s); [exact I|exact H2].
Qed.

Lemma plain_word_literal s :
  trim s = s ->
  Stringify.startsWithKeyword s = false ->
  tryParseNumber s false = None ->
  Parse.tfnns_literal s = None.
Proof.
  intros Ht Hk Hn. unfold Parse.tfnns_literal.
  destruct s as [|c r] eqn:Es; [reflexivity|]. rewrite <- Es in *. rewrite Ht.
  destruct (isc "f" c).
  { destruct (jeqb s (lit "false")) eqn:E; [|reflexivity].
    apply jeqb_eq in E. rewrite E in Hk. discriminate. }
  destruct (isc "n" c).
  { destruct (jeqb s (lit "null")) eqn:E; [|reflexivity].
    apply jeqb_eq in E. rewrite E in Hk. discriminate. }
  destruct (isc "t" c).
  { destruct (jeqb s (lit "true")) eqn:E; [|reflexivity].
    apply jeqb_eq in E. rewrite E in Hk. discriminate. }
  destruct (_ || _); [|reflexivity]. now rewrite Hn.
Qed.

Lemma stringify_root_string s :
  Stringify.stringify nl (VString s) None
  = Ok (if Stringify.needsQuotes s
           || match tryParseNumber s true with Some _ => true | None => false end
           || Stringify.startsWithKeyword s
        then if negb (Stringify.needsEscape s) then dq ++ s ++ dq
             else dq ++ Stringify.quoteReplace Stringify.plainToken s ++ dq
        else s).
Proof.
  unfold Stringify.stringify.
  cbn [Stringify.opt_flag Stringify.opt_get Dsf.loadDsf rbind Stringify.visit
       Dsf.runDsf_stringify getComment Stringify.opt_quoteStrings
       Stringify.opt_quoteKeys Stringify.opt_quotes Stringify.opt_multiline
       Stringify.opt_indent].
  change (Stringify.opt_quoteStrings None) with false.
  change (Stringify.opt_multiline None) with 1%nat.
  cbv iota. cbn [Nat.eqb negb andb].
  cbn [rbind]. unfold Stringify.quotelessString.
  change (truthy []) with false. cbn [orb negb andb Nat.eqb].
  unfold Stringify.wrap. cbn [Stringify.plainToken Stringify.t_qstr Stringify.t_str fst snd].
  destruct (_ || _ || _).
  - destruct (negb (Stringify.needsEscape s)); rewrite andb_false_r; cbn [andb app];
      now rewrite app_nil_r.
  - cbn [app]. now rewrite !app_nil_r.
Qed.

(** X18. A string that is one word goes through [stringify] and [parse], both
    with their default options, unchanged: also when the word reads as a
    keyword or as a number, which [stringify] puts between quotes. *)
Theorem word_roundtrip :
  forall s,
    utf16 s -> bare_word s = true ->
    roundtrip (VString s) = Ok (VString s).
Proof.
  intros s Hu Hw. unfold roundtrip. rewrite stringify_root_string. cbn [rbind].
  destruct (Stringify.needsQuotes s) eqn:Eq;
    [|destruct (tryParseNumber s true) eqn:En;
      [|destruct (Stringify.startsWithKeyword s) eqn:Ek]]; cbn [orb].
  4:{ rewrite (parse_bare_word s None []) by (reflexivity || exact Hw).
      unfold resolve_token. rewrite tryParseNumber_stop_eq in En.
      pose proof (needsQuotes_trim s Eq) as Ht.
      rewrite (plain_word_literal s Ht Ek En), Ht. reflexivity. }
  all: destruct (negb (Stringify.needsEscape s)) eqn:Ee;
    [apply negb_true_iff in Ee;
     apply (parse_quoted_text s s None []); auto using raw_quoted
    |apply (parse_quoted_text s _ None []); auto using quoteReplace_quoted].
Qed.

Lemma word_roundtrip_witness :
  roundtrip (VString (lit "true")) = Ok (VString (lit "true"))
  /\ roundtrip (VString (lit "12e3")) = Ok (VString (lit "12e3"))
  /\ roundtrip (VString (lit "pi=3.14")) = Ok (VString (lit "pi=3.14")).
Proof.
  split; [|split]; apply word_roundtrip; try reflexivity; repeat constructor.
Defined.

(** ** Reading an array of keywords and numbers *)

Lemma white_run (text pre bl rest : jstr) :
  text = pre ++ bl ++ rest ->
  Forall (fun c => (c <=? 32)%N = true) bl ->
  match rest with
  | c :: _ => (c <=? 32)%N = false /\ isc "#" c = false /\ isc "/" c = false
  | [] => True
  end ->
  Parse.white_st text (cur text (List.length pre))
  = cur text (List.length pre + List.length bl).
Proof.
  intros Ht Hb Hr.
  assert (Hs : skip_while text (lfuel text) ch_blank (cur text (List.length pre))
               = cur text (List.length pre + List.length bl)).
  { apply (skip_while_run text ch_blank (fun c => (c <=? 32)%N)) with (r := rest).
    - intros s. reflexivity.
    - exact Ht.
    - exact Hb.
    - destruct rest as [|c r]; [exact I|tauto].
    - unfold lfuel. rewrite Ht, !length_app. unfold jstr, char in *. lia. }
  assert (Hh : ch (cur text (List.length pre + List.length bl)) = hd_error rest).
  { rewrite <- length_app. apply ch_cur_head. now rewrite <- app_assoc. }
  assert (Hc : ch_is "#" (cur text (List.length pre + List.length bl)) = false
               /\ ch_is "/" (cur text (List.length pre + List.length bl)) = false).
  { unfold ch_is. rewrite Hh. destruct rest as [|c r]; cbn [hd_error]; [split; reflexivity|].
    tauto. }
  destruct Hc as [Hc1 Hc2].
  unfold Parse.white_st. unfold lfuel at 1. cbn [Parse.white_loop].
  destruct (ch (cur text (List.length pre))) eqn:Ec.
  - rewrite Hs, Hc1, Hc2. reflexivity.
  - destruct bl as [|b bl].
    + now rewrite Nat.add_0_r.
    + pose proof (ch_cur_here text pre b (bl ++ rest) Ht) as E2.
      unfold jstr, char in *. congruence.
Qed.

Section Tokens.
Variable text : jstr.
Variable runDsf : jstr -> value.

Lemma tfnns_loop_token : forall tk pre c val d rest fuel v,
  text = (pre ++ [c]) ++ tk ++ d :: rest ->
  forallb plain_char tk = true ->
  isc "," d || is_nl d = true ->
  Parse.tfnns_literal (val ++ tk) = Some v ->
  (List.length tk < fuel)%nat ->
  Parse.tfnns_loop text runDsf fuel val (cur text (List.length pre))
  = Ok (v, cur text (List.length (pre ++ [c]) + List.length tk)).
Proof.
  induction tk as [|x tk IH]; intros pre c val d rest fuel v Ht Hp Hd Hv Hf.
  - destruct fuel as [|fuel]; [simpl in Hf; lia|].
    cbn [Parse.tfnns_loop]. unfold Parse.bind, Parse.step, Parse.get.
    rewrite next_cur.
    replace (S (List.length pre)) with (List.length (pre ++ [c]))
      by (rewrite length_app; simpl; lia).
    cbn [List.length]. rewrite Nat.add_0_r.
    assert (Hch : ch (cur text (List.length (pre ++ [c]))) = Some d)
      by (apply (ch_cur_here text (pre ++ [c]) d rest Ht)).
    assert (Hstop : Parse.is_tfnns_stop text (cur text (List.length (pre ++ [c]))) = true).
    { unfold Parse.is_tfnns_stop, Parse.is_eol, ch_is. rewrite Hch.
      apply orb_true_iff in Hd. destruct Hd as [Hd|Hd]; rewrite Hd;
        rewrite ?orb_true_r; reflexivity. }
    rewrite Hstop. rewrite app_nil_r in Hv. rewrite Hv. reflexivity.
  - destruct fuel as [|fuel]; [simpl in Hf; lia|].
    cbn [Parse.tfnns_loop]. unfold Parse.bind at 1. unfold Parse.step at 1.
    unfold Parse.bind at 1. unfold Parse.get at 1.
    rewrite next_cur.
    replace (S (List.length pre)) with (List.length (pre ++ [c]))
      by (rewrite length_app; simpl; lia).
    assert (Hch : ch (cur text (List.length (pre ++ [c]))) = Some x)
      by (apply (ch_cur_here text (pre ++ [c]) x (tk ++ d :: rest) Ht)).
    cbn [forallb] in Hp. apply andb_true_iff in Hp. destruct Hp as [Hx Hp].
    assert (Hstop : Parse.is_tfnns_stop text (cur text (List.length (pre ++ [c])))
                    = false).
    { unfold Parse.is_tfnns_stop, Parse.is_eol, ch_is. rewrite Hch.
      unfold plain_char in Hx. apply negb_true_iff in Hx.
      repeat (apply orb_false_iff in Hx; destruct Hx as [Hx ?]).
      rewrite Hx, H, H0, H1, H2, H3, H4. reflexivity. }
    rewrite Hstop. unfold Parse.ch_str. rewrite Hch.
    rewrite (IH (pre ++ [c]) x (val ++ [x]) d rest fuel v).
    + f_equal. f_equal. f_equal. rewrite !length_app. simpl. lia.
    + rewrite Ht, <- !app_assoc. reflexivity.
    + exact Hp.
    + exact Hd.
    + rewrite <- app_assoc. exact Hv.
    + simpl in Hf. lia.
Qed.

(** [value()] on a token that a comma or a line feed ends. *)
Lemma value_token tk pre d rest fuel v :
  text = pre ++ tk ++ d :: rest ->
  bare_word tk = true ->
  isc "," d || is_nl d = true ->
  Parse.tfnns_literal tk = Some v ->
  Parse.value_ text false runDsf (S fuel) (cur text (List.length pre))
  = Ok (v, cur text (List.length pre + List.length tk)).
Proof.
  intros Ht Hw Hd Hv.
  destruct (bare_word_inv tk Hw) as (c & r & Hk & Hq1 & Hq2 & Hb & Hp & Hpu & Hn & Hpr).
  subst tk.
  assert (Hch : ch (cur text (List.length pre)) = Some c)
    by (apply (ch_cur_here text pre c (r ++ d :: rest)); rewrite Ht; reflexivity).
  assert (Hpc : isc "#" c = false /\ isc "/" c = false).
  { unfold plain_char in Hp. apply negb_true_iff in Hp.
    repeat (apply orb_false_iff in Hp; destruct Hp as [Hp ?]). auto. }
  assert (Hwh : Parse.white_st text (cur text (List.length pre))
                = cur text (List.length pre)).
  { rewrite (white_run text pre [] ((c :: r) ++ d :: rest) Ht (Forall_nil _)).
    - now rewrite Nat.add_0_r.
    - cbn [app]. split; [|exact Hpc]. apply N.leb_gt. now apply N.ltb_lt. }
  assert (Hbr : isc "{" c = false /\ isc "[" c = false).
  { unfold Parse.isPunctuatorChar in Hpu.
    repeat (apply orb_false_iff in Hpu; destruct Hpu as [Hpu ?]). auto. }
  cbn [Parse.value_].
  unfold Parse.bind at 1. unfold Parse.white at 1. unfold Parse.step at 1.
  rewrite Hwh. unfold Parse.bind at 1. unfold Parse.get at 1.
  unfold ch_is, ch_dq. rewrite Hch.
  destruct Hbr as [-> ->]. rewrite Hq1, Hq2. cbn [orb]. cbv iota.
  unfold Parse.tfnns. unfold Parse.bind at 1. unfold Parse.get at 1.
  rewrite Hch, Hpu. unfold Parse.ch_str. rewrite Hch.
  rewrite (tfnns_loop_token r pre c [c] d rest (lfuel text) v).
  - f_equal. f_equal. f_equal. rewrite length_app. simpl. lia.
  - rewrite Ht. cbn [app]. rewrite <- app_assoc. reflexivity.
  - exact Hpr.
  - exact Hd.
  - exact Hv.
  - unfold lfuel. rewrite Ht, !length_app. simpl. lia.
Qed.
End Tokens.

Lemma array_rest_cons t l :
  array_rest (t :: l)
  = t ++ match l with
         | [] => nl ++ lit "]"
         | _ => lit "," ++ nl ++ lit "  " ++ array_rest l
         end.
Proof. destruct l; reflexivity. Qed.

Lemma token_head (tk rest : jstr) :
  bare_word tk = true ->
  exists c r, tk ++ rest = c :: r
              /\ (c <=? 32)%N = false /\ isc "#" c = false /\ isc "/" c = false
              /\ isc "]" c = false /\ isc "," c = false.
Proof.
  intros Hw.
  destruct (bare_word_inv tk Hw) as (c & r & Hk & Hq1 & Hq2 & Hb & Hp & Hpu & Hn & Hpr).
  exists c, (r ++ rest). subst tk. split; [reflexivity|].
  unfold plain_char in Hp. apply negb_true_iff in Hp.
  repeat (apply orb_false_iff in Hp; destruct Hp as [Hp ?]).
  unfold Parse.isPunctuatorChar in Hpu.
  repeat (apply orb_false_iff in Hpu; destruct Hpu as [Hpu ?]).
  repeat split; auto. apply N.leb_gt. now apply N.ltb_lt.
Qed.

Section ArrayText.
Variable text : jstr.
Variable runDsf : jstr -> value.

Lemma after_member_comma pre (rest : jstr) :
  text = pre ++ lit "," ++ nl ++ lit "  " ++ rest ->
  match rest with
  | c :: _ => (c <=? 32)%N = false /\ isc "#" c = false /\ isc "/" c = false
  | [] => True
  end ->
  exists cAt,
    Parse.after_member text (cur text (List.length pre))
    = Ok (cAt, cur text (List.length (pre ++ lit "," ++ nl ++ lit "  "))).
Proof.
  intros Ht Hr.
  assert (Hch : ch (cur text (List.length pre)) = Some (chr ","))
    by (apply (ch_cur_here text pre (chr ",") (nl ++ lit "  " ++ rest) Ht)).
  assert (H1 : Parse.white_st text (cur text (List.length pre))
               = cur text (List.length pre)).
  { rewrite (white_run text pre [] (lit "," ++ nl ++ lit "  " ++ rest) Ht (Forall_nil _)).
    - now rewrite Nat.add_0_r.
    - repeat split; reflexivity. }
  assert (H2 : Parse.white_st text (cur text (List.length (pre ++ lit ",")))
               = cur text (List.length (pre ++ lit ",")
                           + List.length (nl ++ lit "  "))).
  { apply (white_run text (pre ++ lit ",") (nl ++ lit "  ") rest).
    - rewrite Ht, <- !app_assoc. reflexivity.
    - repeat constructor.
    - exact Hr. }
  unfold Parse.after_member.
  unfold Parse.bind at 1. unfold Parse.get at 1.
  unfold Parse.bind at 1. unfold Parse.white at 1. unfold Parse.step at 1.
  rewrite H1.
  unfold Parse.bind at 1. unfold Parse.get at 1.
  unfold ch_is at 1. rewrite Hch.
  change (isc "," (chr ",")) with true. cbv iota.
  unfold Parse.bind at 1. unfold Parse.step at 1. rewrite next_cur.
  unfold Parse.bind at 1. unfold Parse.get at 1.
  unfold Parse.bind at 1. unfold Parse.white at 1. unfold Parse.step at 1.
  replace (S (List.length pre)) with (List.length (pre ++ lit ","))
    by (rewrite length_app; simpl; lia).
  rewrite H2. unfold Parse.ret. eexists. f_equal. f_equal. f_equal.
  rewrite !length_app. simpl. lia.
Qed.

Lemma after_member_last pre :
  text = pre ++ nl ++ lit "]" ->
  exists cAt,
    Parse.after_member text (cur text (List.length pre))
    = Ok (cAt, cur text (List.length (pre ++ nl))).
Proof.
  intros Ht.
  assert (H1 : Parse.white_st text (cur text (List.length pre))
               = cur text (List.length pre + List.length nl)).
  { apply (white_run text pre nl (lit "]") Ht).
    - repeat constructor.
    - repeat split; reflexivity. }
  assert (Hch : ch (cur text (List.length pre + List.length nl)) = Some (chr "]")).
  { rewrite <- length_app. apply (ch_cur_here text (pre ++ nl) (chr "]") []).
    rewrite Ht, <- app_assoc. reflexivity. }
  unfold Parse.after_member.
  unfold Parse.bind at 1. unfold Parse.get at 1.
  unfold Parse.bind at 1. unfold Parse.white at 1. unfold Parse.step at 1.
  rewrite H1.
  unfold Parse.bind at 1. unfold Parse.get at 1.
  unfold ch_is at 1. rewrite Hch.
  change (isc "," (chr "]")) with false. cbv iota.
  unfold Parse.ret. eexists. f_equal. f_equal. f_equal.
  rewrite !length_app. reflexivity.
Qed.

Lemma array_loop_reads : forall tvs acc pre fuel,
  tvs <> [] ->
  Forall reads_as tvs ->
  text = pre ++ array_rest (map fst tvs) ->
  (List.length tvs < fuel)%nat ->
  Parse.array_loop text false runDsf fuel acc [] None (cur text (List.length pre))
  = Ok (VArray None (acc ++ map snd tvs), cur text (List.length text)).
Proof.
  induction tvs as [|[tk v] tvs IH]; intros acc pre fuel Hne Hall Ht Hf; [congruence|].
  pose proof (Forall_inv Hall) as [Hw Hv]. cbn [fst snd] in Hw, Hv.
  pose proof (Forall_inv_tail Hall) as Hall'.
  destruct fuel as [|fuel0]; [simpl in Hf; lia|].
  assert (Hf0 : exists fuel, fuel0 = S fuel)
    by (destruct fuel0; [simpl in Hf; lia|eauto]).
  cbn [map fst snd] in Ht. rewrite array_rest_cons in Ht.
  destruct (token_head tk [] Hw) as (c & r & Hk & _).
  rewrite app_nil_r in Hk.
  assert (Hch : ch (cur text (List.length pre)) = Some c).
  { apply (ch_cur_here text pre c
             (r ++ match map fst tvs with
                   | [] => nl ++ lit "]"
                   | _ => lit "," ++ nl ++ lit "  " ++ array_rest (map fst tvs)
                   end)).
    rewrite Ht, Hk. reflexivity. }
  cbn [Parse.array_loop].
  fold (Parse.value_ text false runDsf).
  fold (Parse.array_ text false runDsf).
  fold (Parse.array_loop text false runDsf).
  fold (Parse.object_ text false runDsf).
  fold (Parse.object_loop text false runDsf).
  unfold Parse.bind at 1. unfold Parse.get at 1. rewrite Hch.
  unfold Parse.bind at 1. unfold Parse.catch_hint.
  destruct Hf0 as [fuel ->].
  destruct tvs as [|[tk2 v2] tvs].
  - (* the last element *)
    cbn [map] in Ht.
    rewrite (value_token text runDsf tk pre NL (lit "]") fuel v Ht Hw eq_refl Hv).
    rewrite <- length_app.
    destruct (after_member_last (pre ++ tk)) as [cAt Ha];
      [rewrite <- app_assoc; exact Ht|].
    unfold Parse.bind at 1. rewrite Ha.
    unfold Parse.bind at 1. unfold Parse.get at 1.
    assert (Hb : ch (cur text (List.length ((pre ++ tk) ++ nl))) = Some (chr "]")).
    { apply (ch_cur_here text ((pre ++ tk) ++ nl) (chr "]") []).
      rewrite Ht, <- !app_assoc. reflexivity. }
    unfold ch_is. rewrite Hb. change (isc "]" (chr "]")) with true. cbv iota.
    unfold Parse.bind, Parse.step, Parse.ret. rewrite next_cur.
    unfold Parse.array_value. cbn [map snd]. f_equal. f_equal. f_equal.
    rewrite Ht, !length_app. simpl. lia.
  - (* an element that others follow *)
    set (l := (tk2, v2) :: tvs) in *.
    assert (El : match map fst l with
                 | [] => nl ++ lit "]"
                 | _ => lit "," ++ nl ++ lit "  " ++ array_rest (map fst l)
                 end = lit "," ++ nl ++ lit "  " ++ array_rest (map fst l))
      by reflexivity.
    rewrite El in Ht.
    rewrite (value_token text runDsf tk pre (chr ",")
               (nl ++ lit "  " ++ array_rest (map fst l)) fuel v Ht Hw eq_refl Hv).
    rewrite <- length_app.
    pose proof (Forall_inv Hall') as [Hw2 _]. cbn [fst] in Hw2.
    destruct (token_head tk2
                (match map fst tvs with
                 | [] => nl ++ lit "]"
                 | _ => lit "," ++ nl ++ lit "  " ++ array_rest (map fst tvs)
                 end) Hw2)
      as (c2 & r2 & Hk2 & Hb2 & Hh2 & Hs2 & Hbr2 & _).
    assert (Er : array_rest (map fst l) = c2 :: r2).
    { unfold l. cbn [map fst]. rewrite array_rest_cons. exact Hk2. }
    destruct (after_member_comma (pre ++ tk) (array_rest (map fst l))) as [cAt Ha].
    { rewrite <- app_assoc. exact Ht. }
    { rewrite Er. auto. }
    unfold Parse.bind at 1. rewrite Ha.
    unfold Parse.bind at 1. unfold Parse.get at 1.
    set (pre2 := (pre ++ tk) ++ lit "," ++ nl ++ lit "  ").
    assert (Ht2 : text = pre2 ++ array_rest (map fst l)).
    { unfold pre2. rewrite Ht, <- !app_assoc. reflexivity. }
    assert (Hc2 : ch (cur text (List.length pre2)) = Some c2).
    { apply (ch_cur_here text pre2 c2 r2). rewrite Ht2, Er. reflexivity. }
    unfold ch_is. rewrite Hc2, Hbr2.
    unfold Parse.bind at 1. unfold Parse.white at 1. unfold Parse.step at 1.
    rewrite (white_run text pre2 [] (array_rest (map fst l)) Ht2 (Forall_nil _))
      by (rewrite Er; auto).
    rewrite Nat.add_0_r.
    rewrite (IH (acc ++ [v]) pre2 (S fuel)).
    + cbn [map snd]. rewrite <- app_assoc. reflexivity.
    + unfold l. discriminate.
    + exact Hall'.
    + exact Ht2.
    + simpl in Hf. simpl. lia.
Qed.
End ArrayText.

Lemma array_rest_length tokens : (List.length tokens <= List.length (array_rest tokens))%nat.
Proof.
  induction tokens as [|t l IH]; [simpl; lia|].
  rewrite array_rest_cons. destruct l as [|t2 l].
  - rewrite !length_app. simpl. lia.
  - rewrite !length_app. simpl in *. lia.
Qed.

Lemma parse_array_text tvs :
  tvs <> [] ->
  Forall reads_as tvs ->
  Parse.parse (lit "[" ++ nl ++ lit "  " ++ array_rest (map fst tvs)) None
  = Ok (VArray None (map snd tvs)).
Proof.
  intros Hne Hall.
  set (text := lit "[" ++ nl ++ lit "  " ++ array_rest (map fst tvs)).
  assert (Ht : text = (lit "[" ++ nl ++ lit "  ") ++ array_rest (map fst tvs))
    by reflexivity.
  destruct tvs as [|[tk v] tvs]; [congruence|].
  pose proof (Forall_inv Hall) as [Hw _]. cbn [fst] in Hw.
  destruct (token_head tk
              (match map fst tvs with
               | [] => nl ++ lit "]"
               | _ => lit "," ++ nl ++ lit "  " ++ array_rest (map fst tvs)
               end) Hw)
    as (c & r & Hk & Hb & Hh & Hs & Hbr & _).
  assert (Er : array_rest (map fst ((tk, v) :: tvs)) = c :: r).
  { cbn [map fst]. rewrite array_rest_cons. exact Hk. }
  set (l := (tk, v) :: tvs) in *.
  unfold Parse.parse. cbv beta iota delta [rbind Dsf.loadDsf].
  unfold Parse.legacyRootValue.
  unfold Parse.bind at 1. unfold Parse.white at 1. unfold Parse.step at 1.
  unfold Parse.bind at 1. unfold Parse.get at 1.
  rewrite (white_from_reset text (chr "[") (nl ++ lit "  " ++ array_rest (map fst l)))
    by reflexivity.
  change (ch_is "{" (cur text 0)) with false.
  change (ch_is "[" (cur text 0)) with true. cbv iota.
  unfold Parse.bind at 1.
  destruct (pfuel_two text) as [f Hf]. 
  assert (Hlen : (List.length l < S f)%nat).
  { pose proof (array_rest_length (map fst l)) as Hl. rewrite length_map in Hl.
    unfold Parse.pfuel in Hf. rewrite Ht, length_app in Hf.
    unfold jstr, char in *. lia. }
  remember (S f) as g eqn:Eg. rewrite Hf. cbn [Parse.array_].
  fold (Parse.value_ text false (Dsf.runDsf_parse [])).
  fold (Parse.array_ text false (Dsf.runDsf_parse [])).
  fold (Parse.array_loop text false (Dsf.runDsf_parse [])).
  fold (Parse.object_ text false (Dsf.runDsf_parse [])).
  fold (Parse.object_loop text false (Dsf.runDsf_parse [])).
  unfold Parse.bind at 1. unfold Parse.step at 1. rewrite next_cur.
  unfold Parse.bind at 1. unfold Parse.get at 1.
  unfold Parse.bind at 1. unfold Parse.white at 1. unfold Parse.step at 1.
  change 1%nat with (List.length (lit "[")).
  rewrite (white_run text (lit "[") (nl ++ lit "  ") (array_rest (map fst l)))
    by (try reflexivity; try (repeat constructor); rewrite Er; auto).
  unfold Parse.bind at 1. unfold Parse.get at 1.
  rewrite <- length_app.
  assert (Hc : ch (cur text (List.length (lit "[" ++ nl ++ lit "  "))) = Some c).
  { apply (ch_cur_here text (lit "[" ++ nl ++ lit "  ") c r). rewrite Ht, Er. reflexivity. }
  unfold ch_is at 1. rewrite Hc, Hbr.
  rewrite (array_loop_reads text (Dsf.runDsf_parse []) l [] (lit "[" ++ nl ++ lit "  ")
             g Hne Hall Ht Hlen).
  cbn [app].
  unfold Parse.checkTrailing.
  unfold Parse.bind, Parse.get, Parse.white, Parse.step, Parse.ret.
  assert (He : ch (cur text (List.length text)) = None) by (apply ch_cur_end; reflexivity).
  rewrite (white_st_eof text _ He), He. reflexivity.
Qed.

Lemma visit_atom v level :
  atom v ->
  Stringify.visit Stringify.plainToken nl (lit "  ") false false false false 0 1
    false [] v [] level false false
  = Ok (atom_token v).
Proof.
  destruct v as [| |b|x|s| |cm items|cm props]; cbn [atom]; intros H;
    try contradiction; cbn [Stringify.visit Dsf.runDsf_stringify rbind];
    unfold Stringify.wrap; cbn [Stringify.plainToken Stringify.t_lit Stringify.t_num fst snd app atom_token].
  - reflexivity.
  - destruct b; reflexivity.
  - destruct H as [H _]. destruct x as [neg m e| |]; try contradiction.
    cbn [isFinite]. now rewrite app_nil_r.
Qed.

Lemma array_items_atoms : forall l i result,
  Forall atom l ->
  Stringify.array_items Stringify.plainToken nl
    (Stringify.visit Stringify.plainToken nl (lit "  ") false false false false 0 1
       false [])
    None [] 0 (lit "  ") l i result
  = Ok (result ++ array_lines l).
Proof.
  induction l as [|x l IH]; intros i result H.
  - cbn [Stringify.array_items array_lines]. now rewrite app_nil_r.
  - cbn [Stringify.array_items array_lines Stringify.array_comment rbind].
    cbn [Stringify.has_comment Stringify.comment_before Stringify.comment_after].
    rewrite (visit_atom x (0 + 1) (Forall_inv H)). cbn [rbind].
    rewrite (IH (S i) _ (Forall_inv_tail H)). f_equal.
    rewrite !app_nil_r.
    assert (Ec : match l with [] => [] | _ :: _ => fst (Stringify.t_com Stringify.plainToken) end
                 = match l with [] => [] | _ :: _ => lit "," end)
      by (destruct l; reflexivity).
    rewrite Ec, <- !app_assoc. reflexivity.
Qed.

Lemma array_lines_rest : forall l,
  l <> [] ->
  array_lines l ++ lit "]" = lit "  " ++ array_rest (map atom_token l).
Proof.
  induction l as [|x l IH]; intros Hne; [congruence|].
  cbn [array_lines map]. rewrite array_rest_cons.
  destruct l as [|y l].
  - cbn [array_lines map]. rewrite <- !app_assoc. reflexivity.
  - rewrite <- !app_assoc. do 4 f_equal.
    rewrite IH by discriminate. reflexivity.
Qed.

Lemma stringify_atoms items :
  items <> [] -> Forall atom items ->
  Stringify.stringify nl (VArray None items) None
  = Ok (lit "[" ++ nl ++ lit "  " ++ array_rest (map atom_token items)).
Proof.
  intros Hne H. unfold Stringify.stringify.
  cbn [Stringify.opt_flag Stringify.opt_get Dsf.loadDsf rbind Stringify.visit
       Dsf.runDsf_stringify getComment Stringify.opt_quoteStrings
       Stringify.opt_quoteKeys Stringify.opt_quotes Stringify.opt_multiline
       Stringify.opt_indent].
  unfold Stringify.visit_array. destruct items as [|x l] eqn:E; [congruence|].
  rewrite <- E in *. cbn [Z.ltb Z.compare andb rbind].
  change (Stringify.opt_quoteStrings None) with false.
  change (Stringify.opt_multiline None) with 1%nat.
  change (repeat_str (lit "  ") (0 + 1)) with (lit "  ").
  rewrite (array_items_atoms items 0 _ H).
  cbn [rbind Stringify.end_comment repeat_str Stringify.plainToken Stringify.t_arr
       fst snd].
  f_equal. cbn [app]. rewrite app_nil_r, <- app_assoc.
  rewrite (array_lines_rest items Hne). reflexivity.
Qed.

Lemma atom_reads v : atom v -> reads_as (atom_token v, v).
Proof.
  destruct v as [| |b|x|s| |cm items|cm props]; cbn [atom]; intros H;
    try contradiction; unfold reads_as; cbn [fst snd atom_token].
  - split; reflexivity.
  - destruct b; split; reflexivity.
  - destruct H as [H Hrep].
    destruct (number_to_string_spells x H) as (neg & ip & frac & expo & Ht & Hsp).
    pose proof (lexeme_read neg ip frac expo false x Hsp Hrep (normal_wf x H)) as Hr.
    destruct Hsp as (Hok & Hne & _).
    destruct (lexeme_head neg ip frac expo Hok Hne) as (c & r & Hc & Hd).
    rewrite Ht. split.
    + apply number_chars_bare; [rewrite Hc; discriminate|].
      apply lexeme_number_chars. exact Hok.
    + unfold Parse.tfnns_literal. rewrite Hc at 1. rewrite Hr.
      assert (Hf : isc "f" c = false /\ isc "n" c = false /\ isc "t" c = false
                   /\ isc "-" c || is_digit c = true).
      { destruct Hd as [Hd | ->]; [|repeat split; reflexivity].
        apply digit_cases in Hd.
        repeat (destruct Hd as [Hd|Hd]; [subst c; repeat split; reflexivity|]).
        subst c; repeat split; reflexivity. }
      destruct Hf as (-> & -> & -> & ->). reflexivity.
Qed.



(** ** Reading an object of keywords, numbers and plain strings *)

Section Lines.
Variable text : jstr.
Variable runDsf : jstr -> value.

Lemma tfnns_loop_line : forall tk pre c val rest fuel,
  text = (pre ++ [c]) ++ tk ++ NL :: rest ->
  forallb plain_char tk = true ->
  (List.length tk < fuel)%nat ->
  Parse.tfnns_loop text runDsf fuel val (cur text (List.length pre))
  = Ok (resolve_token runDsf (val ++ tk),
        cur text (List.length (pre ++ [c]) + List.length tk)).
Proof.
  induction tk as [|x tk IH]; intros pre c val rest fuel Ht Hp Hf.
  - destruct fuel as [|fuel]; [simpl in Hf; lia|].
    cbn [Parse.tfnns_loop]. unfold Parse.bind, Parse.step, Parse.get.
    rewrite next_cur.
    replace (S (List.length pre)) with (List.length (pre ++ [c]))
      by (rewrite length_app; simpl; lia).
    cbn [List.length]. rewrite Nat.add_0_r.
    assert (Hch : ch (cur text (List.length (pre ++ [c]))) = Some NL)
      by (apply (ch_cur_here text (pre ++ [c]) NL rest Ht)).
    assert (Heol : Parse.is_eol (cur text (List.length (pre ++ [c]))) = true).
    { unfold Parse.is_eol. rewrite Hch. reflexivity. }
    assert (Hstop : Parse.is_tfnns_stop text (cur text (List.length (pre ++ [c]))) = true).
    { unfold Parse.is_tfnns_stop. rewrite Heol. reflexivity. }
    rewrite Hstop, Heol, app_nil_r. unfold resolve_token.
    destruct (Parse.tfnns_literal val); [reflexivity|].
    destruct (runDsf (trim val)); reflexivity.
  - destruct fuel as [|fuel]; [simpl in Hf; lia|].
    cbn [Parse.tfnns_loop]. unfold Parse.bind at 1. unfold Parse.step at 1.
    unfold Parse.bind at 1. unfold Parse.get at 1.
    rewrite next_cur.
    replace (S (List.length pre)) with (List.length (pre ++ [c]))
      by (rewrite length_app; simpl; lia).
    assert (Hch : ch (cur text (List.length (pre ++ [c]))) = Some x)
      by (apply (ch_cur_here text (pre ++ [c]) x (tk ++ NL :: rest) Ht)).
    cbn [forallb] in Hp. apply andb_true_iff in Hp. destruct Hp as [Hx Hp].
    assert (Hstop : Parse.is_tfnns_stop text (cur text (List.length (pre ++ [c])))
                    = false).
    { unfold Parse.is_tfnns_stop, Parse.is_eol, ch_is. rewrite Hch.
      unfold plain_char in Hx. apply negb_true_iff in Hx.
      repeat (apply orb_false_iff in Hx; destruct Hx as [Hx ?]).
      rewrite Hx, H, H0, H1, H2, H3, H4. reflexivity. }
    rewrite Hstop. unfold Parse.ch_str. rewrite Hch.
    rewrite (IH (pre ++ [c]) x (val ++ [x]) rest fuel).
    + rewrite <- app_assoc. f_equal. f_equal. f_equal. rewrite !length_app. simpl. lia.
    + rewrite Ht, <- !app_assoc. reflexivity.
    + exact Hp.
    + simpl in Hf. lia.
Qed.

(** [value()] on a token that runs to the end of its line, after blanks. *)
Lemma value_line bl c r pre rest fuel :
  text = pre ++ bl ++ (c :: r) ++ NL :: rest ->
  Forall (fun c => (c <=? 32)%N = true) bl ->
  (c <=? 32)%N = false -> plain_char c = true ->
  Parse.isPunctuatorChar c = false -> is_dq c = false -> isc "'" c = false ->
  forallb plain_char r = true ->
  Parse.value_ text false runDsf (S fuel) (cur text (List.length pre))
  = Ok (resolve_token runDsf (c :: r),
        cur text (List.length pre + List.length bl + List.length (c :: r))).
Proof.
  intros Ht Hbl Hb Hp Hpu Hq1 Hq2 Hpr.
  assert (Hpc : isc "#" c = false /\ isc "/" c = false).
  { unfold plain_char in Hp. apply negb_true_iff in Hp.
    repeat (apply orb_false_iff in Hp; destruct Hp as [Hp ?]). auto. }
  assert (Hwh : Parse.white_st text (cur text (List.length pre))
                = cur text (List.length pre + List.length bl)).
  { apply (white_run text pre bl ((c :: r) ++ NL :: rest) Ht Hbl).
    cbn [app]. split; [exact Hb|exact Hpc]. }
  assert (Hch : ch (cur text (List.length pre + List.length bl)) = Some c).
  { rewrite <- length_app.
    apply (ch_cur_here text (pre ++ bl) c (r ++ NL :: rest)).
    rewrite Ht, <- app_assoc. reflexivity. }
  assert (Hbr : isc "{" c = false /\ isc "[" c = false).
  { unfold Parse.isPunctuatorChar in Hpu.
    repeat (apply orb_false_iff in Hpu; destruct Hpu as [Hpu ?]). auto. }
  cbn [Parse.value_].
  unfold Parse.bind at 1. unfold Parse.white at 1. unfold Parse.step at 1.
  rewrite Hwh. unfold Parse.bind at 1. unfold Parse.get at 1.
  unfold ch_is, ch_dq. rewrite Hch.
  destruct Hbr as [-> ->]. rewrite Hq1, Hq2. cbn [orb]. cbv iota.
  unfold Parse.tfnns. unfold Parse.bind at 1. unfold Parse.get at 1.
  rewrite Hch, Hpu. unfold Parse.ch_str. rewrite Hch.
  rewrite <- length_app.
  rewrite (tfnns_loop_line r (pre ++ bl) c [c] rest (lfuel text)).
  - f_equal. f_equal. f_equal. rewrite !length_app. simpl. lia.
  - rewrite Ht. cbn [app]. rewrite <- !app_assoc. reflexivity.
  - exact Hpr.
  - unfold lfuel. rewrite Ht, !length_app. simpl. unfold jstr, char in *. lia.
Qed.
End Lines.

Lemma simple_token_head v :
  simple v ->
  exists c r, simple_token v = c :: r
              /\ (c <=? 32)%N = false /\ plain_char c = true
              /\ Parse.isPunctuatorChar c = false
              /\ is_dq c = false /\ isc "'" c = false
              /\ forallb plain_char r = true.
Proof.
  intros H.
  assert (Hcase : (exists s, v = VString s /\ plain_text s) \/ atom v).
  { destruct v; cbn [simple] in H; eauto. }
  destruct Hcase as [[s [-> (Hne & Hq & _ & _ & Hp)]]|Ha].
  - cbn [simple_token]. destruct s as [|c r]; [congruence|].
    exists c, r. split; [reflexivity|].
    cbn [forallb] in Hp. apply andb_true_iff in Hp. destruct Hp as [Hc Hr].
    unfold Stringify.needsQuotes in Hq.
    apply orb_false_iff in Hq. destruct Hq as [Hq Hctl].
    apply orb_false_iff in Hq. destruct Hq as [Hq _].
    cbn [existsb] in Hctl. apply orb_false_iff in Hctl. destruct Hctl as [Hctl _].
    apply orb_false_iff in Hctl. destruct Hctl as [Hctl _].
    destruct (is_ws c) eqn:Ews; [discriminate Hq|].
    destruct (is_dq c) eqn:Edq; [discriminate Hq|].
    destruct (isc "'" c) eqn:Esq; [discriminate Hq|].
    destruct (isc "#" c) eqn:Eh; [discriminate Hq|].
    cbn [orb] in Hq.
    apply orb_false_iff in Hq. destruct Hq as [Hq P6].
    apply orb_false_iff in Hq. destruct Hq as [Hq P5].
    apply orb_false_iff in Hq. destruct Hq as [Hq P4].
    apply orb_false_iff in Hq. destruct Hq as [Hq P3].
    apply orb_false_iff in Hq. destruct Hq as [Hq P2].
    apply orb_false_iff in Hq. destruct Hq as [_ P1].
    assert (Hb : (c <=? 32)%N = false).
    { apply N.leb_gt. destruct (N.lt_ge_cases 32 c) as [Hlt|Hge]; [exact Hlt|exfalso].
      destruct (N.eq_dec c 32) as [->|Hn]; [discriminate Ews|].
      assert (Hin : Stringify.in_range 0 31 c = true) by (apply in_range_spec; lia).
      congruence. }
    repeat split; auto.
    unfold Parse.isPunctuatorChar. rewrite P1, P2, P3, P4, P5, P6. reflexivity.
  - assert (Hs : simple_token v = atom_token v) by (destruct v; try reflexivity; contradiction).
    rewrite Hs. destruct (atom_reads v Ha) as [Hw _]. cbn [fst] in Hw.
    destruct (bare_word_inv _ Hw) as (c & r & Hk & Hq1 & Hq2 & Hb & Hp & Hpu & Hn & Hpr).
    exists c, r. repeat split; auto. apply N.leb_gt. now apply N.ltb_lt.
Qed.

Lemma written_key_head k :
  plain_key k ->
  exists c r, written_key k = c :: r
              /\ (c <=? 32)%N = false /\ isc "#" c = false /\ isc "/" c = false
              /\ isc "}" c = false /\ isc "," c = false.
Proof.
  intros (Hu & Hw & _).
  assert (Hcase : written_key k = k
                  \/ written_key k = dq ++ Stringify.json_quote k ++ dq).
  { unfold written_key, Stringify.quoteKey, Stringify.wrap.
    cbn [Stringify.plainToken Stringify.t_qkey Stringify.t_key fst snd app].
    rewrite app_nil_r.
    destruct (jeqb k (lit "null") && negb false); [now left|].
    destruct (false || negb (Stringify.isSafeString k)); [now right|now left]. }
  destruct Hcase as [-> | ->].
  - destruct (bare_word_inv _ Hw) as (c & r & Hk & Hq1 & Hq2 & Hb & Hp & Hpu & Hn & Hpr).
    exists c, r. split; [exact Hk|].
    unfold plain_char in Hp. apply negb_true_iff in Hp.
    repeat (apply orb_false_iff in Hp; destruct Hp as [Hp ?]).
    repeat split; auto. apply N.leb_gt. now apply N.ltb_lt.
  - exists DQ, (Stringify.json_quote k ++ dq). repeat split; reflexivity.
Qed.

Lemma plain_key_no_space k : plain_key k -> existsb (isc " ") k = false.
Proof.
  intros (_ & Hw & _).
  destruct (bare_word_inv _ Hw) as (c & r & Hk & _ & _ & _ & _ & _ & Hn & _).
  clear Hk Hw. induction k as [|x k IH]; [reflexivity|].
  cbn [forallb existsb] in *. apply andb_true_iff in Hn. destruct Hn as [Hx Hn].
  rewrite (IH Hn), orb_false_r.
  unfold name_char in Hx.
  apply andb_true_iff in Hx. destruct Hx as [Hx _].
  apply andb_true_iff in Hx. destruct Hx as [_ Hx].
  apply N.ltb_lt in Hx. unfold isc. apply N.eqb_neq. intros ->. cbv in Hx. discriminate Hx.
Qed.

Lemma simple_resolve v :
  simple v -> resolve_token (Dsf.runDsf_parse []) (simple_token v) = v.
Proof.
  intros H.
  assert (Hcase : (exists s, v = VString s /\ plain_text s) \/ atom v).
  { destruct v; cbn [simple] in H; eauto. }
  destruct Hcase as [[s [-> (Hne & Hq & Hn & Hk & Hp)]]|Ha].
  - cbn [simple_token]. unfold resolve_token.
    pose proof (needsQuotes_trim s Hq) as Ht.
    rewrite tryParseNumber_stop_eq in Hn.
    rewrite (plain_word_literal s Ht Hk Hn), Ht. reflexivity.
  - assert (Hs : simple_token v = atom_token v) by (destruct v; try reflexivity; contradiction).
    rewrite Hs. destruct (atom_reads v Ha) as [_ Hl]. cbn [fst snd] in Hl.
    unfold resolve_token. now rewrite Hl.
Qed.

Lemma object_rest_cons k v l :
  object_rest ((k, v) :: l)
  = written_key k ++ lit ":" ++ lit " " ++ simple_token v ++ nl
    ++ (match l with [] => [] | _ => lit "  " end) ++ object_rest l.
Proof. reflexivity. Qed.

(** The head of what follows a member: the next key, or the closing
    brace. *)
Lemma object_rest_head l :
  Forall (fun m => plain_key (fst m) /\ simple (snd m)) l ->
  exists c r, object_rest l = c :: r
              /\ (c <=? 32)%N = false /\ isc "#" c = false /\ isc "/" c = false
              /\ isc "," c = false
              /\ isc "}" c = match l with [] => true | _ => false end.
Proof.
  intros H. destruct l as [|[k v] l].
  - exists (chr "}"), []. repeat split; reflexivity.
  - pose proof (Forall_inv H) as [Hk _]. cbn [fst] in Hk.
    destruct (written_key_head k Hk) as (c & r & Hw & H1 & H2 & H3 & H4 & H5).
    rewrite object_rest_cons, Hw. cbn [app]. eexists. eexists.
    split; [reflexivity|]. repeat split; auto.
Qed.

Section ObjectText.
Variable text : jstr.

Local Abbreviation R := (Dsf.runDsf_parse []).

(** A member, from its key to the end of its line. *)
Lemma member_reads k v pre rest fuel props :
  text = pre ++ written_key k ++ lit ":" ++ lit " " ++ simple_token v ++ NL :: rest ->
  plain_key k -> simple v ->
  Parse.catch_hint (VObject None props)
    (Parse.bind (Parse.keyname text)
       (fun key =>
          Parse.bind (Parse.white text)
            (fun _ =>
               Parse.bind Parse.get
                 (fun st =>
                    Parse.bind
                      (if ch_is ":" st then Parse.ret tt
                       else Parse.error text unit
                              (lit "Expected ':' instead of '" ++ Parse.ch_str st ++ lit "'"))
                      (fun _ =>
                         Parse.bind (Parse.step (next text))
                           (fun _ =>
                              Parse.bind (Parse.value_ text false R (S fuel))
                                (fun v => Parse.ret (key, v))))))))
    (cur text (List.length pre))
  = Ok ((k, v),
        cur text (List.length (pre ++ written_key k ++ lit ":" ++ lit " "
                               ++ simple_token v))).
Proof.
  intros Ht Hk Hv.
  pose proof (keyname_written k false pre (lit " " ++ simple_token v ++ NL :: rest)
                (proj1 Hk) (or_intror (or_intror (plain_key_no_space k Hk)))) as Hkey.
  cbv zeta in Hkey. fold (written_key k) in Hkey. rewrite <- Ht in Hkey.
  destruct (simple_token_head v Hv) as (c & r & Htk & Hb & Hp & Hpu & Hq1 & Hq2 & Hpr).
  unfold Parse.catch_hint.
  unfold Parse.bind at 1. rewrite Hkey.
  unfold Parse.bind at 1. unfold Parse.white at 1. unfold Parse.step at 1.
  rewrite <- length_app.
  assert (Ht1 : text = (pre ++ written_key k) ++ [] ++ lit ":" ++ lit " "
                       ++ simple_token v ++ NL :: rest).
  { rewrite Ht, <- !app_assoc. reflexivity. }
  rewrite (white_run text (pre ++ written_key k) [] _ Ht1 (Forall_nil _))
    by (repeat split; reflexivity).
  rewrite Nat.add_0_r.
  unfold Parse.bind at 1. unfold Parse.get at 1.
  assert (Hch : ch (cur text (List.length (pre ++ written_key k))) = Some (chr ":")).
  { apply (ch_cur_here text (pre ++ written_key k) (chr ":")
             (lit " " ++ simple_token v ++ NL :: rest)).
    rewrite Ht, <- !app_assoc. reflexivity. }
  unfold ch_is at 1. rewrite Hch. change (isc ":" (chr ":")) with true. cbv iota.
  unfold Parse.bind at 1. unfold Parse.ret at 1.
  unfold Parse.bind at 1. unfold Parse.step at 1. rewrite next_cur.
  replace (S (List.length (pre ++ written_key k)))
    with (List.length (pre ++ written_key k ++ lit ":"))
    by (rewrite !length_app; simpl; lia).
  unfold Parse.bind at 1.
  rewrite (value_line text R (lit " ") c r (pre ++ written_key k ++ lit ":") rest fuel);
    auto.
  - unfold Parse.ret. rewrite <- Htk, (simple_resolve v Hv).
    f_equal. f_equal. f_equal. rewrite !length_app. simpl. lia.
  - rewrite Ht, Htk, <- !app_assoc. reflexivity.
  - repeat constructor.
Qed.
End ObjectText.

Section ObjectLoop.
Variable text : jstr.

Local Abbreviation R := (Dsf.runDsf_parse []).

Lemma after_member_line pre bl c r :
  text = pre ++ nl ++ bl ++ c :: r ->
  Forall (fun c => (c <=? 32)%N = true) bl ->
  (c <=? 32)%N = false -> isc "#" c = false -> isc "/" c = false ->
  isc "," c = false ->
  exists cAt,
    Parse.after_member text (cur text (List.length pre))
    = Ok (cAt, cur text (List.length (pre ++ nl ++ bl))).
Proof.
  intros Ht Hbl Hb Hh Hs Hc.
  assert (H1 : Parse.white_st text (cur text (List.length pre))
               = cur text (List.length pre + List.length (nl ++ bl))).
  { apply (white_run text pre (nl ++ bl) (c :: r)).
    - rewrite Ht, <- !app_assoc. reflexivity.
    - constructor; [reflexivity|exact Hbl].
    - auto. }
  assert (Hch : ch (cur text (List.length pre + List.length (nl ++ bl))) = Some c).
  { rewrite <- length_app. apply (ch_cur_here text (pre ++ nl ++ bl) c r).
    rewrite Ht, <- !app_assoc. reflexivity. }
  unfold Parse.after_member.
  unfold Parse.bind at 1. unfold Parse.get at 1.
  unfold Parse.bind at 1. unfold Parse.white at 1. unfold Parse.step at 1.
  rewrite H1.
  unfold Parse.bind at 1. unfold Parse.get at 1.
  unfold ch_is at 1. rewrite Hch, Hc.
  unfold Parse.ret. eexists. f_equal. f_equal. f_equal.
  rewrite !length_app. reflexivity.
Qed.

Lemma object_loop_reads : forall ms props pre fuel,
  ms <> [] ->
  Forall (fun m => plain_key (fst m) /\ simple (snd m)) ms ->
  text = pre ++ object_rest ms ->
  (List.length ms < fuel)%nat ->
  Parse.object_loop text false R fuel false props [] [] None
    (cur text (List.length pre))
  = Ok (VObject None (fold_left (fun l m => obj_set (fst m) (snd m) l) ms props),
        cur text (List.length text)).
Proof.
  induction ms as [|[k v] ms IH]; intros props pre fuel Hne Hall Ht Hf; [congruence|].
  pose proof (Forall_inv Hall) as [Hk Hv]. cbn [fst snd] in Hk, Hv.
  pose proof (Forall_inv_tail Hall) as Hall'.
  destruct fuel as [|fuel0]; [simpl in Hf; lia|].
  assert (Hf0 : exists fuel, fuel0 = S fuel)
    by (destruct fuel0; [simpl in Hf; lia|eauto]).
  rewrite object_rest_cons in Ht.
  destruct (written_key_head k Hk) as (c & r & Hw & _).
  assert (Hch : ch (cur text (List.length pre)) = Some c).
  { apply (ch_cur_here text pre c
             (r ++ lit ":" ++ lit " " ++ simple_token v ++ nl
              ++ (match ms with [] => [] | _ => lit "  " end) ++ object_rest ms)).
    rewrite Ht, Hw. reflexivity. }
  destruct (object_rest_head ms Hall') as (c2 & r2 & Er & Hb2 & Hh2 & Hs2 & Hc2 & Hbr2).
  set (bl := match ms with [] => [] | _ => lit "  " end : jstr) in *.
  assert (Hbl : Forall (fun c => (c <=? 32)%N = true) bl)
    by (unfold bl; destruct ms; repeat constructor).
  set (pre1 := pre ++ written_key k ++ lit ":" ++ lit " " ++ simple_token v).
  assert (Ht1 : text = pre1 ++ nl ++ bl ++ c2 :: r2).
  { unfold pre1. rewrite Ht, Er, <- !app_assoc. reflexivity. }
  cbn [Parse.object_loop].
  fold (Parse.value_ text false R).
  fold (Parse.array_ text false R).
  fold (Parse.array_loop text false R).
  fold (Parse.object_ text false R).
  fold (Parse.object_loop text false R).
  unfold Parse.bind at 1. unfold Parse.get at 1. rewrite Hch.
  destruct Hf0 as [fuel ->].
  unfold Parse.bind at 1.
  rewrite (member_reads text k v pre
             (bl ++ object_rest ms) fuel props Ht Hk Hv).
  fold pre1. cbn [fst snd].
  destruct (after_member_line pre1 bl c2 r2 Ht1 Hbl Hb2 Hh2 Hs2 Hc2) as [cAt Ha].
  unfold Parse.bind at 1. rewrite Ha.
  unfold Parse.bind at 1. unfold Parse.get at 1.
  set (pre2 := pre1 ++ nl ++ bl).
  assert (Ht2 : text = pre2 ++ object_rest ms).
  { unfold pre2. rewrite Ht1, Er, <- !app_assoc. reflexivity. }
  assert (Hc : ch (cur text (List.length pre2)) = Some c2).
  { apply (ch_cur_here text pre2 c2 r2). rewrite Ht2, Er. reflexivity. }
  unfold ch_is at 1. rewrite Hc, Hbr2.
  destruct ms as [|m ms].
  - (* the last member *)
    cbn [andb negb]. cbv iota.
    unfold Parse.bind, Parse.step, Parse.ret. rewrite next_cur.
    unfold Parse.object_value. cbn [fold_left fst snd]. f_equal. f_equal. f_equal.
    rewrite Ht2. cbn [object_rest]. rewrite length_app. simpl. lia.
  - cbn [andb]. cbv iota.
    unfold Parse.bind at 1. unfold Parse.white at 1. unfold Parse.step at 1.
    assert (Ht3 : text = pre2 ++ [] ++ object_rest (m :: ms)) by exact Ht2.
    rewrite (white_run text pre2 [] (object_rest (m :: ms)) Ht3 (Forall_nil _))
      by (rewrite Er; auto).
    rewrite Nat.add_0_r.
    rewrite (IH (obj_set k v props) pre2 (S fuel)).
    + reflexivity.
    + discriminate.
    + exact Hall'.
    + exact Ht2.
    + simpl in Hf. simpl. lia.
Qed.
End ObjectLoop.

Lemma object_rest_length ms : (List.length ms <= List.length (object_rest ms))%nat.
Proof.
  induction ms as [|[k v] l IH]; [simpl; lia|].
  rewrite object_rest_cons, !length_app. simpl in *. lia.
Qed.

Lemma parse_object_text ms :
  ms <> [] ->
  Forall (fun m => plain_key (fst m) /\ simple (snd m)) ms ->
  Parse.parse (lit "{" ++ nl ++ lit "  " ++ object_rest ms) None
  = Ok (VObject None (fold_left (fun l m => obj_set (fst m) (snd m) l) ms [])).
Proof.
  intros Hne Hall.
  set (text := lit "{" ++ nl ++ lit "  " ++ object_rest ms).
  assert (Ht : text = (lit "{" ++ nl ++ lit "  ") ++ object_rest ms) by reflexivity.
  destruct (object_rest_head ms Hall) as (c & r & Er & Hb & Hh & Hs & Hc & Hbr).
  assert (Hbr' : isc "}" c = false) by (destruct ms; [congruence|exact Hbr]).
  unfold Parse.parse. cbv beta iota delta [rbind Dsf.loadDsf].
  unfold Parse.legacyRootValue.
  unfold Parse.bind at 1. unfold Parse.white at 1. unfold Parse.step at 1.
  unfold Parse.bind at 1. unfold Parse.get at 1.
  rewrite (white_from_reset text (chr "{") (nl ++ lit "  " ++ object_rest ms))
    by reflexivity.
  change (ch_is "{" (cur text 0)) with true. cbv iota.
  unfold Parse.bind at 1.
  destruct (pfuel_two text) as [f Hf].
  assert (Hlen : (List.length ms < S f)%nat).
  { pose proof (object_rest_length ms) as Hl.
    unfold Parse.pfuel in Hf. rewrite Ht, length_app in Hf.
    unfold jstr, char in *. lia. }
  remember (S f) as g eqn:Eg. rewrite Hf. cbn [Parse.object_].
  fold (Parse.value_ text false (Dsf.runDsf_parse [])).
  fold (Parse.array_ text false (Dsf.runDsf_parse [])).
  fold (Parse.array_loop text false (Dsf.runDsf_parse [])).
  fold (Parse.object_ text false (Dsf.runDsf_parse [])).
  fold (Parse.object_loop text false (Dsf.runDsf_parse [])).
  unfold Parse.bind at 1. unfold Parse.step at 1. rewrite next_cur.
  unfold Parse.bind at 1. unfold Parse.get at 1.
  unfold Parse.bind at 1. unfold Parse.white at 1. unfold Parse.step at 1.
  change 1%nat with (List.length (lit "{")).
  rewrite (white_run text (lit "{") (nl ++ lit "  ") (object_rest ms))
    by (try reflexivity; try (repeat constructor); rewrite Er; auto).
  unfold Parse.bind at 1. unfold Parse.get at 1.
  rewrite <- length_app.
  assert (Hch : ch (cur text (List.length (lit "{" ++ nl ++ lit "  "))) = Some c).
  { apply (ch_cur_here text (lit "{" ++ nl ++ lit "  ") c r). rewrite Ht, Er. reflexivity. }
  unfold ch_is at 1. rewrite Hch, Hbr'. cbn [andb]. cbv iota.
  rewrite (object_loop_reads text ms [] (lit "{" ++ nl ++ lit "  ") g Hne Hall Ht Hlen).
  unfold Parse.checkTrailing.
  unfold Parse.bind, Parse.get, Parse.white, Parse.step, Parse.ret.
  assert (He : ch (cur text (List.length text)) = None) by (apply ch_cur_end; reflexivity).
  rewrite (white_st_eof text _ He), He. reflexivity.
Qed.

Lemma assoc_absent (V : Type) k (l : list (jstr * V)) :
  ~ In k (map fst l) -> assoc k l = None.
Proof.
  induction l as [|[k' v'] l IH]; intros Hn; [reflexivity|].
  cbn [assoc]. destruct (jeqb k k') eqn:E.
  - apply jeqb_eq in E. subst k'. exfalso. apply Hn. now left.
  - apply IH. intros Hin. apply Hn. now right.
Qed.

(** Members with distinct keys that are no array indices are set in their
    order. *)
Lemma obj_set_all : forall (ms acc : list (jstr * value)),
  NoDup (map fst (acc ++ ms)) ->
  Forall (fun m => index_of_key (fst m) = None) ms ->
  fold_left (fun l m => obj_set (fst m) (snd m) l) ms acc = acc ++ ms.
Proof.
  induction ms as [|[k v] ms IH]; intros acc Hnd Hi; [now rewrite app_nil_r|].
  cbn [fold_left fst snd].
  assert (Hk : ~ In k (map fst acc)).
  { rewrite map_app in Hnd. cbn [map fst] in Hnd.
    apply NoDup_remove_2 in Hnd. intros Hin. apply Hnd. apply in_or_app. now left. }
  assert (Es : obj_set k v acc = acc ++ [(k, v)]).
  { unfold obj_set, has_key. rewrite (assoc_absent _ k acc Hk).
    pose proof (Forall_inv Hi) as Hx. cbn [fst] in Hx. now rewrite Hx. }
  rewrite Es, IH.
  - now rewrite <- app_assoc.
  - now rewrite <- app_assoc.
  - exact (Forall_inv_tail Hi).
Qed.

Lemma indexOf_from_absent c : forall s i,
  existsb (N.eqb c) s = false -> indexOf_from c s i = (-1)%Z.
Proof.
  induction s as [|d s IH]; intros i H; [reflexivity|].
  cbn [existsb] in H. apply orb_false_iff in H. destruct H as [H1 H2].
  cbn [indexOf_from]. rewrite H1. now apply IH.
Qed.

Lemma plain_no_nl s : forallb plain_char s = true -> existsb (N.eqb NL) s = false.
Proof.
  induction s as [|c s IH]; [reflexivity|]. cbn [forallb existsb]. intros H.
  apply andb_true_iff in H. destruct H as [Hc Hs]. rewrite (IH Hs), orb_false_r.
  unfold plain_char in Hc. apply negb_true_iff in Hc.
  repeat (apply orb_false_iff in Hc; destruct Hc as [Hc ?]).
  unfold is_nl in H4. now rewrite N.eqb_sym.
Qed.

Lemma visit_simple v level :
  simple v ->
  Stringify.visit Stringify.plainToken nl (lit "  ") false false false false 0 1
    false [] v [] (S level) false false
  = Ok (simple_token v).
Proof.
  intros H.
  assert (Hcase : (exists s, v = VString s /\ plain_text s) \/ atom v).
  { destruct v; cbn [simple] in H; eauto. }
  destruct Hcase as [[s [-> (Hne & Hq & Hn & Hk & Hp)]]|Ha].
  - cbn [Stringify.visit Dsf.runDsf_stringify rbind simple_token].
    unfold indexOf. rewrite (indexOf_from_absent NL s 0 (plain_no_nl s Hp)).
    cbn [Nat.eqb negb andb Z.leb Z.compare]. cbv iota.
    unfold Stringify.quotelessString. rewrite Hq, Hn, Hk.
    change (truthy []) with false. cbn [orb]. cbv iota.
    unfold Stringify.wrap. cbn [Stringify.plainToken Stringify.t_str fst snd app].
    now rewrite app_nil_r.
  - assert (Hs : simple_token v = atom_token v) by (destruct v; try reflexivity; contradiction).
    rewrite Hs. now apply visit_atom.
Qed.

Lemma with_assoc_found (V R : Type) k (v : V) (found : V -> R) (missing : R) :
  forall done todo,
    ~ In k (map fst done) ->
    with_assoc k (done ++ (k, v) :: todo) found missing = found v.
Proof.
  induction done as [|[k' v'] done IH]; intros todo Hn.
  - cbn [app with_assoc]. unfold with_assoc.
    assert (E : jeqb k k = true).
    { clear. induction k as [|c k IH]; [reflexivity|]. cbn [jeqb]. now rewrite N.eqb_refl, IH. }
    now rewrite E.
  - cbn [app]. unfold with_assoc. destruct (jeqb k k') eqn:E.
    + apply jeqb_eq in E. subst k'. exfalso. apply Hn. now left.
    + apply IH. intros Hin. apply Hn. now right.
Qed.

Lemma object_members_lines props : 
  NoDup (map fst props) ->
  forall todo done result,
    props = done ++ todo ->
    Forall (fun m => plain_key (fst m) /\ simple (snd m)) todo ->
    Stringify.object_members Stringify.plainToken nl false
      (Stringify.visit Stringify.plainToken nl (lit "  ") false false false false 0 1
         false [])
      None [] 0 (lit "  ") props (map fst todo) result
    = Ok (result ++ object_lines todo).
Proof.
  intros Hnd. induction todo as [|[k v] todo IH]; intros done result Hp Hall.
  - cbn [map Stringify.object_members object_lines]. now rewrite app_nil_r.
  - pose proof (Forall_inv Hall) as [Hk Hv]. cbn [fst snd] in Hk, Hv.
    cbn [map fst Stringify.object_members].
    destruct Hk as (Hu & Hw & Hi & Hc & _). rewrite Hc.
    assert (Hn : ~ In k (map fst done)).
    { rewrite Hp, map_app in Hnd. cbn [map fst] in Hnd.
      apply NoDup_remove_2 in Hnd. intros Hin. apply Hnd. apply in_or_app. now left. }
    rewrite Hp at 1. rewrite (with_assoc_found _ _ k v _ _ done todo Hn).
    cbn [Stringify.has_comment Stringify.comment_before Stringify.comment_after].
    change (0 + 1)%nat with 1%nat.
    rewrite (visit_simple v 0 Hv). cbn [rbind].
    rewrite (IH (done ++ [(k, v)])).
    + f_equal. cbn [object_lines]. change (truthy []) with false. cbv iota.
      fold (written_key k).
      cbn [Stringify.plainToken Stringify.t_col fst snd].
      rewrite !app_nil_r, <- !app_assoc. reflexivity.
    + rewrite Hp, <- app_assoc. reflexivity.
    + exact (Forall_inv_tail Hall).
Qed.

Lemma object_lines_rest : forall ms,
  ms <> [] -> object_lines ms ++ lit "}" = lit "  " ++ object_rest ms.
Proof.
  induction ms as [|[k v] ms IH]; intros Hne; [congruence|].
  cbn [object_lines]. rewrite object_rest_cons.
  destruct ms as [|m ms].
  - cbn [object_lines object_rest]. rewrite <- !app_assoc. reflexivity.
  - rewrite <- !app_assoc. do 6 f_equal.
    rewrite IH by discriminate. reflexivity.
Qed.

Lemma stringify_simple_object ms :
  ms <> [] ->
  NoDup (map fst ms) ->
  Forall (fun m => plain_key (fst m) /\ simple (snd m)) ms ->
  Stringify.stringify nl (VObject None ms) None
  = Ok (lit "{" ++ nl ++ lit "  " ++ object_rest ms).
Proof.
  intros Hne Hnd H. unfold Stringify.stringify.
  cbn [Stringify.opt_flag Stringify.opt_get Dsf.loadDsf rbind Stringify.visit
       Dsf.runDsf_stringify getComment Stringify.opt_quoteStrings
       Stringify.opt_quoteKeys Stringify.opt_quotes Stringify.opt_multiline
       Stringify.opt_indent].
  unfold Stringify.visit_object. destruct ms as [|[k v] l] eqn:E; [congruence|].
  rewrite <- E in *. cbn [Z.ltb Z.compare andb rbind].
  change (Stringify.opt_quoteStrings None) with false.
  change (Stringify.opt_multiline None) with 1%nat.
  change (Stringify.opt_quoteKeys None) with false.
  change (repeat_str (lit "  ") (0 + 1)) with (lit "  ").
  rewrite (object_members_lines ms Hnd ms [] _ eq_refl H).
  cbn [rbind Stringify.end_comment repeat_str Stringify.plainToken Stringify.t_obj
       fst snd].
  f_equal. cbn [app]. rewrite app_nil_r, <- app_assoc.
  rewrite (object_lines_rest ms Hne). reflexivity.
Qed.



(** ** The loops of the parser end *)

(** X21. On every text and with every option [parse] comes to an end: it returns
    a value or throws.  The loops of [white], [string], [keyname], [tfnns],
    [array] and [object] all move the cursor forward, so the fuel the
    embedding gives them is never used up. *)
Theorem parse_always_answers :
  forall text opt,
    (exists v, Parse.parse text opt = Ok v)
    \/ (exists e, Parse.parse text opt = Throw e).
Proof.
  intros text opt. pose proof (parse_terminates text opt) as H.
  destruct (Parse.parse text opt) as [v|e|]; [left; eauto|right; eauto|congruence].
Qed.

(** ** The module [std.hex] *)

Lemma hex_digits_value_app a : forall b acc,
  hex_digits_value (a ++ b) acc = hex_digits_value b (hex_digits_value a acc).
Proof.
  induction a as [|x a IH]; intros b acc; [reflexivity|].
  cbn [app hex_digits_value]. apply IH.
Qed.

Lemma to_hex_digits_spec : forall fuel n,
  (n < 16 ^ N.of_nat (S fuel))%N ->
  hex_digits_value (to_hex_digits (S fuel) n) 0 = n
  /\ to_hex_digits (S fuel) n <> []
  /\ Forall (fun c => exists k, (k < 16)%N /\ c = hex_digit k)
            (to_hex_digits (S fuel) n).
Proof.
  induction fuel as [|fuel IH]; intros n Hn.
  - change (16 ^ N.of_nat 1)%N with 16%N in Hn.
    cbn [to_hex_digits]. replace (n <? 16)%N with true by (symmetry; now apply N.ltb_lt).
    split; [|split].
    + cbn [hex_digits_value]. rewrite (hex_value_digit n Hn). lia.
    + discriminate.
    + repeat constructor. exists n. auto.
  - remember (S fuel) as f eqn:Ef.
    cbn [to_hex_digits]. destruct (n <? 16)%N eqn:E.
    + apply N.ltb_lt in E. split; [|split].
      * cbn [hex_digits_value]. rewrite (hex_value_digit n E). lia.
      * discriminate.
      * repeat constructor. exists n. auto.
    + apply N.ltb_ge in E.
      assert (Hd : (n / 16 < 16 ^ N.of_nat f)%N).
      { apply N.Div0.div_lt_upper_bound.
        rewrite Nat2N.inj_succ, N.pow_succ_r' in Hn. exact Hn. }
      destruct (IH _ Hd) as (H1 & H2 & H3).
      assert (Hm : (n mod 16 < 16)%N) by (apply N.mod_lt; lia).
      split; [|split].
      * rewrite hex_digits_value_app, H1. cbn [hex_digits_value].
        rewrite (hex_value_digit _ Hm).
        pose proof (N.div_mod n 16 ltac:(lia)). lia.
      * destruct (to_hex_digits f (n / 16)); discriminate.
      * apply Forall_app. split; [exact H3|]. repeat constructor. eauto.
Qed.

Lemma to_hex_spec n :
  hex_digits_value (to_hex n) 0 = n
  /\ to_hex n <> []
  /\ Forall (fun c => exists k, (k < 16)%N /\ c = hex_digit k) (to_hex n).
Proof.
  apply to_hex_digits_spec.
  pose proof (N.size_gt n) as Hs.
  rewrite Nat2N.inj_succ, N2Nat.id, N.pow_succ_r'.
  assert (H : (2 ^ N.size n <= 16 ^ N.size n)%N)
    by (apply N.pow_le_mono_l; lia).
  lia.
Qed.

Lemma hex_digit_char c :
  (exists k, (k < 16)%N /\ c = hex_digit k) ->
  is_hex_digit c = true /\ name_char c && plain_char c = true
  /\ Dsf.isInvalidDsfChar c = false /\ is_ws c = false.
Proof.
  intros (k & Hk & ->).
  assert (H : (k = 0 \/ k = 1 \/ k = 2 \/ k = 3 \/ k = 4 \/ k = 5 \/ k = 6 \/ k = 7
               \/ k = 8 \/ k = 9 \/ k = 10 \/ k = 11 \/ k = 12 \/ k = 13 \/ k = 14
               \/ k = 15)%N) by lia.
  repeat (destruct H as [H|H]; [subst k; repeat split; reflexivity|]).
  subst k; repeat split; reflexivity.
Qed.

Lemma hex_text_not_number hs :
  tryParseNumber (lit "0x" ++ hs) false = None.
Proof.
  unfold tryParseNumber. cbn. reflexivity.
Qed.

Lemma hex_token_chars n :
  forallb (fun c => name_char c && plain_char c) (lit "0x" ++ to_hex n) = true
  /\ existsb Dsf.isInvalidDsfChar (lit "0x" ++ to_hex n) = false
  /\ forallb is_hex_digit (to_hex n) = true
  /\ Forall (fun c => is_ws c = false) (lit "0x" ++ to_hex n).
Proof.
  destruct (to_hex_spec n) as (_ & _ & H).
  change (lit "0x" ++ to_hex n) with (chr "0" :: chr "x" :: to_hex n).
  cbn [forallb existsb].
  change (name_char (chr "0") && plain_char (chr "0")) with true.
  change (name_char (chr "x") && plain_char (chr "x")) with true.
  change (Dsf.isInvalidDsfChar (chr "0")) with false.
  change (Dsf.isInvalidDsfChar (chr "x")) with false.
  cbn [andb orb].
  induction H as [|c l Hc _ IH].
  - repeat split; repeat constructor.
  - destruct (hex_digit_char c Hc) as (H1 & H2 & H3 & H4).
    destruct IH as (I1 & I2 & I3 & I4).
    cbn [forallb existsb]. rewrite H1, H2, H3, I1, I2, I3.
    repeat split; try reflexivity.
    constructor; [reflexivity|]. constructor; [reflexivity|].
    constructor; [exact H4|]. exact (Forall_inv_tail (Forall_inv_tail I4)).
Qed.

Lemma nearest_double_small n : (n < 2 ^ 53)%N -> nearest_double n = n.
Proof.
  intros H. unfold nearest_double.
  assert (Hs : (N.size n <= 53)%N).
  { destruct (N.eq_dec n 0) as [->|Hn]; [cbn; lia|].
    rewrite N.size_log2 by exact Hn.
    assert (N.log2 n < 53)%N by (apply N.log2_lt_pow2; lia). lia. }
  replace (N.size n - 53)%N with 0%N by lia. reflexivity.
Qed.

Lemma stringify_hex m e os_eol :
  (0 <= e)%Z ->
  (m * 10 ^ Z.to_N e < 2 ^ 53)%N ->
  Stringify.stringify os_eol (VNumber (Num false m e)) (stringify_with_hex true)
  = Ok (lit "0x" ++ to_hex (m * 10 ^ Z.to_N e)).
Proof.
  intros He Hb. unfold Stringify.stringify, stringify_with_hex.
  cbn [Stringify.opt_get Stringify.dsf Dsf.loadDsf forallb Dsf.name std_hex].
  change (truthy (lit "hex") && true) with true. cbv iota.
  cbn [rbind].
  cbn [Stringify.visit Dsf.runDsf_stringify].
  unfold Dsf.stringify_hook, std_hex. cbn [Dsf.stringify std_hex_stringify isInteger].
  replace (0 <=? e)%Z with true by (symmetry; now apply Z.leb_le).
  rewrite (nearest_double_small _ Hb).
  cbn [andb orb app].
  destruct (hex_token_chars (m * 10 ^ Z.to_N e)) as (_ & Hv & _).
  change (lit "0x" ++ to_hex (m * 10 ^ Z.to_N e))
    with (chr "0" :: chr "x" :: to_hex (m * 10 ^ Z.to_N e)) in *.
  rewrite Hv. cbv beta iota. change (is_dq (chr "0")) with false. cbn [orb]. cbv iota.
  cbn [rbind Stringify.opt_flag Stringify.opt_get
       Stringify.keepWhitespaceAndComments Stringify.colors getComment].
  cbn [app]. rewrite ?app_nil_r. reflexivity.
Qed.

Lemma parse_hex n :
  (n < 2 ^ 53)%N ->
  Parse.parse (lit "0x" ++ to_hex n) (parse_with_hex true)
  = Ok (VNumber (normalise false n 0)).
Proof.
  intros Hb.
  destruct (to_hex_spec n) as (Hval & Hne & _).
  destruct (hex_token_chars n) as (Hb' & _ & Hh & Hws).
  set (text := lit "0x" ++ to_hex n) in *.
  assert (Hw : bare_word text = true).
  { unfold bare_word, text. change (lit "0x" ++ to_hex n) with (chr "0" :: chr "x" :: to_hex n).
    change (is_dq (chr "0")) with false. change (isc "'" (chr "0")) with false.
    cbn [negb andb]. exact Hb'. }
  rewrite (parse_bare_word text (parse_with_hex true) [std_hex true])
    by (reflexivity || exact Hw).
  unfold resolve_token.
  assert (Hl : Parse.tfnns_literal text = None).
  { unfold Parse.tfnns_literal, text.
    change (lit "0x" ++ to_hex n) with (chr "0" :: chr "x" :: to_hex n).
    change (isc "f" (chr "0")) with false. change (isc "n" (chr "0")) with false.
    change (isc "t" (chr "0")) with false. cbv iota.
    change (isc "-" (chr "0") || is_digit (chr "0")) with true. cbv iota.
    change (chr "0" :: chr "x" :: to_hex n) with (lit "0x" ++ to_hex n).
    now rewrite hex_text_not_number. }
  rewrite Hl.
  assert (Ht : trim text = text).
  { apply trim_fixed.
    - unfold text. reflexivity.
    - apply Forall_rev in Hws. destruct (List.rev text); [exact I|].
      exact (Forall_inv Hws). }
  rewrite Ht. cbn [Dsf.runDsf_parse Dsf.parse std_hex].
  assert (Hp : std_hex_parse text = VNumber (normalise false n 0)).
  { unfold std_hex_parse, text.
    change (lit "0x" ++ to_hex n) with (chr "0" :: chr "x" :: to_hex n).
    destruct (to_hex n) as [|d ds] eqn:E; [congruence|].
    change (isc "0" (chr "0") && isc "x" (chr "x")) with true. cbn [andb].
    rewrite Hh, Hval. cbv zeta.
    assert (Hlt : (n < 2 ^ 1024 - 2 ^ 970)%N).
    { apply N.lt_trans with (1 := Hb). reflexivity. }
    replace (2 ^ 1024 - 2 ^ 970 <=? n)%N with false
      by (symmetry; apply N.leb_gt; exact Hlt).
    now rewrite (nearest_double_small n Hb). }
  rewrite Hp. reflexivity.
Qed.

(** X22. With the module [std.hex] loaded on both sides and its option [out]
    set, a number that is an integer, not negative and below [2^53] (so that
    binary64 holds it exactly) goes through [stringify] and [parse]
    unchanged, by way of the token [0x...]. *)
Theorem hex_roundtrip :
  forall m e os_eol,
    normal (Num false m e) -> (0 <= e)%Z ->
    (m * 10 ^ Z.to_N e < 2 ^ 53)%N ->
    rbind (Stringify.stringify os_eol (VNumber (Num false m e))
             (stringify_with_hex true))
          (fun s => Parse.parse s (parse_with_hex true))
    = Ok (VNumber (Num false m e)).
Proof.
  intros m e os_eol Hn He Hb. rewrite (stringify_hex m e os_eol He Hb). cbn [rbind].
  rewrite (parse_hex _ Hb). do 2 f_equal. unfold normal in Hn.
  destruct (m =? 0)%N eqn:Em.
  - apply N.eqb_eq in Em. destruct Hn as [-> _]. subst m. reflexivity.
  - replace (Z.to_N e) with (N.of_nat (Z.to_nat e)) by lia.
    rewrite (normalise_pow false m (Z.to_nat e) 0 Hn). f_equal. lia.
Qed.

Lemma hex_roundtrip_witness :
  rbind (Stringify.stringify nl (VNumber (Num false 255 0)) (stringify_with_hex true))
        (fun s => Parse.parse s (parse_with_hex true))
  = Ok (VNumber (Num false 255 0))
  /\ rbind (Stringify.stringify nl (VNumber (Num false 12 3))
              (stringify_with_hex true))
           (fun s => Parse.parse s (parse_with_hex true))
     = Ok (VNumber (Num false 12 3)).
Proof.
  split.
  - apply (hex_roundtrip 255 0 nl);
      [vm_compute; discriminate | lia | reflexivity].
  - apply (hex_roundtrip 12 3 nl);
      [vm_compute; discriminate | lia | reflexivity].
Defined.

(** ** C4: the members that have no form of their own *)

Section Nulled.
Variables (token : Stringify.Token) (eol_ indent : jstr)
          (bsl quoteKeys : bool) (condense_ : Z) (sortProps_ : bool)
          (V : value -> jstr -> nat -> bool -> bool -> res jstr)
          (f : value -> value).

Local Abbreviation same_on := (same_on V f).

Lemma condensed_items_map sep l :
  same_on l ->
  forall i res2,
    Stringify.condensed_items token V sep (map f l) i res2
    = Stringify.condensed_items token V sep l i res2.
Proof.
  induction 1 as [|x l Hx _ IH]; intros i res2; cbn [map Stringify.condensed_items];
    [reflexivity|].
  rewrite Hx. destruct (V x sep 0 false false); cbn [rbind]; auto.
Qed.

Lemma array_items_map wsc sep level indent2 l :
  same_on l ->
  forall i result,
    Stringify.array_items token eol_ V wsc sep level indent2 (map f l) i result
    = Stringify.array_items token eol_ V wsc sep level indent2 l i result.
Proof.
  induction 1 as [|x l Hx _ IH]; intros i result;
    cbn [map Stringify.array_items]; [reflexivity|].
  destruct (Stringify.array_comment wsc i) as [c|e|]; cbn [rbind]; try reflexivity.
  rewrite Hx. destruct (V x sep (level + 1) false _); cbn [rbind]; try reflexivity.
  rewrite IH. destruct l; reflexivity.
Qed.

Lemma with_assoc_map (R : Type) key (props : list (jstr * value))
      (found : value -> R) (missing : R) :
  with_assoc key (map (fun kv => (fst kv, f (snd kv))) props) found missing
  = with_assoc key props (fun x => found (f x)) missing.
Proof.
  unfold with_assoc. induction props as [|[k x] l IH]; cbn [map fst snd];
    [reflexivity|]. destruct (jeqb key k); auto.
Qed.

Lemma with_assoc_ext (A R : Type) key (l : list (jstr * A))
      (g h : A -> R) (m m' : R) :
  (forall x, assoc key l = Some x -> g x = h x) -> m = m' ->
  with_assoc key l g m = with_assoc key l h m'.
Proof.
  intros Hg Hm. unfold with_assoc.
  induction l as [|[k x] l IH]; [exact Hm|].
  cbn [assoc] in Hg. destruct (jeqb key k); [apply Hg; reflexivity|].
  apply IH. exact Hg.
Qed.

Lemma object_members_map isComment sep level indent2 props :
  same_on (map snd props) ->
  forall ks result,
    Stringify.object_members token eol_ quoteKeys V isComment sep level indent2
      (map (fun kv => (fst kv, f (snd kv))) props) ks result
    = Stringify.object_members token eol_ quoteKeys V isComment sep level indent2
        props ks result.
Proof.
  intros Hs. induction ks as [|key ks IH]; intros result;
    cbn [Stringify.object_members]; [reflexivity|].
  destruct (jeqb key (lit "__COMMENTS")); [apply IH|].
  rewrite with_assoc_map. apply with_assoc_ext; [|apply IH].
  intros x Hx.
  assert (Hin : In x (map snd props)).
  { destruct (assoc_In _ _ _ _ Hx) as [k Hk]. apply in_map_iff. exists (k, x); auto. }
  unfold same_on in Hs. rewrite Forall_forall in Hs. rewrite (Hs x Hin).
  destruct (V x sep (level + 1) false _); cbn [rbind]; auto.
Qed.

Lemma visit_array_map wsc items sep level hc :
  same_on items ->
  Stringify.visit_array token eol_ indent condense_ V wsc (map f items) sep level hc
  = Stringify.visit_array token eol_ indent condense_ V wsc items sep level hc.
Proof.
  intros Hs. unfold Stringify.visit_array.
  destruct items as [|x l] eqn:E; [reflexivity|].
  rewrite <- E in *. assert (Em : exists y l', map f items = y :: l')
    by (rewrite E; cbn [map]; eauto).
  destruct Em as [y [l' Em]]. rewrite Em, <- Em.
  rewrite (condensed_items_map _ _ Hs).
  destruct (_ && _ && _);
    [destruct (Stringify.condensed_items _ _ _ _ _ _) as [r|e|]; cbn [rbind];
     try reflexivity; destruct (len _ <=? _)%Z; cbn [rbind]; try reflexivity|
     cbn [rbind]];
    now rewrite (array_items_map _ _ _ _ _ Hs).
Qed.

Lemma visit_object_map wsc props sep level root hc :
  same_on (map snd props) ->
  Stringify.visit_object token eol_ indent bsl quoteKeys condense_ sortProps_ V
    wsc (map (fun kv => (fst kv, f (snd kv))) props) sep level root hc
  = Stringify.visit_object token eol_ indent bsl quoteKeys condense_ sortProps_ V
      wsc props sep level root hc.
Proof.
  intros Hs. unfold Stringify.visit_object.
  destruct props as [|[k0 v0] rest]; [reflexivity|].
  pose proof (object_members_map
                match wsc with Some c => c_c c | None => None end
                sep level (repeat_str indent (level + 1)) _ Hs) as Hm.
  cbn [map fst snd] in Hm |- *.
  assert (Ek : map fst (map (fun kv : jstr * value => (fst kv, f (snd kv))) rest)
               = map fst rest).
  { rewrite map_map. apply map_ext. reflexivity. }
  assert (Er : match map (fun kv : jstr * value => (fst kv, f (snd kv))) rest with
               | [] => true | _ => false end
               = match rest with [] => true | _ => false end)
    by (destruct rest; reflexivity).
  rewrite Ek, Er.
  cbn [map snd] in Hs. pose proof (Forall_inv Hs) as H0. cbv beta in H0.
  rewrite H0.
  destruct (_ && _ && _ && _);
    [destruct (V v0 sep 0 false false) as [r|e|]; cbn [rbind];
     try reflexivity; destruct (len _ <=? _)%Z; cbn [rbind]; try reflexivity|
     cbn [rbind]];
    rewrite Hm; reflexivity.
Qed.
End Nulled.

Lemma nulled_leaf v :
  uncoercible v = true -> nulled v = VNull.
Proof. destruct v; cbn [uncoercible]; try discriminate; intros H; cbn [nulled uncoercible]; now rewrite ?H. Qed.

Lemma visit_nulled token eol_ indent keepComments bsl quoteKeys quoteStrings
      condense_ multiline_ sortProps_ :
  forall v sep level root hc,
    Stringify.visit token eol_ indent keepComments bsl quoteKeys quoteStrings
      condense_ multiline_ sortProps_ [] (nulled v) sep level root hc
    = Stringify.visit token eol_ indent keepComments bsl quoteKeys quoteStrings
        condense_ multiline_ sortProps_ [] v sep level root hc.
Proof.
  induction v as [| |b|n|s| |cm items IH|cm props IH] using value_induction;
    intros sep level root hc; try reflexivity.
  - cbn [nulled uncoercible]. destruct n; reflexivity.
  - cbn [nulled]. rewrite !visit_eq. cbn [Dsf.runDsf_stringify rbind getComment].
    apply visit_array_map. exact IH.
  - cbn [nulled]. rewrite !visit_eq. cbn [Dsf.runDsf_stringify rbind getComment].
    apply visit_object_map. unfold same_on. rewrite Forall_map. exact IH.
Qed.

Lemma stringify_nulled os_eol v opt :
  Stringify.opt_get Stringify.dsf opt = None ->
  Stringify.stringify os_eol (nulled v) opt = Stringify.stringify os_eol v opt.
Proof.
  intros Hd. unfold Stringify.stringify. rewrite Hd.
  cbn [Dsf.loadDsf rbind]. rewrite visit_nulled.
  assert (E : getComment (nulled v) = getComment v).
  { destruct v; try reflexivity; cbn [nulled uncoercible].
    destruct (negb _); reflexivity. }
  now rewrite E.
Qed.

Lemma stringify_uncoercible_items items :
  items <> [] -> Forall (fun v => uncoercible v = true) items ->
  Stringify.stringify nl (VArray None items) None
  = Ok (lit "[" ++ nl ++ lit "  "
        ++ array_rest (map (fun _ => lit "null") items)).
Proof.
  intros Hne H.
  rewrite <- (stringify_nulled nl (VArray None items) None eq_refl).
  cbn [nulled].
  assert (E : map nulled items = map (fun _ => VNull) items).
  { apply map_ext_in. intros x Hx. rewrite Forall_forall in H.
    apply nulled_leaf. auto. }
  rewrite E, stringify_atoms.
  - now rewrite map_map.
  - destruct items; [congruence | discriminate].
  - apply Forall_map. apply Forall_forall. intros; exact I.
Qed.

Lemma stringify_uncoercible_members props :
  props <> [] -> NoDup (map fst props) ->
  Forall (fun m => plain_key (fst m) /\ uncoercible (snd m) = true) props ->
  Stringify.stringify nl (VObject None props) None
  = Ok (lit "{" ++ nl ++ lit "  " ++ object_rest (null_members props)).
Proof.
  intros Hne Hnd H.
  rewrite <- (stringify_nulled nl (VObject None props) None eq_refl).
  cbn [nulled].
  assert (E : map (fun kv : jstr * value => (fst kv, nulled (snd kv))) props
              = null_members props).
  { apply map_ext_in. intros x Hx. rewrite Forall_forall in H.
    rewrite nulled_leaf; [reflexivity|]. apply (H x Hx). }
  rewrite E. apply stringify_simple_object.
  - destruct props; [congruence | discriminate].
  - unfold null_members. rewrite map_map. exact Hnd.
  - unfold null_members. apply Forall_map. eapply Forall_impl; [|exact H].
    intros m [Hk _]. split; [exact Hk | exact I].
Qed.



(** ** C7: the position in the message *)

Section PositionOf.
Variable text : jstr.

Lemma charAt_feed j :
  match charAt text (Z.of_nat j) with
  | Some c => is_nl c
  | None => false
  end = feed_at text j.
Proof.
  unfold charAt, feed_at.
  destruct (Z.of_nat j <? 0)%Z eqn:E; [apply Z.ltb_lt in E; lia|].
  now rewrite Nat2Z.id.
Qed.

Lemma col_scan_feed i col :
  Parse.col_scan text (S i) col
  = if feed_at text (S i) then (S i, col) else Parse.col_scan text i (col + 1).
Proof.
  cbn [Parse.col_scan]. rewrite <- charAt_feed.
  destruct (charAt text (Z.of_nat (S i))) as [c|]; [destruct (is_nl c)|]; reflexivity.
Qed.

Lemma line_scan_feed i line :
  Parse.line_scan text (S i) line
  = Parse.line_scan text i (if feed_at text (S i) then line + 1 else line)%Z.
Proof.
  cbn [Parse.line_scan]. rewrite <- charAt_feed.
  destruct (charAt text (Z.of_nat (S i))) as [c|]; [destruct (is_nl c)|]; reflexivity.
Qed.

Lemma seq_last i : seq 1 (S i) = seq 1 i ++ [S i].
Proof. rewrite seq_S. reflexivity. Qed.

(** The leftward loop of [error] counts the offsets after the last line
    feed, and stops on that line feed; the line feeds up to there are all
    the line feeds scanned. *)
Lemma col_scan_scanned : forall i col,
  snd (Parse.col_scan text i col)
  = (col + Z.of_nat (fold_left (fun n j => if feed_at text j then O else S n)
                               (seq 1 i) O))%Z
  /\ filter (feed_at text) (seq 1 (fst (Parse.col_scan text i col)))
     = filter (feed_at text) (seq 1 i).
Proof.
  induction i as [|i IH]; intros col.
  - cbn. split; [lia | reflexivity].
  - rewrite col_scan_feed, seq_last, fold_left_app, filter_app.
    cbn [fold_left filter].
    destruct (feed_at text (S i)) eqn:E.
    + cbn [fst snd]. split; [lia|].
      now rewrite seq_last, filter_app; cbn [filter]; rewrite E.
    + destruct (IH (col + 1)%Z) as [H1 H2]. rewrite H1, H2, app_nil_r.
      split; [lia | reflexivity].
Qed.

Lemma line_scan_scanned : forall i line,
  Parse.line_scan text i line
  = (line + Z.of_nat (List.length (filter (feed_at text) (seq 1 i))))%Z.
Proof.
  induction i as [|i IH]; intros line.
  - cbn. lia.
  - rewrite line_scan_feed, IH, seq_last, filter_app, length_app.
    cbn [filter]. destruct (feed_at text (S i)); cbn [List.length]; lia.
Qed.

Lemma error_col_no at0 : Parse.error_col text at0 = col_no text at0.
Proof.
  unfold Parse.error_col, col_no, scanned.
  destruct (col_scan_scanned (Z.to_nat (at0 - 1)) 0) as [H _]. rewrite H. lia.
Qed.

Lemma error_line_no at0 : Parse.error_line text at0 = line_no text at0.
Proof.
  unfold Parse.error_line, line_no, scanned.
  destruct (col_scan_scanned (Z.to_nat (at0 - 1)) 0) as [_ H].
  now rewrite line_scan_scanned, H.
Qed.

Lemma position_text_of at0 : position_text text at0 = position_of text at0.
Proof.
  unfold position_text, position_of, Parse.error_snippet.
  now rewrite error_col_no, error_line_no.
Qed.

Lemma mk_error_position at0 m :
  Parse.mk_error text at0 m = mkError ErrorC (m ++ position_of text at0) None.
Proof.
  unfold Parse.mk_error. f_equal. f_equal. apply position_text_of.
Qed.
End PositionOf.

(** ** A text whose first significant character is a colon *)

Lemma white_reset_run (text bl rest : jstr) :
  text = bl ++ rest ->
  Forall (fun c => (c <=? 32)%N = true) bl ->
  match rest with
  | c :: _ => (c <=? 32)%N = false /\ isc "#" c = false /\ isc "/" c = false
  | [] => True
  end ->
  Parse.white_st text Parse.resetAt = cur text (List.length bl).
Proof.
  intros Ht Hb Hr.
  assert (Hs : skip_while text (lfuel text) ch_blank Parse.resetAt
               = cur text (List.length bl)).
  { assert (E : skip_while text (lfuel text) ch_blank Parse.resetAt
                = skip_while text (S (List.length text)) ch_blank
                             (cur text (List.length (@nil char))))
      by reflexivity.
    rewrite E.
    rewrite (skip_while_run text ch_blank (fun c => (c <=? 32)%N)
               (fun s => eq_refl) bl [] rest).
    - reflexivity.
    - exact Ht.
    - exact Hb.
    - destruct rest as [|c r]; [exact I|tauto].
    - rewrite Ht, length_app. unfold jstr, char in *. lia. }
  assert (Hh : ch (cur text (List.length bl)) = hd_error rest)
    by (apply ch_cur_head; exact Ht).
  assert (Hc : ch_is "#" (cur text (List.length bl)) = false
               /\ ch_is "/" (cur text (List.length bl)) = false).
  { unfold ch_is. rewrite Hh. destruct rest as [|c r]; cbn [hd_error];
      [split; reflexivity|tauto]. }
  destruct Hc as [Hc1 Hc2].
  unfold Parse.white_st. unfold lfuel at 1. cbn [Parse.white_loop].
  change (ch Parse.resetAt) with (Some (chr " ")). cbv iota.
  rewrite Hs, Hc1, Hc2. reflexivity.
Qed.

Section Colon.
Variables (bl rest : jstr) (keepComments : bool) (runDsf : jstr -> value).
Hypothesis Hbl : Forall (fun c => (c <=? 32)%N = true) bl.

Let text : jstr := bl ++ chr ":" :: rest.
Let at0 : Z := (len bl + 1)%Z.

Lemma colon_start : Parse.white_st text Parse.resetAt = cur text (List.length bl).
Proof.
  apply (white_reset_run text bl (chr ":" :: rest) eq_refl Hbl).
  repeat split; reflexivity.
Qed.

Lemma colon_here : Parse.white_st text (cur text (List.length bl))
                   = cur text (List.length bl).
Proof.
  pose proof (white_run text bl [] (chr ":" :: rest) eq_refl (Forall_nil _)) as H.
  rewrite Nat.add_0_r in H. apply H. repeat split; reflexivity.
Qed.

Lemma colon_ch : ch (cur text (List.length bl)) = Some (chr ":").
Proof. apply (ch_cur_here text bl (chr ":") rest eq_refl). Qed.

Lemma colon_at : at_ (cur text (List.length bl)) = at0.
Proof. unfold at0, len. cbn [at_ cur]. reflexivity. Qed.

Lemma colon_first c0 :
  Parse.object_attempt text keepComments runDsf (Parse.pfuel text) c0
    (cur text (List.length bl))
  = Throw (mkError ErrorC (no_key_name ++ position_of text at0) (Some [])).
Proof.
  destruct (pfuel_two text) as [n ->].
  unfold Parse.object_attempt.
  cbn [Parse.object_ Parse.object_loop].
  unfold Parse.bind, Parse.ret, Parse.get, Parse.white, Parse.step.
  rewrite colon_here. rewrite andb_false_r. cbv beta iota. rewrite colon_ch.
  cbv beta iota.
  unfold Parse.catch_hint, Parse.keyname, Parse.bind, Parse.get.
  unfold ch_dq, ch_is. rewrite colon_ch.
  change (is_dq (chr ":")) with false. change (isc "'" (chr ":")) with false.
  cbn [orb]. cbv iota.
  unfold lfuel. cbn [Parse.keyname_loop]. unfold Parse.bind, Parse.get.
  rewrite colon_ch. change (isc ":" (chr ":")) with true. cbv iota.
  unfold Parse.error. rewrite colon_at, mk_error_position.
  reflexivity.
Qed.

Lemma colon_second c0 :
  Parse.value_attempt text keepComments runDsf (Parse.pfuel text) c0 Parse.resetAt
  = Throw (mkError ErrorC (colon_no_value ++ position_of text at0) None).
Proof.
  destruct (pfuel_two text) as [n ->].
  unfold Parse.value_attempt.
  cbn [Parse.value_].
  unfold Parse.bind, Parse.ret, Parse.get, Parse.white, Parse.step.
  rewrite colon_start. unfold ch_is, ch_dq. rewrite colon_ch.
  change (isc "{" (chr ":")) with false. change (isc "[" (chr ":")) with false.
  change (isc "'" (chr ":")) with false. change (is_dq (chr ":")) with false.
  cbn [orb]. cbv iota.
  unfold Parse.tfnns, Parse.bind, Parse.get. rewrite colon_ch.
  change (Parse.isPunctuatorChar (chr ":")) with true. cbv iota.
  unfold Parse.error, Parse.ch_str. rewrite colon_ch, colon_at, mk_error_position.
  reflexivity.
Qed.
End Colon.

Lemma parse_colon_text (bl rest : jstr) opt hooks :
  Dsf.loadDsf (dsf_option opt) = Ok hooks ->
  legacy_root opt = true ->
  Forall (fun c => (c <=? 32)%N = true) bl ->
  Parse.parse (bl ++ chr ":" :: rest) opt
  = Throw (mkError ErrorC
             (no_key_name ++ position_of (bl ++ chr ":" :: rest) (len bl + 1))
             (Some [])).
Proof.
  intros Hd Hl Hbl. unfold Parse.parse. fold (dsf_option opt). rewrite Hd.
  cbv beta iota delta [rbind].
  fold (legacy_root opt). rewrite Hl. fold (keeps_comments opt).
  unfold Parse.legacyRootValue.
  unfold Parse.bind at 1. unfold Parse.white at 1. unfold Parse.step at 1.
  unfold Parse.bind at 1. unfold Parse.get at 1.
  rewrite (colon_start bl rest Hbl).
  unfold ch_is. rewrite colon_ch.
  change (isc "{" (chr ":")) with false. change (isc "[" (chr ":")) with false.
  cbv beta iota.
  rewrite (colon_first bl rest (keeps_comments opt) (Dsf.runDsf_parse hooks)).
  rewrite (colon_second bl rest (keeps_comments opt) (Dsf.runDsf_parse hooks) Hbl).
  reflexivity.
Qed.

(** The same inside the braces of a root object. *)
Lemma parse_braced_colon_text (bl rest : jstr) opt hooks :
  Dsf.loadDsf (dsf_option opt) = Ok hooks ->
  Forall (fun c => (c <=? 32)%N = true) bl ->
  Parse.parse (lit "{" ++ bl ++ chr ":" :: rest) opt
  = Throw (mkError ErrorC
             (no_key_name
              ++ position_of (lit "{" ++ bl ++ chr ":" :: rest) (len bl + 2))
             (Some [])).
Proof.
  intros Hd Hbl.
  set (text := lit "{" ++ bl ++ chr ":" :: rest).
  assert (Ht : text = lit "{" ++ bl ++ chr ":" :: rest) by reflexivity.
  assert (Hch : ch (cur text (List.length (lit "{") + List.length bl))
                = Some (chr ":")).
  { rewrite <- length_app. apply (ch_cur_here text (lit "{" ++ bl) (chr ":") rest).
    rewrite Ht, <- app_assoc. reflexivity. }
  assert (Hw : Parse.white_st text (cur text (List.length (lit "{")))
               = cur text (List.length (lit "{") + List.length bl)).
  { apply (white_run text (lit "{") bl (chr ":" :: rest) Ht Hbl).
    repeat split; reflexivity. }
  assert (Hroot : forall fuel c0,
             Parse.bind
               (Parse.object_ text (keeps_comments opt) (Dsf.runDsf_parse hooks)
                              (S (S fuel)) false)
               (fun v => Parse.checkTrailing text (keeps_comments opt) v c0)
               (cur text 0)
             = Throw (mkError ErrorC
                        (no_key_name ++ position_of text (len bl + 2)) (Some []))).
  { intros fuel c0. cbn [Parse.object_ Parse.object_loop].
    unfold Parse.bind, Parse.ret, Parse.get, Parse.white, Parse.step.
    rewrite next_cur. change 1%nat with (List.length (lit "{")).
    rewrite Hw. unfold ch_is at 1. rewrite Hch.
    change (isc "}" (chr ":")) with false. cbn [andb]. cbv beta iota.
    rewrite Hch. cbv beta iota.
    unfold Parse.catch_hint, Parse.keyname, Parse.bind, Parse.get.
    unfold ch_dq, ch_is. rewrite Hch.
    change (is_dq (chr ":")) with false. change (isc "'" (chr ":")) with false.
    cbn [orb]. cbv iota.
    unfold lfuel. cbn [Parse.keyname_loop]. unfold Parse.bind, Parse.get.
    rewrite Hch. change (isc ":" (chr ":")) with true. cbv iota.
    unfold Parse.error. rewrite mk_error_position.
    replace (at_ (cur text (List.length (lit "{") + List.length bl)))
      with (len bl + 2)%Z
      by (unfold len; cbn [at_ cur]; change (List.length (lit "{")) with 1%nat; lia).
    reflexivity. }
  unfold Parse.parse. fold (dsf_option opt). rewrite Hd.
  cbv beta iota delta [rbind]. fold (keeps_comments opt). fold text.
  destruct (pfuel_two text) as [n Hn]. rewrite Hn.
  destruct (match opt with
            | Some o => match Parse.legacyRoot o with Some false => false | _ => true end
            | None => true
            end).
  - unfold Parse.legacyRootValue.
    unfold Parse.bind at 1. unfold Parse.white at 1. unfold Parse.step at 1.
    unfold Parse.bind at 1. unfold Parse.get at 1.
    rewrite (white_from_reset text (chr "{") (bl ++ chr ":" :: rest)) by reflexivity.
    change (ch_is "{" (cur text 0)) with true. cbv iota.
    rewrite Hroot. reflexivity.
  - unfold Parse.rootValue.
    unfold Parse.bind at 1. unfold Parse.white at 1. unfold Parse.step at 1.
    unfold Parse.bind at 1. unfold Parse.get at 1.
    rewrite (white_from_reset text (chr "{") (bl ++ chr ":" :: rest)) by reflexivity.
    change (ch_is "{" (cur text 0)) with true. cbv iota.
    rewrite Hroot. reflexivity.
Qed.




(** ** C6: the scan of [tfnns] *)

Lemma trimStart_last l c :
  is_ws c = false -> exists l', trimStart (l ++ [c]) = l' ++ [c].
Proof.
  intros Hc. induction l as [|d l IH]; cbn [app trimStart].
  - rewrite Hc. exists []. reflexivity.
  - destruct (is_ws d); [exact IH|]. exists (d :: l). reflexivity.
Qed.

(** [trim] keeps a first character that is no white space. *)
Lemma trim_head c t :
  is_ws c = false -> exists t', trim (c :: t) = c :: t'.
Proof.
  intros Hc. unfold trim. cbn [trimStart]. rewrite Hc.
  unfold trimEnd. cbn [rev].
  destruct (trimStart_last (rev t) c Hc) as [l' ->].
  rewrite rev_app_distr. cbn [rev app]. eauto.
Qed.

Lemma keyword_match_head c t v :
  is_ws c = false -> keyword_match (c :: t) = Some v ->
  (isc "t" c = true /\ v = VBool true /\ jeqb (trim (c :: t)) (lit "true") = true)
  \/ (isc "f" c = true /\ v = VBool false /\ jeqb (trim (c :: t)) (lit "false") = true)
  \/ (isc "n" c = true /\ v = VNull /\ jeqb (trim (c :: t)) (lit "null") = true).
Proof.
  intros Hc. unfold keyword_match.
  destruct (trim_head c t Hc) as [t' Et].
  assert (Hh : forall a s, jeqb (trim (c :: t)) (lit (String a s)) = true ->
                           isc a c = true).
  { intros a s H. rewrite Et in H. cbn in H.
    apply andb_true_iff in H. exact (proj1 H). }
  destruct (jeqb (trim (c :: t)) (lit "true")) eqn:E1.
  { intros H; injection H as <-. left. split; [exact (Hh _ _ E1)|auto]. }
  destruct (jeqb (trim (c :: t)) (lit "false")) eqn:E2.
  { intros H; injection H as <-. right. left. split; [exact (Hh _ _ E2)|auto]. }
  destruct (jeqb (trim (c :: t)) (lit "null")) eqn:E3.
  { intros H; injection H as <-. right. right. split; [exact (Hh _ _ E3)|auto]. }
  discriminate.
Qed.

(** The Number Lexer accepts no text without a digit after the optional
    sign: a text it accepts starts with a digit or a minus sign. *)
Lemma tryParseNumber_head tok stop :
  match tok with
  | c :: _ => isc "-" c || is_digit c = false
  | [] => True
  end ->
  tryParseNumber tok stop = None.
Proof.
  intros Hh. unfold tryParseNumber. cbv zeta. rewrite next_start.
  assert (Hm : ch_is "-" (cur tok 0) = false).
  { unfold ch_is. cbn [cur ch nth_error]. destruct tok as [|c t]; [reflexivity|].
    apply orb_false_iff in Hh. tauto. }
  rewrite Hm.
  assert (Hs : forall (A : Type) (f : A -> char -> A) (acc : A),
             scan_while tok (lfuel tok) is_digit f acc (cur tok 0) = (acc, cur tok 0)).
  { intros A f acc. unfold lfuel. cbn [scan_while cur ch nth_error].
    destruct tok as [|c t]; [reflexivity|].
    apply orb_false_iff in Hh. destruct Hh as [_ ->]. reflexivity. }
  rewrite Hs. cbv beta iota.
  change (negb (0 - 1 =? 0)%Z) with true. cbn [orb].
  repeat match goal with
         | |- context [let '(_, _) := ?x in _] => destruct x
         | |- context [if ?b then _ else _] => destruct b
         | |- context [match ?x with Some _ => _ | None => _ end] => destruct x
         end; reflexivity.
Qed.

(** The test of [tfnns] at a candidate end, on a token whose first
    character is no white space, is the keyword match followed by the
    numeric match. *)
Lemma tfnns_literal_match c t :
  is_ws c = false -> Parse.tfnns_literal (c :: t) = literal_match (c :: t).
Proof.
  intros Hc. destruct (trim_head c t Hc) as [t' Et].
  assert (Hh : forall a s, jeqb (trim (c :: t)) (lit (String a s)) = true ->
                           isc a c = true).
  { intros a s H. rewrite Et in H. cbn in H.
    apply andb_true_iff in H. exact (proj1 H). }
  unfold Parse.tfnns_literal, literal_match, keyword_match, number_match.
  destruct (jeqb (trim (c :: t)) (lit "true")) eqn:E1.
  { pose proof (Hh _ _ E1) as H. apply N.eqb_eq in H. subst c. reflexivity. }
  destruct (jeqb (trim (c :: t)) (lit "false")) eqn:E2.
  { pose proof (Hh _ _ E2) as H. apply N.eqb_eq in H. subst c. reflexivity. }
  destruct (jeqb (trim (c :: t)) (lit "null")) eqn:E3.
  { pose proof (Hh _ _ E3) as H. apply N.eqb_eq in H. subst c. reflexivity. }
  destruct (isc "f" c) eqn:Ef.
  { apply N.eqb_eq in Ef. subst c. now rewrite tryParseNumber_head. }
  destruct (isc "n" c) eqn:En.
  { apply N.eqb_eq in En. subst c. now rewrite tryParseNumber_head. }
  destruct (isc "t" c) eqn:Etr.
  { apply N.eqb_eq in Etr. subst c. now rewrite tryParseNumber_head. }
  destruct (isc "-" c || is_digit c) eqn:Ed; [reflexivity|].
  now rewrite tryParseNumber_head.
Qed.

Lemma tfnns_literal_nil : Parse.tfnns_literal [] = literal_match [].
Proof. reflexivity. Qed.

(** The loop of [runDsf] answers what the first hook that answers does. *)
Lemma runDsf_first_answer hooks s :
  Dsf.runDsf_parse hooks s
  = match first_answer hooks s with Some v => v | None => VUndefined end.
Proof.
  unfold first_answer. induction hooks as [|x hooks IH]; [reflexivity|].
  cbn [Dsf.runDsf_parse find]. unfold answered at 1.
  destruct (Dsf.parse x s) eqn:E; cbn [option_map]; try (now rewrite E).
  exact IH.
Qed.

Lemma first_answer_defined hooks s :
  first_answer hooks s <> Some VUndefined.
Proof.
  unfold first_answer. destruct (find (answered s) hooks) as [x|] eqn:E;
    [|discriminate].
  apply find_some in E. destruct E as [_ E]. unfold answered in E.
  cbn [option_map]. intros H. injection H as H. rewrite H in E. discriminate.
Qed.

(** The resolution of [tfnns] at the end of a line is [resolved]. *)
Lemma resolve_token_resolved hooks tok :
  match tok with c :: _ => is_ws c = false | [] => True end ->
  resolve_token (Dsf.runDsf_parse hooks) tok = resolved hooks tok.
Proof.
  intros Hh. unfold resolve_token, resolved.
  assert (E : Parse.tfnns_literal tok = literal_match tok).
  { destruct tok as [|c t]; [reflexivity|]. now apply tfnns_literal_match. }
  rewrite E. destruct (literal_match tok); [reflexivity|].
  rewrite runDsf_first_answer.
  pose proof (first_answer_defined hooks (trim tok)) as Hd.
  destruct (first_answer hooks (trim tok)) as [v|]; [|reflexivity].
  destruct v; try reflexivity. congruence.
Qed.

Section Scanned.
Variable text : jstr.
Variable hooks : list Dsf.DSF.

Local Abbreviation R := (Dsf.runDsf_parse hooks).

Lemma skipn_cons_nth (l : jstr) k c r :
  skipn k l = c :: r -> nth_error l k = Some c /\ skipn (S k) l = r.
Proof.
  revert l. induction k as [|k IH]; intros [|x l] H; cbn in *; try discriminate.
  - injection H as <- <-. auto.
  - apply IH. exact H.
Qed.

Lemma skipn_nil_nth (l : jstr) k : skipn k l = [] -> nth_error l k = None.
Proof.
  revert l. induction k as [|k IH]; intros [|x l] H; cbn in *;
    try discriminate; auto.
Qed.

Lemma tfnns_loop_scanned : forall rest k c0 t fuel,
  skipn (S k) text = rest ->
  is_ws c0 = false ->
  (List.length rest < fuel)%nat ->
  Parse.tfnns_loop text R fuel (c0 :: t) (cur text k)
  = Ok (fst (scanned_token hooks (c0 :: t) rest),
        cur text (S k + snd (scanned_token hooks (c0 :: t) rest))).
Proof.
  induction rest as [|c rest IH]; intros k c0 t fuel Hs Hc0 Hf;
    (destruct fuel as [|fuel]; [simpl in Hf; lia|]);
    cbn [Parse.tfnns_loop]; unfold Parse.bind, Parse.step, Parse.get;
    rewrite next_cur.
  - pose proof (skipn_nil_nth text (S k) Hs) as Hn.
    assert (Hch : ch (cur text (S k)) = None) by exact Hn.
    assert (Heol : Parse.is_eol (cur text (S k)) = true)
      by (unfold Parse.is_eol; now rewrite Hch).
    assert (Hstop : Parse.is_tfnns_stop text (cur text (S k)) = true)
      by (unfold Parse.is_tfnns_stop; now rewrite Heol).
    rewrite Hstop, Heol. cbn [scanned_token fst snd]. rewrite Nat.add_0_r.
    rewrite <- (resolve_token_resolved hooks (c0 :: t) Hc0).
    unfold resolve_token. destruct (Parse.tfnns_literal (c0 :: t)); [reflexivity|].
    destruct (R (trim (c0 :: t))); reflexivity.
  - destruct (skipn_cons_nth text (S k) c rest Hs) as [Hn Hs'].
    assert (Hch : ch (cur text (S k)) = Some c) by exact Hn.
    assert (Heol : Parse.is_eol (cur text (S k)) = is_cr c || is_nl c)
      by (unfold Parse.is_eol; now rewrite Hch).
    assert (Hpeek : forall a, Parse.peek_is text a (cur text (S k))
                              = match rest with d :: _ => isc a d | [] => false end).
    { intros a. rewrite peek_cur. rewrite <- Hs'.
      destruct (skipn (S (S k)) text) as [|d r] eqn:E.
      - now rewrite (skipn_nil_nth text (S (S k)) E).
      - destruct (skipn_cons_nth text (S (S k)) d r E) as [-> _]. reflexivity. }
    assert (Hstop : Parse.is_tfnns_stop text (cur text (S k))
                    = (is_cr c || is_nl c) || is_break c rest).
    { unfold Parse.is_tfnns_stop, ch_is, is_break. rewrite Heol, !Hpeek, Hch.
      destruct rest; rewrite <- ?orb_assoc; reflexivity. }
    assert (Hstr : Parse.ch_str (cur text (S k)) = [c])
      by (unfold Parse.ch_str; now rewrite Hch).
    assert (Hrec : Parse.tfnns_loop text R fuel ((c0 :: t) ++ [c]) (cur text (S k))
                   = Ok (fst (scanned_token hooks ((c0 :: t) ++ [c]) rest),
                         cur text (S (S k)
                                   + snd (scanned_token hooks ((c0 :: t) ++ [c]) rest)))).
    { apply (IH (S k) c0 (t ++ [c]) fuel Hs' Hc0). simpl in Hf. lia. }
    rewrite Hstop, Heol, Hstr. cbn [scanned_token].
    rewrite <- (tfnns_literal_match c0 t Hc0).
    destruct (is_cr c || is_nl c) eqn:E1; cbn [orb].
    + cbn [fst snd]. rewrite Nat.add_0_r.
      rewrite <- (resolve_token_resolved hooks (c0 :: t) Hc0).
      unfold resolve_token. destruct (Parse.tfnns_literal (c0 :: t)); [reflexivity|].
      destruct (R (trim (c0 :: t))); reflexivity.
    + destruct (is_break c rest).
      * destruct (Parse.tfnns_literal (c0 :: t)) as [v|].
        -- cbn [fst snd]. rewrite Nat.add_0_r. reflexivity.
        -- rewrite Hrec.
           destruct (scanned_token hooks ((c0 :: t) ++ [c]) rest) as [v n].
           cbn [fst snd]. do 3 f_equal. lia.
      * rewrite Hrec.
        destruct (scanned_token hooks ((c0 :: t) ++ [c]) rest) as [v n].
        cbn [fst snd]. do 3 f_equal. lia.
Qed.
End Scanned.




(** ** C5: what the two attempts read *)

Lemma written_key_open k :
  plain_key k ->
  exists c r, written_key k = c :: r
              /\ (32 <? c)%N = true /\ plain_char c = true
              /\ isc "{" c = false /\ isc "[" c = false.
Proof.
  intros (Hu & Hw & _).
  assert (Hcase : written_key k = k
                  \/ written_key k = dq ++ Stringify.json_quote k ++ dq).
  { unfold written_key, Stringify.quoteKey, Stringify.wrap.
    cbn [Stringify.plainToken Stringify.t_qkey Stringify.t_key fst snd app].
    rewrite app_nil_r.
    destruct (jeqb k (lit "null") && negb false); [now left|].
    destruct (false || negb (Stringify.isSafeString k)); [now right|now left]. }
  destruct Hcase as [-> | ->].
  - destruct (bare_word_inv _ Hw) as (c & r & Hk & Hq1 & Hq2 & Hb & Hp & Hpu & Hn & Hpr).
    exists c, r. split; [exact Hk|].
    unfold Parse.isPunctuatorChar in Hpu.
    repeat (apply orb_false_iff in Hpu; destruct Hpu as [Hpu ?]).
    repeat split; auto.
  - exists DQ, (Stringify.json_quote k ++ dq). repeat split; reflexivity.
Qed.

Lemma body_lines_head l :
  Forall (fun m => plain_key (fst m) /\ simple (snd m)) l ->
  match body_lines l with
  | c :: _ => (c <=? 32)%N = false /\ isc "#" c = false /\ isc "/" c = false
              /\ isc "," c = false /\ isc "}" c = false
  | [] => l = []
  end.
Proof.
  intros H. destruct l as [|[k v] l]; [reflexivity|].
  pose proof (Forall_inv H) as [Hk _]. cbn [fst] in Hk.
  destruct (written_key_head k Hk) as (c & r & Hw & H1 & H2 & H3 & H4 & H5).
  cbn [body_lines]. rewrite Hw. cbn [app]. repeat split; auto.
Qed.

Section Body.
Variable text : jstr.

Local Abbreviation R := (Dsf.runDsf_parse []).

(** [after_member] at the line feed that ends a member of the body. *)
Lemma after_member_feed pre rest :
  text = pre ++ nl ++ rest ->
  match rest with
  | c :: _ => (c <=? 32)%N = false /\ isc "#" c = false /\ isc "/" c = false
              /\ isc "," c = false /\ isc "}" c = false
  | [] => True
  end ->
  exists cAt,
    Parse.after_member text (cur text (List.length pre))
    = Ok (cAt, cur text (List.length (pre ++ nl))).
Proof.
  intros Ht Hr.
  assert (H1 : Parse.white_st text (cur text (List.length pre))
               = cur text (List.length pre + List.length nl)).
  { apply (white_run text pre nl rest Ht).
    - repeat constructor.
    - destruct rest as [|c r]; [exact I|tauto]. }
  assert (Hch : ch (cur text (List.length pre + List.length nl)) = hd_error rest).
  { rewrite <- length_app. apply ch_cur_head. now rewrite <- app_assoc. }
  unfold Parse.after_member.
  unfold Parse.bind at 1. unfold Parse.get at 1.
  unfold Parse.bind at 1. unfold Parse.white at 1. unfold Parse.step at 1.
  rewrite H1.
  unfold Parse.bind at 1. unfold Parse.get at 1.
  assert (Hc : ch_is "," (cur text (List.length pre + List.length nl)) = false).
  { unfold ch_is. rewrite Hch. destruct rest as [|c r]; [reflexivity|].
    cbn [hd_error]. tauto. }
  rewrite Hc. unfold Parse.ret. eexists. f_equal. f_equal. f_equal.
  rewrite !length_app. reflexivity.
Qed.

Lemma body_loop_reads : forall ms props pre fuel,
  Forall (fun m => plain_key (fst m) /\ simple (snd m)) ms ->
  text = pre ++ body_lines ms ->
  (List.length ms < fuel)%nat ->
  Parse.object_loop text false R fuel true props [] [] None
    (cur text (List.length pre))
  = Ok (VObject None (fold_left (fun l m => obj_set (fst m) (snd m) l) ms props),
        cur text (List.length text)).
Proof.
  induction ms as [|[k v] ms IH]; intros props pre fuel Hall Ht Hf.
  - destruct fuel as [|fuel]; [simpl in Hf; lia|].
    cbn [body_lines] in Ht. rewrite app_nil_r in Ht.
    cbn [Parse.object_loop]. unfold Parse.bind, Parse.get.
    rewrite (ch_cur_end text pre) by (now rewrite Ht).
    unfold Parse.ret, Parse.object_value. cbn [fold_left]. now rewrite Ht.
  - pose proof (Forall_inv Hall) as [Hk Hv]. cbn [fst snd] in Hk, Hv.
    pose proof (Forall_inv_tail Hall) as Hall'.
    destruct fuel as [|fuel0]; [simpl in Hf; lia|].
    assert (Hf0 : exists fuel, fuel0 = S fuel)
      by (destruct fuel0; [simpl in Hf; lia|eauto]).
    cbn [body_lines] in Ht.
    destruct (written_key_head k Hk) as (c & r & Hw & _).
    assert (Hch : ch (cur text (List.length pre)) = Some c).
    { apply (ch_cur_here text pre c
               (r ++ lit ":" ++ lit " " ++ simple_token v ++ nl ++ body_lines ms)).
      rewrite Ht, Hw. reflexivity. }
    pose proof (body_lines_head ms Hall') as Hh.
    set (pre1 := pre ++ written_key k ++ lit ":" ++ lit " " ++ simple_token v).
    assert (Ht1 : text = pre1 ++ nl ++ body_lines ms).
    { unfold pre1. rewrite Ht, <- !app_assoc. reflexivity. }
    cbn [Parse.object_loop].
    fold (Parse.value_ text false R).
    fold (Parse.array_ text false R).
    fold (Parse.array_loop text false R).
    fold (Parse.object_ text false R).
    fold (Parse.object_loop text false R).
    unfold Parse.bind at 1. unfold Parse.get at 1. rewrite Hch.
    destruct Hf0 as [fuel ->].
    unfold Parse.bind at 1.
    rewrite (member_reads text k v pre (body_lines ms) fuel props Ht Hk Hv).
    fold pre1. cbn [fst snd].
    destruct (after_member_feed pre1 (body_lines ms) Ht1) as [cAt Ha].
    { destruct (body_lines ms); [exact I|tauto]. }
    unfold Parse.bind at 1. rewrite Ha.
    unfold Parse.bind at 1. unfold Parse.get at 1.
    rewrite andb_false_r. cbv iota.
    unfold Parse.bind at 1. unfold Parse.white at 1. unfold Parse.step at 1.
    set (pre2 := pre1 ++ nl).
    assert (Ht2 : text = pre2 ++ [] ++ body_lines ms).
    { unfold pre2. rewrite Ht1, <- !app_assoc. reflexivity. }
    rewrite (white_run text pre2 [] (body_lines ms) Ht2 (Forall_nil _))
      by (destruct (body_lines ms); [exact I|tauto]).
    rewrite Nat.add_0_r.
    rewrite (IH (obj_set k v props) pre2 (S fuel)).
    + reflexivity.
    + exact Hall'.
    + exact Ht2.
    + simpl in Hf. simpl. lia.
Qed.
End Body.

Lemma body_lines_length ms : (List.length ms <= List.length (body_lines ms))%nat.
Proof.
  induction ms as [|[k v] l IH]; [simpl; lia|].
  cbn [body_lines]. rewrite !length_app. simpl in *. lia.
Qed.

(** The first attempt on an object body without braces. *)
Lemma body_first_attempt ms :
  ms <> [] ->
  Forall (fun m => plain_key (fst m) /\ simple (snd m)) ms ->
  root_start (body_lines ms) = cur (body_lines ms) 0
  /\ ch_is "{" (root_start (body_lines ms)) = false
  /\ ch_is "[" (root_start (body_lines ms)) = false
  /\ first_attempt (body_lines ms) None []
     = Ok (VObject None (fold_left (fun l m => obj_set (fst m) (snd m) l) ms []),
           cur (body_lines ms) (List.length (body_lines ms))).
Proof.
  intros Hne Hall.
  set (text := body_lines ms).
  destruct ms as [|[k v] ms']; [congruence|].
  pose proof (Forall_inv Hall) as [Hk _]. cbn [fst] in Hk.
  destruct (written_key_open k Hk) as (c & r & Hw & Hb & Hp & Hb1 & Hb2).
  assert (Ht : text = c :: (r ++ lit ":" ++ lit " " ++ simple_token v ++ nl
                              ++ body_lines ms')).
  { unfold text. cbn [body_lines]. rewrite Hw. reflexivity. }
  assert (Hch : ch (cur text 0) = Some c) by (rewrite Ht; reflexivity).
  assert (Hs : root_start text = cur text 0)
    by (exact (white_from_reset text c _ Ht Hb Hp)).
  assert (Hhere : Parse.white_st text (cur text 0) = cur text 0).
  { destruct (white_loop_stops text (lfuel text) Parse.resetAt (ok_reset text)
                (lfuel_enough text Parse.resetAt (ok_reset text))) as [H1 H2].
    fold (Parse.white_st text Parse.resetAt) in H1, H2.
    fold (root_start text) in H1, H2. rewrite Hs in H1, H2.
    now apply white_loop_fixed. }
  split; [exact Hs|].
  split; [rewrite Hs; unfold ch_is; now rewrite Hch|].
  split; [rewrite Hs; unfold ch_is; now rewrite Hch|].
  unfold first_attempt. rewrite Hs.
  change (keeps_comments None) with false.
  destruct (pfuel_two text) as [f Hf].
  assert (Hlen : (List.length ((k, v) :: ms') < S f)%nat).
  { pose proof (body_lines_length ((k, v) :: ms')) as Hl. fold text in Hl.
    unfold Parse.pfuel in Hf. unfold jstr, char in *. lia. }
  remember (S f) as g eqn:Eg. rewrite Hf.
  unfold Parse.object_attempt. cbn [Parse.object_].
  fold (Parse.value_ text false (Dsf.runDsf_parse [])).
  fold (Parse.array_ text false (Dsf.runDsf_parse [])).
  fold (Parse.array_loop text false (Dsf.runDsf_parse [])).
  fold (Parse.object_ text false (Dsf.runDsf_parse [])).
  fold (Parse.object_loop text false (Dsf.runDsf_parse [])).
  unfold Parse.bind at 1. unfold Parse.bind at 1. unfold Parse.ret at 1.
  unfold Parse.bind at 1. unfold Parse.get at 1.
  unfold Parse.bind at 1. unfold Parse.white at 1. unfold Parse.step at 1.
  rewrite Hhere.
  unfold Parse.bind at 1. unfold Parse.get at 1.
  rewrite andb_false_r. cbv iota.
  change (cur text 0) with (cur text (List.length (@nil char))).
  rewrite (body_loop_reads text ((k, v) :: ms') [] [] g Hall eq_refl Hlen).
  unfold Parse.checkTrailing.
  unfold Parse.bind, Parse.get, Parse.white, Parse.step, Parse.ret.
  assert (He : ch (cur text (List.length text)) = None) by (apply ch_cur_end; reflexivity).
  rewrite (white_st_eof text _ He), He. reflexivity.
Qed.

Section WordAttempts.
Variable text : jstr.
Variable runDsf : jstr -> value.

Lemma keyname_loop_eof_error : forall rest pre name start space fuel,
  text = pre ++ rest ->
  forallb name_char rest = true ->
  (List.length rest < fuel)%nat ->
  Parse.keyname_loop text fuel name start space (cur text (List.length pre))
  = Throw (Parse.mk_error text (len text + 1) key_name_eof).
Proof.
  induction rest as [|c rest IH]; intros pre name start space fuel Ht Hn Hf.
  - destruct fuel as [|fuel]; [simpl in Hf; lia|].
    cbn [Parse.keyname_loop]. unfold Parse.bind, Parse.get.
    rewrite (ch_cur_end text pre) by (now rewrite Ht, app_nil_r).
    unfold Parse.error. cbn [at_ cur]. rewrite Ht, app_nil_r. reflexivity.
  - destruct fuel as [|fuel]; [simpl in Hf; lia|].
    cbn [Parse.keyname_loop]. unfold Parse.bind at 1. unfold Parse.get at 1.
    rewrite (ch_cur_here text pre c rest Ht).
    cbn [forallb] in Hn. apply andb_true_iff in Hn. destruct Hn as [Hc Hn].
    unfold name_char in Hc.
    apply andb_true_iff in Hc. destruct Hc as [Hc H3].
    apply andb_true_iff in Hc. destruct Hc as [H1 H2].
    apply negb_true_iff in H1, H3. apply N.ltb_lt in H2.
    rewrite H1, H3.
    replace (c <=? 32)%N with false by (symmetry; apply N.leb_gt; exact H2).
    unfold Parse.bind, Parse.step. rewrite next_cur.
    replace (S (List.length pre)) with (List.length (pre ++ [c]))
      by (rewrite length_app; simpl; lia).
    apply IH; [rewrite Ht, <- app_assoc; reflexivity|exact Hn|simpl in Hf; lia].
Qed.

Hypothesis Hword : bare_word text = true.

Lemma word_first_attempt c0 :
  Parse.object_attempt text false runDsf (Parse.pfuel text) c0 (cur text 0)
  = Throw (mkError ErrorC (key_name_eof ++ position_of text (len text + 1))
             (Some [])).
Proof.
  destruct (bare_word_inv text Hword)
    as (c & r & Ht & Hq1 & Hq2 & Hb & Hp & Hpu & Hn & Hpr).
  assert (Hch : ch (cur text 0) = Some c) by (rewrite Ht; reflexivity).
  assert (Hw : Parse.white_st text (cur text 0) = cur text 0).
  { destruct (white_loop_stops text (lfuel text) Parse.resetAt (ok_reset text)
                (lfuel_enough text Parse.resetAt (ok_reset text))) as [H1 H2].
    fold (Parse.white_st text Parse.resetAt) in H1, H2.
    rewrite (white_from_reset text c r Ht Hb Hp) in H1, H2.
    now apply white_loop_fixed. }
  pose proof (keyname_loop_eof_error text [] [] 1 (-1) (lfuel text)
                eq_refl Hn ltac:(unfold lfuel; lia)) as He.
  destruct (pfuel_two text) as [n ->].
  unfold Parse.object_attempt.
  cbn [Parse.object_ Parse.object_loop].
  unfold Parse.bind, Parse.ret, Parse.get, Parse.white, Parse.step.
  rewrite Hw. rewrite andb_false_r. cbv beta iota. rewrite Hch. cbv beta iota.
  unfold Parse.catch_hint, Parse.keyname, Parse.bind, Parse.get.
  unfold ch_dq, ch_is. rewrite Hch, Hq1, Hq2. cbn [orb].
  cbn [at_ cur]. change (Z.of_nat 0 + 1)%Z with 1%Z.
  change (List.length []) with 0%nat in He. rewrite He.
  rewrite mk_error_position. reflexivity.
Qed.
End WordAttempts.

(** C5. With the legacy root enabled, on a text whose first character after
    white space and comments is neither [{] nor [[], [parse] first reads an
    object body without braces; when that throws, it reads one value from
    the cursor reset to the start of the text; when that throws too, the
    error of the first attempt is the one thrown.  Both attempts end: none
    exhausts the fuel.  What the attempts read is stated on three families
    of texts.  On an object body without braces, one plain member per
    line, the first attempt returns the object of these members, with the
    cursor at the end of the text, and [parse] returns it.  On a bare word
    the first attempt throws the error of [keyname] at the end of the
    input, the second attempt reads the whole word from the reset cursor
    (a keyword, a number, what a hook answers, or the string) and [parse]
    returns that value.  On a text whose first significant character is a
    colon, the first attempt throws the error of [keyname], the second one
    the different error of the quoteless scan, and [parse] throws the
    first. *)
Theorem C5_legacy_root_fallback :
  (forall text opt hooks,
      legacy_root opt = true ->
      Dsf.loadDsf (dsf_option opt) = Ok hooks ->
      ch_is "{" (root_start text) = false ->
      ch_is "[" (root_start text) = false ->
      first_attempt text opt hooks <> OutOfFuel
      /\ second_attempt text opt hooks <> OutOfFuel
      /\ at_ Parse.resetAt = 0%Z
      /\ (forall v st, first_attempt text opt hooks = Ok (v, st) ->
                       Parse.parse text opt = Ok v)
      /\ (forall e v st, first_attempt text opt hooks = Throw e ->
                         second_attempt text opt hooks = Ok (v, st) ->
                         Parse.parse text opt = Ok v)
      /\ (forall e e2, first_attempt text opt hooks = Throw e ->
                       second_attempt text opt hooks = Throw e2 ->
                       Parse.parse text opt = Throw e))
  /\ (forall ms,
         ms <> [] ->
         NoDup (map fst ms) ->
         Forall (fun m => plain_key (fst m) /\ simple (snd m)) ms ->
         ch_is "{" (root_start (body_lines ms)) = false
         /\ ch_is "[" (root_start (body_lines ms)) = false
         /\ first_attempt (body_lines ms) None []
            = Ok (VObject None ms,
                  cur (body_lines ms) (List.length (body_lines ms)))
         /\ Parse.parse (body_lines ms) None = Ok (VObject None ms))
  /\ (forall text opt hooks,
         legacy_root opt = true ->
         Dsf.loadDsf (dsf_option opt) = Ok hooks ->
         keeps_comments opt = false ->
         bare_word text = true ->
         match text with c :: _ => is_ws c = false | [] => True end ->
         ch_is "{" (root_start text) = false
         /\ ch_is "[" (root_start text) = false
         /\ first_attempt text opt hooks
            = Throw (mkError ErrorC
                       (key_name_eof ++ position_of text (len text + 1))
                       (Some []))
         /\ second_attempt text opt hooks
            = Ok (resolved hooks text, cur text (List.length text))
         /\ Parse.parse text opt = Ok (resolved hooks text))
  /\ (forall (bl rest : jstr) opt hooks,
         legacy_root opt = true ->
         Dsf.loadDsf (dsf_option opt) = Ok hooks ->
         Forall (fun c => (c <=? 32)%N = true) bl ->
         ch_is "{" (root_start (bl ++ chr ":" :: rest)) = false
         /\ ch_is "[" (root_start (bl ++ chr ":" :: rest)) = false
         /\ first_attempt (bl ++ chr ":" :: rest) opt hooks
            = Throw (mkError ErrorC
                       (no_key_name
                        ++ position_of (bl ++ chr ":" :: rest) (len bl + 1))
                       (Some []))
         /\ second_attempt (bl ++ chr ":" :: rest) opt hooks
            = Throw (mkError ErrorC
                       (colon_no_value
                        ++ position_of (bl ++ chr ":" :: rest) (len bl + 1))
                       None)
         /\ Parse.parse (bl ++ chr ":" :: rest) opt
            = Throw (mkError ErrorC
                       (no_key_name
                        ++ position_of (bl ++ chr ":" :: rest) (len bl + 1))
                       (Some []))).
Proof.
  assert (Hp : forall text opt hooks,
             legacy_root opt = true ->
             Dsf.loadDsf (dsf_option opt) = Ok hooks ->
             ch_is "{" (root_start text) = false ->
             ch_is "[" (root_start text) = false ->
             Parse.parse text opt
             = match first_attempt text opt hooks with
               | Ok (v, _) => Ok v
               | Throw e =>
                   match second_attempt text opt hooks with
                   | Ok (v, _) => Ok v
                   | Throw _ => Throw e
                   | OutOfFuel => OutOfFuel
                   end
               | OutOfFuel => OutOfFuel
               end).
  { intros text opt hooks Hl Hd E1 E2.
    unfold Parse.parse. fold (dsf_option opt). rewrite Hd.
    cbv beta iota delta [rbind].
    fold (legacy_root opt). rewrite Hl. fold (keeps_comments opt).
    unfold Parse.legacyRootValue.
    unfold Parse.bind at 1. unfold Parse.white at 1. unfold Parse.step at 1.
    unfold Parse.bind at 1. unfold Parse.get at 1.
    fold (root_start text). rewrite E1, E2.
    fold (first_attempt text opt hooks). fold (second_attempt text opt hooks).
    destruct (first_attempt text opt hooks) as [[v st]|e|]; [reflexivity| |reflexivity].
    destruct (second_attempt text opt hooks) as [[v st]|e2|]; reflexivity. }
  split; [|split; [|split]].
  - intros text opt hooks Hl Hd E1 E2.
    pose proof (fine_object_attempt text (keeps_comments opt) (Dsf.runDsf_parse hooks)
                  (Parse.root_comment text (keeps_comments opt) (root_start text)))
      as H1.
    pose proof (fine_value_attempt text (keeps_comments opt) (Dsf.runDsf_parse hooks)
                  (Parse.root_comment text (keeps_comments opt) (root_start text)))
      as H2.
    fold (root_start text) in H1.
    fold (first_attempt text opt hooks) in H1.
    fold (second_attempt text opt hooks) in H2.
    specialize (Hp text opt hooks Hl Hd E1 E2).
    split; [intros E; rewrite E in H1; exact H1|].
    split; [intros E; rewrite E in H2; exact H2|].
    split; [reflexivity|].
    split; [intros v st E; rewrite Hp, E; reflexivity|].
    split; [intros e v st Ea Eb; rewrite Hp, Ea, Eb; reflexivity|].
    intros e e2 Ea Eb. rewrite Hp, Ea, Eb. reflexivity.
  - intros ms Hne Hnd Hall.
    destruct (body_first_attempt ms Hne Hall) as (_ & E1 & E2 & Hf).
    assert (Hall' : Forall (fun m : jstr * value => index_of_key (fst m) = None) ms).
    { eapply Forall_impl; [|exact Hall]. intros m [(_ & _ & Hi & _) _]. exact Hi. }
    rewrite (obj_set_all ms [] Hnd Hall') in Hf. cbn [app] in Hf.
    split; [exact E1|]. split; [exact E2|]. split; [exact Hf|].
    rewrite (Hp (body_lines ms) None [] eq_refl eq_refl E1 E2), Hf. reflexivity.
  - intros text opt hooks Hl Hd Hk Hw Hh.
    destruct (bare_word_inv text Hw)
      as (c & r & Ht & Hq1 & Hq2 & Hb & Hpc & Hpu & Hn & Hpr).
    assert (Hs : root_start text = cur text 0)
      by (exact (white_from_reset text c r Ht Hb Hpc)).
    assert (Hch : ch (cur text 0) = Some c) by (rewrite Ht; reflexivity).
    assert (Hbr : isc "{" c = false /\ isc "[" c = false).
    { unfold Parse.isPunctuatorChar in Hpu.
      repeat (apply orb_false_iff in Hpu; destruct Hpu as [Hpu ?]). auto. }
    destruct Hbr as [Hb1 Hb2].
    assert (E1 : ch_is "{" (root_start text) = false)
      by (rewrite Hs; unfold ch_is; now rewrite Hch).
    assert (E2 : ch_is "[" (root_start text) = false)
      by (rewrite Hs; unfold ch_is; now rewrite Hch).
    assert (F1 : first_attempt text opt hooks
                 = Throw (mkError ErrorC
                            (key_name_eof ++ position_of text (len text + 1))
                            (Some []))).
    { unfold first_attempt. rewrite Hs, Hk. apply word_first_attempt. exact Hw. }
    assert (F2 : second_attempt text opt hooks
                 = Ok (resolved hooks text, cur text (List.length text))).
    { unfold second_attempt. rewrite Hk.
      rewrite (second_attempt_reads text (Dsf.runDsf_parse hooks) Hw).
      now rewrite (resolve_token_resolved hooks text Hh). }
    split; [exact E1|]. split; [exact E2|]. split; [exact F1|]. split; [exact F2|].
    rewrite (Hp text opt hooks Hl Hd E1 E2), F1, F2. reflexivity.
  - intros bl rest opt hooks Hl Hd Hbl.
    set (text := bl ++ chr ":" :: rest).
    assert (Hs : root_start text = cur text (List.length bl))
      by (exact (colon_start bl rest Hbl)).
    assert (Hch : ch (cur text (List.length bl)) = Some (chr ":"))
      by (exact (colon_ch bl rest)).
    assert (E1 : ch_is "{" (root_start text) = false)
      by (rewrite Hs; unfold ch_is; now rewrite Hch).
    assert (E2 : ch_is "[" (root_start text) = false)
      by (rewrite Hs; unfold ch_is; now rewrite Hch).
    split; [exact E1|]. split; [exact E2|].
    split; [|split].
    + unfold first_attempt. rewrite Hs. apply colon_first.
    + unfold second_attempt. apply colon_second. exact Hbl.
    + exact (parse_colon_text bl rest opt hooks Hd Hl Hbl).
Qed.

Lemma C5_legacy_root_fallback_witness :
  (first_attempt (lit ": 1") None [] <> OutOfFuel
   /\ second_attempt (lit ": 1") None [] <> OutOfFuel
   /\ at_ Parse.resetAt = 0%Z
   /\ (forall v st, first_attempt (lit ": 1") None [] = Ok (v, st) ->
                    Parse.parse (lit ": 1") None = Ok v)
   /\ (forall e v st, first_attempt (lit ": 1") None [] = Throw e ->
                      second_attempt (lit ": 1") None [] = Ok (v, st) ->
                      Parse.parse (lit ": 1") None = Ok v)
   /\ (forall e e2, first_attempt (lit ": 1") None [] = Throw e ->
                    second_attempt (lit ": 1") None [] = Throw e2 ->
                    Parse.parse (lit ": 1") None = Throw e))
  /\ (body_lines [(lit "a", VNumber (Num false 1 0)); (lit "b", VString (lit "x"))]
      = text_of ["a: 1"; "b: x"; ""]%string
      /\ ch_is "{" (root_start (text_of ["a: 1"; "b: x"; ""]%string)) = false
      /\ ch_is "[" (root_start (text_of ["a: 1"; "b: x"; ""]%string)) = false
      /\ first_attempt (text_of ["a: 1"; "b: x"; ""]%string) None []
         = Ok (VObject None [(lit "a", VNumber (Num false 1 0));
                             (lit "b", VString (lit "x"))],
               cur (text_of ["a: 1"; "b: x"; ""]%string) 10)
      /\ Parse.parse (text_of ["a: 1"; "b: x"; ""]%string) None
         = Ok (VObject None [(lit "a", VNumber (Num false 1 0));
                             (lit "b", VString (lit "x"))]))
  /\ (ch_is "{" (root_start (lit "abc")) = false
      /\ ch_is "[" (root_start (lit "abc")) = false
      /\ first_attempt (lit "abc") None []
         = Throw (mkError ErrorC
                    (lit "Found EOF while looking for a key name (check your syntax) at line 1,3 >>> bc ...")
                    (Some []))
      /\ second_attempt (lit "abc") None []
         = Ok (VString (lit "abc"), cur (lit "abc") 3)
      /\ Parse.parse (lit "abc") None = Ok (VString (lit "abc")))
  /\ (ch_is "{" (root_start (lit "12")) = false
      /\ ch_is "[" (root_start (lit "12")) = false
      /\ first_attempt (lit "12") None []
         = Throw (mkError ErrorC
                    (lit "Found EOF while looking for a key name (check your syntax) at line 1,2 >>> 2 ...")
                    (Some []))
      /\ second_attempt (lit "12") None []
         = Ok (VNumber (Num false 12 0), cur (lit "12") 2)
      /\ Parse.parse (lit "12") None = Ok (VNumber (Num false 12 0)))
  /\ (ch_is "{" (root_start (lit ": 1")) = false
      /\ ch_is "[" (root_start (lit ": 1")) = false
      /\ first_attempt (lit ": 1") None []
         = Throw (mkError ErrorC
                    (lit "Found ':' but no key name (for an empty key name use quotes) at line 1,0 >>>  1 ...")
                    (Some []))
      /\ second_attempt (lit ": 1") None []
         = Throw (mkError ErrorC
                    (lit "Found a punctuator character ':' when expecting a quoteless string (check your syntax) at line 1,0 >>>  1 ...")
                    None)
      /\ Parse.parse (lit ": 1") None
         = Throw (mkError ErrorC
                    (lit "Found ':' but no key name (for an empty key name use quotes) at line 1,0 >>>  1 ...")
                    (Some []))).
Proof.
  split; [|split; [|split; [|split]]].
  - apply (proj1 C5_legacy_root_fallback (lit ": 1") None []); reflexivity.
  - split; [reflexivity|].
    apply (proj1 (proj2 C5_legacy_root_fallback)
             [(lit "a", VNumber (Num false 1 0)); (lit "b", VString (lit "x"))]).
    + discriminate.
    + repeat constructor; cbn; intuition discriminate.
    + repeat constructor; try reflexivity; try discriminate; cbn; lia.
  - apply (proj1 (proj2 (proj2 C5_legacy_root_fallback)) (lit "abc") None []);
      reflexivity.
  - apply (proj1 (proj2 (proj2 C5_legacy_root_fallback)) (lit "12") None []);
      reflexivity.
  - apply (proj2 (proj2 (proj2 C5_legacy_root_fallback)) [] (lit " 1") None []);
      [reflexivity|reflexivity|constructor].
Defined.
